(** * FanBlitz analytics engine: a shallow embedding of fanblitz.h

    The statistical primitives ([StatisticalAnalyzer], [TimeSeriesData]) and
    the analysis engine ([PerformanceAnalyzer]) of src/fanblitz_main.cpp,
    and the reader of its data ([CSVParser]).

    - [double] is IEEE 754 binary64, the kernel's primitive [float]; the
      arithmetic is the processor's, rounding to nearest even (the Makefile
      builds with g++ -std=c++17 -O3, without fast-math or contraction).
    - [int] is [Z] with the 32-bit wrap-around written out; [size_t] is [nat]
      for lengths and indices.
    - [std::vector] is [list]; [operator[]] outside the vector is undefined
      behaviour and is modelled by [None].
    - [std::map] is an association list kept in key order (module [StdMap]).
    - [std::sort] is a parameter of the engine, constrained by the contract
      the C++ standard gives it ([sort_contract]); an implementation that
      meets the contract is given ([insertion_sort]), and the implementation
      of the library the Makefile builds with ([Libstdcxx.sort]).
    - the member functions of [PerformanceAnalyzer] are not [const]: they are
      functions in a state monad over the analyzer.
    - a file is the string of its characters; [std::getline] works on the
      characters not yet read; [std::stoi] is [strtol] in base 10 with the
      range check of [int]; [std::stod] is a parameter of the parser. *)

From Stdlib Require Import ZArith List String Ascii Bool Lia Arith.
From Stdlib Require Import Permutation Floats.
From Stdlib Require Uint63.
Import ListNotations.

Set Warnings "-inexact-float".
Local Open Scope string_scope.
Local Open Scope list_scope.

(** ** Numbers *)

Definition double := float.

(** [static_cast<int>] of a value that may not fit: two's complement. *)
Definition wrap_int (z : Z) : Z :=
  ((z + 2147483648) mod 4294967296 - 2147483648)%Z.

Definition int_of_size (n : nat) : Z := wrap_int (Z.of_nat n).

(** [static_cast<size_t>(int)]: modulo 2^64. *)
Definition size_t_of_int (z : Z) : Z := (z mod 18446744073709551616)%Z.

(** Conversion of a [size_t] to [double] (sizes stay below 2^63). *)
Definition double_of_size (n : nat) : double :=
  of_uint63 (Uint63.of_Z (Z.of_nat n)).

(** Conversion of an integer to [double]. *)
Definition double_of_Z (z : Z) : double :=
  match z with
  | Z0 => 0%float
  | Zpos _ => of_uint63 (Uint63.of_Z z)
  | Zneg p => (- of_uint63 (Uint63.of_Z (Zpos p)))%float
  end.

Definition double_of_int (z : Z) : double := double_of_Z z.

(** The signed mantissa of a finite double. *)
Definition signed_mantissa (s : bool) (m : positive) : Z :=
  if s then Zneg m else Zpos m.

(** [std::floor]. *)
Definition std_floor (x : double) : double :=
  match Prim2SF x with
  | S754_finite s m e =>
      if (e <? 0)%Z
      then double_of_Z (Z.shiftr (signed_mantissa s m) (- e))
      else x
  | _ => x
  end.

(** [std::ceil]. *)
Definition std_ceil (x : double) : double :=
  match Prim2SF x with
  | S754_finite s m e =>
      if (e <? 0)%Z
      then
        let z := (- Z.shiftr (- signed_mantissa s m) (- e))%Z in
        if (z =? 0)%Z && s then neg_zero else double_of_Z z
      else x
  | _ => x
  end.

(** [static_cast<size_t>(double)]: truncation towards zero; undefined when
    the truncated value is not a [size_t]. *)
Definition size_t_of_double (x : double) : option nat :=
  match Prim2SF x with
  | S754_zero _ => Some 0%nat
  | S754_finite s m e =>
      let t :=
        if (e <? 0)%Z
        then Z.quot (signed_mantissa s m) (2 ^ (- e))
        else (signed_mantissa s m * 2 ^ e)%Z in
      if (0 <=? t)%Z && (t <? 18446744073709551616)%Z
      then Some (Z.to_nat t) else None
  | _ => None
  end.

(** [std::min(a, b)] is [(b < a) ? b : a]. *)
Definition std_min (a b : double) : double :=
  if (b <? a)%float then b else a.

(** The doubles that are halved exactly and doubled without overflow: the
    zeros, and those of magnitude 2^-1021 and more, below 2^1022. *)
Definition in_halving_range (x : double) : bool :=
  (x =? 0)%float
  || ((0x1p-1021 <=? abs x)%float && (abs x <? 0x1p1022)%float).

(** Rounding to 53 bits a mantissa that has 53 bits or more: the mantissa
    kept and the number of bits dropped. *)
Definition normal_round (M : positive) (l : location) : positive * Z :=
  let n := (Zpos (digits2_pos M) - 53)%Z in
  let mrs := fst (shr (shr_record_of_loc (Zpos M) l) 0 n) in
  let m := round_nearest_even (shr_m mrs) (loc_of_shr_record mrs) in
  if (m <? 2 ^ 53)%Z then (Z.to_pos m, n)
  else (4503599627370496%positive, (n + 1)%Z).

(** *** Doubles in units of the least double *)

(** The value of a finite double in units of 2^-1074, of which every double
    is a whole number. *)
Definition units (x : spec_float) : Z :=
  match x with
  | S754_finite s m e => cond_Zopp s (Zpos m * 2 ^ (e + 1074))
  | _ => 0%Z
  end.

(** A zero or a finite number whose exponent is the least exponent of a
    double at least. *)
Definition finite_double (x : spec_float) : Prop :=
  match x with
  | S754_zero _ => True
  | S754_finite _ _ e => (-1074 <= e)%Z
  | _ => False
  end.

(** A number with another sign. *)
Definition with_sign (s : bool) (x : spec_float) : spec_float :=
  match x with
  | S754_zero _ => S754_zero s
  | S754_infinity _ => S754_infinity s
  | S754_finite _ m e => S754_finite s m e
  | S754_nan => S754_nan
  end.

(** The doubles on which the correlation of a sequence with itself is
    established: zero, and the magnitudes from 2^-202 to 2^227, whose
    squared deviations neither overflow nor underflow when squared again. *)
Definition in_correlation_range (x : double) : bool :=
  (x =? 0)%float
  || ((0x1p-202 <=? abs x)%float && (abs x <=? 0x1p227)%float).

(** A zero or a positive finite number. *)
Definition nonneg_double (x : spec_float) : Prop :=
  match x with
  | S754_zero _ => True
  | S754_finite false _ e => (-1074 <= e)%Z
  | _ => False
  end.

(** A positive number of 53 bits with an exponent of [E] at least. *)
Definition normal_from (E : Z) (x : spec_float) : Prop :=
  match x with
  | S754_finite false m e => Zpos (digits2_pos m) = 53%Z /\ (E <= e)%Z
  | _ => False
  end.

(** A shifted mantissa with its round and sticky bits stands for the
    quotient [num / den]: the mantissa is the whole part, and the bits say
    where the rest lies with respect to the half. *)
Definition represents (mrs : shr_record) (num den : Z) : Prop :=
  (0 < den)%Z /\ (0 <= num)%Z /\
  shr_m mrs = (num / den)%Z /\
  loc_of_shr_record mrs = new_location_even den (num mod den).

(** What the round and the sticky bit say of the rest [rem] of a division
    by [den]. *)
Definition r_s_class (r s : bool) (rem den : Z) : Prop :=
  match r, s with
  | false, false => rem = 0%Z
  | false, true => (0 < 2 * rem < den)%Z
  | true, false => (2 * rem = den)%Z
  | true, true => (den < 2 * rem)%Z
  end.

(** [std::accumulate(begin, end, 0.0)]. *)
Definition accumulate (values : list double) (init : double) : double :=
  fold_left PrimFloat.add values init.

(** The place of a double that is not NaN in the order of [<]: the sign
    class, then exponent and mantissa (a valid double has one mantissa and
    exponent only). *)
Definition order_key (x : spec_float) : Z * Z * Z :=
  match x with
  | S754_nan => (0, 0, 0)%Z
  | S754_zero _ => (0, 0, 0)%Z
  | S754_infinity false => (2, 0, 0)%Z
  | S754_infinity true => (-2, 0, 0)%Z
  | S754_finite false m e => (1, e, Zpos m)%Z
  | S754_finite true m e => (-1, - e, Zneg m)%Z
  end.

Definition key_lt (a b : Z * Z * Z) : Prop :=
  let '(a1, a2, a3) := a in
  let '(b1, b2, b3) := b in
  (a1 < b1 \/ (a1 = b1 /\ (a2 < b2 \/ (a2 = b2 /\ a3 < b3))))%Z.

(** A double that is not NaN and has the sign [s] (a zero has a sign). *)
Definition has_sign (s : bool) (x : spec_float) : Prop :=
  match x with
  | S754_zero s' | S754_infinity s' | S754_finite s' _ _ => s' = s
  | S754_nan => False
  end.

(** The round and sticky bits of a shifted mantissa say it was not exact. *)
Definition inexact (mrs : shr_record) : bool := shr_r mrs || shr_s mrs.

(** [mrs'] is [mrs] shifted right by [n] bits: the mantissa is divided by
    2^n, and bits are set only if something was lost or was set before. *)
Definition shifted_by (n : Z) (mrs mrs' : shr_record) : Prop :=
  shr_m mrs' = (shr_m mrs / 2 ^ n)%Z /\
  (0 <= shr_m mrs')%Z /\
  (inexact mrs' = true ->
   inexact mrs = true \/ (shr_m mrs mod 2 ^ n <> 0)%Z).

(** ** Vectors *)

(** [v[i]]. *)
Definition vec_at {A : Type} (v : list A) (i : nat) : option A := nth_error v i.

(** A call of a function that takes its vector by value, as
    [calculate_median] and [calculate_percentile] do: the function works on
    a copy, the caller keeps its vector. The pair is the result and the
    caller's vector after the call. *)
Definition call_by_value {A B : Type} (f : list A -> B) (caller : list A)
  : B * list A :=
  let copy := caller in (f copy, caller).

(** ** std::sort *)

(** The requirement [Compare] on the elements sorted: a strict weak order. *)
Definition Compare_on {A : Type} (comp : A -> A -> bool) (l : list A) : Prop :=
  (forall x, In x l -> comp x x = false) /\
  (forall x y z, In x l -> In y l -> In z l ->
     comp x y = true -> comp y z = true -> comp x z = true) /\
  (forall x y z, In x l -> In y l -> In z l ->
     comp x y = false -> comp y x = false ->
     comp y z = false -> comp z y = false ->
     comp x z = false /\ comp z x = false).

(** [std::is_sorted]: no element is less than one before it. *)
Definition is_sorted {A : Type} (comp : A -> A -> bool) (l : list A) : Prop :=
  forall i j a b, (i < j)%nat ->
    nth_error l i = Some a -> nth_error l j = Some b -> comp b a = false.

(** The same, by recursion on the range. *)
Fixpoint sorted_from {A : Type} (comp : A -> A -> bool) (l : list A) : Prop :=
  match l with
  | [] => True
  | x :: l' => Forall (fun y => comp y x = false) l' /\ sorted_from comp l'
  end.

(** What the standard promises of [std::sort]: on a range whose elements the
    comparison orders strictly and weakly, the result is a rearrangement of
    the range that is sorted. The order of equivalent elements is not
    promised. *)
Definition sort_contract
  (sort : forall A : Type, (A -> A -> bool) -> list A -> list A) : Prop :=
  forall (A : Type) (comp : A -> A -> bool) (l : list A),
    Compare_on comp l ->
    Permutation l (sort A comp l) /\ is_sorted comp (sort A comp l).

(** An implementation that keeps equivalent elements in their order. *)
Fixpoint insert_sorted {A : Type} (comp : A -> A -> bool) (x : A) (l : list A)
  : list A :=
  match l with
  | [] => [x]
  | y :: l' => if comp y x then y :: insert_sorted comp x l' else x :: l
  end.

Fixpoint insertion_sort (A : Type) (comp : A -> A -> bool) (l : list A)
  : list A :=
  match l with
  | [] => []
  | x :: l' => insert_sorted comp x (insertion_sort A comp l')
  end.

(** ** std::sort, as the library of the build implements it

    The Makefile builds with g++, whose library (libstdc++, bits/stl_algo.h
    and bits/stl_heap.h) sorts by introsort: quicksort with the median of
    three as pivot down to ranges of 16 elements, heapsort when the recursion
    gets too deep, and one insertion sort at the end. A range is the vector
    and two indices. The loops that the library leaves unguarded run out of
    the vector when the comparison is no strict weak order: that is undefined
    behaviour ([None]). *)
Module Libstdcxx.

Definition if_defined {A B : Type} (m : option A) (k : A -> option B)
  : option B :=
  match m with Some a => k a | None => None end.

Declare Scope defined_scope.
Delimit Scope defined_scope with defined.
Notation "x <~ m ;; k" := (if_defined m (fun x => k))
  (at level 61, m at next level, right associativity) : defined_scope.
Local Open Scope defined_scope.

Section Sort.
Context {A : Type}.
Variable comp : A -> A -> bool.

(** [*(begin + i) = x]. *)
Definition store (i : nat) (x : A) (v : list A) : option (list A) :=
  if (i <? List.length v)%nat
  then Some (firstn i v ++ x :: skipn (S i) v)
  else None.

Definition iter_swap (a b : nat) (v : list A) : option (list A) :=
  xa <~ vec_at v a ;;
  xb <~ vec_at v b ;;
  v <~ store a xb v ;;
  store b xa v.

(** [__move_median_to_first]. *)
Definition move_median_to_first (result a b c : nat) (v : list A)
  : option (list A) :=
  xa <~ vec_at v a ;;
  xb <~ vec_at v b ;;
  xc <~ vec_at v c ;;
  if comp xa xb
  then if comp xb xc then iter_swap result b v
       else if comp xa xc then iter_swap result c v
       else iter_swap result a v
  else if comp xa xc then iter_swap result a v
  else if comp xb xc then iter_swap result c v
  else iter_swap result b v.

(** [while (__comp(__first, __pivot)) ++__first;] The fuel is above the
    number of elements, after which the loop has left the vector. *)
Fixpoint advance (fuel : nat) (v : list A) (first pivot : nat) : option nat :=
  match fuel with
  | O => None
  | S fuel' =>
      x <~ vec_at v first ;;
      p <~ vec_at v pivot ;;
      if comp x p then advance fuel' v (S first) pivot else Some first
  end.

(** [while (__comp(__pivot, __last)) --__last;] *)
Fixpoint retreat (v : list A) (pivot last : nat) {struct last} : option nat :=
  x <~ vec_at v last ;;
  p <~ vec_at v pivot ;;
  if comp p x
  then match last with
       | O => None
       | S last' => retreat v pivot last'
       end
  else Some last.

(** [__unguarded_partition]; every turn of its loop moves [first] up, so a
    fuel above the number of elements is never used up. *)
Fixpoint unguarded_partition (fuel : nat) (first last pivot : nat)
  (v : list A) : option (nat * list A) :=
  match fuel with
  | O => None
  | S fuel' =>
      first <~ advance (S (List.length v)) v first pivot ;;
      match last with
      | O => None
      | S last =>
          last <~ retreat v pivot last ;;
          if (first <? last)%nat
          then v <~ iter_swap first last v ;;
               unguarded_partition fuel' (S first) last pivot v
          else Some (first, v)
      end
  end.

Definition unguarded_partition_pivot (first last : nat) (v : list A)
  : option (nat * list A) :=
  let mid := (first + (last - first) / 2)%nat in
  v <~ move_median_to_first first (first + 1) mid (last - 1) v ;;
  unguarded_partition (S (List.length v)) (first + 1) last first v.

(** [__push_heap]; the hole moves up, so the fuel is the index of the hole
    and one more. *)
Fixpoint push_heap (fuel : nat) (first holeIndex topIndex : nat) (value : A)
  (v : list A) : option (list A) :=
  match fuel with
  | O => None
  | S fuel' =>
      let parent := ((holeIndex - 1) / 2)%nat in
      if (topIndex <? holeIndex)%nat
      then p <~ vec_at v (first + parent) ;;
           if comp p value
           then v <~ store (first + holeIndex) p v ;;
                push_heap fuel' first parent topIndex value v
           else store (first + holeIndex) value v
      else store (first + holeIndex) value v
  end.

(** The first loop of [__adjust_heap]: the hole moves down to a child; the
    result is [__secondChild], which is [__holeIndex] too, and the vector. *)
Fixpoint move_hole_down (fuel : nat) (first holeIndex len : nat) (v : list A)
  : option (nat * list A) :=
  match fuel with
  | O => None
  | S fuel' =>
      if (holeIndex <? (len - 1) / 2)%nat
      then let secondChild := (2 * (holeIndex + 1))%nat in
           x <~ vec_at v (first + secondChild) ;;
           y <~ vec_at v (first + (secondChild - 1)) ;;
           let secondChild :=
             if comp x y then (secondChild - 1)%nat else secondChild in
           child <~ vec_at v (first + secondChild) ;;
           v <~ store (first + holeIndex) child v ;;
           move_hole_down fuel' first secondChild len v
      else Some (holeIndex, v)
  end.

Definition adjust_heap (first holeIndex len : nat) (value : A) (v : list A)
  : option (list A) :=
  let topIndex := holeIndex in
  down <~ move_hole_down (S len) first holeIndex len v ;;
  let (secondChild, v) := down in
  last_child <~
    (if Nat.even len && (secondChild =? (len - 2) / 2)%nat
     then let holeIndex := secondChild in
          let secondChild := (2 * (secondChild + 1))%nat in
          child <~ vec_at v (first + (secondChild - 1)) ;;
          v <~ store (first + holeIndex) child v ;;
          Some ((secondChild - 1)%nat, v)
     else Some (secondChild, v)) ;;
  let (holeIndex, v) := last_child in
  push_heap (S holeIndex) first holeIndex topIndex value v.

Definition pop_heap (first last result : nat) (v : list A)
  : option (list A) :=
  value <~ vec_at v result ;;
  top <~ vec_at v first ;;
  v <~ store result top v ;;
  adjust_heap first 0 (last - first) value v.

(** The loop of [__make_heap], from [__parent] down to 0. *)
Fixpoint make_heap_from (parent : nat) (first len : nat) (v : list A)
  : option (list A) :=
  value <~ vec_at v (first + parent) ;;
  v <~ adjust_heap first parent len value v ;;
  match parent with
  | O => Some v
  | S parent' => make_heap_from parent' first len v
  end.

Definition make_heap (first last : nat) (v : list A) : option (list A) :=
  if (last - first <? 2)%nat then Some v
  else let len := (last - first)%nat in
       make_heap_from ((len - 2) / 2) first len v.

(** [for (__i = __middle; __i < __last; ++__i)] of [__heap_select], with
    [n] elements to go. *)
Fixpoint heap_select_from (n : nat) (first middle i : nat) (v : list A)
  : option (list A) :=
  match n with
  | O => Some v
  | S n' =>
      x <~ vec_at v i ;;
      top <~ vec_at v first ;;
      v <~ (if comp x top then pop_heap first middle i v else Some v) ;;
      heap_select_from n' first middle (S i) v
  end.

Definition heap_select (first middle last : nat) (v : list A)
  : option (list A) :=
  v <~ make_heap first middle v ;;
  heap_select_from (last - middle) first middle middle v.

(** [__sort_heap], with [n] elements above the first. *)
Fixpoint sort_heap_from (n : nat) (first : nat) (v : list A)
  : option (list A) :=
  match n with
  | O => Some v
  | S n' =>
      let last := (first + n)%nat in
      v <~ pop_heap first last last v ;;
      sort_heap_from n' first v
  end.

Definition sort_heap (first last : nat) (v : list A) : option (list A) :=
  sort_heap_from (last - first - 1) first v.

Definition partial_sort (first middle last : nat) (v : list A)
  : option (list A) :=
  v <~ heap_select first middle last v ;;
  sort_heap first middle v.

(** [__introsort_loop]: the loop and the recursion both count
    [__depth_limit] down. *)
Fixpoint introsort_loop (depth_limit : nat) (first last : nat) (v : list A)
  : option (list A) :=
  if (16 <? last - first)%nat
  then match depth_limit with
       | O => partial_sort first last last v
       | S depth_limit =>
           partition <~ unguarded_partition_pivot first last v ;;
           let (cut, v) := partition in
           v <~ introsort_loop depth_limit cut last v ;;
           introsort_loop depth_limit first cut v
       end
  else Some v.

(** The loop of [__unguarded_linear_insert], [__val] taken out of [*__last]:
    it ends at an element that is not after [__val], and nothing else stops
    it. *)
Fixpoint linear_insert (val : A) (last : nat) (v : list A) {struct last}
  : option (list A) :=
  match last with
  | O => None
  | S next =>
      x <~ vec_at v next ;;
      if comp val x
      then v <~ store last x v ;;
           linear_insert val next v
      else store last val v
  end.

Definition unguarded_linear_insert (last : nat) (v : list A)
  : option (list A) :=
  val <~ vec_at v last ;;
  linear_insert val last v.

(** [std::move_backward(first, last, d_last)] for [n] elements. *)
Fixpoint move_backward (n : nat) (last d_last : nat) (v : list A)
  : option (list A) :=
  match n, last, d_last with
  | O, _, _ => Some v
  | S n', S last', S d_last' =>
      x <~ vec_at v last' ;;
      v <~ store d_last' x v ;;
      move_backward n' last' d_last' v
  | _, _, _ => None
  end.

(** The body of the loop of [__insertion_sort]. *)
Definition insert_at (first i : nat) (v : list A) : option (list A) :=
  x <~ vec_at v i ;;
  front <~ vec_at v first ;;
  if comp x front
  then v <~ move_backward (i - first) i (i + 1) v ;;
       store first x v
  else unguarded_linear_insert i v.

(** A loop over the [n] indices from [i] on. *)
Fixpoint for_each_index (n : nat) (i : nat)
  (body : nat -> list A -> option (list A)) (v : list A) : option (list A) :=
  match n with
  | O => Some v
  | S n' => v <~ body i v ;; for_each_index n' (S i) body v
  end.

Definition insertion_sort (first last : nat) (v : list A) : option (list A) :=
  if (first =? last)%nat then Some v
  else for_each_index (last - (first + 1)) (first + 1) (insert_at first) v.

Definition unguarded_insertion_sort (first last : nat) (v : list A)
  : option (list A) :=
  for_each_index (last - first) first unguarded_linear_insert v.

Definition final_insertion_sort (first last : nat) (v : list A)
  : option (list A) :=
  if (16 <? last - first)%nat
  then v <~ insertion_sort first (first + 16) v ;;
       unguarded_insertion_sort (first + 16) last v
  else insertion_sort first last v.

(** [std::__sort] on the whole vector. *)
Definition sort_range (v : list A) : option (list A) :=
  let first := 0%nat in
  let last := List.length v in
  if (first =? last)%nat then Some v
  else v <~ introsort_loop (Nat.log2 (last - first) * 2) first last v ;;
       final_insertion_sort first last v.
End Sort.

(** [std::sort(v.begin(), v.end(), comp)]. Where the behaviour is undefined
    the vector is left as it is, which is one of the things that may
    happen. *)
Definition sort (A : Type) (comp : A -> A -> bool) (v : list A) : list A :=
  match sort_range comp v with
  | Some sorted => sorted
  | None => v
  end.
End Libstdcxx.

(** ** std::map *)

Module StdMap.
Section Map.
Context {K V : Type} (compare : K -> K -> comparison).

Definition t := list (K * V).

(** [m.find(k)] *)
Fixpoint find (k : K) (m : t) : option V :=
  match m with
  | [] => None
  | (k', v) :: m' =>
      match compare k k' with Eq => Some v | _ => find k m' end
  end.

Fixpoint modify (k : K) (f : V -> V) (m : t) : t :=
  match m with
  | [] => []
  | (k', v) :: m' =>
      match compare k k' with
      | Eq => (k', f v) :: m'
      | _ => (k', v) :: modify k f m'
      end
  end.

Fixpoint insert (k : K) (v : V) (m : t) : t :=
  match m with
  | [] => [(k, v)]
  | (k', v') :: m' =>
      match compare k k' with
      | Lt => (k, v) :: m
      | _ => (k', v') :: insert k v m'
      end
  end.

(** [m[k]] as an lvalue that [f] updates: the value is default-constructed
    when the key is new. *)
Definition update (k : K) (dflt : V) (f : V -> V) (m : t) : t :=
  match find k m with
  | Some _ => modify k f m
  | None => insert k (f dflt) m
  end.

(** Equality of keys, as the map sees it. *)
Definition key_eqb (a b : K) : bool :=
match compare a b with Eq => true | _ => false end.

Definition keys (m : t) : list K := map fst m.

(** [m[k]] read: the value, and the map with the key now present. *)
Definition index (k : K) (dflt : V) (m : t) : V * t :=
  match find k m with
  | Some v => (v, m)
  | None => (dflt, insert k dflt m)
  end.
End Map.
End StdMap.

(** [operator<] of [std::pair<std::string, std::string>]. *)
Definition pair_compare (a b : string * string) : comparison :=
  match String.compare (fst a) (fst b) with
  | Eq => String.compare (snd a) (snd b)
  | c => c
  end.

(** ** Data model *)

Definition CONSISTENCY_WEIGHT : double := 0.4%float.
Definition AVERAGE_WEIGHT : double := 0.6%float.
Definition TOP_N_PLAYERS : Z := 10%Z.

Record PlayerStats := {
  player_id : string;
  player_name : string;
  team : string;
  position : string;
  season : string;
  matches_played : Z;
  minutes_played : Z;
  goals : Z;
  assists : Z;
  shots : Z;
  shots_on_target : Z;
  passes : Z;
  pass_accuracy : double;
  tackles : Z;
  interceptions : Z;
  goals_per_match : double;
  assists_per_match : double;
  rating : double
}.

Record TimeSeriesData := {
  seasons : list string;
  values : list double;
  metric_name : string;
  ts_player_name : string
}.

Record ConsistencyMetrics := {
  cm_player_name : string;
  cm_average_rating : double;
  std_deviation : double;
  cm_consistency_score : double;
  cv_percentage : double;
  cm_seasons_played : Z
}.

Record TeamPerformance := {
  team_name : string;
  tp_season : string;
  total_goals : Z;
  total_assists : Z;
  average_rating : double;
  total_matches : Z;
  win_rate : double
}.

(** [PerformanceRanking] has no constructor: [rank] holds no value until the
    ranking loop assigns one. *)
Record PerformanceRanking := {
  rank : option Z;
  pr_player_name : string;
  pr_position : string;
  score : double;
  pr_average_rating : double;
  pr_consistency_score : double;
  pr_seasons_played : Z
}.

Record PerformanceAnalyzer := {
  all_players : list PlayerStats;
  players_by_name : StdMap.t (K := string) (V := list PlayerStats);
  players_by_team : StdMap.t (K := string) (V := list PlayerStats)
}.

(** The loop of the two standard deviations:
    [for (val : values) sq_sum += (val - avg) * (val - avg)]. *)
Definition sum_squared_deviations (data : list double) (avg : double)
  : double :=
  fold_left (fun sq_sum val => (sq_sum + (val - avg) * (val - avg))%float)
            data 0%float.

(** ** TimeSeriesData *)

Module TimeSeries.
Definition mean (ts : TimeSeriesData) : double :=
  match values ts with
  | [] => 0%float
  | _ =>
      (accumulate (values ts) 0
       / double_of_size (List.length (values ts)))%float
  end.

Definition std_dev (ts : TimeSeriesData) : double :=
  if (List.length (values ts) <? 2)%nat then 0%float
  else
    let avg := mean ts in
    let sq_sum := sum_squared_deviations (values ts) avg in
    sqrt (sq_sum / double_of_size (List.length (values ts) - 1)).

Definition coefficient_of_variation (ts : TimeSeriesData) : double :=
  let avg := mean ts in
  if (avg =? 0)%float then 0%float
  else (std_dev ts / avg * 100)%float.
End TimeSeries.

(** The default constructors. *)
Definition ConsistencyMetrics_default : ConsistencyMetrics :=
  {| cm_player_name := ""; cm_average_rating := 0%float;
     std_deviation := 0%float; cm_consistency_score := 0%float;
     cv_percentage := 0%float; cm_seasons_played := 0%Z |}.

Definition TeamPerformance_default : TeamPerformance :=
  {| team_name := ""; tp_season := ""; total_goals := 0%Z;
     total_assists := 0%Z; average_rating := 0%float; total_matches := 0%Z;
     win_rate := 0%float |}.

Definition TimeSeriesData_default : TimeSeriesData :=
  {| seasons := []; values := []; metric_name := ""; ts_player_name := "" |}.

(** ** The state monad of the analyzer's member functions *)

Definition State (A : Type) : Type :=
  PerformanceAnalyzer -> A * PerformanceAnalyzer.

Definition ret {A : Type} (x : A) : State A := fun a => (x, a).

Definition bind {A B : Type} (m : State A) (f : A -> State B) : State B :=
  fun a => let (x, a') := m a in f x a'.

Definition get : State PerformanceAnalyzer := fun a => (a, a).

Definition put (a : PerformanceAnalyzer) : State unit := fun _ => (tt, a).

(** What a member function returns, and the analyzer it leaves. *)
Definition result_of {A : Type} (m : State A) (a : PerformanceAnalyzer) : A :=
  fst (m a).

Definition state_after {A : Type} (m : State A) (a : PerformanceAnalyzer)
  : PerformanceAnalyzer :=
  snd (m a).

Declare Scope state_scope.
Delimit Scope state_scope with state.
Notation "x <- m ;; k" := (bind m (fun x => k))
  (at level 61, m at next level, right associativity) : state_scope.

(** [for (size_t i = 0; i < n; ++i) body]; the body may run into undefined
    behaviour ([None]), which ends the computation. *)
Definition for_loop {S : Type} (n : nat) (body : nat -> S -> option S)
  (init : S) : option S :=
  fold_left
    (fun acc i => match acc with Some s => body i s | None => None end)
    (seq 0 n) (Some init).

Section Engine.
(** [std::sort], whatever the library's implementation is. *)
Variable std_sort : forall A : Type, (A -> A -> bool) -> list A -> list A.

(** *** StatisticalAnalyzer *)

Definition calculate_mean (data : list double) : double :=
  match data with
  | [] => 0%float
  | _ => (accumulate data 0 / double_of_size (List.length data))%float
  end.

Definition calculate_median (data : list double) : option double :=
  match data with
  | [] => Some 0%float
  | _ =>
      let data := std_sort double PrimFloat.ltb data in
      let n := List.length data in
      if (n mod 2 =? 0)%nat then
        match vec_at data (n / 2 - 1), vec_at data (n / 2) with
        | Some a, Some b => Some ((a + b) / 2)%float
        | _, _ => None
        end
      else vec_at data (n / 2)
  end.

Definition calculate_std_dev (data : list double) : double :=
  if (List.length data <? 2)%nat then 0%float
  else
    let mean := calculate_mean data in
    let sq_sum := sum_squared_deviations data mean in
    sqrt (sq_sum / double_of_size (List.length data - 1)).

(** One turn of the loop of [calculate_correlation]. *)
Definition correlation_step (x y : list double) (mean_x mean_y : double)
  (i : nat) (acc : double * double * double)
  : option (double * double * double) :=
  let '(numerator, sum_sq_x, sum_sq_y) := acc in
  match vec_at x i, vec_at y i with
  | Some xi, Some yi =>
      let diff_x := (xi - mean_x)%float in
      let diff_y := (yi - mean_y)%float in
      Some ((numerator + diff_x * diff_y)%float,
            (sum_sq_x + diff_x * diff_x)%float,
            (sum_sq_y + diff_y * diff_y)%float)
  | _, _ => None
  end.

(** The sums of the loop, with the two sequences exchanged. *)
Definition swap_sums (acc : double * double * double)
  : double * double * double :=
let '(numerator, sum_sq_x, sum_sq_y) := acc in
(numerator, sum_sq_y, sum_sq_x).

Definition calculate_correlation (x y : list double) : option double :=
  if negb (List.length x =? List.length y)%nat || (List.length x <? 2)%nat
  then Some 0%float
  else
    let mean_x := calculate_mean x in
    let mean_y := calculate_mean y in
    match for_loop (List.length x) (correlation_step x y mean_x mean_y)
                   (0%float, 0%float, 0%float) with
    | Some (numerator, sum_sq_x, sum_sq_y) =>
        let denominator := sqrt (sum_sq_x * sum_sq_y) in
        if (denominator =? 0)%float then Some 0%float
        else Some (numerator / denominator)%float
    | None => None
    end.

Definition calculate_percentile (data : list double) (percentile : double)
  : option double :=
  match data with
  | [] => Some 0%float
  | _ =>
      let data := std_sort double PrimFloat.ltb data in
      let index :=
        (percentile / 100 * double_of_size (List.length data - 1))%float in
      match size_t_of_double (std_floor index),
            size_t_of_double (std_ceil index) with
      | Some lower, Some upper =>
          if (lower =? upper)%nat then vec_at data lower
          else
            let weight := (index - double_of_size lower)%float in
            match vec_at data lower, vec_at data upper with
            | Some dl, Some du =>
                Some (dl * (1 - weight) + du * weight)%float
            | _, _ => None
            end
      | _, _ => None
      end
  end.

(** *** PerformanceAnalyzer *)

Definition push_back {A : Type} (x : A) (v : list A) : list A := v ++ [x].

Definition index_players (a : PerformanceAnalyzer) : PerformanceAnalyzer :=
  fold_left
    (fun a player =>
       {| all_players := all_players a;
          players_by_name :=
            StdMap.update String.compare (player_name player) []
              (push_back player) (players_by_name a);
          players_by_team :=
            StdMap.update String.compare (team player) []
              (push_back player) (players_by_team a) |})
    (all_players a)
    {| all_players := all_players a;
       players_by_name := []; players_by_team := [] |}.

(** [load_data], from the records the parser returns. *)
Definition load_records (records : list PlayerStats) : State unit :=
  fun a =>
    (tt, index_players {| all_players := records;
                          players_by_name := players_by_name a;
                          players_by_team := players_by_team a |}).

(** An index of [index_players] on its own: the records grouped by a key. *)
Definition index_by (key : PlayerStats -> string) (records : list PlayerStats)
  (m : StdMap.t (K := string) (V := list PlayerStats))
  : StdMap.t (K := string) (V := list PlayerStats) :=
fold_left
  (fun m p => StdMap.update String.compare (key p) [] (push_back p) m)
  records m.

(** The records of a player, and of a team, in the order they were read. *)
Definition records_of (name : string) (records : list PlayerStats)
  : list PlayerStats :=
filter (fun p => (player_name p =? name)%string) records.

Definition records_of_team (name : string) (records : list PlayerStats)
  : list PlayerStats :=
filter (fun p => (team p =? name)%string) records.

(** The records of a team in one season. *)
Definition records_of_group (team_name season_label : string)
  (records : list PlayerStats) : list PlayerStats :=
filter (fun p => (team p =? team_name)%string
                 && (season p =? season_label)%string) records.

(** The analyzer after [PerformanceAnalyzer() = default] and [load_data]. *)
Definition loaded (records : list PlayerStats) : PerformanceAnalyzer :=
  snd (load_records records
         {| all_players := []; players_by_name := [];
            players_by_team := [] |}).

Definition push_value (ts : TimeSeriesData) (v : double) : TimeSeriesData :=
  {| seasons := seasons ts; values := push_back v (values ts);
     metric_name := metric_name ts; ts_player_name := ts_player_name ts |}.

(** The body of the loop of [get_player_time_series]. *)
Definition push_stat (metric : string) (ts : TimeSeriesData)
  (stat : PlayerStats) : TimeSeriesData :=
  let ts :=
    {| seasons := push_back (season stat) (seasons ts); values := values ts;
       metric_name := metric_name ts;
       ts_player_name := ts_player_name ts |} in
  if (metric =? "rating")%string then push_value ts (rating stat)
  else if (metric =? "goals")%string
       then push_value ts (double_of_int (goals stat))
  else if (metric =? "assists")%string
       then push_value ts (double_of_int (assists stat))
  else if (metric =? "goals_per_match")%string
       then push_value ts (goals_per_match stat)
  else ts.

(** The metric a name selects, when [push_stat] knows the name. *)
Definition metric_value (metric : string) : option (PlayerStats -> double) :=
if (metric =? "rating")%string then Some rating
else if (metric =? "goals")%string
     then Some (fun stat => double_of_int (goals stat))
else if (metric =? "assists")%string
     then Some (fun stat => double_of_int (assists stat))
else if (metric =? "goals_per_match")%string then Some goals_per_match
else None.

Definition season_less (a b : PlayerStats) : bool :=
  String.ltb (season a) (season b).

Definition get_player_time_series (player_name metric : string)
  : State TimeSeriesData :=
  (a <- get ;;
   let ts := {| seasons := []; values := [];
                metric_name := metric; ts_player_name := player_name |} in
   match StdMap.find String.compare player_name (players_by_name a) with
   | None => ret ts
   | Some records =>
       let player_seasons := std_sort PlayerStats season_less records in
       ret (fold_left (push_stat metric) player_seasons ts)
   end)%state.

Definition calculate_consistency (player_name : string)
  : State ConsistencyMetrics :=
  (ts <- get_player_time_series player_name "rating" ;;
   match values ts with
   | [] =>
       ret {| cm_player_name := player_name; cm_average_rating := 0%float;
              std_deviation := 0%float; cm_consistency_score := 0%float;
              cv_percentage := 0%float; cm_seasons_played := 0%Z |}
   | _ =>
       let cv := TimeSeries.coefficient_of_variation ts in
       ret {| cm_player_name := player_name;
              cm_average_rating := TimeSeries.mean ts;
              std_deviation := TimeSeries.std_dev ts;
              cm_consistency_score := (100 - std_min 100 cv)%float;
              cv_percentage := cv;
              cm_seasons_played := int_of_size (List.length (values ts)) |}
   end)%state.

Definition get_all_consistency_metrics : State (list ConsistencyMetrics) :=
  (a <- get ;;
   fold_left
     (fun acc pair =>
        all_metrics <- acc ;;
        if (2 <=? List.length (snd pair))%nat
        then metrics <- calculate_consistency (fst pair) ;;
             ret (push_back metrics all_metrics)
        else ret all_metrics)
     (players_by_name a) (ret []))%state.

(** The body of the first loop of [get_top_consistent_players]. *)
Definition make_ranking (a : PerformanceAnalyzer)
  (metrics : ConsistencyMetrics) : PerformanceRanking :=
  {| rank := None;
     pr_player_name := cm_player_name metrics;
     pr_position :=
       match StdMap.find String.compare (cm_player_name metrics)
               (players_by_name a) with
       | Some (first :: _) => position first
       | _ => ""
       end;
     score := (cm_average_rating metrics * AVERAGE_WEIGHT
               + cm_consistency_score metrics * CONSISTENCY_WEIGHT)%float;
     pr_average_rating := cm_average_rating metrics;
     pr_consistency_score := cm_consistency_score metrics;
     pr_seasons_played := cm_seasons_played metrics |}.

(** [operator>] of [PerformanceRanking], through [std::greater]. *)
Definition ranking_greater (r other : PerformanceRanking) : bool :=
  (score other <? score r)%float.

Definition set_rank (z : Z) (r : PerformanceRanking) : PerformanceRanking :=
  {| rank := Some z; pr_player_name := pr_player_name r;
     pr_position := pr_position r; score := score r;
     pr_average_rating := pr_average_rating r;
     pr_consistency_score := pr_consistency_score r;
     pr_seasons_played := pr_seasons_played r |}.

(** A ranking as it was before the ranking loop. *)
Definition clear_rank (r : PerformanceRanking) : PerformanceRanking :=
{| rank := None; pr_player_name := pr_player_name r;
   pr_position := pr_position r; score := score r;
   pr_average_rating := pr_average_rating r;
   pr_consistency_score := pr_consistency_score r;
   pr_seasons_played := pr_seasons_played r |}.

(** The ranking loop, from index [i] on: it stops at [top_n]. *)
Fixpoint assign_ranks (i : nat) (top_n : Z) (rankings : list PerformanceRanking)
  : list PerformanceRanking :=
  match rankings with
  | [] => []
  | r :: rest =>
      if (Z.of_nat i <? top_n)%Z
      then set_rank (int_of_size (i + 1)) r :: assign_ranks (S i) top_n rest
      else rankings
  end.

Definition get_top_consistent_players (top_n : Z)
  : State (list PerformanceRanking) :=
  (all_metrics <- get_all_consistency_metrics ;;
   a <- get ;;
   let rankings := map (make_ranking a) all_metrics in
   let rankings := std_sort PerformanceRanking ranking_greater rankings in
   let rankings := assign_ranks 0 (size_t_of_int top_n) rankings in
   ret (if (size_t_of_int top_n <? Z.of_nat (List.length rankings))%Z
        then firstn (Z.to_nat (size_t_of_int top_n)) rankings
        else rankings))%state.

(** The body of the first loop of [get_team_performance_by_season]. *)
Definition add_player (player : PlayerStats) (perf : TeamPerformance)
  : TeamPerformance :=
  {| team_name := team player;
     tp_season := season player;
     total_goals := wrap_int (total_goals perf + goals player);
     total_assists := wrap_int (total_assists perf + assists player);
     average_rating := (average_rating perf + rating player)%float;
     total_matches := wrap_int (total_matches perf + matches_played player);
     win_rate := win_rate perf |}.

Definition set_average_rating (v : double) (perf : TeamPerformance)
  : TeamPerformance :=
  {| team_name := team_name perf; tp_season := tp_season perf;
     total_goals := total_goals perf; total_assists := total_assists perf;
     average_rating := v; total_matches := total_matches perf;
     win_rate := win_rate perf |}.

Definition team_season_map (players : list PlayerStats)
  : StdMap.t (K := string * string) (V := TeamPerformance) :=
  fold_left
    (fun m player =>
       StdMap.update pair_compare (team player, season player)
         TeamPerformance_default (add_player player) m)
    players [].

(** The body of the second loop of [get_team_performance_by_season];
    [players_by_team[...]] creates the entry of a team it does not find. *)
Definition average_team (result : list TeamPerformance)
  (perf : TeamPerformance) : State (list TeamPerformance) :=
  (a <- get ;;
   let (records, by_team) :=
     StdMap.index String.compare (team_name perf) [] (players_by_team a) in
   _ <- put {| all_players := all_players a;
               players_by_name := players_by_name a;
               players_by_team := by_team |} ;;
   let player_count := List.length records in
   ret (push_back
          (if (0 <? player_count)%nat
           then set_average_rating
                  (average_rating perf / double_of_size player_count)%float
                  perf
           else perf)
          result))%state.

Definition get_team_performance_by_season : State (list TeamPerformance) :=
  (a <- get ;;
   fold_left
     (fun acc pair => result <- acc ;; average_team result (snd pair))
     (team_season_map (all_players a)) (ret []))%state.

(** The inner loop of [calculate_player_correlation] for season [i] of the
    first series; the flag is the [break]. *)
Definition common_step (ts1 ts2 : TimeSeriesData) (i j : nat)
  (acc : list double * list double * bool)
  : option (list double * list double * bool) :=
  let '(common_vals1, common_vals2, broken) := acc in
  if broken then Some acc
  else
    match vec_at (seasons ts1) i, vec_at (seasons ts2) j with
    | Some s1, Some s2 =>
        if (s1 =? s2)%string then
          match vec_at (values ts1) i, vec_at (values ts2) j with
          | Some v1, Some v2 =>
              Some (push_back v1 common_vals1, push_back v2 common_vals2,
                    true)
          | _, _ => None
          end
        else Some acc
    | _, _ => None
    end.

Definition common_seasons (ts1 ts2 : TimeSeriesData)
  : option (list double * list double) :=
  for_loop (List.length (seasons ts1))
    (fun i acc =>
       match for_loop (List.length (seasons ts2)) (common_step ts1 ts2 i)
               (fst acc, snd acc, false) with
       | Some (c1, c2, _) => Some (c1, c2)
       | None => None
       end)
    ([], []).

Definition calculate_player_correlation (player1 player2 metric : string)
  : State (option double) :=
  (ts1 <- get_player_time_series player1 metric ;;
   ts2 <- get_player_time_series player2 metric ;;
   match values ts1, values ts2 with
   | [], _ | _, [] => ret (Some 0%float)
   | _, _ =>
       ret (match common_seasons ts1 ts2 with
            | Some (common_vals1, common_vals2) =>
                calculate_correlation common_vals1 common_vals2
            | None => None
            end)
   end)%state.
End Engine.


(** ** StatisticalAnalyzer: the rolling average *)

(** [size_t] subtraction: modulo 2^64. *)
Definition size_t_sub (a b : Z) : Z := ((a - b) mod 18446744073709551616)%Z.

(** The inner loop of [calculate_rolling_average]: the sum of the window
    that starts at [i]. *)
Definition window_sum (data : list double) (i : nat) (window_size : Z)
  : option double :=
  for_loop (Z.to_nat window_size)
    (fun j sum =>
       match vec_at data (i + j) with
       | Some v => Some (sum + v)%float
       | None => None
       end)
    0%float.

Definition calculate_rolling_average (data : list double) (window_size : Z)
  : option (list double) :=
  if (Z.of_nat (List.length data) <? size_t_of_int window_size)%Z
  then Some []
  else
    let last_start :=
      size_t_sub (Z.of_nat (List.length data)) (size_t_of_int window_size) in
    for_loop (S (Z.to_nat last_start))
      (fun i result =>
         match window_sum data i window_size with
         | Some sum =>
             Some (push_back (sum / double_of_int window_size)%float result)
         | None => None
         end)
      [].

(** ** PerformanceAnalyzer: position averages and player names *)

(** The body of the first loop of [get_position_averages]. *)
Definition push_position (metric : string)
  (position_data : StdMap.t (K := string) (V := list double))
  (player : PlayerStats) : StdMap.t (K := string) (V := list double) :=
  if (metric =? "rating")%string
  then StdMap.update String.compare (position player) []
         (push_back (rating player)) position_data
  else if (metric =? "goals")%string
  then StdMap.update String.compare (position player) []
         (push_back (double_of_int (goals player))) position_data
  else if (metric =? "assists")%string
  then StdMap.update String.compare (position player) []
         (push_back (double_of_int (assists player))) position_data
  else position_data.

(** [averages[pair.first] = calculate_mean(pair.second)]. *)
Definition set_average (averages : StdMap.t (K := string) (V := double))
  (pair : string * list double) : StdMap.t (K := string) (V := double) :=
  StdMap.update String.compare (fst pair) 0%float
    (fun _ => calculate_mean (snd pair)) averages.

Definition get_position_averages (metric : string)
  : State (StdMap.t (K := string) (V := double)) :=
  (a <- get ;;
   let position_data := fold_left (push_position metric) (all_players a) [] in
   ret (fold_left set_average position_data []))%state.

(** The metric a name selects, when [get_position_averages] knows the name. *)
Definition position_metric (metric : string) : option (PlayerStats -> double) :=
  if (metric =? "rating")%string then Some rating
  else if (metric =? "goals")%string
  then Some (fun player => double_of_int (goals player))
  else if (metric =? "assists")%string
  then Some (fun player => double_of_int (assists player))
  else None.

(** The records of a position, in the order they were read. *)
Definition records_at (pos : string) (records : list PlayerStats)
  : list PlayerStats :=
  filter (fun p => (position p =? pos)%string) records.

Definition get_all_player_names (a : PerformanceAnalyzer) : list string :=
  fold_left (fun names pair => push_back (fst pair) names)
    (players_by_name a) [].

(** A list in strictly ascending order: every element is before the ones
    that follow it. *)
Fixpoint ascending_by {A : Type} (lt : A -> A -> Prop) (l : list A) : Prop :=
  match l with
  | [] => True
  | x :: l' => Forall (lt x) l' /\ ascending_by lt l'
  end.

(** Keys in ascending order, each once. *)
Definition ascending {K : Type} (compare : K -> K -> comparison)
  (l : list K) : Prop :=
  ascending_by (fun a b => compare a b = Lt) l.

(** ** What the queries are compared with *)


(** The record of a season among records, the first if there are several. *)
Definition record_of_season (s : string) (l : list PlayerStats)
  : option PlayerStats :=
  find (fun r => (s =? season r)%string) l.

(** The pairs of values [calculate_player_correlation] collects from two
    season-sorted lists of records: for each record of the first list whose
    season the second list has, its value and the value of the first record
    of that season in the second list. *)
Definition common_values (f : PlayerStats -> double)
  (l1 l2 : list PlayerStats) : list (double * double) :=
  flat_map
    (fun r1 =>
       match record_of_season (season r1) l2 with
       | Some r2 => [(f r1, f r2)]
       | None => []
       end)
    l1.

(** The series [get_player_time_series] builds from sorted records. *)
Definition series_of (f : PlayerStats -> double) (l : list PlayerStats)
  (name metric : string) : TimeSeriesData :=
  {| seasons := map season l; values := map f l;
     metric_name := metric; ts_player_name := name |}.

(** Records in ascending order of the season, no season twice. *)
Definition seasons_ascend (l : list PlayerStats) : Prop :=
  ascending_by (fun a b => String.ltb (season a) (season b) = true) l.

(** ** Strings and streams *)

(** Whether a character is one of [chars]. *)
Fixpoint contains (c : ascii) (chars : string) : bool :=
  match chars with
  | EmptyString => false
  | String c' chars' => Ascii.eqb c c' || contains c chars'
  end.

(** [s.find_first_not_of(chars)]; [None] is [npos]. *)
Fixpoint find_first_not_of (chars s : string) : option nat :=
  match s with
  | EmptyString => None
  | String c s' =>
      if contains c chars
      then option_map S (find_first_not_of chars s')
      else Some 0%nat
  end.

(** [s.find_last_not_of(chars)]; [None] is [npos]. *)
Fixpoint find_last_not_of (chars s : string) : option nat :=
  match s with
  | EmptyString => None
  | String c s' =>
      match find_last_not_of chars s' with
      | Some i => Some (S i)
      | None => if contains c chars then None else Some 0%nat
      end
  end.

(** [s.erase(0, n)], where [n] may be [npos]. *)
Definition erase_front (n : option nat) (s : string) : string :=
  match n with
  | Some k => substring k (String.length s - k) s
  | None => EmptyString
  end.

(** [s.erase(pos)]. *)
Definition erase_from (pos : nat) (s : string) : string :=
  substring 0 pos s.

(** [i + 1] for a position [i] that may be [npos]: [npos + 1] is 0. *)
Definition next_position (i : option nat) : nat :=
  match i with Some k => S k | None => 0%nat end.

(** The characters [split_line] trims: blank, tab, carriage return and
    line feed. *)
Definition blanks : string :=
  String " " (String "009" (String "013" (String "010" EmptyString))).

(** The two [erase] calls of [split_line]. *)
Definition trim (token : string) : string :=
  let token := erase_front (find_first_not_of blanks token) token in
  erase_from (next_position (find_last_not_of blanks token)) token.

(** What [std::getline(stream, token, delim)] extracts from the characters
    not yet read: the token, up to the delimiter (which is extracted too)
    or to the end, and the characters left. *)
Fixpoint extract_token (delim : ascii) (unread : string) : string * string :=
  match unread with
  | EmptyString => (EmptyString, EmptyString)
  | String c rest =>
      if Ascii.eqb c delim then (EmptyString, rest)
      else let (token, left) := extract_token delim rest in
           (String c token, left)
  end.

(** [std::getline]: it fails ([None]) when there is no character left. *)
Definition std_getline (delim : ascii) (unread : string)
  : option (string * string) :=
  match unread with
  | EmptyString => None
  | _ => Some (extract_token delim unread)
  end.

(** [while (std::getline(stream, token, delim)) body]; the body may run
    into undefined behaviour ([None]). Every turn extracts a character at
    least, so a fuel above the number of characters is never used up. *)
Fixpoint getline_loop {St : Type} (fuel : nat) (delim : ascii)
  (body : string -> St -> option St) (unread : string) (st : St)
  : option St :=
  match fuel with
  | O => Some st
  | S fuel' =>
      match std_getline delim unread with
      | None => Some st
      | Some (token, rest) =>
          match body token st with
          | Some st' => getline_loop fuel' delim body rest st'
          | None => None
          end
      end
  end.

Definition while_getline {St : Type} (delim : ascii)
  (body : string -> St -> option St) (stream : string) (st : St)
  : option St :=
  getline_loop (S (String.length stream)) delim body stream st.

(** ** CSVParser *)

Definition split_line (line : string) (delimiter : ascii) : list string :=
  match while_getline delimiter
          (fun token tokens => Some (push_back (trim token) tokens))
          line [] with
  | Some tokens => tokens
  | None => []
  end.

(** [isspace] in the "C" locale. *)
Definition isspace (c : ascii) : bool :=
  let n := nat_of_ascii c in
  (n =? 32)%nat || ((9 <=? n)%nat && (n <=? 13)%nat).

Definition isdigit (c : ascii) : bool :=
  let n := nat_of_ascii c in (48 <=? n)%nat && (n <=? 57)%nat.

Definition digit_value (c : ascii) : Z := Z.of_nat (nat_of_ascii c - 48).

Fixpoint skip_spaces (s : string) : string :=
  match s with
  | String c s' => if isspace c then skip_spaces s' else s
  | EmptyString => EmptyString
  end.

(** The number the leading decimal digits of [s] denote after the digits
    read so far, which denote [value]; [None] without any digit. *)
Fixpoint read_digits (s : string) (value : Z) (any : bool) : option Z :=
  match s with
  | String c s' =>
      if isdigit c then read_digits s' (10 * value + digit_value c) true
      else if any then Some value else None
  | EmptyString => if any then Some value else None
  end.

(** [std::stoi(str)]: [strtol] in base 10 (blanks, a sign, digits; what
    follows the digits is ignored); [None] when it throws
    ([std::invalid_argument] without a digit, [std::out_of_range] outside
    [int]). *)
Definition std_stoi (str : string) : option Z :=
  let s := skip_spaces str in
  let '(negative, s) :=
    match s with
    | String "-" s' => (true, s')
    | String "+" s' => (false, s')
    | _ => (false, s)
    end in
  match read_digits s 0 false with
  | Some value =>
      let value := if negative then (- value)%Z else value in
      if (-2147483648 <=? value)%Z && (value <? 2147483648)%Z
      then Some value else None
  | None => None
  end.

(** The end of a statement of the [try] block of [parse]: a value, an
    exception that the [catch] takes, or undefined behaviour. *)
Inductive outcome (A : Type) : Type :=
| Value (a : A)
| Thrown
| Undefined.
Arguments Value {A} a.
Arguments Thrown {A}.
Arguments Undefined {A}.

Definition and_then {A B : Type} (m : outcome A) (k : A -> outcome B)
  : outcome B :=
  match m with
  | Value a => k a
  | Thrown => Thrown
  | Undefined => Undefined
  end.

Declare Scope outcome_scope.
Delimit Scope outcome_scope with outcome.
Notation "x <-- m ;; k" := (and_then m (fun x => k))
  (at level 61, m at next level, right associativity) : outcome_scope.

(** [tokens[i]]. *)
Definition token_at (tokens : list string) (i : nat) : outcome string :=
  match vec_at tokens i with
  | Some token => Value token
  | None => Undefined
  end.

Definition or_throw {A : Type} (x : option A) : outcome A :=
  match x with Some a => Value a | None => Thrown end.

(** The state of the loop of [parse]: the member [headers] of the parser
    and the locals [first_line] and [players]. *)
Record parse_state := {
  headers : list string;
  first_line : bool;
  players : list PlayerStats
}.

Section Parser.
(** [std::stod], whatever the library's conversion is; [None] when it
    throws. *)
Variable std_stod : string -> option double.

(** The [try] block of [parse]. *)
Definition parse_fields (tokens : list string) : outcome PlayerStats :=
  (player_id <-- token_at tokens 0 ;;
   player_name <-- token_at tokens 1 ;;
   team <-- token_at tokens 2 ;;
   position <-- token_at tokens 3 ;;
   season <-- token_at tokens 4 ;;
   t5 <-- token_at tokens 5 ;;
   matches_played <-- or_throw (std_stoi t5) ;;
   t6 <-- token_at tokens 6 ;;
   minutes_played <-- or_throw (std_stoi t6) ;;
   t7 <-- token_at tokens 7 ;;
   goals <-- or_throw (std_stoi t7) ;;
   t8 <-- token_at tokens 8 ;;
   assists <-- or_throw (std_stoi t8) ;;
   t9 <-- token_at tokens 9 ;;
   shots <-- or_throw (std_stoi t9) ;;
   t10 <-- token_at tokens 10 ;;
   shots_on_target <-- or_throw (std_stoi t10) ;;
   t11 <-- token_at tokens 11 ;;
   passes <-- or_throw (std_stoi t11) ;;
   t12 <-- token_at tokens 12 ;;
   pass_accuracy <-- or_throw (std_stod t12) ;;
   t13 <-- token_at tokens 13 ;;
   tackles <-- or_throw (std_stoi t13) ;;
   t14 <-- token_at tokens 14 ;;
   interceptions <-- or_throw (std_stoi t14) ;;
   let goals_per_match :=
     if (0 <? matches_played)%Z
     then (double_of_int goals / double_of_int matches_played)%float
     else 0%float in
   let assists_per_match :=
     if (0 <? matches_played)%Z
     then (double_of_int assists / double_of_int matches_played)%float
     else 0%float in
   t15 <-- token_at tokens 15 ;;
   rating <-- or_throw (std_stod t15) ;;
   Value {| player_id := player_id; player_name := player_name;
            team := team; position := position; season := season;
            matches_played := matches_played;
            minutes_played := minutes_played; goals := goals;
            assists := assists; shots := shots;
            shots_on_target := shots_on_target; passes := passes;
            pass_accuracy := pass_accuracy; tackles := tackles;
            interceptions := interceptions;
            goals_per_match := goals_per_match;
            assists_per_match := assists_per_match;
            rating := rating |})%outcome.

(** The body of the loop of [parse], for one line of the file. *)
Definition parse_line (line : string) (parser : parse_state)
  : option parse_state :=
  if (line =? "")%string then Some parser
  else if first_line parser
  then Some {| headers := split_line line ","; first_line := false;
               players := players parser |}
  else
    let tokens := split_line line "," in
    if (List.length tokens <? List.length (headers parser))%nat
    then Some parser
    else
      match parse_fields tokens with
      | Value player =>
          Some {| headers := headers parser;
                  first_line := first_line parser;
                  players := push_back player (players parser) |}
      | Thrown => Some parser
      | Undefined => None
      end.

(** [CSVParser::parse]. The file is its characters, or [None] when it
    cannot be opened; the parser throws then. *)
Definition parse (file : option string) : outcome (list PlayerStats) :=
  match file with
  | None => Thrown
  | Some stream =>
      match while_getline "010" parse_line stream
              {| headers := []; first_line := true; players := [] |} with
      | Some parser => Value (players parser)
      | None => Undefined
      end
  end.

(** [PerformanceAnalyzer::load_data]: parse, keep the records, index
    them. *)
Definition load_data (file : option string)
  : State (outcome unit) :=
  match parse file with
  | Value records => fun a => (Value tt, snd (load_records records a))
  | Thrown => fun a => (Thrown, a)
  | Undefined => fun a => (Undefined, a)
  end.
End Parser.

(** The tokens successive calls of [std::getline] deliver. *)
Definition tokens_of (delim : ascii) (stream : string) : list string :=
  match while_getline delim
          (fun token tokens => Some (push_back token tokens)) stream [] with
  | Some tokens => tokens
  | None => []
  end.

(** The first line of a file that is not empty. *)
Definition header_line (stream : string) : option string :=
  find (fun line => negb (line =? "")%string) (tokens_of "010" stream).

Definition starts_with_blank (s : string) : bool :=
  match s with
  | String c _ => contains c blanks
  | EmptyString => false
  end.

Fixpoint ends_with_blank (s : string) : bool :=
  match s with
  | EmptyString => false
  | String c EmptyString => contains c blanks
  | String _ s' => ends_with_blank s'
  end.

(** The tokens written one after the other, the delimiter between them. *)
Definition join (delim : ascii) (tokens : list string) : string :=
  String.concat (String delim EmptyString) tokens.

(** [trim], by recursion: without the blanks in front... *)
Fixpoint drop_blanks (s : string) : string :=
  match s with
  | String c s' => if contains c blanks then drop_blanks s' else s
  | EmptyString => EmptyString
  end.

(** ... and without the blanks at the end. *)
Fixpoint drop_trailing (s : string) : string :=
  match s with
  | EmptyString => EmptyString
  | String c s' =>
      match find_last_not_of blanks s' with
      | Some _ => String c (drop_trailing s')
      | None => if contains c blanks then EmptyString
                else String c EmptyString
      end
  end.

Fixpoint count_char (c : ascii) (s : string) : nat :=
  match s with
  | EmptyString => 0%nat
  | String c' s' => ((if Ascii.eqb c' c then 1 else 0) + count_char c s')%nat
  end.

Fixpoint ends_with (c : ascii) (s : string) : bool :=
  match s with
  | EmptyString => false
  | String c' EmptyString => Ascii.eqb c' c
  | String _ s' => ends_with c s'
  end.

(** A field of a line: trimmed, and without a comma. *)
Definition is_field (s : string) : Prop :=
  starts_with_blank s = false /\ ends_with_blank s = false /\
  contains "," s = false.

Definition is_int (z : Z) : Prop := (-2147483648 <= z < 2147483648)%Z.

(** What [parse] grants of a record it returns. *)
Definition well_parsed (p : PlayerStats) : Prop :=
  is_field (player_id p) /\ is_field (player_name p) /\
  is_field (team p) /\ is_field (position p) /\ is_field (season p) /\
  is_int (matches_played p) /\ is_int (minutes_played p) /\
  is_int (goals p) /\ is_int (assists p) /\ is_int (shots p) /\
  is_int (shots_on_target p) /\ is_int (passes p) /\
  is_int (tackles p) /\ is_int (interceptions p) /\
  goals_per_match p
  = (if (0 <? matches_played p)%Z
     then (double_of_int (goals p) / double_of_int (matches_played p))%float
     else 0%float) /\
  assists_per_match p
  = (if (0 <? matches_played p)%Z
     then (double_of_int (assists p)
           / double_of_int (matches_played p))%float
     else 0%float).

(** ** A small data set, for the examples *)

Definition sample_record (name tm pos ssn : string) (matches g a : Z)
  (r : double) : PlayerStats :=
  {| player_id := name; player_name := name; team := tm; position := pos;
     season := ssn; matches_played := matches; minutes_played := 900%Z;
     goals := g; assists := a; shots := 0%Z; shots_on_target := 0%Z;
     passes := 0%Z; pass_accuracy := 0%float; tackles := 0%Z;
     interceptions := 0%Z;
     goals_per_match :=
       (if (0 <? matches)%Z
        then (double_of_int g / double_of_int matches)%float else 0%float);
     assists_per_match :=
       (if (0 <? matches)%Z
        then (double_of_int a / double_of_int matches)%float else 0%float);
     rating := r |}.

(** Four players: Ada with three seasons, Ben and Dan with two, Cy with
    one. *)
Definition sample_records : list PlayerStats :=
  [ sample_record "Ben" "Lions" "FW" "2021-22" 30 3 1 70%float;
    sample_record "Ada" "Lions" "MF" "2020-21" 30 1 4 80%float;
    sample_record "Ben" "Tigers" "FW" "2020-21" 28 2 0 95%float;
    sample_record "Ada" "Lions" "MF" "2021-22" 31 5 2 82%float;
    sample_record "Cy" "Tigers" "GK" "2020-21" 12 0 0 60%float;
    sample_record "Ada" "Tigers" "MF" "2022-23" 29 5 3 84%float;
    sample_record "Dan" "Lions" "DF" "2020-21" 25 0 1 65%float;
    sample_record "Dan" "Lions" "DF" "2021-22" 27 1 1 66%float ].

(** One player with two records of the same season (a mid-season transfer). *)
Definition tied_records : list PlayerStats :=
  [ sample_record "Eve" "Lions" "FW" "2020-21" 15 1 0 71%float;
    sample_record "Eve" "Tigers" "FW" "2020-21" 14 2 0 75%float ].

(** One player with seventeen records of the same season, with 1 to 17
    goals in the order of the file. *)
Definition seventeen_tied_records : list PlayerStats :=
  map (fun g => sample_record "Eve" "Lions" "FW" "2020-21" 2 g 0 70%float)
    [1; 2; 3; 4; 5; 6; 7; 8; 9; 10; 11; 12; 13; 14; 15; 16; 17]%Z.

(** Two players who never played in the same season. *)
Definition disjoint_records : list PlayerStats :=
  [ sample_record "Fay" "Lions" "DF" "2018-19" 30 0 1 66%float;
    sample_record "Gus" "Lions" "DF" "2020-21" 30 1 1 77%float;
    sample_record "Fay" "Lions" "DF" "2019-20" 30 2 1 68%float;
    sample_record "Gus" "Lions" "DF" "2021-22" 30 0 1 73%float ].

(** One team, two seasons, three players in each. *)
Definition two_season_team : list PlayerStats :=
  [ sample_record "Hal" "Lions" "FW" "2020-21" 30 9 2 60%float;
    sample_record "Ian" "Lions" "MF" "2020-21" 30 4 7 70%float;
    sample_record "Jo" "Lions" "DF" "2020-21" 30 1 1 80%float;
    sample_record "Hal" "Lions" "FW" "2021-22" 30 8 3 90%float;
    sample_record "Ian" "Lions" "MF" "2021-22" 30 5 6 75%float;
    sample_record "Jo" "Lions" "DF" "2021-22" 30 0 2 75%float ].

(** The metric names [get_player_time_series] knows. *)
Definition supported_metrics : list string :=
  ["rating"; "goals"; "assists"; "goals_per_match"].

(** A conversion for the examples: it reads whole numbers. *)
Definition stod_of_integers (s : string) : option double :=
  option_map double_of_int (std_stoi s).

Definition sample_header : string :=
  "player_id,player_name,team,position,season,matches_played,"
  ++ "minutes_played,goals,assists,shots,shots_on_target,passes,"
  ++ "pass_accuracy,tackles,interceptions,rating".

(** A header, a record, a line with a field too few, and a line whose
    number of goals is no number. *)
Definition sample_file : string :=
  sample_header ++ String "010"
    ("P0001, Ada Costa ,Lions,MF,2020-21,30,2700,1,4,20,8,900,88,40,30,80"
     ++ String "010"
    ("P0002,Ben Weber,Lions,FW,2020-21,28,2000,2,0,40,16,500,80,10,5"
     ++ String "010"
    ("P0003,Cy Rossi,Tigers,GK,2020-21,12,1080,none,0,0,0,400,75,0,0,60"
     ++ String "010" EmptyString))).

(** * Properties *)

(** ** std::map *)

Section MapFacts.
Context {K V : Type} (compare : K -> K -> comparison).
Hypothesis compare_eq : forall a b, compare a b = Eq <-> a = b.

Local Abbreviation key_eqb := (StdMap.key_eqb compare).
Local Abbreviation keys := (StdMap.keys (K := K) (V := V)).

Lemma key_eqb_true a b : key_eqb a b = true <-> a = b.
Proof.
  unfold StdMap.key_eqb. rewrite <- compare_eq.
  destruct (compare a b); split; congruence.
Qed.

Lemma key_eqb_refl a : key_eqb a a = true.
Proof. now apply key_eqb_true. Qed.

Lemma find_key_eqb (k k' : K) (v : V) m :
  StdMap.find compare k ((k', v) :: m)
  = if key_eqb k k' then Some v else StdMap.find compare k m.
Proof.
  unfold StdMap.key_eqb. simpl. destruct (compare k k'); reflexivity.
Qed.

Lemma find_insert_same k (v : V) m :
  StdMap.find compare k m = None ->
  StdMap.find compare k (StdMap.insert compare k v m) = Some v.
Proof.
  induction m as [|[k' v'] m IH]; intros Hnone.
  - simpl. now rewrite (proj2 (compare_eq k k) eq_refl).
  - rewrite find_key_eqb in Hnone. simpl.
    destruct (key_eqb k k') eqn:E; [discriminate|].
    unfold StdMap.key_eqb in E.
    destruct (compare k k') eqn:C; try discriminate.
    + simpl. now rewrite (proj2 (compare_eq k k) eq_refl).
    + simpl. rewrite C. auto.
Qed.

Lemma find_insert_other k k' (v : V) m :
  k' <> k ->
  StdMap.find compare k' (StdMap.insert compare k v m)
  = StdMap.find compare k' m.
Proof.
  intros Hne. induction m as [|[k1 v1] m IH]; simpl.
  - destruct (compare k' k) eqn:C; auto.
    apply compare_eq in C. contradiction.
  - destruct (compare k k1) eqn:C1; simpl; rewrite ?IH; auto.
    destruct (compare k' k) eqn:C; auto.
    apply compare_eq in C. contradiction.
Qed.

Lemma find_modify_same k (f : V -> V) m :
  StdMap.find compare k (StdMap.modify compare k f m)
  = option_map f (StdMap.find compare k m).
Proof.
  induction m as [|[k1 v1] m IH]; simpl; auto.
  destruct (compare k k1) eqn:C; simpl; rewrite C; auto.
Qed.

Lemma find_modify_other k k' (f : V -> V) m :
  k' <> k ->
  StdMap.find compare k' (StdMap.modify compare k f m)
  = StdMap.find compare k' m.
Proof.
  intros Hne. induction m as [|[k1 v1] m IH]; simpl; auto.
  destruct (compare k k1) eqn:C; simpl; rewrite ?IH; auto.
  apply compare_eq in C. subst k1.
  destruct (compare k' k) eqn:C'; auto.
  apply compare_eq in C'. contradiction.
Qed.

Lemma find_update_same k d (f : V -> V) m :
  StdMap.find compare k (StdMap.update compare k d f m)
  = Some (f (match StdMap.find compare k m with Some v => v | None => d end)).
Proof.
  unfold StdMap.update.
  destruct (StdMap.find compare k m) eqn:F.
  - now rewrite find_modify_same, F.
  - now apply find_insert_same.
Qed.

Lemma find_update_other k k' d (f : V -> V) m :
  k' <> k ->
  StdMap.find compare k' (StdMap.update compare k d f m)
  = StdMap.find compare k' m.
Proof.
  intros Hne. unfold StdMap.update.
  destruct (StdMap.find compare k m).
  - now apply find_modify_other.
  - now apply find_insert_other.
Qed.

(** Grouping a sequence by key, the way the indexing loops do. *)
Lemma find_fold_update {P : Type} (key : P -> K) (d : V) (f : P -> V -> V)
  (ps : list P) (m : StdMap.t) (k : K) :
  StdMap.find compare k
    (fold_left (fun m p => StdMap.update compare (key p) d (f p) m) ps m)
  = match filter (fun p => key_eqb (key p) k) ps with
    | [] => StdMap.find compare k m
    | l => Some (fold_left (fun v p => f p v) l
                   (match StdMap.find compare k m with
                    | Some v => v | None => d end))
    end.
Proof.
  revert m. induction ps as [|p ps IH]; intros m; simpl; auto.
  rewrite IH. destruct (key_eqb (key p) k) eqn:E.
  - apply key_eqb_true in E. subst k. rewrite find_update_same. simpl.
    destruct (filter _ ps); reflexivity.
  - assert (Hne : k <> key p).
    { intros ->. rewrite key_eqb_refl in E. discriminate. }
    rewrite find_update_other by assumption. reflexivity.
Qed.

Lemma find_none_not_in k m :
  StdMap.find compare k m = None <-> ~ In k (keys m).
Proof.
  induction m as [|[k1 v1] m IH]; simpl.
  - tauto.
  - destruct (compare k k1) eqn:C.
    + apply compare_eq in C. subst. split; [discriminate|tauto].
    + rewrite IH. split; [|tauto]. intros H [->|H']; [|tauto].
      now rewrite (proj2 (compare_eq k k) eq_refl) in C.
    + rewrite IH. split; [|tauto]. intros H [->|H']; [|tauto].
      now rewrite (proj2 (compare_eq k k) eq_refl) in C.
Qed.

Lemma keys_modify k (f : V -> V) m :
  keys (StdMap.modify compare k f m) = keys m.
Proof.
  induction m as [|[k1 v1] m IH]; simpl; auto.
  destruct (compare k k1); simpl; now rewrite ?IH.
Qed.

Lemma keys_insert_perm k (v : V) m :
  Permutation (k :: keys m) (keys (StdMap.insert compare k v m)).
Proof.
  induction m as [|[k1 v1] m IH]; simpl; auto.
  destruct (compare k k1); simpl; auto;
    (etransitivity; [apply perm_swap|apply perm_skip, IH]).
Qed.

Lemma NoDup_keys_update k d (f : V -> V) m :
  NoDup (keys m) -> NoDup (keys (StdMap.update compare k d f m)).
Proof.
  intros Hnd. unfold StdMap.update.
  destruct (StdMap.find compare k m) eqn:F.
  - now rewrite keys_modify.
  - eapply Permutation_NoDup; [apply keys_insert_perm|].
    constructor; auto. now apply find_none_not_in.
Qed.

Lemma NoDup_keys_fold_update {P : Type} (key : P -> K) (d : V)
  (f : P -> V -> V) (ps : list P) (m : StdMap.t) :
  NoDup (keys m) ->
  NoDup (keys (fold_left
                 (fun m p => StdMap.update compare (key p) d (f p) m) ps m)).
Proof.
  revert m. induction ps as [|p ps IH]; intros m Hnd; simpl; auto.
  apply IH. now apply NoDup_keys_update.
Qed.

Lemma In_find k (v : V) m :
  NoDup (keys m) -> In (k, v) m -> StdMap.find compare k m = Some v.
Proof.
  induction m as [|[k1 v1] m IH]; simpl; intros Hnd Hin; [tauto|].
  inversion Hnd as [|? ? Hnotin Hnd']; subst.
  destruct Hin as [E|Hin].
  - inversion E; subst. now rewrite (proj2 (compare_eq k k) eq_refl).
  - destruct (compare k k1) eqn:C; auto.
    apply compare_eq in C. subst k1. exfalso. apply Hnotin.
    change k with (fst (k, v)). now apply in_map.
Qed.

Lemma find_In k (v : V) m :
  StdMap.find compare k m = Some v -> In (k, v) m.
Proof.
  induction m as [|[k1 v1] m IH]; simpl; [discriminate|].
  destruct (compare k k1) eqn:C; auto.
  intros E. inversion E; subst. apply compare_eq in C. subst. now left.
Qed.
End MapFacts.

Lemma ascii_compare_refl (c : ascii) : Ascii.compare c c = Eq.
Proof. unfold Ascii.compare. apply N.compare_refl. Qed.

Lemma string_compare_refl (s : string) : String.compare s s = Eq.
Proof.
  induction s as [|c s IH]; simpl; auto. now rewrite ascii_compare_refl.
Qed.

Lemma string_compare_eq (a b : string) : String.compare a b = Eq <-> a = b.
Proof.
  split; [apply String.compare_eq_iff|]. intros ->. apply string_compare_refl.
Qed.

Lemma pair_compare_eq (a b : string * string) :
  pair_compare a b = Eq <-> a = b.
Proof.
  destruct a as [a1 a2], b as [b1 b2]. unfold pair_compare. simpl.
  destruct (String.compare a1 b1) eqn:C1.
  - apply string_compare_eq in C1. subst. rewrite string_compare_eq.
    split; [now intros ->|congruence].
  - split; [discriminate|]. intros E. inversion E; subst.
    rewrite string_compare_refl in C1. discriminate.
  - split; [discriminate|]. intros E. inversion E; subst.
    rewrite string_compare_refl in C1. discriminate.
Qed.

(** ** std::sort: the contract, and an implementation of it *)

Section SortFacts.
Context {A : Type} (comp : A -> A -> bool).

Lemma Compare_on_incl (l l' : list A) :
  incl l' l -> Compare_on comp l -> Compare_on comp l'.
Proof.
  intros Hincl (Hirr & Htr & Heq). repeat split.
  - intros x Hx. apply Hirr. now apply Hincl.
  - intros x y z Hx Hy Hz. apply Htr; now apply Hincl.
  - eapply (Heq x y z); eauto.
  - eapply (Heq x y z); eauto.
Qed.

Lemma Compare_on_perm (l l' : list A) :
  Permutation l l' -> Compare_on comp l -> Compare_on comp l'.
Proof.
  intros Hp. apply Compare_on_incl. intros x Hx.
  eapply Permutation_in; [symmetry; eassumption|assumption].
Qed.

(** In a strict weak order, [a < b] puts every [c] above [a] or below [b]. *)
Lemma Compare_on_split (l : list A) (a b c : A) :
  Compare_on comp l -> In a l -> In b l -> In c l ->
  comp a b = true -> comp a c = true \/ comp c b = true.
Proof.
  intros (Hirr & Htr & Heq) Ha Hb Hc Hab.
  destruct (comp a c) eqn:Hac; [now left|].
  destruct (comp c b) eqn:Hcb; [now right|]. exfalso.
  destruct (comp c a) eqn:Hca.
  { rewrite (Htr c a b) in Hcb; auto. discriminate. }
  destruct (comp b c) eqn:Hbc.
  { rewrite (Htr a b c) in Hac; auto. discriminate. }
  destruct (Heq a c b) as [H _]; auto. congruence.
Qed.

Lemma Compare_on_asym (l : list A) (a b : A) :
  Compare_on comp l -> In a l -> In b l -> comp a b = true -> comp b a = false.
Proof.
  intros (Hirr & Htr & _) Ha Hb Hab.
  destruct (comp b a) eqn:Hba; auto.
  rewrite <- (Hirr a Ha). symmetry. now apply (Htr a b a).
Qed.

Lemma sorted_from_is_sorted (l : list A) :
  sorted_from comp l <-> is_sorted comp l.
Proof.
  unfold is_sorted. induction l as [|x l [IH1 IH2]]; simpl.
  - split; auto. intros _ i j a b _ Hi. destruct i; discriminate.
  - split.
    + intros [Hall Hs] i j a b Hlt Hi Hj.
      destruct j as [|j]; [lia|]. simpl in Hj.
      destruct i as [|i]; simpl in Hi.
      * inversion Hi; subst. rewrite Forall_forall in Hall.
        apply Hall. eapply nth_error_In; eauto.
      * apply (IH1 Hs i j); auto. lia.
    + intros H. split.
      * apply Forall_forall. intros y Hy.
        apply In_nth_error in Hy. destruct Hy as [j Hj].
        apply (H 0%nat (S j) x y); auto. lia.
      * apply IH2. intros i j a b Hlt Hi Hj.
        apply (H (S i) (S j)); auto. lia.
Qed.

Lemma insert_sorted_perm (x : A) (l : list A) :
  Permutation (x :: l) (insert_sorted comp x l).
Proof.
  induction l as [|y l IH]; simpl; auto.
  destruct (comp y x); auto.
  etransitivity; [apply perm_swap|]. now apply perm_skip.
Qed.

Lemma insertion_sort_perm (l : list A) :
  Permutation l (insertion_sort A comp l).
Proof.
  induction l as [|x l IH]; simpl; auto.
  etransitivity; [apply perm_skip, IH|apply insert_sorted_perm].
Qed.

Lemma insert_sorted_sorted (x : A) (l : list A) :
  Compare_on comp (x :: l) -> sorted_from comp l ->
  sorted_from comp (insert_sorted comp x l).
Proof.
  intros Hc. induction l as [|y l IH]; simpl; intros Hs.
  - split; auto.
  - destruct Hs as [Hall Hs]. destruct (comp y x) eqn:Hyx.
    + simpl. split.
      * apply Forall_forall. intros z Hz.
        apply (Permutation_in _ (Permutation_sym (insert_sorted_perm x l)))
          in Hz.
        destruct Hz as [<-|Hz].
        -- eapply Compare_on_asym; eauto; simpl; auto.
        -- rewrite Forall_forall in Hall. now apply Hall.
      * apply IH; auto. eapply Compare_on_incl; [|exact Hc].
        intros z [<-|Hz]; simpl; auto.
    + simpl. split; [|split; auto].
      constructor; auto. apply Forall_forall. intros z Hz.
      destruct (comp z x) eqn:Hzx; auto. exfalso.
      destruct (Compare_on_split (x :: y :: l) z x y Hc) as [H|H];
        simpl; auto.
      * rewrite Forall_forall in Hall. rewrite (Hall z Hz) in H. discriminate.
      * congruence.
Qed.

Lemma insertion_sort_sorted (l : list A) :
  Compare_on comp l -> sorted_from comp (insertion_sort A comp l).
Proof.
  induction l as [|x l IH]; simpl; intros Hc; auto.
  apply insert_sorted_sorted.
  - eapply Compare_on_perm; [|exact Hc].
    apply perm_skip, insertion_sort_perm.
  - apply IH. eapply Compare_on_incl; [|exact Hc]. intros z Hz. now right.
Qed.
End SortFacts.

Lemma insertion_sort_contract : sort_contract insertion_sort.
Proof.
  intros A comp l Hc. split.
  - apply insertion_sort_perm.
  - apply sorted_from_is_sorted. now apply insertion_sort_sorted.
Qed.

(** ** The order of season labels *)

Lemma ascii_compare_lt_trans (a b c : ascii) :
  Ascii.compare a b = Lt -> Ascii.compare b c = Lt -> Ascii.compare a c = Lt.
Proof.
  unfold Ascii.compare. rewrite !N.compare_lt_iff. apply N.lt_trans.
Qed.

Lemma string_compare_lt_trans (a b c : string) :
  String.compare a b = Lt -> String.compare b c = Lt ->
  String.compare a c = Lt.
Proof.
  revert b c. induction a as [|x a IH]; intros [|y b] [|z c]; simpl;
    try discriminate; auto.
  destruct (Ascii.compare x y) eqn:Cxy; try discriminate;
    destruct (Ascii.compare y z) eqn:Cyz; try discriminate; intros H1 H2.
  - apply Ascii.compare_eq_iff in Cxy, Cyz. subst.
    rewrite ascii_compare_refl. eauto.
  - apply Ascii.compare_eq_iff in Cxy. subst. now rewrite Cyz.
  - apply Ascii.compare_eq_iff in Cyz. subst. now rewrite Cxy.
  - now rewrite (ascii_compare_lt_trans x y z).
Qed.

Lemma string_ltb_irrefl (a : string) : String.ltb a a = false.
Proof. unfold String.ltb. now rewrite string_compare_refl. Qed.

Lemma string_ltb_trans (a b c : string) :
  String.ltb a b = true -> String.ltb b c = true -> String.ltb a c = true.
Proof.
  unfold String.ltb. intros H1 H2.
  destruct (String.compare a b) eqn:C1; try discriminate.
  destruct (String.compare b c) eqn:C2; try discriminate.
  now rewrite (string_compare_lt_trans a b c).
Qed.

(** Labels that are not ordered either way are the same label. *)
Lemma string_ltb_total (a b : string) :
  String.ltb a b = false -> String.ltb b a = false -> a = b.
Proof.
  unfold String.ltb. rewrite (String.compare_antisym b a).
  destruct (String.compare a b) eqn:C; simpl; try discriminate.
  intros _ _. now apply String.compare_eq_iff.
Qed.

Lemma season_less_Compare (l : list PlayerStats) : Compare_on season_less l.
Proof.
  unfold season_less. split; [|split].
  - intros x _. apply string_ltb_irrefl.
  - intros x y z _ _ _. apply string_ltb_trans.
  - intros x y z _ _ _ H1 H2 H3 H4.
    rewrite (string_ltb_total _ _ H1 H2), <- (string_ltb_total _ _ H3 H4).
    split; apply string_ltb_irrefl.
Qed.

(** ** The indices of the record store *)

Lemma key_eqb_string (a b : string) :
  StdMap.key_eqb String.compare a b = (a =? b)%string.
Proof.
  destruct (String.eqb_spec a b) as [->|Hne].
  - now apply key_eqb_true; [apply string_compare_eq|].
  - destruct (StdMap.key_eqb String.compare a b) eqn:E; auto.
    apply (key_eqb_true _ string_compare_eq) in E. contradiction.
Qed.

Lemma fold_push_back {A : Type} (l v : list A) :
  fold_left (fun v p => push_back p v) l v = v ++ l.
Proof.
  revert v. induction l as [|x l IH]; intros v; simpl.
  - now rewrite app_nil_r.
  - rewrite IH. unfold push_back. now rewrite <- app_assoc.
Qed.

Lemma index_players_fold (ps : list PlayerStats) (a0 : PerformanceAnalyzer) :
  let a :=
    fold_left
      (fun a player =>
         {| all_players := all_players a;
            players_by_name :=
              StdMap.update String.compare (player_name player) []
                (push_back player) (players_by_name a);
            players_by_team :=
              StdMap.update String.compare (team player) []
                (push_back player) (players_by_team a) |})
      ps a0 in
  all_players a = all_players a0 /\
  players_by_name a = index_by player_name ps (players_by_name a0) /\
  players_by_team a = index_by team ps (players_by_team a0).
Proof.
  revert a0. induction ps as [|p ps IH]; intros a0; simpl; auto.
  match goal with |- context [fold_left _ ps ?a1] => specialize (IH a1) end.
  simpl in IH. exact IH.
Qed.

Section IndexFacts.
Variable records : list PlayerStats.

Lemma loaded_indices :
  all_players (loaded records) = records /\
  players_by_name (loaded records) = index_by player_name records [] /\
  players_by_team (loaded records) = index_by team records [].
Proof.
  unfold loaded, load_records, index_players. simpl.
  apply (index_players_fold records
           {| all_players := records; players_by_name := [];
              players_by_team := [] |}).
Qed.

Lemma find_by_key (key : PlayerStats -> string) (k : string) :
  StdMap.find String.compare k (index_by key records [])
  = match filter (fun p => (key p =? k)%string) records with
    | [] => None
    | l => Some l
    end.
Proof.
  unfold index_by.
  rewrite (find_fold_update String.compare string_compare_eq). simpl.
  rewrite (filter_ext _ (fun p => (key p =? k)%string))
    by (intros; apply key_eqb_string).
  destruct (filter _ records) as [|x l] eqn:F; auto.
  now rewrite fold_push_back.
Qed.

Lemma find_players_by_name (name : string) :
  StdMap.find String.compare name (players_by_name (loaded records))
  = match records_of name records with [] => None | l => Some l end.
Proof.
  destruct loaded_indices as (_ & -> & _). apply find_by_key.
Qed.

Lemma find_players_by_team (name : string) :
  StdMap.find String.compare name (players_by_team (loaded records))
  = match records_of_team name records with [] => None | l => Some l end.
Proof.
  destruct loaded_indices as (_ & _ & ->). apply find_by_key.
Qed.

Lemma NoDup_players_by_name :
  NoDup (StdMap.keys (players_by_name (loaded records))).
Proof.
  destruct loaded_indices as (_ & -> & _).
  apply (NoDup_keys_fold_update String.compare string_compare_eq).
  constructor.
Qed.
End IndexFacts.

(** ** Loops *)

Lemma for_loop_S {S : Type} (n : nat) (body : nat -> S -> option S) (init : S) :
  for_loop (Datatypes.S n) body init
  = match for_loop n body init with
    | Some s => body n s
    | None => None
    end.
Proof.
  unfold for_loop. rewrite seq_S, fold_left_app. reflexivity.
Qed.

(** A loop whose turns all succeed and keep an invariant ends, and the
    invariant holds at the end. *)
Lemma for_loop_invariant {S : Type} (P : nat -> S -> Prop) (n : nat)
  (body : nat -> S -> option S) (init : S) :
  P 0%nat init ->
  (forall i s, (i < n)%nat -> P i s ->
     exists s', body i s = Some s' /\ P (Datatypes.S i) s') ->
  exists s, for_loop n body init = Some s /\ P n s.
Proof.
  intros H0 Hstep. induction n as [|n IH].
  - exists init. split; auto.
  - destruct IH as (s & Hs & HP).
    { intros i s Hi. apply Hstep. lia. }
    destruct (Hstep n s (Nat.lt_succ_diag_r n) HP) as (s' & Hb & HP').
    exists s'. rewrite for_loop_S, Hs. auto.
Qed.

(** ** The time series of a player *)

Lemma metric_value_unknown (metric : string) :
  metric <> "rating" -> metric <> "goals" -> metric <> "assists" ->
  metric <> "goals_per_match" -> metric_value metric = None.
Proof.
  intros H1 H2 H3 H4. unfold metric_value.
  apply String.eqb_neq in H1, H2, H3, H4. now rewrite H1, H2, H3, H4.
Qed.

Lemma push_stat_fold (metric : string) (l : list PlayerStats)
  (ts : TimeSeriesData) :
  fold_left (push_stat metric) l ts
  = {| seasons := seasons ts ++ map season l;
       values := values ts ++ match metric_value metric with
                              | Some f => map f l
                              | None => []
                              end;
       metric_name := metric_name ts;
       ts_player_name := ts_player_name ts |}.
Proof.
  revert ts. induction l as [|stat l IH]; intros ts; simpl.
  - destruct ts. simpl. rewrite !app_nil_r.
    destruct (metric_value metric); now rewrite ?app_nil_r.
  - rewrite IH. unfold push_stat, metric_value, push_value, push_back.
    destruct (metric =? "rating")%string; simpl;
      [now rewrite <- !app_assoc|].
    destruct (metric =? "goals")%string; simpl;
      [now rewrite <- !app_assoc|].
    destruct (metric =? "assists")%string; simpl;
      [now rewrite <- !app_assoc|].
    destruct (metric =? "goals_per_match")%string; simpl;
      now rewrite <- !app_assoc.
Qed.

Section TimeSeriesFacts.
Variable std_sort : forall A : Type, (A -> A -> bool) -> list A -> list A.
Hypothesis std_sort_ok : sort_contract std_sort.

Lemma sorted_seasons (l : list PlayerStats) :
  Permutation l (std_sort PlayerStats season_less l) /\
  is_sorted season_less (std_sort PlayerStats season_less l).
Proof. apply std_sort_ok, season_less_Compare. Qed.

Lemma get_player_time_series_state (name metric : string)
  (a : PerformanceAnalyzer) :
  state_after (get_player_time_series std_sort name metric) a = a.
Proof.
  unfold state_after, get_player_time_series, bind, get, ret.
  now destruct (StdMap.find _ _ _).
Qed.

Lemma get_player_time_series_unknown (records : list PlayerStats)
  (name metric : string) :
  records_of name records = [] ->
  result_of (get_player_time_series std_sort name metric) (loaded records)
  = {| seasons := []; values := [];
       metric_name := metric; ts_player_name := name |}.
Proof.
  intros Hnone.
  unfold result_of, get_player_time_series, bind, get, ret.
  now rewrite find_players_by_name, Hnone.
Qed.

Lemma get_player_time_series_known (records : list PlayerStats)
  (name metric : string) :
  records_of name records <> [] ->
  let sorted :=
    std_sort PlayerStats season_less (records_of name records) in
  result_of (get_player_time_series std_sort name metric) (loaded records)
  = {| seasons := map season sorted;
       values := match metric_value metric with
                 | Some f => map f sorted
                 | None => []
                 end;
       metric_name := metric; ts_player_name := name |}.
Proof.
  intros Hsome.
  unfold result_of, get_player_time_series, bind, get, ret.
  rewrite find_players_by_name.
  destruct (records_of name records) as [|r l] eqn:E; [contradiction|].
  simpl. now rewrite push_stat_fold.
Qed.
End TimeSeriesFacts.

(** C4. For a player known to the store and a metric name that is none of
    rating, goals, assists, goals_per_match, the series
    [get_player_time_series] returns has no values, while its seasons still
    hold one entry per record of the player; for a player unknown to the
    store both sequences are empty. *)
Theorem unknown_metric_keeps_seasons
  (std_sort : forall A : Type, (A -> A -> bool) -> list A -> list A)
  (std_sort_ok : sort_contract std_sort)
  (records : list PlayerStats) (name metric : string) :
  let ts :=
    result_of (get_player_time_series std_sort name metric) (loaded records)
  in
  (records_of name records <> [] ->
   metric <> "rating" -> metric <> "goals" -> metric <> "assists" ->
   metric <> "goals_per_match" ->
   values ts = [] /\
   Permutation (map season (records_of name records)) (seasons ts) /\
   List.length (seasons ts) = List.length (records_of name records)) /\
  (records_of name records = [] -> seasons ts = [] /\ values ts = []).
Proof.
  split.
  - intros Hknown H1 H2 H3 H4.
    rewrite (get_player_time_series_known std_sort records name metric Hknown).
    simpl. rewrite (metric_value_unknown metric H1 H2 H3 H4).
    destruct (sorted_seasons std_sort std_sort_ok (records_of name records))
      as [Hperm _].
    repeat split.
    + now apply Permutation_map.
    + rewrite length_map. symmetry. now apply Permutation_length.
  - intros Hunknown.
    now rewrite (get_player_time_series_unknown std_sort records name metric
                   Hunknown).
Qed.

Lemma unknown_metric_keeps_seasons_witness :
  sort_contract insertion_sort /\
  (let ts :=
     result_of (get_player_time_series insertion_sort "Ada" "shots")
       (loaded sample_records) in
   values ts = [] /\
   Permutation ["2020-21"; "2021-22"; "2022-23"] (seasons ts) /\
   List.length (seasons ts) = 3%nat) /\
  (let ts :=
     result_of (get_player_time_series insertion_sort "Dee" "rating")
       (loaded sample_records) in
   seasons ts = [] /\ values ts = []).
Proof.
  split; [exact insertion_sort_contract|]. split.
  - apply (proj1 (unknown_metric_keeps_seasons insertion_sort
                    insertion_sort_contract sample_records "Ada" "shots"));
      discriminate.
  - apply (proj2 (unknown_metric_keeps_seasons insertion_sort
                    insertion_sort_contract sample_records "Dee" "rating")).
    reflexivity.
Defined.

Lemma metric_value_supported (metric : string) :
  In metric supported_metrics -> exists f, metric_value metric = Some f.
Proof.
  unfold supported_metrics, metric_value. simpl.
  intros [<-|[<-|[<-|[<-|[]]]]]; simpl; eauto.
Qed.

(** C5, as the code has it. For a known player and a supported metric,
    [get_player_time_series] sorts a copy of the player's records by season
    label with [std::sort]: the copy is a rearrangement of the records in
    which no label is less than an earlier one, the order of records with
    equal labels being whatever [std::sort] leaves; the seasons and the
    values of the series are the labels and the metric of that copy, in
    parallel; the analyzer, and so the store's own records, is unchanged. *)
Theorem time_series_of_sorted_copy
  (std_sort : forall A : Type, (A -> A -> bool) -> list A -> list A)
  (std_sort_ok : sort_contract std_sort)
  (records : list PlayerStats) (name metric : string) :
  records_of name records <> [] ->
  In metric supported_metrics ->
  exists (f : PlayerStats -> double) (sorted : list PlayerStats),
    metric_value metric = Some f /\
    Permutation (records_of name records) sorted /\
    is_sorted season_less sorted /\
    (let ts :=
       result_of (get_player_time_series std_sort name metric)
         (loaded records) in
     seasons ts = map season sorted /\ values ts = map f sorted) /\
    state_after (get_player_time_series std_sort name metric)
      (loaded records) = loaded records.
Proof.
  intros Hknown Hmetric.
  destruct (metric_value_supported metric Hmetric) as [f Hf].
  exists f, (std_sort PlayerStats season_less (records_of name records)).
  destruct (sorted_seasons std_sort std_sort_ok (records_of name records))
    as [Hperm Hsorted].
  repeat split; auto.
  - now rewrite (get_player_time_series_known std_sort records name metric).
  - rewrite (get_player_time_series_known std_sort records name metric)
      by assumption.
    simpl. now rewrite Hf.
  - apply get_player_time_series_state.
Qed.

Lemma time_series_of_sorted_copy_witness :
  sort_contract insertion_sort /\
  records_of "Ada" sample_records <> [] /\
  In "goals" supported_metrics /\
  exists (f : PlayerStats -> double) (sorted : list PlayerStats),
    metric_value "goals" = Some f /\
    Permutation (records_of "Ada" sample_records) sorted /\
    is_sorted season_less sorted /\
    (let ts :=
       result_of (get_player_time_series insertion_sort "Ada" "goals")
         (loaded sample_records) in
     seasons ts = map season sorted /\ values ts = map f sorted) /\
    state_after (get_player_time_series insertion_sort "Ada" "goals")
      (loaded sample_records) = loaded sample_records.
Proof.
  split; [exact insertion_sort_contract|].
  split; [discriminate|].
  split; [simpl; tauto|].
  apply (time_series_of_sorted_copy insertion_sort insertion_sort_contract
           sample_records "Ada" "goals").
  - discriminate.
  - simpl. tauto.
Defined.

(** C5 as the specification words it fails: [std::sort] is not stable. With
    the [std::sort] of g++'s library, which the Makefile builds with, the
    seventeen records of one season do not come out in the order they were
    read in: the series of the goals, 1 to 17 in the store, starts with 9
    and 17. The run is defined (the comparison is a strict weak order), and
    up to sixteen records the same library keeps the order. *)
Lemma seventeen_tied_records_reordered :
  map goals (records_of "Eve" seventeen_tied_records)
  = [1; 2; 3; 4; 5; 6; 7; 8; 9; 10; 11; 12; 13; 14; 15; 16; 17]%Z /\
  Forall (fun label => label = "2020-21")
    (map season (records_of "Eve" seventeen_tied_records)) /\
  Libstdcxx.sort_range season_less (records_of "Eve" seventeen_tied_records)
  <> None /\
  values (result_of (get_player_time_series Libstdcxx.sort "Eve" "goals")
            (loaded seventeen_tied_records))
  = [9; 17; 16; 15; 14; 13; 12; 11; 10; 1; 8; 7; 6; 5; 4; 3; 2]%float /\
  values (result_of (get_player_time_series Libstdcxx.sort "Eve" "goals")
            (loaded (firstn 16 seventeen_tied_records)))
  = [1; 2; 3; 4; 5; 6; 7; 8; 9; 10; 11; 12; 13; 14; 15; 16]%float.
Proof.
  split; [reflexivity|]. split.
  - vm_compute. repeat constructor.
  - split; [vm_compute; discriminate|].
    split; vm_compute; reflexivity.
Qed.

(** ** Queries run on an analyzer *)

(** Series without a common season label pair no values. *)
Lemma common_seasons_disjoint (ts1 ts2 : TimeSeriesData) :
  (forall s1 s2, In s1 (seasons ts1) -> In s2 (seasons ts2) -> s1 <> s2) ->
  common_seasons ts1 ts2 = Some ([], []).
Proof.
  intros Hdisj. unfold common_seasons.
  destruct (for_loop_invariant
              (fun (_ : nat) (acc : list double * list double) =>
                 acc = ([], []))
              (List.length (seasons ts1))
              (fun i acc =>
                 match for_loop (List.length (seasons ts2))
                         (common_step ts1 ts2 i) (fst acc, snd acc, false) with
                 | Some (c1, c2, _) => Some (c1, c2)
                 | None => None
                 end)
              ([], [])) as (s & Hs & ->); auto.
  intros i acc Hi ->. exists ([], []). split; auto. simpl.
  destruct (nth_error (seasons ts1) i) as [s1|] eqn:E1;
    [|apply nth_error_None in E1; lia].
  destruct (for_loop_invariant
              (fun (_ : nat) (acc : list double * list double * bool) =>
                 acc = ([], [], false))
              (List.length (seasons ts2)) (common_step ts1 ts2 i)
              ([], [], false)) as (s & Hs & ->); auto.
  - intros j acc Hj ->. exists ([], [], false). split; auto.
    unfold common_step, vec_at. rewrite E1.
    destruct (nth_error (seasons ts2) j) as [s2|] eqn:E2;
      [|apply nth_error_None in E2; lia].
    assert (Hne : s1 <> s2).
    { apply Hdisj; eapply nth_error_In; eauto. }
    apply String.eqb_neq in Hne. now rewrite Hne.
  - now rewrite Hs.
Qed.

Section QueryFacts.
Variable std_sort : forall A : Type, (A -> A -> bool) -> list A -> list A.
Hypothesis std_sort_ok : sort_contract std_sort.

Lemma get_player_time_series_run (name metric : string)
  (a : PerformanceAnalyzer) :
  get_player_time_series std_sort name metric a
  = (result_of (get_player_time_series std_sort name metric) a, a).
Proof.
  rewrite <- (get_player_time_series_state std_sort name metric a) at 3.
  unfold result_of, state_after. apply surjective_pairing.
Qed.

Lemma calculate_consistency_run (name : string) (a : PerformanceAnalyzer) :
  calculate_consistency std_sort name a
  = (result_of (calculate_consistency std_sort name) a, a).
Proof.
  unfold result_of, calculate_consistency, bind.
  rewrite get_player_time_series_run.
  now destruct (values _).
Qed.

Lemma calculate_consistency_name (name : string) (a : PerformanceAnalyzer) :
  cm_player_name (result_of (calculate_consistency std_sort name) a) = name.
Proof.
  unfold result_of, calculate_consistency, bind.
  rewrite get_player_time_series_run.
  now destruct (values _).
Qed.

Lemma calculate_consistency_unknown (records : list PlayerStats)
  (name : string) :
  records_of name records = [] ->
  result_of (calculate_consistency std_sort name) (loaded records)
  = {| cm_player_name := name; cm_average_rating := 0%float;
       std_deviation := 0%float; cm_consistency_score := 0%float;
       cv_percentage := 0%float; cm_seasons_played := 0%Z |}.
Proof.
  intros Hunknown. unfold result_of, calculate_consistency, bind.
  rewrite get_player_time_series_run.
  now rewrite (get_player_time_series_unknown std_sort records name "rating").
Qed.

Lemma calculate_player_correlation_run (player1 player2 metric : string)
  (a : PerformanceAnalyzer) :
  calculate_player_correlation std_sort player1 player2 metric a
  = (let ts1 :=
       result_of (get_player_time_series std_sort player1 metric) a in
     let ts2 :=
       result_of (get_player_time_series std_sort player2 metric) a in
     match values ts1, values ts2 with
     | [], _ | _, [] => Some 0%float
     | _, _ =>
         match common_seasons ts1 ts2 with
         | Some (common_vals1, common_vals2) =>
             calculate_correlation common_vals1 common_vals2
         | None => None
         end
     end, a).
Proof.
  unfold calculate_player_correlation, bind.
  rewrite !get_player_time_series_run. simpl.
  destruct (values _); auto. now destruct (values _).
Qed.

Lemma seasons_of_series (records : list PlayerStats) (name metric : string)
  (s : string) :
  In s (seasons (result_of (get_player_time_series std_sort name metric)
                   (loaded records))) ->
  exists r, In r (records_of name records) /\ season r = s.
Proof.
  assert (Hcase : records_of name records = [] \/ records_of name records <> [])
    by (destruct (records_of name records); [now left|now right]).
  destruct Hcase as [E|E].
  - now rewrite (get_player_time_series_unknown std_sort records name metric).
  - rewrite (get_player_time_series_known std_sort records name metric E).
    cbn [seasons]. rewrite in_map_iff. intros (r & <- & Hin).
    exists r. split; auto.
    eapply Permutation_in; [symmetry; apply (sorted_seasons std_sort)|]; auto.
Qed.
End QueryFacts.

(** C6. A query for a player name the store does not hold returns its empty
    result and never runs into an error: the series is empty, the
    consistency metrics are the zeroed record with [seasons_played = 0], the
    correlation with any player is 0.0; and two players without a common
    season correlate to 0.0. *)
Theorem absent_player_queries
  (std_sort : forall A : Type, (A -> A -> bool) -> list A -> list A)
  (std_sort_ok : sort_contract std_sort)
  (records : list PlayerStats) :
  (forall name : string,
     records_of name records = [] ->
     (forall metric,
        let ts :=
          result_of (get_player_time_series std_sort name metric)
            (loaded records) in
        seasons ts = [] /\ values ts = []) /\
     (let metrics :=
        result_of (calculate_consistency std_sort name) (loaded records) in
      cm_seasons_played metrics = 0%Z /\
      cm_average_rating metrics = 0%float /\
      std_deviation metrics = 0%float /\
      cm_consistency_score metrics = 0%float /\
      cv_percentage metrics = 0%float) /\
     (forall other metric,
        result_of (calculate_player_correlation std_sort name other metric)
          (loaded records) = Some 0%float /\
        result_of (calculate_player_correlation std_sort other name metric)
          (loaded records) = Some 0%float)) /\
  (forall player1 player2 metric : string,
     (forall r1 r2,
        In r1 (records_of player1 records) ->
        In r2 (records_of player2 records) -> season r1 <> season r2) ->
     result_of (calculate_player_correlation std_sort player1 player2 metric)
       (loaded records) = Some 0%float).
Proof.
  split.
  - intros name Hunknown. split; [|split].
    + intros metric.
      now rewrite (get_player_time_series_unknown std_sort records name metric).
    + now rewrite (calculate_consistency_unknown std_sort records name).
    + intros other metric. unfold result_of.
      rewrite !calculate_player_correlation_run. simpl.
      rewrite (get_player_time_series_unknown std_sort records name metric)
        by assumption.
      simpl. split; auto. now destruct (values _).
  - intros player1 player2 metric Hdisj. unfold result_of.
    rewrite calculate_player_correlation_run. simpl.
    destruct (values _); auto. destruct (values _); auto.
    rewrite common_seasons_disjoint; auto.
    intros s1 s2 H1 H2.
    apply (seasons_of_series std_sort std_sort_ok) in H1, H2.
    destruct H1 as (r1 & Hr1 & <-), H2 as (r2 & Hr2 & <-). auto.
Qed.

Lemma absent_player_queries_witness :
  sort_contract insertion_sort /\
  records_of "Dee" sample_records = [] /\
  (forall r1 r2,
     In r1 (records_of "Fay" disjoint_records) ->
     In r2 (records_of "Gus" disjoint_records) -> season r1 <> season r2) /\
  cm_seasons_played
    (result_of (calculate_consistency insertion_sort "Dee")
       (loaded sample_records)) = 0%Z /\
  result_of (calculate_player_correlation insertion_sort "Dee" "Ada" "rating")
    (loaded sample_records) = Some 0%float /\
  result_of (calculate_player_correlation insertion_sort "Fay" "Gus" "rating")
    (loaded disjoint_records) = Some 0%float.
Proof.
  assert (Hdisj : forall r1 r2,
             In r1 (records_of "Fay" disjoint_records) ->
             In r2 (records_of "Gus" disjoint_records) ->
             season r1 <> season r2).
  { intros r1 r2 [<-|[<-|[]]] [<-|[<-|[]]]; discriminate. }
  split; [exact insertion_sort_contract|].
  split; [reflexivity|]. split; [exact Hdisj|].
  pose proof (absent_player_queries insertion_sort insertion_sort_contract
                sample_records) as [Habsent _].
  pose proof (absent_player_queries insertion_sort insertion_sort_contract
                disjoint_records) as [_ Hcommon].
  destruct (Habsent "Dee" eq_refl) as (_ & Hmetrics & Hcorr).
  split; [apply Hmetrics|].
  split; [apply (Hcorr "Ada" "rating")|].
  apply Hcommon, Hdisj.
Defined.

(** ** The consistency pool *)

Section PoolFacts.
Variable std_sort : forall A : Type, (A -> A -> bool) -> list A -> list A.
Hypothesis std_sort_ok : sort_contract std_sort.

Lemma get_all_consistency_metrics_run (a : PerformanceAnalyzer) :
  get_all_consistency_metrics std_sort a
  = (map (fun pair : string * list PlayerStats =>
          result_of (calculate_consistency std_sort (fst pair)) a)
       (filter (fun pair : string * list PlayerStats =>
            (2 <=? List.length (snd pair))%nat)
          (players_by_name a)), a).
Proof.
  unfold get_all_consistency_metrics, bind at 1, get.
  assert (Hgen : forall l (acc : State (list ConsistencyMetrics)) pre,
             acc a = (pre, a) ->
             fold_left
               (fun acc pair =>
                  (all_metrics <- acc ;;
                   if (2 <=? List.length (snd pair))%nat
                   then metrics <- calculate_consistency std_sort (fst pair) ;;
                        ret (push_back metrics all_metrics)
                   else ret all_metrics)%state) l acc a
             = (pre ++ map (fun pair : string * list PlayerStats =>
                              result_of
                                (calculate_consistency std_sort (fst pair)) a)
                         (filter
                            (fun pair : string * list PlayerStats =>
            (2 <=? List.length (snd pair))%nat)
                            l), a)).
  { induction l as [|pair l IH]; intros acc pre Hacc;
      cbn [fold_left filter map].
    - now rewrite app_nil_r.
    - destruct (2 <=? List.length (snd pair))%nat eqn:E.
      + rewrite (IH _ (pre ++ [result_of
                                 (calculate_consistency std_sort (fst pair))
                                 a])).
        * cbn [map]. now rewrite <- app_assoc.
        * unfold bind. rewrite Hacc, calculate_consistency_run. reflexivity.
      + apply IH. unfold bind. now rewrite Hacc. }
  apply (Hgen _ _ []). reflexivity.
Qed.

(** The entries of the name index are the players, each with its records. *)
Lemma In_players_by_name (records : list PlayerStats) (name : string)
  (recs : list PlayerStats) :
  In (name, recs) (players_by_name (loaded records)) <->
  recs = records_of name records /\ recs <> [].
Proof.
  split.
  - intros Hin.
    apply (In_find String.compare string_compare_eq) in Hin;
      [|apply NoDup_players_by_name].
    rewrite find_players_by_name in Hin.
    destruct (records_of name records); [discriminate|].
    inversion Hin; subst. split; [reflexivity|discriminate].
  - intros [-> Hne].
    apply (find_In String.compare string_compare_eq).
    rewrite find_players_by_name.
    now destruct (records_of name records).
Qed.

(** The pool of [get_all_consistency_metrics]: the players with at least two
    records, each once. *)
Lemma pool_names (records : list PlayerStats) (name : string) :
  In name (map cm_player_name
             (result_of (get_all_consistency_metrics std_sort)
                (loaded records))) <->
  (2 <= List.length (records_of name records))%nat.
Proof.
  unfold result_of. rewrite get_all_consistency_metrics_run. cbn [fst].
  rewrite map_map.
  rewrite (map_ext _ fst)
    by (intros; apply calculate_consistency_name).
  rewrite in_map_iff. split.
  - intros ([n recs] & <- & Hin). apply filter_In in Hin.
    destruct Hin as [Hin Hlen]. apply In_players_by_name in Hin.
    destruct Hin as [-> _]. cbn [fst snd] in *. now apply Nat.leb_le.
  - intros Hlen. exists (name, records_of name records). split; auto.
    apply filter_In. split.
    + apply In_players_by_name. split; auto.
      destruct (records_of name records); cbn [List.length] in *;
        [lia|discriminate].
    + cbn [snd]. now apply Nat.leb_le.
Qed.

Lemma std_sort_singleton {A : Type} (comp : A -> A -> bool) (x : A) :
  Compare_on comp [x] -> std_sort A comp [x] = [x].
Proof.
  intros Hc. destruct (std_sort_ok A comp [x] Hc) as [Hperm _].
  now apply Permutation_length_1_inv.
Qed.
End PoolFacts.

(** C1, as the code has it. For a player with exactly one recorded season
    [calculate_consistency] does not return the zeroed record: it returns
    [seasons_played = 1], with the single rating as the average and a
    standard deviation of 0.0 (the zeroed record is for players without any
    record). Such a
    player is left out of the pool of [get_all_consistency_metrics], which
    takes players with at least two records. *)
Theorem single_season_consistency
  (std_sort : forall A : Type, (A -> A -> bool) -> list A -> list A)
  (std_sort_ok : sort_contract std_sort)
  (records : list PlayerStats) (name : string) (r : PlayerStats) :
  records_of name records = [r] ->
  (let metrics :=
     result_of (calculate_consistency std_sort name) (loaded records) in
   cm_seasons_played metrics = 1%Z /\
   cm_average_rating metrics = ((0 + rating r) / 1)%float /\
   std_deviation metrics = 0%float) /\
  ~ In name (map cm_player_name
               (result_of (get_all_consistency_metrics std_sort)
                  (loaded records))).
Proof.
  intros Hone. split.
  - unfold result_of, calculate_consistency, bind.
    rewrite (get_player_time_series_run std_sort).
    rewrite (get_player_time_series_known std_sort records name "rating")
      by (rewrite Hone; discriminate).
    rewrite Hone, (std_sort_singleton std_sort std_sort_ok)
      by apply season_less_Compare.
    simpl. repeat split.
  - rewrite (pool_names std_sort). rewrite Hone. simpl. lia.
Qed.

Lemma single_season_consistency_witness :
  sort_contract insertion_sort /\
  records_of "Cy" sample_records
  = [sample_record "Cy" "Tigers" "GK" "2020-21" 12 0 0 60%float] /\
  cm_seasons_played
    (result_of (calculate_consistency insertion_sort "Cy")
       (loaded sample_records)) = 1%Z /\
  ~ In "Cy" (map cm_player_name
               (result_of (get_all_consistency_metrics insertion_sort)
                  (loaded sample_records))).
Proof.
  split; [exact insertion_sort_contract|]. split; [reflexivity|].
  destruct (single_season_consistency insertion_sort insertion_sort_contract
              sample_records "Cy"
              (sample_record "Cy" "Tigers" "GK" "2020-21" 12 0 0 60%float)
              eq_refl) as [(Hplayed & _) Hpool].
  split; [exact Hplayed|exact Hpool].
Defined.

(** C1 as the specification words it fails: the one record of Cy gives
    [seasons_played = 1], not the zeroed record. *)
Lemma single_season_is_not_zeroed :
  records_of "Cy" sample_records
  = [sample_record "Cy" "Tigers" "GK" "2020-21" 12 0 0 60%float] /\
  cm_seasons_played
    (result_of (calculate_consistency insertion_sort "Cy")
       (loaded sample_records)) = 1%Z /\
  cm_seasons_played
    (result_of (calculate_consistency insertion_sort "Cy")
       (loaded sample_records)) <> 0%Z.
Proof.
  split; [reflexivity|]. split; [reflexivity|]. vm_compute. discriminate.
Qed.

(** ** Doubles: comparison *)

Lemma is_nan_spec (x : double) :
  is_nan x = false <-> Prim2SF x <> S754_nan.
Proof.
  unfold is_nan. rewrite eqb_spec. unfold SFeqb.
  destruct (Prim2SF x) as [s|s| |s m e]; simpl.
  - split; [discriminate|reflexivity].
  - destruct s; split; (discriminate || reflexivity).
  - split; [discriminate|congruence].
  - rewrite Z.compare_refl.
    change (Pos.compare_cont Eq m m) with (Pos.compare m m).
    rewrite Pos.compare_refl. destruct s; split; (discriminate || reflexivity).
Qed.

Lemma SFltb_order_key (x y : spec_float) :
  x <> S754_nan -> y <> S754_nan ->
  (SFltb x y = true <-> key_lt (order_key x) (order_key y)).
Proof.
  intros Hx Hy. unfold SFltb.
  destruct x as [sx|sx| |sx mx ex]; try congruence;
    destruct y as [sy|sy| |sy my ey]; try congruence;
    try destruct sx; try destruct sy; simpl;
    try (split; [discriminate|lia]);
    try (split; [lia|discriminate]);
    try (split; [reflexivity|lia]);
    try (split; [lia|reflexivity]).
  - change (Pos.compare_cont Eq mx my) with (Pos.compare mx my).
    destruct (Z.compare_spec ex ey); [destruct (Pos.compare_spec mx my)| |];
      simpl; split; try discriminate; try reflexivity; lia.
  - change (Pos.compare_cont Eq mx my) with (Pos.compare mx my).
    destruct (Z.compare_spec ex ey); [destruct (Pos.compare_spec mx my)| |];
      simpl; split; try discriminate; try reflexivity; lia.
Qed.

Lemma ltb_order_key (x y : double) :
  is_nan x = false -> is_nan y = false ->
  ((x <? y)%float = true <->
   key_lt (order_key (Prim2SF x)) (order_key (Prim2SF y))).
Proof.
  intros Hx Hy. rewrite ltb_spec.
  apply SFltb_order_key; now apply is_nan_spec.
Qed.

Lemma ltb_order_key_false (x y : double) :
  is_nan x = false -> is_nan y = false ->
  ((x <? y)%float = false <->
   ~ key_lt (order_key (Prim2SF x)) (order_key (Prim2SF y))).
Proof.
  intros Hx Hy. rewrite <- (ltb_order_key x y Hx Hy).
  destruct (x <? y)%float; split; congruence.
Qed.

(** [<] on doubles that are not NaN is a strict weak order. *)
Lemma ltb_Compare {A : Type} (f : A -> double) (l : list A) :
  Forall (fun a => is_nan (f a) = false) l ->
  Compare_on (fun a b => (f a <? f b)%float) l.
Proof.
  intros Hall. rewrite Forall_forall in Hall. split; [|split].
  - intros x Hx. apply ltb_order_key_false; auto.
    destruct (order_key (Prim2SF (f x))) as [[a1 a2] a3]. simpl. lia.
  - intros x y z Hx Hy Hz.
    rewrite !ltb_order_key by auto.
    destruct (order_key (Prim2SF (f x))) as [[a1 a2] a3],
             (order_key (Prim2SF (f y))) as [[b1 b2] b3],
             (order_key (Prim2SF (f z))) as [[c1 c2] c3]. simpl. lia.
  - intros x y z Hx Hy Hz.
    rewrite !ltb_order_key_false by auto.
    destruct (order_key (Prim2SF (f x))) as [[a1 a2] a3],
             (order_key (Prim2SF (f y))) as [[b1 b2] b3],
             (order_key (Prim2SF (f z))) as [[c1 c2] c3]. simpl. lia.
Qed.

Lemma gtb_Compare {A : Type} (f : A -> double) (l : list A) :
  Forall (fun a => is_nan (f a) = false) l ->
  Compare_on (fun a b => (f b <? f a)%float) l.
Proof.
  intros Hall. destruct (ltb_Compare f l Hall) as (Hirr & Htr & Heq).
  split; [|split].
  - exact Hirr.
  - intros x y z Hx Hy Hz Hxy Hyz. now apply (Htr z y x).
  - intros x y z Hx Hy Hz H1 H2 H3 H4.
    destruct (Heq x y z) as [Ha Hb]; auto.
Qed.

(** ** The ranking *)

Lemma size_t_of_int_small (z : Z) :
  (0 <= z < 2147483648)%Z -> size_t_of_int z = z.
Proof. intros H. unfold size_t_of_int. apply Z.mod_small. lia. Qed.

Lemma int_of_size_small (n : nat) :
  (Z.of_nat n < 2147483648)%Z -> int_of_size n = Z.of_nat n.
Proof.
  intros H. unfold int_of_size, wrap_int.
  rewrite Z.mod_small by lia. lia.
Qed.


Lemma NoDup_keys_filter {K V : Type} (f : K * V -> bool)
  (m : list (K * V)) :
  NoDup (map fst m) -> NoDup (map fst (filter f m)).
Proof.
  induction m as [|x m IH]; simpl; intros Hnd; auto.
  inversion Hnd as [|? ? Hnotin Hnd']; subst.
  destruct (f x); simpl; auto. constructor; auto.
  intros Hin. apply Hnotin. apply in_map_iff in Hin.
  destruct Hin as (y & Hy & Hin). apply filter_In in Hin.
  apply in_map_iff. exists y. tauto.
Qed.

Section RankingFacts.
Variable std_sort : forall A : Type, (A -> A -> bool) -> list A -> list A.
Hypothesis std_sort_ok : sort_contract std_sort.

Lemma get_top_consistent_players_run (top_n : Z) (a : PerformanceAnalyzer) :
  get_top_consistent_players std_sort top_n a
  = (let all_metrics := result_of (get_all_consistency_metrics std_sort) a in
     let rankings := map (make_ranking a) all_metrics in
     let rankings := std_sort PerformanceRanking ranking_greater rankings in
     let rankings := assign_ranks 0 (size_t_of_int top_n) rankings in
     if (size_t_of_int top_n <? Z.of_nat (List.length rankings))%Z
     then firstn (Z.to_nat (size_t_of_int top_n)) rankings
     else rankings, a).
Proof.
  unfold get_top_consistent_players, bind, result_of.
  now rewrite get_all_consistency_metrics_run.
Qed.

Lemma NoDup_pool_names (records : list PlayerStats) :
  NoDup (map cm_player_name
           (result_of (get_all_consistency_metrics std_sort)
              (loaded records))).
Proof.
  unfold result_of. rewrite get_all_consistency_metrics_run. cbn [fst].
  rewrite map_map.
  rewrite (map_ext _ fst)
    by (intros; apply calculate_consistency_name).
  apply NoDup_keys_filter, NoDup_players_by_name.
Qed.
End RankingFacts.

Lemma names_of_rankings (a : PerformanceAnalyzer)
  (pool : list ConsistencyMetrics) :
  map pr_player_name (map (make_ranking a) pool) = map cm_player_name pool.
Proof. rewrite map_map. reflexivity. Qed.





(** ** Team performance by season *)

Lemma key_eqb_pair (p : PlayerStats) (t s : string) :
  StdMap.key_eqb pair_compare (team p, season p) (t, s)
  = ((team p =? t)%string && (season p =? s)%string).
Proof.
  destruct (StdMap.key_eqb pair_compare (team p, season p) (t, s)) eqn:E.
  - apply (key_eqb_true _ pair_compare_eq) in E. inversion E.
    now rewrite !String.eqb_refl.
  - destruct (String.eqb_spec (team p) t) as [<-|]; auto.
    destruct (String.eqb_spec (season p) s) as [<-|]; auto.
    now rewrite (key_eqb_refl _ pair_compare_eq) in E.
Qed.

(** What the first loop accumulates over the records of a group. *)
Lemma fold_add_player_rating (g : list PlayerStats) (perf : TeamPerformance) :
  average_rating (fold_left (fun v p => add_player p v) g perf)
  = accumulate (map rating g) (average_rating perf).
Proof.
  revert perf. induction g as [|p g IH]; intros perf; simpl; [reflexivity|].
  now rewrite IH.
Qed.

Lemma fold_add_player_key (t s : string) (g : list PlayerStats)
  (perf : TeamPerformance) :
  Forall (fun p => team p = t /\ season p = s) g -> g <> [] ->
  team_name (fold_left (fun v p => add_player p v) g perf) = t /\
  tp_season (fold_left (fun v p => add_player p v) g perf) = s.
Proof.
  revert perf. induction g as [|p g IH]; intros perf Hall Hne;
    [contradiction|].
  inversion Hall as [|? ? [Ht Hs] Hall']; subst. simpl.
  destruct g as [|q g]; [simpl; auto|].
  apply IH; auto. discriminate.
Qed.

Lemma records_of_group_Forall (t s : string) (records : list PlayerStats) :
  Forall (fun p => team p = t /\ season p = s) (records_of_group t s records).
Proof.
  apply Forall_forall. intros p Hp. apply filter_In in Hp.
  destruct Hp as [_ Hp]. apply andb_true_iff in Hp.
  now rewrite <- !String.eqb_eq.
Qed.

Lemma find_team_season_map (records : list PlayerStats) (t s : string) :
  StdMap.find pair_compare (t, s) (team_season_map records)
  = match records_of_group t s records with
    | [] => None
    | g => Some (fold_left (fun v p => add_player p v) g
                   TeamPerformance_default)
    end.
Proof.
  unfold team_season_map.
  rewrite (find_fold_update pair_compare pair_compare_eq
             (fun p => (team p, season p))). simpl.
  unfold records_of_group.
  rewrite (filter_ext _ (fun p => (team p =? t)%string
                                  && (season p =? s)%string))
    by (intros; apply key_eqb_pair).
  reflexivity.
Qed.

Lemma NoDup_team_season_map (records : list PlayerStats) :
  NoDup (StdMap.keys (team_season_map records)).
Proof.
  apply (NoDup_keys_fold_update pair_compare pair_compare_eq
           (fun p => (team p, season p))).
  constructor.
Qed.

(** The entries of the map of the first loop: one per team and season with
    records, holding the totals of its records. *)
Lemma In_team_season_map (records : list PlayerStats) (t s : string)
  (perf : TeamPerformance) :
  In ((t, s), perf) (team_season_map records) <->
  records_of_group t s records <> [] /\
  perf = fold_left (fun v p => add_player p v) (records_of_group t s records)
           TeamPerformance_default.
Proof.
  split.
  - intros Hin.
    apply (In_find pair_compare pair_compare_eq) in Hin;
      [|apply NoDup_team_season_map].
    rewrite find_team_season_map in Hin.
    destruct (records_of_group t s records); [discriminate|].
    inversion Hin. split; [discriminate|reflexivity].
  - intros [Hne ->]. apply (find_In pair_compare pair_compare_eq).
    rewrite find_team_season_map.
    now destruct (records_of_group t s records).
Qed.

(** The second loop on a team that the team index holds. *)
Lemma average_team_run (a : PerformanceAnalyzer)
  (result : list TeamPerformance) (perf : TeamPerformance)
  (recs : list PlayerStats) :
  StdMap.find String.compare (team_name perf) (players_by_team a)
  = Some recs ->
  average_team result perf a
  = (push_back
       (if (0 <? List.length recs)%nat
        then set_average_rating
               (average_rating perf / double_of_size (List.length recs))%float
               perf
        else perf)
       result, a).
Proof.
  intros Hfind. unfold average_team, bind, get, put, ret, StdMap.index.
  rewrite Hfind. now destruct a.
Qed.

Lemma records_of_team_group (t s : string) (records : list PlayerStats) :
  records_of_group t s records <> [] -> records_of_team t records <> [].
Proof.
  unfold records_of_group, records_of_team.
  induction records as [|p ps IH]; simpl; [tauto|].
  destruct (String.eqb (team p) t); simpl; [discriminate|]. exact IH.
Qed.

Lemma get_team_performance_by_season_run (records : list PlayerStats) :
  get_team_performance_by_season (loaded records)
  = (map (fun pair : string * string * TeamPerformance =>
            let perf := snd pair in
            set_average_rating
              (average_rating perf
               / double_of_size
                   (List.length (records_of_team (team_name perf) records)))%float
              perf)
       (team_season_map records), loaded records).
Proof.
  unfold get_team_performance_by_season, bind at 1, get.
  destruct (loaded_indices records) as (Hall & _ & _). rewrite Hall.
  assert (Hgen : forall l (acc : State (list TeamPerformance)) pre,
             incl l (team_season_map records) ->
             acc (loaded records) = (pre, loaded records) ->
             fold_left
               (fun acc (pair : string * string * TeamPerformance) =>
                  (result <- acc ;; average_team result (snd pair))%state)
               l acc (loaded records)
             = (pre ++ map
                  (fun pair : string * string * TeamPerformance =>
                     let perf := snd pair in
                     set_average_rating
                       (average_rating perf
                        / double_of_size
                            (List.length
                               (records_of_team (team_name perf) records)))%float
                       perf) l, loaded records)).
  { induction l as [|[[t s] perf] l IH]; intros acc pre Hincl Hacc;
      cbn [fold_left map].
    - now rewrite app_nil_r.
    - assert (Hin : In (t, s, perf) (team_season_map records))
        by (apply Hincl; now left).
      apply In_team_season_map in Hin. destruct Hin as [Hne Hperf].
      destruct (fold_add_player_key t s (records_of_group t s records)
                  TeamPerformance_default
                  (records_of_group_Forall t s records) Hne) as [Ht _].
      rewrite <- Hperf in Ht.
      pose proof (records_of_team_group t s records Hne) as Hteam.
      rewrite (IH _ (pre ++ [set_average_rating
                               (average_rating perf
                                / double_of_size
                                    (List.length
                                       (records_of_team (team_name perf)
                                          records)))%float perf])).
      + now rewrite <- app_assoc.
      + intros x Hx. apply Hincl. now right.
      + unfold bind. rewrite Hacc. cbn [snd].
        rewrite (average_team_run _ _ _
                   (records_of_team (team_name perf) records)).
        * rewrite Ht in *.
          destruct (records_of_team t records); [contradiction|].
          reflexivity.
        * rewrite find_players_by_team, Ht.
          now destruct (records_of_team t records). }
  apply (Hgen _ _ []); [apply incl_refl|reflexivity].
Qed.

(** C2. In every entry [get_team_performance_by_season] returns,
    [average_rating] is the sum of the ratings of the team's records in that
    one season (accumulated from 0.0 in the order of the records) divided by
    the number of records of the team in all seasons; and every team and
    season with a record has its entry. *)
Theorem team_average_over_all_seasons (records : list PlayerStats) :
  let result := result_of get_team_performance_by_season (loaded records) in
  (forall perf, In perf result ->
     records_of_group (team_name perf) (tp_season perf) records <> [] /\
     average_rating perf
     = (accumulate
          (map rating
             (records_of_group (team_name perf) (tp_season perf) records))
          0
        / double_of_size
            (List.length (records_of_team (team_name perf) records)))%float)
  /\
  (forall p, In p records ->
     exists perf, In perf result /\
                  team_name perf = team p /\ tp_season perf = season p).
Proof.
  unfold result_of. rewrite get_team_performance_by_season_run. cbn [fst].
  split.
  - intros perf' Hin. apply in_map_iff in Hin.
    destruct Hin as ([[t s] perf] & <- & Hin). cbn [snd].
    apply In_team_season_map in Hin. destruct Hin as [Hne Hperf].
    destruct (fold_add_player_key t s (records_of_group t s records)
                TeamPerformance_default
                (records_of_group_Forall t s records) Hne) as [Ht Hs].
    rewrite <- Hperf in Ht, Hs. simpl. rewrite Ht, Hs. split; auto.
    rewrite Hperf at 1. now rewrite fold_add_player_rating.
  - intros p Hp.
    assert (Hne : records_of_group (team p) (season p) records <> []).
    { intros E. assert (Hin : In p (records_of_group (team p) (season p)
                                      records)).
      { apply filter_In. split; auto. now rewrite !String.eqb_refl. }
      rewrite E in Hin. contradiction. }
    set (perf := fold_left (fun v q => add_player q v)
                   (records_of_group (team p) (season p) records)
                   TeamPerformance_default).
    destruct (fold_add_player_key (team p) (season p)
                (records_of_group (team p) (season p) records)
                TeamPerformance_default
                (records_of_group_Forall _ _ records) Hne) as [Ht Hs].
    eexists. split.
    + apply in_map_iff. exists ((team p, season p), perf). split; eauto.
      apply In_team_season_map. split; auto.
    + cbn [snd]. simpl. auto.
Qed.

Lemma team_average_over_all_seasons_witness :
  let result :=
    result_of get_team_performance_by_season (loaded two_season_team) in
  List.length (records_of_team "Lions" two_season_team) = 6%nat /\
  map rating (records_of_group "Lions" "2020-21" two_season_team)
  = [60%float; 70%float; 80%float] /\
  exists perf,
    In perf result /\ team_name perf = "Lions" /\
    tp_season perf = "2020-21" /\
    average_rating perf = ((0 + 60 + 70 + 80) / 6)%float /\
    average_rating perf = 35%float.
Proof.
  cbv zeta. split; [reflexivity|]. split; [reflexivity|].
  destruct (team_average_over_all_seasons two_season_team) as [Havg Hall].
  destruct (Hall (sample_record "Hal" "Lions" "FW" "2020-21" 30 9 2 60%float))
    as (perf & Hin & Ht & Hs); [simpl; tauto|].
  exists perf. destruct (Havg perf Hin) as [_ Hrating].
  rewrite Ht, Hs in Hrating. simpl in Ht, Hs.
  repeat split; auto.
Defined.

(** ** Doubles: arithmetic *)

Lemma SFmul_comm (x y : spec_float) : SF64mul x y = SF64mul y x.
Proof.
  unfold SF64mul, SFmul.
  destruct x as [sx|sx| |sx mx ex], y as [sy|sy| |sy my ey]; auto;
    try (now rewrite xorb_comm).
  now rewrite xorb_comm, Pos.mul_comm, Z.add_comm.
Qed.

Lemma mul_comm (x y : float) : (x * y = y * x)%float.
Proof. apply Prim2SF_inj. rewrite !mul_spec. apply SFmul_comm. Qed.

(** Shifting right keeps a mantissa that is not negative. *)
Lemma shr_1_nonneg (mrs : shr_record) :
  (0 <= shr_m mrs)%Z -> (0 <= shr_m (shr_1 mrs))%Z.
Proof.
  destruct mrs as [m r s]. simpl.
  destruct m as [|p|p]; simpl; try lia; destruct p; simpl; lia.
Qed.

Lemma iter_pos_invariant {A : Type} (P : A -> Prop) (f : A -> A) :
  (forall x, P x -> P (f x)) ->
  forall n x, P x -> P (iter_pos f n x).
Proof.
  intros Hf. induction n as [n IH|n IH|]; intros x Hx; simpl; auto.
Qed.

Lemma shr_nonneg (mrs : shr_record) (e n : Z) :
  (0 <= shr_m mrs)%Z -> (0 <= shr_m (fst (shr mrs e n)))%Z.
Proof.
  intros H. unfold shr. destruct n; simpl; auto.
  apply (iter_pos_invariant (fun mrs => 0 <= shr_m mrs)%Z); auto.
  apply shr_1_nonneg.
Qed.

Lemma shr_record_of_loc_m (m : Z) (l : location) :
  shr_m (shr_record_of_loc m l) = m.
Proof. destruct l as [|[]]; reflexivity. Qed.

Lemma shr_fexp_nonneg (m e : Z) (l : location) :
  (0 <= m)%Z -> (0 <= shr_m (fst (shr_fexp prec emax m e l)))%Z.
Proof.
  intros H. unfold shr_fexp. apply shr_nonneg.
  now rewrite shr_record_of_loc_m.
Qed.

Lemma round_nearest_even_nonneg (m : Z) (l : location) :
  (0 <= m)%Z -> (0 <= round_nearest_even m l)%Z.
Proof.
  intros H. unfold round_nearest_even.
  destruct l as [|[]]; try lia. destruct (Z.even m); lia.
Qed.

Lemma binary_round_aux_sign (s : bool) (m e : Z) (l : location) :
  (0 <= m)%Z -> has_sign s (binary_round_aux prec emax s m e l).
Proof.
  intros H. unfold binary_round_aux.
  pose proof (shr_fexp_nonneg m e l H) as H1.
  destruct (shr_fexp prec emax m e l) as [mrs' e']. simpl in H1.
  pose proof (shr_fexp_nonneg _ e' loc_Exact
                (round_nearest_even_nonneg _ (loc_of_shr_record mrs') H1))
    as H2.
  destruct (shr_fexp prec emax _ e' loc_Exact) as [mrs'' e'']. simpl in H2.
  destruct (shr_m mrs''); try lia; simpl; auto.
  destruct (e'' <=? _)%Z; simpl; auto.
Qed.

Lemma Zsqrtrem_nonneg (m : Z) : (0 <= fst (Z.sqrtrem m))%Z.
Proof.
  pose proof (Z.sqrtrem_sqrt m). rewrite H. apply Z.sqrt_nonneg.
Qed.

Lemma SFsqrt_sign (x : spec_float) :
  SF64sqrt x = S754_nan \/ SF64sqrt x = x \/ has_sign false (SF64sqrt x).
Proof.
  unfold SF64sqrt, SFsqrt.
  destruct x as [s|[|]| |[|] m e]; auto.
  right. right.
  destruct (SFsqrt_core_binary prec emax (Z.pos m) e) as [[mz ez] lz] eqn:E.
  apply binary_round_aux_sign.
  unfold SFsqrt_core_binary in E.
  match type of E with
  | context [Z.sqrtrem ?a] =>
      pose proof (Zsqrtrem_nonneg a) as Hq;
      destruct (Z.sqrtrem a) as [q r]
  end.
  inversion E; subst. exact Hq.
Qed.

Lemma SFltb_zero_sign (x : spec_float) :
  has_sign false x -> SFltb x (S754_zero false) = false.
Proof.
  destruct x as [s|s| |s m e]; simpl; intros H; try contradiction; subst;
    reflexivity.
Qed.

Lemma sqrt_not_negative (x : float) : (sqrt x <? 0)%float = false.
Proof.
  rewrite ltb_spec, sqrt_spec.
  change (Prim2SF 0) with (S754_zero false).
  destruct (SFsqrt_sign (Prim2SF x)) as [H|[H|H]].
  - now rewrite H.
  - rewrite H.
    unfold SF64sqrt, SFsqrt in H.
    destruct (Prim2SF x) as [s|[|]| |[|] m e]; try reflexivity;
      discriminate.
  - now apply SFltb_zero_sign.
Qed.

Lemma sqrt_nonneg_or_nan (x : float) :
  (0 <=? sqrt x)%float = true \/ is_nan (sqrt x) = true.
Proof.
  unfold is_nan. rewrite leb_spec, eqb_spec, sqrt_spec.
  change (Prim2SF 0) with (S754_zero false).
  destruct (SFsqrt_sign (Prim2SF x)) as [H|[H|H]].
  - right. now rewrite H.
  - rewrite H. unfold SF64sqrt, SFsqrt in H.
    destruct (Prim2SF x) as [s|[|]| |[|] m e]; try discriminate;
      try (left; reflexivity); right; reflexivity.
  - left. destruct (SF64sqrt (Prim2SF x)) as [s|s| |s m e]; simpl in H;
      try contradiction; subst; reflexivity.
Qed.

(** ** Exact results *)

Lemma iter_xO_pow2 (p n : positive) :
  Zpos (Pos.iter xO p n) = (Zpos p * 2 ^ Zpos n)%Z.
Proof.
  induction n as [|n IH] using Pos.peano_ind.
  - simpl. lia.
  - rewrite Pos.iter_succ, Pos2Z.inj_succ, Z.pow_succ_r by lia.
    rewrite Pos2Z.inj_xO, IH. lia.
Qed.

Lemma digits2_iter_xO (p n : positive) :
  digits2_pos (Pos.iter xO p n) = (digits2_pos p + n)%positive.
Proof.
  induction n as [|n IH] using Pos.peano_ind.
  - simpl. lia.
  - rewrite Pos.iter_succ. simpl. rewrite IH. lia.
Qed.

(** A mantissa that already fits is not rounded. *)
Lemma binary_round_aux_bounded (s : bool) (m : positive) (e : Z) :
  bounded prec emax m e = true ->
  binary_round_aux prec emax s (Zpos m) e loc_Exact = S754_finite s m e.
Proof.
  unfold bounded, canonical_mantissa. intros H.
  apply andb_true_iff in H. destruct H as [Hc He].
  apply Z.eqb_eq in Hc.
  unfold binary_round_aux, shr_fexp. cbn [Zdigits2 shr_record_of_loc].
  rewrite Hc, Z.sub_diag. cbn [shr shr_m loc_of_shr_record round_nearest_even].
  cbn [Zdigits2 shr_record_of_loc].
  rewrite Hc, Z.sub_diag. cbn [shr shr_m]. now rewrite He.
Qed.

(** The digits of a positive number, as a bound. *)
Lemma digits2_pos_bounds (p : positive) :
  (2 ^ (Zpos (digits2_pos p) - 1) <= Zpos p < 2 ^ Zpos (digits2_pos p))%Z.
Proof.
  induction p as [p IH|p IH|]; simpl digits2_pos.
  - rewrite Pos2Z.inj_succ.
    replace (Z.succ (Zpos (digits2_pos p)) - 1)%Z
      with (Zpos (digits2_pos p)) by lia.
    rewrite Z.pow_succ_r by lia.
    replace (Zpos (digits2_pos p))
      with (Z.succ (Zpos (digits2_pos p) - 1)) at 1 by lia.
    rewrite Z.pow_succ_r by lia. lia.
  - rewrite Pos2Z.inj_succ.
    replace (Z.succ (Zpos (digits2_pos p)) - 1)%Z
      with (Zpos (digits2_pos p)) by lia.
    rewrite Z.pow_succ_r by lia.
    replace (Zpos (digits2_pos p))
      with (Z.succ (Zpos (digits2_pos p) - 1)) at 1 by lia.
    rewrite Z.pow_succ_r by lia. lia.
  - simpl. lia.
Qed.

(** A positive integer of at most 53 bits, scaled by a power of two in the
    normal range, is a double: its mantissa is the integer shifted to 53
    bits. *)
Lemma binary_normalize_exact_at (p : positive) (e0 : Z) :
  let d := Zpos (digits2_pos p) in
  (d <= 53)%Z -> (-1074 <= d + e0 - 53 <= 971)%Z ->
  exists m, binary_normalize prec emax (Zpos p) e0 false
            = S754_finite false m (d + e0 - 53) /\
            Zpos m = (Zpos p * 2 ^ (53 - d))%Z /\
            Zpos (digits2_pos m) = 53%Z.
Proof.
  intros d Hd He. unfold binary_normalize, binary_round, shl_align.
  assert (Hfexp : fexp prec emax (Zpos (digits2_pos p) + e0)
                  = (d + e0 - 53)%Z).
  { unfold fexp, SpecFloat.emin, prec, emax. fold d. lia. }
  rewrite Hfexp.
  destruct (d + e0 - 53 - e0)%Z as [|q|q] eqn:E; try lia.
  - exists p. assert (H : d = 53%Z) by lia. split; [|split].
    + replace (d + e0 - 53)%Z with e0 by lia.
      apply binary_round_aux_bounded. unfold bounded, canonical_mantissa.
      fold d. rewrite H. apply andb_true_iff. split.
      * apply Z.eqb_eq. unfold fexp, SpecFloat.emin, prec, emax. lia.
      * apply Z.leb_le. unfold prec, emax. lia.
    + rewrite H. simpl. lia.
    + exact H.
  - exists (Pos.iter xO p q).
    assert (Hq : Zpos q = (53 - d)%Z) by lia.
    assert (Hdig : Zpos (digits2_pos (Pos.iter xO p q)) = 53%Z).
    { rewrite digits2_iter_xO, Pos2Z.inj_add. fold d. lia. }
    split; [|split]; auto.
    + apply binary_round_aux_bounded. unfold bounded, canonical_mantissa.
      rewrite Hdig. apply andb_true_iff. split.
      * apply Z.eqb_eq. unfold fexp, SpecFloat.emin, prec, emax. lia.
      * apply Z.leb_le. unfold prec, emax. lia.
    + rewrite iter_xO_pow2, Hq. reflexivity.
Qed.

Lemma binary_normalize_exact (p : positive) :
  let d := Zpos (digits2_pos p) in
  (d <= 53)%Z ->
  exists m, binary_normalize prec emax (Zpos p) 0 false
            = S754_finite false m (d - 53) /\
            Zpos m = (Zpos p * 2 ^ (53 - d))%Z /\
            Zpos (digits2_pos m) = 53%Z.
Proof.
  intros d Hd.
  destruct (binary_normalize_exact_at p 0) as (m & Hm & H); [exact Hd|lia|].
  exists m. split; [|exact H]. rewrite Hm. reflexivity.
Qed.

Lemma Zlog2_digits (p : positive) :
  Zpos (digits2_pos p) = (Z.log2 (Zpos p) + 1)%Z.
Proof.
  pose proof (digits2_pos_bounds p) as H.
  rewrite (Z.log2_unique (Zpos p) (Zpos (digits2_pos p) - 1)); [lia|lia|].
  replace (Z.succ (Zpos (digits2_pos p) - 1)) with (Zpos (digits2_pos p))
    by lia.
  exact H.
Qed.

Lemma to_Z_of_Z_small (z : Z) :
  (0 <= z < 2 ^ 63)%Z -> Uint63.to_Z (Uint63.of_Z z) = z.
Proof.
  intros H. rewrite Uint63.of_Z_spec. apply Z.mod_small.
  unfold Uint63.wB, Uint63.size. simpl. lia.
Qed.

Lemma double_of_size_exact (k : nat) :
  (0 < Z.of_nat k < 2 ^ 53)%Z ->
  let d := (Z.log2 (Z.of_nat k) + 1)%Z in
  exists m, Prim2SF (double_of_size k) = S754_finite false m (d - 53) /\
            Zpos m = (Z.of_nat k * 2 ^ (53 - d))%Z /\
            Zpos (digits2_pos m) = 53%Z /\ (1 <= d <= 53)%Z.
Proof.
  intros Hk d. unfold double_of_size.
  rewrite of_uint63_spec, to_Z_of_Z_small by lia.
  destruct (Z.of_nat k) as [|p|p] eqn:E; try lia.
  assert (Hd : Zpos (digits2_pos p) = d)
    by (unfold d; apply Zlog2_digits).
  assert (Hd53 : (1 <= d <= 53)%Z).
  { pose proof (digits2_pos_bounds p) as Hb. rewrite Hd in Hb.
    split; [lia|].
    destruct (Z.le_gt_cases d 53) as [|Hgt]; auto.
    assert (2 ^ 53 <= 2 ^ (d - 1))%Z by (apply Z.pow_le_mono_r; lia). lia. }
  destruct (binary_normalize_exact p) as (m & Hm & Hv & Hdig);
    [rewrite Hd; lia|].
  rewrite Hd in Hm, Hv. exists m. auto.
Qed.

Lemma is_finite_spec (x : float) :
  is_finite x = true <->
  (exists s, Prim2SF x = S754_zero s) \/
  (exists s m e, Prim2SF x = S754_finite s m e).
Proof.
  unfold is_finite, is_nan, is_infinity.
  rewrite !eqb_spec, abs_spec.
  change (Prim2SF infinity) with (S754_infinity false).
  destruct (Prim2SF x) as [s|s| |s m e].
  - split; eauto.
  - split; [destruct s; discriminate|].
    intros [[s' H]|(s' & m & e & H)]; discriminate.
  - split; [discriminate|]. intros [[s' H]|(s' & m & e & H)]; discriminate.
  - unfold SFeqb. simpl. rewrite Z.compare_refl.
    change (Pos.compare_cont Eq m m) with (Pos.compare m m).
    rewrite Pos.compare_refl. destruct s; simpl; split; eauto 6.
Qed.

Lemma sub_self (x : float) : is_finite x = true -> (x - x = 0)%float.
Proof.
  intros H. apply Prim2SF_inj. rewrite sub_spec.
  change (Prim2SF 0) with (S754_zero false).
  apply is_finite_spec in H.
  destruct H as [[s H]|(s & m & e & H)]; rewrite H.
  - now destruct s.
  - unfold SF64sub, SFsub, shl_align.
    rewrite Z.min_id, Z.sub_diag. cbn [fst]. rewrite ?Z.sub_diag.
    reflexivity.
Qed.

Lemma zero_div_positive (y : float) (m : positive) (e : Z) :
  Prim2SF y = S754_finite false m e -> (0 / y = 0)%float.
Proof.
  intros H. apply Prim2SF_inj. rewrite div_spec, H. reflexivity.
Qed.

Lemma div_eucl_shift_self (m : positive) :
  Z.div_eucl (Z.shiftl (Zpos m) 53) (Zpos m) = (2 ^ 53, 0)%Z.
Proof.
  rewrite Z.shiftl_mul_pow2 by lia.
  pose proof (Z.div_eucl_eq (Zpos m * 2 ^ 53) (Zpos m)) as Heq.
  pose proof (Z.mod_pos_bound (Zpos m * 2 ^ 53) (Zpos m)) as Hb.
  unfold Z.modulo in Hb.
  destruct (Z.div_eucl (Zpos m * 2 ^ 53) (Zpos m)) as [q r].
  assert (Hq : q = (2 ^ 53)%Z) by nia.
  subst q. f_equal. lia.
Qed.

(** A finite double that is not zero, divided by itself, is 1. *)
Lemma div_self (x : float) (s : bool) (m : positive) (e : Z) :
  Prim2SF x = S754_finite s m e -> (x / x = 1)%float.
Proof.
  intros H. apply Prim2SF_inj. rewrite div_spec, H.
  unfold SF64div, SFdiv, SFdiv_core_binary.
  replace (Zdigits2 (Zpos m) + e - (Zdigits2 (Zpos m) + e))%Z with 0%Z by lia.
  rewrite Z.sub_diag.
  change (Z.min (fexp prec emax 0) 0) with (-53)%Z.
  change (0 - -53)%Z with 53%Z. cbv iota.
  rewrite div_eucl_shift_self.
  assert (Hloc : new_location (Zpos m) 0 = loc_Exact).
  { unfold new_location. now destruct (Z.even (Zpos m)). }
  rewrite Hloc, xorb_nilpotent. reflexivity.
Qed.

(** ** Pearson correlation *)

Lemma correlation_step_swap (x y : list double) (mean_x mean_y : double)
  (i : nat) (acc : double * double * double) :
  correlation_step y x mean_y mean_x i (swap_sums acc)
  = option_map swap_sums (correlation_step x y mean_x mean_y i acc).
Proof.
  destruct acc as [[numerator sum_sq_x] sum_sq_y].
  unfold correlation_step, swap_sums.
  destruct (vec_at x i) as [xi|], (vec_at y i) as [yi|]; simpl; auto.
  now rewrite (mul_comm (yi - mean_y) (xi - mean_x)).
Qed.

Lemma correlation_loop_swap (x y : list double) (mean_x mean_y : double)
  (n : nat) (acc : double * double * double) :
  for_loop n (correlation_step y x mean_y mean_x) (swap_sums acc)
  = option_map swap_sums
      (for_loop n (correlation_step x y mean_x mean_y) acc).
Proof.
  induction n as [|n IH]; [reflexivity|].
  rewrite !for_loop_S, IH.
  destruct (for_loop n (correlation_step x y mean_x mean_y) acc) as [s|];
    simpl; auto.
  apply correlation_step_swap.
Qed.

Lemma firstn_succ_nth {A : Type} (l : list A) (i : nat) (x : A) :
  nth_error l i = Some x -> firstn (S i) l = firstn i l ++ [x].
Proof.
  revert i. induction l as [|y l IH]; intros [|i] H; try discriminate.
  - simpl in H. now inversion H.
  - simpl in H.
    change (y :: firstn (S i) l = y :: (firstn i l ++ [x])).
    f_equal. now apply IH.
Qed.

(** The loop of [calculate_correlation] on a sequence and itself: the three
    sums are the sum of squared deviations. *)
Lemma correlation_loop_self (xs : list double) (avg : double) :
  for_loop (List.length xs) (correlation_step xs xs avg avg)
    (0%float, 0%float, 0%float)
  = Some (sum_squared_deviations xs avg, sum_squared_deviations xs avg,
          sum_squared_deviations xs avg).
Proof.
  destruct (for_loop_invariant
              (fun i (acc : double * double * double) =>
                 let s := sum_squared_deviations (firstn i xs) avg in
                 acc = (s, s, s))
              (List.length xs) (correlation_step xs xs avg avg)
              (0%float, 0%float, 0%float)) as (acc & Hloop & Hacc).
  - reflexivity.
  - intros i acc Hi Hacc.
    destruct (nth_error xs i) as [xi|] eqn:E;
      [|apply nth_error_None in E; lia].
    rewrite (firstn_succ_nth xs i xi E).
    unfold sum_squared_deviations in *. rewrite fold_left_app. simpl.
    rewrite Hacc. unfold correlation_step, vec_at. rewrite E. eauto.
  - rewrite firstn_all in Hacc. now rewrite Hloop, Hacc.
Qed.

Lemma finite_nonzero (x : double) :
  is_finite x = true -> (x =? 0)%float = false ->
  exists s m e, Prim2SF x = S754_finite s m e.
Proof.
  intros Hf Hz. apply is_finite_spec in Hf.
  destruct Hf as [[s H]|H]; auto.
  rewrite eqb_spec, H in Hz. discriminate.
Qed.

(** ** Doubles: signs *)

Lemma binary_round_sign (s : bool) (m : positive) (e : Z) :
  has_sign s (binary_round prec emax s m e).
Proof.
  unfold binary_round. destruct (shl_align m e _) as [mz ez].
  apply binary_round_aux_sign. lia.
Qed.

Lemma has_sign_not_nan (s : bool) (x : spec_float) :
  has_sign s x -> x <> S754_nan.
Proof. intros H ->. exact H. Qed.

Lemma binary_normalize_not_nan (z e : Z) :
  binary_normalize prec emax z e false <> S754_nan.
Proof.
  destruct z; simpl; [discriminate| |];
    eapply has_sign_not_nan, binary_round_sign.
Qed.

(** The sum of two doubles that are not negative is not negative. *)
Lemma SFadd_nonneg (x y : spec_float) :
  has_sign false x -> has_sign false y -> has_sign false (SF64add x y).
Proof.
  destruct x as [sx|sx| |sx mx ex], y as [sy|sy| |sy my ey]; simpl;
    intros Hx Hy; try contradiction; subst; try reflexivity.
  cbn [cond_Zopp Z.add binary_normalize]. apply binary_round_sign.
Qed.

(** A finite double added to a double that is not NaN is not NaN. *)
Lemma SFadd_finite_not_nan (x y : spec_float) :
  x <> S754_nan ->
  (exists s, y = S754_zero s) \/ (exists s m e, y = S754_finite s m e) ->
  SF64add x y <> S754_nan.
Proof.
  intros Hx [[s ->]|(s & m & e & ->)];
    destruct x as [sx|sx| |sx mx ex]; try congruence; simpl;
    try discriminate.
  - destruct sx, s; discriminate.
  - apply binary_normalize_not_nan.
Qed.

Lemma SFsub_finite_not_nan (x y : spec_float) :
  (exists s, x = S754_zero s) \/ (exists s m e, x = S754_finite s m e) ->
  y <> S754_nan -> SF64sub x y <> S754_nan.
Proof.
  intros [[s ->]|(s & m & e & ->)] Hy;
    destruct y as [sy|sy| |sy my ey]; try congruence; simpl;
    try discriminate.
  - destruct s, sy; discriminate.
  - apply binary_normalize_not_nan.
Qed.

(** The square of a double that is not NaN is not negative. *)
Lemma SFmul_square_nonneg (x : spec_float) :
  x <> S754_nan -> has_sign false (SF64mul x x).
Proof.
  intros Hx. destruct x as [s|s| |s m e]; try congruence; simpl;
    try apply xorb_nilpotent.
  rewrite xorb_nilpotent. apply binary_round_aux_sign. lia.
Qed.

Lemma div_eucl_nonneg (a : Z) (b : positive) :
  (0 <= a)%Z -> (0 <= fst (Z.div_eucl a (Zpos b)))%Z.
Proof.
  intros Ha. change (fst (Z.div_eucl a (Zpos b))) with (a / Zpos b)%Z.
  apply Z.div_pos; lia.
Qed.

(** Dividing by a positive finite double keeps the sign. *)
Lemma SFdiv_positive_sign (s : bool) (x : spec_float) (m : positive) (e : Z) :
  has_sign s x -> has_sign s (SF64div x (S754_finite false m e)).
Proof.
  destruct x as [sx|sx| |sx mx ex]; simpl; intros Hx; try contradiction;
    subst; try apply xorb_false_r.
  unfold SFdiv_core_binary.
  match goal with
  | |- context [Z.div_eucl ?a (Zpos m)] =>
      pose proof (div_eucl_nonneg a m) as Hq;
      destruct (Z.div_eucl a (Zpos m)) as [q r]
  end.
  rewrite xorb_false_r. apply binary_round_aux_sign. apply Hq.
  destruct (_ - _ - _)%Z; try lia. apply Z.shiftl_nonneg. lia.
Qed.

Lemma SFsqrt_nonneg (x : spec_float) :
  has_sign false x -> has_sign false (SF64sqrt x).
Proof.
  intros Hx. destruct x as [s|s| |s m e]; simpl in Hx; try contradiction;
    subst; try reflexivity.
  unfold SF64sqrt, SFsqrt.
  destruct (SFsqrt_core_binary prec emax (Z.pos m) e) as [[mz ez] lz] eqn:E.
  apply binary_round_aux_sign.
  unfold SFsqrt_core_binary in E.
  match type of E with
  | context [Z.sqrtrem ?a] =>
      pose proof (Zsqrtrem_nonneg a) as Hq;
      destruct (Z.sqrtrem a) as [q r]
  end.
  inversion E; subst. exact Hq.
Qed.

Lemma SFleb_zero_nonneg (x : spec_float) :
  has_sign false x -> SFleb (S754_zero false) x = true.
Proof.
  destruct x as [s|s| |s m e]; simpl; intros H; try contradiction; subst;
    reflexivity.
Qed.


(** ** Standard deviation *)

Lemma not_nan_has_sign (x : spec_float) :
  x <> S754_nan -> exists s, has_sign s x.
Proof.
  destruct x as [s|s| |s m e]; try congruence; intros _; exists s;
    reflexivity.
Qed.

Lemma accumulate_not_nan (xs : list double) (init : double) :
  Forall (fun x => is_finite x = true) xs ->
  Prim2SF init <> S754_nan -> Prim2SF (accumulate xs init) <> S754_nan.
Proof.
  unfold accumulate. intros Hall. revert init.
  induction Hall as [|x xs Hx Hall IH]; intros init Hinit; simpl; auto.
  apply IH. rewrite add_spec.
  apply SFadd_finite_not_nan; auto. now apply is_finite_spec.
Qed.

Lemma double_of_size_positive (k : nat) :
  (0 < Z.of_nat k < 2 ^ 53)%Z ->
  exists m e, Prim2SF (double_of_size k) = S754_finite false m e.
Proof.
  intros Hk. destruct (double_of_size_exact k Hk) as (m & Hm & _). eauto.
Qed.

Lemma calculate_mean_not_nan (xs : list double) :
  Forall (fun x => is_finite x = true) xs ->
  (Z.of_nat (List.length xs) < 2 ^ 53)%Z ->
  Prim2SF (calculate_mean xs) <> S754_nan.
Proof.
  intros Hall Hlen. unfold calculate_mean.
  destruct xs as [|x xs]; [discriminate|].
  destruct (double_of_size_positive (List.length (x :: xs))) as (m & e & HK);
    [simpl List.length in *; lia|].
  rewrite div_spec, HK.
  destruct (not_nan_has_sign (Prim2SF (accumulate (x :: xs) 0%float)))
    as [s Hs].
  { apply accumulate_not_nan; auto. discriminate. }
  eapply has_sign_not_nan, SFdiv_positive_sign, Hs.
Qed.

Lemma sum_squared_deviations_nonneg (xs : list double) (avg : double) :
  Forall (fun x => is_finite x = true) xs ->
  Prim2SF avg <> S754_nan ->
  has_sign false (Prim2SF (sum_squared_deviations xs avg)).
Proof.
  unfold sum_squared_deviations. intros Hall Havg.
  assert (Hinit : has_sign false (Prim2SF 0)) by reflexivity.
  revert Hinit. generalize 0%float as acc. 
  induction Hall as [|x xs Hx Hall IH]; intros acc Hacc; simpl; auto.
  apply IH. rewrite add_spec, mul_spec, sub_spec.
  apply SFadd_nonneg; auto. apply SFmul_square_nonneg.
  apply SFsub_finite_not_nan; auto. now apply is_finite_spec.
Qed.

(** The standard deviation of finite values is not negative (and not NaN). *)
Lemma calculate_std_dev_nonneg (xs : list double) :
  Forall (fun x => is_finite x = true) xs ->
  (Z.of_nat (List.length xs) < 2 ^ 53)%Z ->
  (0 <=? calculate_std_dev xs)%float = true.
Proof.
  intros Hall Hlen. unfold calculate_std_dev.
  destruct (Nat.ltb_spec (List.length xs) 2) as [|Hge]; [reflexivity|].
  destruct (double_of_size_positive (List.length xs - 1)) as (m & e & HK);
    [lia|].
  rewrite leb_spec, sqrt_spec, div_spec, HK.
  apply SFleb_zero_nonneg, SFsqrt_nonneg, SFdiv_positive_sign.
  apply sum_squared_deviations_nonneg; auto.
  apply calculate_mean_not_nan; auto.
Qed.

Lemma sum_squared_deviations_constant (xs : list double) (c : double) :
  is_finite c = true -> Forall (fun x => x = c) xs ->
  sum_squared_deviations xs c = 0%float.
Proof.
  intros Hc Hall. unfold sum_squared_deviations.
  induction Hall as [|x xs -> Hall IH]; simpl; auto.
  now rewrite (sub_self c Hc).
Qed.

Lemma time_series_std_dev (ts : TimeSeriesData) :
  TimeSeries.std_dev ts = calculate_std_dev (values ts).
Proof. reflexivity. Qed.

Lemma time_series_mean (ts : TimeSeriesData) :
  TimeSeries.mean ts = calculate_mean (values ts).
Proof. reflexivity. Qed.

(** The standard deviation of a constant sequence whose mean is computed
    without error. *)
Lemma calculate_std_dev_constant (xs : list double) (c : double) :
  is_finite c = true -> Forall (fun x => x = c) xs ->
  (Z.of_nat (List.length xs) < 2 ^ 53)%Z ->
  calculate_mean xs = c ->
  calculate_std_dev xs = 0%float.
Proof.
  intros Hc Hall Hlen Hmean. unfold calculate_std_dev.
  destruct (Nat.ltb_spec (List.length xs) 2) as [|Hge]; [reflexivity|].
  destruct (double_of_size_positive (List.length xs - 1)) as (m & e & HK);
    [lia|].
  rewrite Hmean, (sum_squared_deviations_constant xs c Hc Hall).
  now rewrite (zero_div_positive _ m e HK).
Qed.

Lemma zero_div_times_finite (c : double) (s : bool) (m : positive) (e : Z) :
  Prim2SF c = S754_finite s m e -> (0 / c * 100 =? 0)%float = true.
Proof.
  intros H. rewrite eqb_spec, mul_spec, div_spec, H.
  now destruct s.
Qed.

(** C7, as the code has it. [calculate_std_dev] returns 0.0 for fewer than
    two points; it never returns a negative value (the result is at least 0
    or is NaN), and is at least 0 when the values are finite; for a constant
    sequence it returns 0, and [coefficient_of_variation] is 0, when the
    mean the code computes is the constant itself, which rounding does not
    always grant. Sequences are shorter than 2^53. *)
Theorem std_dev_properties :
  (forall xs : list double,
     (List.length xs < 2)%nat -> calculate_std_dev xs = 0%float) /\
  (forall xs : list double,
     (calculate_std_dev xs <? 0)%float = false /\
     ((0 <=? calculate_std_dev xs)%float = true \/
      is_nan (calculate_std_dev xs) = true)) /\
  (forall xs : list double,
     Forall (fun x => is_finite x = true) xs ->
     (Z.of_nat (List.length xs) < 2 ^ 53)%Z ->
     (0 <=? calculate_std_dev xs)%float = true) /\
  (forall (ts : TimeSeriesData) (c : double),
     is_finite c = true ->
     Forall (fun x => x = c) (values ts) ->
     (Z.of_nat (List.length (values ts)) < 2 ^ 53)%Z ->
     calculate_mean (values ts) = c ->
     calculate_std_dev (values ts) = 0%float /\
     TimeSeries.std_dev ts = 0%float /\
     (TimeSeries.coefficient_of_variation ts =? 0)%float = true).
Proof.
  split; [|split; [|split]].
  - intros xs Hlen. unfold calculate_std_dev.
    apply Nat.ltb_lt in Hlen. now rewrite Hlen.
  - intros xs. unfold calculate_std_dev.
    destruct (List.length xs <? 2)%nat.
    + split; [reflexivity|left; reflexivity].
    + split; [apply sqrt_not_negative|apply sqrt_nonneg_or_nan].
  - apply calculate_std_dev_nonneg.
  - intros ts c Hc Hall Hlen Hmean.
    pose proof (calculate_std_dev_constant (values ts) c Hc Hall Hlen Hmean)
      as Hdev.
    split; [exact Hdev|]. split; [now rewrite time_series_std_dev|].
    unfold TimeSeries.coefficient_of_variation.
    rewrite time_series_std_dev, time_series_mean, Hdev, Hmean.
    destruct (c =? 0)%float eqn:Hz; [reflexivity|].
    destruct (finite_nonzero c Hc Hz) as (s & m & e & Hs).
    apply (zero_div_times_finite c s m e Hs).
Qed.

Lemma std_dev_properties_witness :
  let ts := {| seasons := ["2019-20"; "2020-21"; "2021-22"];
               values := [80%float; 80%float; 80%float];
               metric_name := "rating"; ts_player_name := "Kim" |} in
  is_finite 80%float = true /\
  Forall (fun x => x = 80%float) (values ts) /\
  (Z.of_nat (List.length (values ts)) < 2 ^ 53)%Z /\
  calculate_mean (values ts) = 80%float /\
  calculate_std_dev (values ts) = 0%float /\
  TimeSeries.std_dev ts = 0%float /\
  (TimeSeries.coefficient_of_variation ts =? 0)%float = true.
Proof.
  cbv zeta.
  assert (H1 : is_finite 80%float = true) by reflexivity.
  assert (H2 : Forall (fun x => x = 80%float)
                 [80%float; 80%float; 80%float])
    by (repeat constructor).
  assert (H3 : (Z.of_nat 3 < 2 ^ 53)%Z) by reflexivity.
  assert (H4 : calculate_mean [80%float; 80%float; 80%float] = 80%float)
    by reflexivity.
  split; [exact H1|]. split; [exact H2|]. split; [exact H3|].
  split; [exact H4|].
  exact (proj2 (proj2 (proj2 std_dev_properties))
           {| seasons := ["2019-20"; "2020-21"; "2021-22"];
              values := [80%float; 80%float; 80%float];
              metric_name := "rating"; ts_player_name := "Kim" |}
           80%float H1 H2 H3 H4).
Defined.

(** C7 as the specification words it fails: six seasons with the rating
    72.4 are a constant sequence, but the mean the code computes is not
    72.4, and the standard deviation and the coefficient of variation are
    not 0. The same happens with three values 0.1. And on a sequence with
    an infinite value the standard deviation is NaN, which is not at least
    0. *)
Lemma constant_sequence_deviates :
  let xs := [72.4%float; 72.4%float; 72.4%float;
             72.4%float; 72.4%float; 72.4%float] in
  let ts := {| seasons := []; values := xs;
               metric_name := "rating"; ts_player_name := "Kim" |} in
  calculate_mean xs = 72.399999999999991%float /\
  calculate_std_dev xs = 1.556721137788958e-14%float /\
  (calculate_std_dev xs =? 0)%float = false /\
  (TimeSeries.coefficient_of_variation ts =? 0)%float = false /\
  (calculate_std_dev [0.1%float; 0.1%float; 0.1%float] =? 0)%float = false /\
  is_nan (calculate_std_dev [infinity; 1%float]) = true /\
  (0 <=? calculate_std_dev [infinity; 1%float])%float = false.
Proof. vm_compute. repeat split. Qed.

(** ** Doubles: halves and integers *)

Lemma shr_fexp_none (m : positive) (e : Z) :
  canonical_mantissa prec emax m e = true ->
  shr_fexp prec emax (Zpos m) e loc_Exact
  = ({| shr_m := Zpos m; shr_r := false; shr_s := false |}, e).
Proof.
  unfold canonical_mantissa, shr_fexp. intros H. apply Z.eqb_eq in H.
  cbn [Zdigits2 shr_record_of_loc]. now rewrite H, Z.sub_diag.
Qed.

(** Half of a normal double, away from the subnormal range, is the double
    with the exponent one less. *)
Lemma SFmul_half (m : positive) (e : Z) :
  Zpos (digits2_pos m) = 53%Z -> (-1073 <= e <= 971)%Z ->
  SF64mul (Prim2SF 0.5) (S754_finite false m e) = S754_finite false m (e - 1).
Proof.
  intros Hdig He.
  change (Prim2SF 0.5) with (S754_finite false 4503599627370496 (-53)).
  unfold SF64mul, SFmul. cbn [xorb].
  change (4503599627370496 * m)%positive with (Pos.iter xO m 52).
  assert (Hshr : shr_fexp prec emax (Zpos (Pos.iter xO m 52)) (-53 + e)
                   loc_Exact
                 = ({| shr_m := Zpos m; shr_r := false; shr_s := false |},
                    (e - 1)%Z)).
  { unfold shr_fexp. cbn [Zdigits2]. rewrite digits2_iter_xO, Pos2Z.inj_add.
    rewrite Hdig.
    replace (fexp prec emax (53 + 52 + (-53 + e)) - (-53 + e))%Z with 52%Z
      by (unfold fexp, SpecFloat.emin, prec, emax; lia).
    unfold shr. f_equal; try reflexivity; lia. }
  unfold binary_round_aux. rewrite Hshr.
  cbn [shr_m loc_of_shr_record round_nearest_even].
  rewrite shr_fexp_none.
  - cbn [shr_m]. destruct (Z.leb_spec (e - 1) (emax - prec)); auto.
    unfold emax, prec in *. lia.
  - unfold canonical_mantissa. rewrite Hdig. apply Z.eqb_eq.
    unfold fexp, SpecFloat.emin, prec, emax. lia.
Qed.

Lemma double_of_Z_size (z : Z) :
  (0 < z)%Z -> double_of_Z z = double_of_size (Z.to_nat z).
Proof.
  intros Hz. unfold double_of_size. rewrite Z2Nat.id by lia.
  destruct z; try lia. reflexivity.
Qed.

(** An integer below 2^53 survives the way to [double] and back. *)
Lemma size_t_of_double_of_Z (z : Z) :
  (0 <= z < 2 ^ 53)%Z -> size_t_of_double (double_of_Z z) = Some (Z.to_nat z).
Proof.
  intros Hz. destruct (Z.eq_dec z 0) as [->|Hnz]; [reflexivity|].
  rewrite double_of_Z_size by lia.
  destruct (double_of_size_exact (Z.to_nat z)) as (m & Hm & Hv & _ & Hd);
    [rewrite Z2Nat.id; lia|].
  rewrite Z2Nat.id in Hv, Hm, Hd by lia.
  set (d := (Z.log2 z + 1)%Z) in *.
  unfold size_t_of_double. rewrite Hm. cbn [signed_mantissa].
  assert (Ht : (if (d - 53 <? 0)%Z
                then Z.quot (Zpos m) (2 ^ (- (d - 53)))
                else (Zpos m * 2 ^ (d - 53))%Z) = z).
  { rewrite Hv. destruct (Z.ltb_spec (d - 53) 0).
    - replace (- (d - 53))%Z with (53 - d)%Z by lia.
      apply Z.quot_mul. apply Z.pow_nonzero; lia.
    - replace d with 53%Z by lia. simpl. lia. }
  rewrite Ht.
  destruct (Z.leb_spec 0 z); [|lia].
  destruct (Z.ltb_spec z 18446744073709551616); [reflexivity|lia].
Qed.

Lemma half_floor (k a : Z) :
  (0 <= a)%Z -> (Z.shiftr (k * 2 ^ a) (a + 1) = k / 2)%Z.
Proof.
  intros Ha. rewrite Z.shiftr_div_pow2 by lia.
  rewrite Z.pow_add_r, Z.pow_1_r by lia.
  rewrite (Z.mul_comm (2 ^ a) 2).
  apply Z.div_mul_cancel_r; [lia|]. apply Z.pow_nonzero; lia.
Qed.

Lemma half_ceil (k a : Z) :
  (0 <= a)%Z -> (- Z.shiftr (- (k * 2 ^ a)) (a + 1) = (k + 1) / 2)%Z.
Proof.
  intros Ha. rewrite <- Z.mul_opp_l, half_floor by lia.
  pose proof (Z.div_mod (- k) 2). pose proof (Z.mod_pos_bound (- k) 2).
  pose proof (Z.div_mod (k + 1) 2). pose proof (Z.mod_pos_bound (k + 1) 2).
  lia.
Qed.

(** The index of the 50th percentile: half of [k], for [k] below 2^53. *)
Lemma percentile_50_index (k : nat) :
  (0 < Z.of_nat k < 2 ^ 53)%Z ->
  let index := (50 / 100 * double_of_size k)%float in
  size_t_of_double (std_floor index) = Some (k / 2)%nat /\
  size_t_of_double (std_ceil index) = Some ((k + 1) / 2)%nat /\
  exists m e,
    Prim2SF index = S754_finite false m (e - 1) /\
    (e = Z.log2 (Z.of_nat k) + 1 - 53)%Z /\
    Zpos m = (Z.of_nat k * 2 ^ (- e))%Z.
Proof.
  intros Hk index.
  destruct (double_of_size_exact k Hk) as (m & Hm & Hv & Hdig & Hd).
  set (e := (Z.log2 (Z.of_nat k) + 1 - 53)%Z) in *.
  assert (Hidx : Prim2SF index = S754_finite false m (e - 1)).
  { unfold index. change (50 / 100)%float with 0.5%float.
    rewrite mul_spec, Hm. apply SFmul_half; auto. lia. }
  replace (53 - (Z.log2 (Z.of_nat k) + 1))%Z with (- e)%Z in Hv by lia.
  assert (He : (e - 1 <? 0)%Z = true) by (apply Z.ltb_lt; lia).
  assert (Hhalf : (0 <= Z.of_nat k / 2 < 2 ^ 53)%Z).
  { split; [apply Z.div_pos; lia|].
    apply Z.div_lt_upper_bound; lia. }
  assert (Hhalf' : (0 <= (Z.of_nat k + 1) / 2 < 2 ^ 53)%Z).
  { split; [apply Z.div_pos; lia|].
    apply Z.div_lt_upper_bound; lia. }
  split; [|split].
  - unfold std_floor. rewrite Hidx, He. cbn [signed_mantissa].
    rewrite Hv. replace (- (e - 1))%Z with (- e + 1)%Z by lia.
    rewrite half_floor by lia.
    rewrite size_t_of_double_of_Z by assumption. f_equal.
    change 2%Z with (Z.of_nat 2). rewrite <- Nat2Z.inj_div.
    apply Nat2Z.id.
  - unfold std_ceil. rewrite Hidx, He. cbn [signed_mantissa].
    rewrite andb_false_r.
    rewrite Hv. replace (- (e - 1))%Z with (- e + 1)%Z by lia.
    rewrite half_ceil by lia.
    rewrite size_t_of_double_of_Z by assumption. f_equal.
    change 2%Z with (Z.of_nat 2). change 1%Z with (Z.of_nat 1).
    rewrite <- Nat2Z.inj_add, <- Nat2Z.inj_div.
    apply Nat2Z.id.
  - exists m, e. auto.
Qed.

Lemma log2_half (k : Z) :
  (2 <= k)%Z -> Z.log2 (k / 2) = (Z.log2 k - 1)%Z.
Proof.
  intros Hk.
  pose proof (Z.log2_spec k ltac:(lia)) as [Hlo Hhi].
  assert (Hl : (1 <= Z.log2 k)%Z).
  { change 1%Z with (Z.log2 2). apply Z.log2_le_mono. lia. }
  rewrite Z.pow_succ_r in Hhi by lia.
  replace (Z.log2 k) with (Z.succ (Z.log2 k - 1)) in Hlo by lia.
  rewrite Z.pow_succ_r in Hlo by lia.
  apply Z.log2_unique; [lia|].
  replace (Z.succ (Z.log2 k - 1)) with (Z.log2 k) by lia.
  split.
  - apply Z.div_le_lower_bound; lia.
  - apply Z.div_lt_upper_bound; lia.
Qed.

(** The interpolation weight of the 50th percentile between two ranks. *)
Lemma percentile_50_weight (k : nat) :
  (0 < Z.of_nat k < 2 ^ 53)%Z -> Nat.odd k = true ->
  (50 / 100 * double_of_size k - double_of_size (k / 2) = 0.5)%float.
Proof.
  intros Hk Hodd.
  destruct (Nat.eq_dec k 1) as [->|Hk1]; [reflexivity|].
  assert (Hk3 : (3 <= k)%nat).
  { destruct k as [|[|[|k]]]; try lia; discriminate. }
  destruct (percentile_50_index k Hk) as (_ & _ & m & e & Hidx & He & Hv).
  assert (Hlow : (0 < Z.of_nat (k / 2) < 2 ^ 53)%Z).
  { rewrite Nat2Z.inj_div. change (Z.of_nat 2) with 2%Z. split.
    - apply Z.div_str_pos. lia.
    - apply Z.div_lt_upper_bound; lia. }
  destruct (double_of_size_exact (k / 2) Hlow) as (m' & Hm' & Hv' & _ & _).
  assert (Hlog : Z.log2 (Z.of_nat (k / 2)) = (Z.log2 (Z.of_nat k) - 1)%Z).
  { rewrite Nat2Z.inj_div. apply log2_half. lia. }
  rewrite Hlog in Hm', Hv'.
  replace (Z.log2 (Z.of_nat k) - 1 + 1 - 53)%Z with (e - 1)%Z in Hm' by lia.
  replace (53 - (Z.log2 (Z.of_nat k) - 1 + 1))%Z with (- e + 1)%Z in Hv'
    by lia.
  assert (He0 : (- 52 <= e <= 0)%Z).
  { pose proof (Z.log2_nonneg (Z.of_nat k)).
    assert (Z.log2 (Z.of_nat k) < 53)%Z by (apply Z.log2_lt_pow2; lia).
    lia. }
  assert (Hdiff : (Zpos m - Zpos m' = 2 ^ (- e))%Z).
  { rewrite Hv, Hv', Z.pow_add_r, Z.pow_1_r by lia.
    rewrite Nat2Z.inj_div. change (Z.of_nat 2) with 2%Z.
    assert (Hmod : (Z.of_nat k mod 2 = 1)%Z).
    { apply Nat.odd_spec in Hodd. destruct Hodd as [j ->].
      rewrite Nat2Z.inj_add, Nat2Z.inj_mul. simpl Z.of_nat.
      rewrite Z.add_comm, Z.mul_comm, Z.mod_add by lia. reflexivity. }
    pose proof (Z.div_mod (Z.of_nat k) 2 ltac:(lia)) as Hdm.
    rewrite Hmod in Hdm. nia. }
  apply Prim2SF_inj. rewrite sub_spec, Hidx, Hm'.
  change (Prim2SF 0.5) with (S754_finite false 4503599627370496 (-53)).
  unfold SF64sub, SFsub, shl_align. rewrite Z.min_id, Z.sub_diag.
  cbn [fst cond_Zopp]. rewrite Hdiff.
  destruct (2 ^ (- e))%Z as [|p|p] eqn:Ep;
    try (pose proof (Z.pow_pos_nonneg 2 (- e)); lia).
  assert (Hdig : Zpos (digits2_pos p) = (- e + 1)%Z).
  { rewrite Zlog2_digits, <- Ep, Z.log2_pow2 by lia. reflexivity. }
  destruct (binary_normalize_exact_at p (e - 1)) as (m0 & Hm0 & Hv0 & _);
    [rewrite Hdig; lia|rewrite Hdig; lia|].
  rewrite Hm0, Hdig. replace (- e + 1 + (e - 1) - 53)%Z with (-53)%Z by lia.
  f_equal. apply Pos2Z.inj. rewrite Hv0, Hdig, <- Ep, <- Z.pow_add_r by lia.
  replace (- e + (53 - (- e + 1)))%Z with 52%Z by lia. reflexivity.
Qed.

(** ** Median and percentile *)

Lemma sorted_doubles
  (std_sort : forall A : Type, (A -> A -> bool) -> list A -> list A)
  (std_sort_ok : sort_contract std_sort) (xs : list double) :
  Forall (fun x => is_nan x = false) xs ->
  Permutation xs (std_sort double PrimFloat.ltb xs) /\
  is_sorted PrimFloat.ltb (std_sort double PrimFloat.ltb xs).
Proof.
  intros Hnan. apply std_sort_ok. exact (ltb_Compare (fun x => x) xs Hnan).
Qed.

Lemma vec_at_some {A : Type} (v : list A) (i : nat) :
  (i < List.length v)%nat -> exists x, vec_at v i = Some x.
Proof.
  intros Hi. unfold vec_at. destruct (nth_error v i) eqn:E; eauto.
  apply nth_error_None in E. lia.
Qed.

Lemma half_of (a j : nat) :
  (a = 2 * j \/ a = 2 * j + 1)%nat -> (a / 2 = j)%nat.
Proof.
  intros [->| ->]; symmetry.
  - apply (Nat.div_unique _ 2 j 0); lia.
  - apply (Nat.div_unique _ 2 j 1); lia.
Qed.

(** [calculate_percentile] at 50, on the sorted copy. *)
Lemma calculate_percentile_50
  (std_sort : forall A : Type, (A -> A -> bool) -> list A -> list A)
  (xs : list double) :
  let sorted := std_sort double PrimFloat.ltb xs in
  let n := List.length sorted in
  xs <> [] -> (0 < n)%nat -> (Z.of_nat n <= 2 ^ 53)%Z ->
  calculate_percentile std_sort xs 50%float
  = if Nat.odd n then vec_at sorted (n / 2)
    else match vec_at sorted (n / 2 - 1), vec_at sorted (n / 2) with
         | Some a, Some b => Some (a * 0.5 + b * 0.5)%float
         | _, _ => None
         end.
Proof.
  intros sorted n Hne Hpos Hn. unfold calculate_percentile.
  destruct xs as [|x xs]; [contradiction|]. fold sorted. fold n.
  destruct (Nat.eq_dec n 1) as [H1|H1].
  - rewrite H1. reflexivity.
  - destruct (percentile_50_index (n - 1)) as (Hfloor & Hceil & _); [lia|].
    rewrite Hfloor, Hceil.
    destruct (Nat.odd n) eqn:Hodd.
    + assert (Heven : Nat.even (n - 1) = true).
      { replace n with (S (n - 1)) in Hodd by lia.
        now rewrite Nat.odd_succ in Hodd. }
      apply Nat.even_spec in Heven. destruct Heven as [j Hj].
      assert (Hlow : ((n - 1) / 2 = j)%nat)
        by (apply half_of; lia).
      assert (Hup : ((n - 1 + 1) / 2 = j)%nat)
        by (apply half_of; lia).
      assert (Hmid : (n / 2 = j)%nat)
        by (apply half_of; lia).
      rewrite Hlow, Hup, Hmid, Nat.eqb_refl. reflexivity.
    + assert (Hodd' : Nat.odd (n - 1) = true).
      { replace n with (S (n - 1)) in Hodd by lia.
        rewrite Nat.odd_succ in Hodd. rewrite <- Nat.negb_even.
        now rewrite Hodd. }
      rewrite (percentile_50_weight (n - 1)) by (auto; lia).
      apply Nat.odd_spec in Hodd'. destruct Hodd' as [j Hj].
      assert (Hlow : ((n - 1) / 2 = j)%nat)
        by (apply half_of; lia).
      assert (Hup : ((n - 1 + 1) / 2 = j + 1)%nat)
        by (apply half_of; lia).
      assert (Hmid : (n / 2 = j + 1)%nat)
        by (apply half_of; lia).
      rewrite Hlow, Hup, Hmid.
      replace (j + 1 - 1)%nat with j by lia.
      destruct (Nat.eqb_spec j (j + 1)); [lia|].
      change (1 - 0.5)%float with 0.5%float. reflexivity.
Qed.

Lemma odd_mod_2 (n : nat) : (n mod 2 =? 0)%nat = negb (Nat.odd n).
Proof.
  destruct (Nat.Even_or_Odd n) as [[j ->]|[j ->]].
  - rewrite Nat.odd_mul. simpl negb.
    rewrite <- (Nat.mod_unique (2 * j) 2 j 0); [reflexivity|lia|lia].
  - rewrite Nat.add_comm, Nat.odd_add_mul_2. simpl negb.
    rewrite <- (Nat.mod_unique (1 + 2 * j) 2 j 1); [reflexivity|lia|lia].
Qed.

Lemma calculate_median_sorted
  (std_sort : forall A : Type, (A -> A -> bool) -> list A -> list A)
  (xs : list double) :
  let sorted := std_sort double PrimFloat.ltb xs in
  let n := List.length sorted in
  xs <> [] ->
  calculate_median std_sort xs
  = if Nat.odd n then vec_at sorted (n / 2)
    else match vec_at sorted (n / 2 - 1), vec_at sorted (n / 2) with
         | Some a, Some b => Some ((a + b) / 2)%float
         | _, _ => None
         end.
Proof.
  intros sorted n Hne. unfold calculate_median.
  destruct xs as [|x xs]; [contradiction|]. fold sorted. fold n.
  rewrite odd_mod_2. now destruct (Nat.odd n).
Qed.

(** ** Doubles: rounding does not pass a double above *)

Lemma shifted_by_1 (mrs : shr_record) :
  (0 <= shr_m mrs)%Z -> shifted_by 1 mrs (shr_1 mrs).
Proof.
  destruct mrs as [m r s]. unfold shifted_by, inexact.
  change (2 ^ 1)%Z with 2%Z. cbn [shr_m shr_r shr_s]. intros Hm.
  destruct m as [|p|p]; try lia.
  - cbn [shr_1 shr_m shr_r shr_s]. split; [reflexivity|]. split; [lia|].
    rewrite orb_false_l. auto.
  - destruct p as [p|p|]; cbn [shr_1 shr_m shr_r shr_s].
    + split; [|split; [lia|]].
      * rewrite Pos2Z.inj_xI. apply (Z.div_unique _ 2 _ 1); lia.
      * intros _. right. rewrite Pos2Z.inj_xI.
        rewrite Z.add_comm, Z.mul_comm, Z.mod_add by lia. discriminate.
    + split; [|split; [lia|]].
      * rewrite Pos2Z.inj_xO. apply (Z.div_unique _ 2 _ 0); lia.
      * rewrite orb_false_l. auto.
    + split; [reflexivity|]. split; [lia|]. intros _. right. discriminate.
Qed.

Lemma shifted_by_trans (a b : Z) (x y z : shr_record) :
  (0 <= a)%Z -> (0 <= b)%Z -> (0 <= shr_m x)%Z ->
  shifted_by a x y -> shifted_by b y z -> shifted_by (a + b) x z.
Proof.
  unfold shifted_by. intros Ha Hb Hx (Hy & Hy0 & Hiy) (Hz & Hz0 & Hiz).
  assert (Hpa : (0 < 2 ^ a)%Z) by (apply Z.pow_pos_nonneg; lia).
  assert (Hpb : (0 < 2 ^ b)%Z) by (apply Z.pow_pos_nonneg; lia).
  split; [|split; [exact Hz0|]].
  - rewrite Hz, Hy, Z.pow_add_r, Z.div_div by lia. reflexivity.
  - intros Hi. destruct (Hiz Hi) as [Hi'|Hmod].
    + destruct (Hiy Hi') as [Hi''|Hmod]; [now left|]. right.
      intros H0. apply Hmod.
      apply Z.mod_divide in H0; [|rewrite Z.pow_add_r by lia; lia].
      apply Z.mod_divide; [lia|].
      destruct H0 as [t Ht]. exists (t * 2 ^ b)%Z.
      rewrite Ht, Z.pow_add_r by lia. ring.
    + right. intros H0. apply Hmod.
      apply Z.mod_divide in H0; [|rewrite Z.pow_add_r by lia; lia].
      apply Z.mod_divide; [lia|].
      destruct H0 as [t Ht]. exists t.
      rewrite Hy, Ht, Z.pow_add_r by lia.
      replace (t * (2 ^ a * 2 ^ b))%Z with (t * 2 ^ b * 2 ^ a)%Z by ring.
      now rewrite Z.div_mul by lia.
Qed.

Lemma shifted_by_iter (p : positive) (mrs : shr_record) :
  (0 <= shr_m mrs)%Z -> shifted_by (Zpos p) mrs (iter_pos shr_1 p mrs).
Proof.
  revert mrs. induction p as [p IH|p IH|]; intros mrs Hm; simpl iter_pos.
  - pose proof (shifted_by_1 mrs Hm) as H1.
    assert (Hm1 : (0 <= shr_m (shr_1 mrs))%Z) by apply H1.
    pose proof (IH _ Hm1) as H2.
    assert (Hm2 : (0 <= shr_m (iter_pos shr_1 p (shr_1 mrs)))%Z) by apply H2.
    pose proof (IH _ Hm2) as H3.
    rewrite Pos2Z.inj_xI.
    replace (2 * Zpos p + 1)%Z with (1 + Zpos p + Zpos p)%Z by lia.
    eapply shifted_by_trans; [lia|lia|assumption| |exact H3].
    eapply shifted_by_trans; [lia|lia|assumption|exact H1|exact H2].
  - pose proof (IH _ Hm) as H1.
    assert (Hm1 : (0 <= shr_m (iter_pos shr_1 p mrs))%Z) by apply H1.
    pose proof (IH _ Hm1) as H2.
    rewrite Pos2Z.inj_xO.
    replace (2 * Zpos p)%Z with (Zpos p + Zpos p)%Z by lia.
    eapply shifted_by_trans; [lia|lia|assumption|exact H1|exact H2].
  - now apply shifted_by_1.
Qed.

Lemma shifted_by_0 (mrs : shr_record) :
  (0 <= shr_m mrs)%Z -> shifted_by 0 mrs mrs.
Proof.
  intros Hm. unfold shifted_by. rewrite Z.div_1_r. auto.
Qed.

(** [shr] shifts by [n], or not at all when [n] is not positive. *)
Lemma shr_shifted (mrs : shr_record) (e n : Z) :
  (0 <= shr_m mrs)%Z ->
  shifted_by (Z.max n 0) mrs (fst (shr mrs e n)) /\
  snd (shr mrs e n) = (e + Z.max n 0)%Z.
Proof.
  intros Hm. unfold shr. destruct n as [|p|p]; simpl fst; simpl snd.
  - split; [now apply shifted_by_0|]. simpl. lia.
  - rewrite Z.max_l by lia. split; [now apply shifted_by_iter|reflexivity].
  - rewrite Z.max_r by lia. split; [now apply shifted_by_0|lia].
Qed.

Lemma shr_record_of_loc_inexact (m : Z) (l : location) :
  inexact (shr_record_of_loc m l) = true -> l <> loc_Exact.
Proof.
  destruct l as [|[]]; simpl; try discriminate; intros _ H; discriminate.
Qed.

Lemma round_nearest_even_bounds (mrs : shr_record) :
  let m := round_nearest_even (shr_m mrs) (loc_of_shr_record mrs) in
  (shr_m mrs <= m <= shr_m mrs + 1)%Z /\
  (m <> shr_m mrs -> inexact mrs = true).
Proof.
  destruct mrs as [m [|] [|]]; unfold inexact; simpl;
    try destruct (Z.even m); split; try lia; auto; intros H; lia.
Qed.

Lemma Zdigits2_bounds (m : Z) :
  (0 < m)%Z -> (2 ^ (Zdigits2 m - 1) <= m < 2 ^ Zdigits2 m)%Z.
Proof.
  destruct m as [|p|p]; try lia. intros _. apply digits2_pos_bounds.
Qed.

Lemma bounded_facts (m : positive) (e : Z) :
  bounded prec emax m e = true ->
  (-1074 <= e <= 971)%Z /\ (Zpos m < 2 ^ 53)%Z /\
  ((-1074 < e)%Z -> (2 ^ 52 <= Zpos m)%Z).
Proof.
  unfold bounded, canonical_mantissa, fexp, SpecFloat.emin, prec, emax.
  intros H. apply andb_true_iff in H. destruct H as [Hc He].
  apply Z.eqb_eq in Hc. apply Z.leb_le in He.
  pose proof (digits2_pos_bounds m) as Hd.
  split; [lia|]. split.
  - assert (Zpos (digits2_pos m) <= 53)%Z by lia.
    assert (2 ^ Zpos (digits2_pos m) <= 2 ^ 53)%Z
      by (apply Z.pow_le_mono_r; lia).
    lia.
  - intros Hn. assert (Hdig : Zpos (digits2_pos m) = 53%Z) by lia.
    rewrite Hdig in Hd. simpl in Hd. lia.
Qed.

Lemma pow2_split (a b : Z) :
  (0 <= a)%Z -> (0 <= b)%Z -> (2 ^ (a + b) = 2 ^ a * 2 ^ b)%Z.
Proof. intros. apply Z.pow_add_r; lia. Qed.

Lemma pow2_pos (a : Z) : (0 <= a)%Z -> (0 < 2 ^ a)%Z.
Proof. intros. apply Z.pow_pos_nonneg; lia. Qed.

(** Rounding to nearest does not pass a double above: if the value
    [m * 2^e] (with the location [l] of what was cut off) is at most the
    double [mB * 2^eB], so is the rounded result. The values are compared
    after scaling by [2^(-L)], [L] below both exponents; the mantissa [m]
    has at least 53 bits or [e] is at most the least exponent. *)
Lemma round_upper_bound (m e : Z) (l : location) (mB : positive)
  (eB L : Z) :
  (0 <= m)%Z -> (e <= fexp prec emax (Zdigits2 m + e))%Z ->
  bounded prec emax mB eB = true ->
  (L <= e)%Z -> (L <= eB)%Z ->
  (m * 2 ^ (e - L) <= Zpos mB * 2 ^ (eB - L))%Z ->
  (l <> loc_Exact -> (m * 2 ^ (e - L) < Zpos mB * 2 ^ (eB - L))%Z) ->
  binary_round_aux prec emax false m e l = S754_zero false \/
  exists m3 e3,
    binary_round_aux prec emax false m e l = S754_finite false m3 e3 /\
    (e <= e3)%Z /\
    (Zpos m3 * 2 ^ (e3 - L) <= Zpos mB * 2 ^ (eB - L))%Z.
Proof.
  intros Hm Hc HB HLe HLB Hval Hstrict.
  destruct (bounded_facts mB eB HB) as (HeB & HmB & _).
  set (c := fexp prec emax (Zdigits2 m + e)) in *.
  assert (Hcmin : (-1074 <= c)%Z)
    by (unfold c, fexp, SpecFloat.emin, prec, emax; lia).
  (* the first shift *)
  unfold binary_round_aux, shr_fexp. fold c.
  destruct (shr_shifted (shr_record_of_loc m l) e (c - e)) as [Hs1 He1];
    [rewrite shr_record_of_loc_m; exact Hm|].
  destruct (shr (shr_record_of_loc m l) e (c - e)) as [mrs1 e1].
  cbn [fst snd] in Hs1, He1. rewrite Z.max_l in * by lia.
  replace (e + (c - e))%Z with c in He1 by lia. subst e1.
  destruct Hs1 as (Hm1 & Hm1pos & Hin1). rewrite shr_record_of_loc_m in *.
  pose proof (round_nearest_even_bounds mrs1) as [Hrne Hrne'].
  cbv zeta in Hrne, Hrne'.
  set (m2 := round_nearest_even (shr_m mrs1) (loc_of_shr_record mrs1)) in *.
  (* the bound is on the grid of the result *)
  assert (HcB : (c <= eB)%Z).
  { destruct (Z.le_gt_cases c eB) as [|Hgt]; auto. exfalso.
    assert (Hcd : c = (Zdigits2 m + e - 53)%Z)
      by (unfold c, fexp, SpecFloat.emin, prec, emax in *; lia).
    assert (Hmpos : (0 < m)%Z).
    { destruct m as [|pm|pm]; try lia. simpl in Hcd. lia. }
    pose proof (Zdigits2_bounds m Hmpos) as [Hlo _].
    assert (Hd1 : (1 <= Zdigits2 m)%Z).
    { destruct m as [|pm|pm]; simpl; lia. }
    assert (H1 : (2 ^ 53 * 2 ^ (eB - L)
                  <= 2 ^ (Zdigits2 m - 1) * 2 ^ (e - L))%Z).
    { rewrite <- !Z.pow_add_r by lia. apply Z.pow_le_mono_r; lia. }
    pose proof (pow2_pos (e - L) ltac:(lia)).
    pose proof (pow2_pos (eB - L) ltac:(lia)).
    nia. }
  set (b := (Zpos mB * 2 ^ (eB - c))%Z).
  pose proof (pow2_pos (e - L) ltac:(lia)) as HpeL.
  pose proof (pow2_pos (c - e) ltac:(lia)) as Hpce.
  pose proof (pow2_pos (c - L) ltac:(lia)) as HpcL.
  pose proof (pow2_pos (eB - c) ltac:(lia)) as HpBc.
  assert (HBb : (Zpos mB * 2 ^ (eB - L) = b * 2 ^ (c - L))%Z).
  { unfold b. replace (eB - L)%Z with (eB - c + (c - L))%Z by lia.
    rewrite pow2_split by lia. ring. }
  assert (HcL : (2 ^ (c - L) = 2 ^ (c - e) * 2 ^ (e - L))%Z).
  { rewrite <- pow2_split by lia. f_equal. lia. }
  assert (Hmb : (m <= b * 2 ^ (c - e))%Z) by (rewrite HBb, HcL in Hval; nia).
  assert (Hm1b : (shr_m mrs1 <= b)%Z).
  { rewrite Hm1. apply Z.div_le_upper_bound; [lia|]. lia. }
  assert (Hm2b : (m2 <= b)%Z).
  { destruct (Z.eq_dec m2 (shr_m mrs1)) as [->|Hne]; auto.
    assert (Hlt : (shr_m mrs1 < b)%Z); [|lia].
    destruct (Hin1 (Hrne' Hne)) as [Hl|Hmod].
    - apply shr_record_of_loc_inexact in Hl. specialize (Hstrict Hl).
      rewrite HBb, HcL in Hstrict. rewrite Hm1.
      apply Z.div_lt_upper_bound; [lia|]. nia.
    - pose proof (Z.div_mod m (2 ^ (c - e)) ltac:(lia)) as Hdm.
      pose proof (Z.mod_pos_bound m (2 ^ (c - e)) ltac:(lia)) as Hmb'.
      rewrite <- Hm1 in Hdm. nia. }
  (* the second shift *)
  set (c2 := fexp prec emax (Zdigits2 m2 + c)).
  destruct (shr_shifted (shr_record_of_loc m2 loc_Exact) c (c2 - c))
    as [Hs2 He2]; [simpl; lia|].
  destruct (shr (shr_record_of_loc m2 loc_Exact) c (c2 - c)) as [mrs2 e2].
  cbn [fst snd] in Hs2, He2. destruct Hs2 as (Hm3 & Hm3pos & _).
  cbn [shr_record_of_loc shr_m] in Hm3.
  set (n2 := Z.max (c2 - c) 0) in *.
  assert (Hn2 : (0 <= n2)%Z) by (unfold n2; lia).
  pose proof (pow2_pos n2 Hn2) as Hpn2.
  assert (Hm3le : (shr_m mrs2 * 2 ^ n2 <= m2)%Z).
  { rewrite Hm3, Z.mul_comm. apply Z.mul_div_le. lia. }
  assert (He2le : (e2 <= 971)%Z).
  { subst e2. destruct (Z.eq_dec n2 0) as [->|Hnz]; [lia|].
    assert (Hc2 : c2 = (Zdigits2 m2 + c - 53)%Z)
      by (unfold n2, c2, fexp, SpecFloat.emin, prec, emax in *; lia).
    assert (Hm2pos : (0 < m2)%Z).
    { destruct m2 as [|pm|pm]; try lia. simpl in Hc2. unfold n2 in *. lia. }
    pose proof (Zdigits2_bounds m2 Hm2pos) as [Hlo _].
    assert (Hn2' : n2 = (Zdigits2 m2 - 53)%Z) by (unfold n2; lia).
    destruct (Z.le_gt_cases (c + n2) eB) as [|Hgt]; [lia|]. exfalso.
    assert (H1 : (2 ^ 53 * 2 ^ (eB - c) <= 2 ^ (Zdigits2 m2 - 1))%Z).
    { rewrite <- Z.pow_add_r by lia. apply Z.pow_le_mono_r; lia. }
    unfold b in Hm2b. nia. }
  destruct (shr_m mrs2) as [|m3|m3] eqn:E3; [now left| |lia].
  right. exists m3, e2.
  destruct (Z.leb_spec e2 (emax - prec)) as [_|Hgt];
    [|unfold emax, prec in Hgt; lia].
  split; [reflexivity|]. split; [lia|].
  rewrite HBb. subst e2.
  replace (c + n2 - L)%Z with (n2 + (c - L))%Z by lia.
  rewrite pow2_split by lia. nia.
Qed.

(** The order of two positive doubles is the order of their values. *)
Lemma SFleb_value (m1 : positive) (e1 : Z) (m2 : positive) (e2 L : Z) :
  bounded prec emax m1 e1 = true -> bounded prec emax m2 e2 = true ->
  SFleb (S754_finite false m1 e1) (S754_finite false m2 e2) = true ->
  (L <= e1)%Z -> (L <= e2)%Z ->
  (Zpos m1 * 2 ^ (e1 - L) <= Zpos m2 * 2 ^ (e2 - L))%Z.
Proof.
  intros H1 H2 Hle HL1 HL2.
  destruct (bounded_facts m1 e1 H1) as (He1 & Hm1 & _).
  destruct (bounded_facts m2 e2 H2) as (He2 & _ & Hm2).
  unfold SFleb in Hle. simpl in Hle.
  change (Pos.compare_cont Eq m1 m2) with (Pos.compare m1 m2) in Hle.
  pose proof (pow2_pos (e1 - L) ltac:(lia)) as Hp1.
  destruct (Z.compare_spec e1 e2) as [->|Hlt|Hgt]; try discriminate.
  - destruct (Pos.compare_spec m1 m2); try discriminate; nia.
  - specialize (Hm2 ltac:(lia)).
    replace (e2 - L)%Z with (e2 - e1 + (e1 - L))%Z by lia.
    rewrite pow2_split by lia.
    assert (Hpow : (2 ^ 1 <= 2 ^ (e2 - e1))%Z)
      by (apply Z.pow_le_mono_r; lia).
    change (2 ^ 1)%Z with 2%Z in Hpow.
    change (2 ^ 53)%Z with 9007199254740992%Z in Hm1.
    change (2 ^ 52)%Z with 4503599627370496%Z in Hm2.
    assert (Hm12 : (Zpos m1 <= Zpos m2 * 2 ^ (e2 - e1))%Z) by nia.
    rewrite Z.mul_assoc. apply Z.mul_le_mono_nonneg_r; lia.
Qed.

Lemma new_location_exact (nb k : Z) :
  new_location nb k <> loc_Exact -> k <> 0%Z.
Proof.
  unfold new_location, new_location_even, new_location_odd.
  intros H ->. apply H. now destruct (Z.even nb).
Qed.

Lemma shift_match (m : positive) (s : Z) :
  (0 <= s)%Z ->
  match s with
  | 0%Z => Zpos m
  | Zpos _ => Z.shiftl (Zpos m) s
  | Zneg _ => 0%Z
  end = (Zpos m * 2 ^ s)%Z.
Proof.
  intros Hs. destruct s as [|p|p]; [| |lia].
  - now rewrite Z.mul_1_r.
  - apply Z.shiftl_mul_pow2. lia.
Qed.

(** A percentage that is at most 100, divided by 100, is at most 1. *)
Lemma div_100_le_1 (mp : positive) (ep : Z) :
  bounded prec emax mp ep = true ->
  SFleb (S754_finite false mp ep) (Prim2SF 100) = true ->
  let q := SF64div (S754_finite false mp ep) (Prim2SF 100) in
  q = S754_zero false \/
  exists mq eq,
    q = S754_finite false mq eq /\ (-1074 <= eq)%Z /\
    (Zpos mq * 2 ^ (eq + 1200) <= 2 ^ 1200)%Z.
Proof.
  intros Hp Hle q. subst q.
  change (Prim2SF 100) with (S754_finite false 7036874417766400 (-46)) in *.
  destruct (bounded_facts mp ep Hp) as (Hep & Hmp & _).
  pose proof (SFleb_value mp ep 7036874417766400 (-46) (-1200) Hp eq_refl Hle
                ltac:(lia) ltac:(lia)) as Hval.
  unfold SF64div, SFdiv, SFdiv_core_binary. cbn [xorb].
  change (Zdigits2 7036874417766400) with 53%Z.
  set (d1 := Zdigits2 (Zpos mp)).
  set (e' := Z.min (fexp prec emax (d1 + ep - (53 + -46))) (ep - -46)).
  assert (He' : (-1074 <= e' <= ep + 46)%Z)
    by (unfold e', fexp, SpecFloat.emin, prec, emax; lia).
  set (s := (ep - -46 - e')%Z).
  assert (Hs : (0 <= s)%Z) by (unfold s; lia).
  rewrite (shift_match mp s Hs).
  pose proof (Z.div_eucl_eq (Zpos mp * 2 ^ s) 7036874417766400 ltac:(lia))
    as Hdiv.
  pose proof (Z.mod_pos_bound (Zpos mp * 2 ^ s) 7036874417766400 ltac:(lia))
    as Hmod.
  pose proof (div_eucl_nonneg (Zpos mp * 2 ^ s) 7036874417766400) as Hq.
  unfold Z.modulo in Hmod.
  destruct (Z.div_eucl (Zpos mp * 2 ^ s) 7036874417766400) as [qz r].
  cbn [fst] in Hq. pose proof (pow2_pos s Hs) as Hps.
  specialize (Hq ltac:(lia)).
  pose proof (pow2_pos (e' - -1200) ltac:(lia)) as Hpe.
  assert (Hscale : (Zpos mp * 2 ^ s * 2 ^ (e' - -1200)
                    = Zpos mp * 2 ^ (ep - -1200) * 2 ^ 46)%Z).
  { rewrite <- !Z.mul_assoc, <- !pow2_split by lia. do 2 f_equal.
    unfold s. lia. }
  destruct (round_upper_bound qz e' (new_location 7036874417766400 r)
              4503599627370496 (-52) (-1200))
    as [Hz|(mq & eq & Hq' & Heq & Hbound)]; auto; try lia.
  - (* the quotient has 53 bits, unless the exponent is the least one *)
    destruct (Z.eq_dec e' (-1074)) as [->|Hne].
    { unfold fexp, SpecFloat.emin, prec, emax. lia. }
    assert (Hd1 : (e' <= d1 + ep - 60)%Z)
      by (unfold e', fexp, SpecFloat.emin, prec, emax in *; lia).
    pose proof (digits2_pos_bounds mp) as [Hlo _]. fold d1 in Hlo.
    assert (H105 : (2 ^ 105 <= Zpos mp * 2 ^ s)%Z).
    { assert (2 ^ 105 <= 2 ^ (Zpos (digits2_pos mp) - 1 + s))%Z.
      { apply Z.pow_le_mono_r; [lia|]. unfold s.
        change (Zpos (digits2_pos mp)) with d1. lia. }
      rewrite pow2_split in H by lia. nia. }
    assert (Hq52 : (2 ^ 52 <= qz)%Z) by nia.
    assert (Hdq : (53 <= Zdigits2 qz)%Z).
    { pose proof (Zdigits2_bounds qz ltac:(lia)) as [_ Hhi].
      destruct (Z.le_gt_cases 53 (Zdigits2 qz)); auto.
      assert (2 ^ Zdigits2 qz <= 2 ^ 52)%Z.
      { apply Z.pow_le_mono_r; lia. }
      lia. }
    unfold fexp, SpecFloat.emin, prec, emax. lia.
  - change (Zpos 4503599627370496 * 2 ^ (-52 - -1200))%Z with (2 ^ 1200)%Z.
    assert (2 ^ (ep - -1200) * 2 ^ 46 > 0)%Z.
    { pose proof (pow2_pos (ep - -1200) ltac:(lia)). lia. }
    change (7036874417766400 * 2 ^ (-46 - -1200))%Z
      with (7036874417766400 * 2 ^ 1154)%Z in Hval.
    change (2 ^ 1200)%Z with (2 ^ 1154 * 2 ^ 46)%Z.
    nia.
  - intros Hloc. apply new_location_exact in Hloc.
    change (Zpos 4503599627370496 * 2 ^ (-52 - -1200))%Z with (2 ^ 1200)%Z.
    change (7036874417766400 * 2 ^ (-46 - -1200))%Z
      with (7036874417766400 * 2 ^ 1154)%Z in Hval.
    change (2 ^ 1200)%Z with (2 ^ 1154 * 2 ^ 46)%Z.
    nia.
  - right. exists mq, eq. split; [exact Hq'|]. split; [lia|].
    replace (eq + 1200)%Z with (eq - -1200)%Z by lia. exact Hbound.
Qed.

(** A double that is at most 1, times the double of an integer, is at most
    that integer. *)
Lemma mul_le_size (mq : positive) (eq : Z) (mk : positive) (ek : Z) :
  (-1074 <= eq)%Z -> (Zpos mq * 2 ^ (eq + 1200) <= 2 ^ 1200)%Z ->
  Zpos (digits2_pos mk) = 53%Z -> (-52 <= ek <= 0)%Z ->
  let x := SF64mul (S754_finite false mq eq) (S754_finite false mk ek) in
  x = S754_zero false \/
  exists mi ei,
    x = S754_finite false mi ei /\ (eq + ek <= ei)%Z /\
    (Zpos mi * 2 ^ (ei - ek + 1200) <= Zpos mk * 2 ^ 1200)%Z.
Proof.
  intros Heq Hq Hdig Hek x. subst x.
  unfold SF64mul, SFmul. cbn [xorb].
  pose proof (digits2_pos_bounds mk) as [Hlo Hhi]. rewrite Hdig in Hlo, Hhi.
  change (2 ^ (53 - 1))%Z with 4503599627370496%Z in Hlo.
  destruct (round_upper_bound (Zpos (mq * mk)) (eq + ek) loc_Exact mk ek
              (-1200 + ek))
    as [Hz|(mi & ei & Hx & Hei & Hbound)]; auto; try lia.
  - assert (Hd : (53 <= Zdigits2 (Zpos (mq * mk)))%Z).
    { pose proof (Zdigits2_bounds (Zpos (mq * mk)) ltac:(lia)) as [_ H].
      destruct (Z.le_gt_cases 53 (Zdigits2 (Zpos (mq * mk)))); auto.
      assert (2 ^ Zdigits2 (Zpos (mq * mk)) <= 2 ^ 52)%Z.
      { apply Z.pow_le_mono_r; [lia|]. lia. }
      change (2 ^ 52)%Z with 4503599627370496%Z in *. nia. }
    unfold fexp, SpecFloat.emin, prec, emax. lia.
  - unfold bounded, canonical_mantissa. rewrite Hdig.
    apply andb_true_iff. split.
    + apply Z.eqb_eq. unfold fexp, SpecFloat.emin, prec, emax. lia.
    + apply Z.leb_le. unfold prec, emax. lia.
  - replace (eq + ek - (-1200 + ek))%Z with (eq + 1200)%Z by lia.
    replace (ek - (-1200 + ek))%Z with 1200%Z by lia.
    rewrite Pos2Z.inj_mul. nia.
  - intros H. contradiction.
  - right. exists mi, ei. split; [exact Hx|]. split; [exact Hei|].
    replace (ei - (-1200 + ek))%Z with (ei - ek + 1200)%Z in Hbound by lia.
    replace (ek - (-1200 + ek))%Z with 1200%Z in Hbound by lia.
    exact Hbound.
Qed.

(** The ranks about an index that is at most [k]: the floor and the ceiling
    are indices of a vector of [k + 1] elements. *)
Lemma ranks_in_bounds (index : double) (mi : positive) (ei L k : Z) :
  Prim2SF index = S754_finite false mi ei ->
  (L <= ei)%Z -> (L <= 0)%Z -> (0 <= k < 2 ^ 53)%Z ->
  (Zpos mi * 2 ^ (ei - L) <= k * 2 ^ (- L))%Z ->
  exists lower upper,
    size_t_of_double (std_floor index) = Some lower /\
    size_t_of_double (std_ceil index) = Some upper /\
    (Z.of_nat lower <= k)%Z /\ (Z.of_nat upper <= k)%Z.
Proof.
  intros Hidx HL HL0 Hk Hval.
  pose proof (pow2_pos (ei - L) ltac:(lia)) as Hp.
  unfold std_floor, std_ceil. rewrite Hidx. cbn [signed_mantissa].
  destruct (Z.ltb_spec ei 0) as [Hneg|Hpos].
  - pose proof (pow2_pos (- ei) ltac:(lia)) as Hpa.
    assert (Hmi : (Zpos mi <= k * 2 ^ (- ei))%Z).
    { replace (- L)%Z with (- ei + (ei - L))%Z in Hval by lia.
      rewrite pow2_split in Hval by lia. nia. }
    rewrite andb_false_r, !Z.shiftr_div_pow2 by lia.
    assert (Hfl : (0 <= Zpos mi / 2 ^ (- ei) <= k)%Z).
    { split; [apply Z.div_pos; lia|].
      apply Z.div_le_upper_bound; lia. }
    assert (Hce : (0 <= - (- Zpos mi / 2 ^ (- ei)) <= k)%Z).
    { assert (- Zpos mi / 2 ^ (- ei) <= 0)%Z
        by (apply Z.div_le_upper_bound; lia).
      assert (- k <= - Zpos mi / 2 ^ (- ei))%Z
        by (apply Z.div_le_lower_bound; lia).
      lia. }
    rewrite !size_t_of_double_of_Z by lia.
    eexists _, _. split; [reflexivity|]. split; [reflexivity|].
    rewrite !Z2Nat.id by lia. lia.
  - unfold size_t_of_double. rewrite Hidx. cbn [signed_mantissa].
    destruct (Z.ltb_spec ei 0) as [|_]; [lia|].
    pose proof (pow2_pos ei Hpos) as Hpe.
    assert (Ht : (0 <= Zpos mi * 2 ^ ei <= k)%Z).
    { split; [lia|].
      replace (ei - L)%Z with (ei + - L)%Z in Hval by lia.
      rewrite pow2_split in Hval by lia.
      pose proof (pow2_pos (- L) ltac:(lia)). nia. }
    destruct (Z.leb_spec 0 (Zpos mi * 2 ^ ei)); [|lia].
    destruct (Z.ltb_spec (Zpos mi * 2 ^ ei) 18446744073709551616); [|lia].
    eexists _, _. split; [reflexivity|]. split; [reflexivity|].
    rewrite Z2Nat.id by lia. lia.
Qed.

Lemma zero_ranks (index : double) (s : bool) :
  Prim2SF index = S754_zero s ->
  size_t_of_double (std_floor index) = Some 0%nat /\
  size_t_of_double (std_ceil index) = Some 0%nat.
Proof.
  intros H. unfold std_floor, std_ceil. rewrite H.
  unfold size_t_of_double. now rewrite H.
Qed.

Lemma SFmul_zero_l (s : bool) (x : spec_float) :
  (exists s', x = S754_zero s') \/ (exists s' m e, x = S754_finite s' m e) ->
  exists s'', SF64mul (S754_zero s) x = S754_zero s''.
Proof. intros [[s' ->]|(s' & m & e & ->)]; simpl; eauto. Qed.

Lemma double_of_size_cases (k : nat) :
  (Z.of_nat k < 2 ^ 53)%Z ->
  Prim2SF (double_of_size k) = S754_zero false \/
  exists mk ek,
    Prim2SF (double_of_size k) = S754_finite false mk ek /\
    Zpos (digits2_pos mk) = 53%Z /\ (-52 <= ek <= 0)%Z /\
    Zpos mk = (Z.of_nat k * 2 ^ (- ek))%Z.
Proof.
  intros Hk. destruct k as [|k]; [left; reflexivity|]. right.
  destruct (double_of_size_exact (S k)) as (m & Hm & Hv & Hdig & Hd); [lia|].
  exists m, (Z.log2 (Z.of_nat (S k)) + 1 - 53)%Z.
  split; [exact Hm|]. split; [exact Hdig|]. split; [lia|].
  rewrite Hv. do 2 f_equal. lia.
Qed.

(** For a percentile from 0 to 100 the two ranks are indices of the
    vector: they are at most the last index [k]. *)
Lemma percentile_ranks_in_bounds (percentile : double) (k : nat) :
  (0 <=? percentile)%float = true -> (percentile <=? 100)%float = true ->
  (Z.of_nat k < 2 ^ 53)%Z ->
  let index := (percentile / 100 * double_of_size k)%float in
  exists lower upper,
    size_t_of_double (std_floor index) = Some lower /\
    size_t_of_double (std_ceil index) = Some upper /\
    (lower <= k)%nat /\ (upper <= k)%nat.
Proof.
  intros H0 H100 Hk index.
  rewrite leb_spec in H0, H100.
  change (Prim2SF 0) with (S754_zero false) in H0.
  pose proof (Prim2SF_valid percentile) as Hvalid.
  assert (Hidx : Prim2SF index
                 = SF64mul (SF64div (Prim2SF percentile) (Prim2SF 100))
                     (Prim2SF (double_of_size k))).
  { unfold index. now rewrite mul_spec, div_spec. }
  assert (Hzero : forall s, Prim2SF index = S754_zero s ->
            exists lower upper,
              size_t_of_double (std_floor index) = Some lower /\
              size_t_of_double (std_ceil index) = Some upper /\
              (lower <= k)%nat /\ (upper <= k)%nat).
  { intros s Hs. destruct (zero_ranks index s Hs) as [Hf Hc].
    exists 0%nat, 0%nat. repeat split; auto; lia. }
  assert (HK : (exists s', Prim2SF (double_of_size k) = S754_zero s') \/
               (exists s' m e,
                  Prim2SF (double_of_size k) = S754_finite s' m e)).
  { destruct (double_of_size_cases k Hk) as [HK|(mk & ek & HK & _)];
      [left|right]; eauto. }
  destruct (Prim2SF percentile) as [s|s| |s mp ep] eqn:HP.
  - (* the percentile is zero *)
    assert (HQ : SF64div (S754_zero s) (Prim2SF 100) = S754_zero s)
      by now destruct s.
    rewrite HQ in Hidx.
    destruct (SFmul_zero_l s _ HK) as [s'' Hs]. rewrite Hs in Hidx.
    eapply Hzero, Hidx.
  - destruct s; discriminate.
  - discriminate.
  - destruct s; [discriminate|].
    destruct (div_100_le_1 mp ep Hvalid H100)
      as [HQ|(mq & eq & HQ & Heq & Hq)]; rewrite HQ in Hidx.
    + destruct (SFmul_zero_l false _ HK) as [s'' Hs]. rewrite Hs in Hidx.
      eapply Hzero, Hidx.
    + destruct (double_of_size_cases k Hk)
        as [HK0|(mk & ek & HKf & Hdig & Hek & Hmk)].
      * rewrite HK0 in Hidx. simpl in Hidx. eapply Hzero, Hidx.
      * rewrite HKf in Hidx.
        destruct (mul_le_size mq eq mk ek Heq Hq Hdig Hek)
          as [Hz|(mi & ei & Hx & Hei & Hbound)]; rewrite ?Hz, ?Hx in Hidx.
        -- eapply Hzero, Hidx.
        -- destruct (ranks_in_bounds index mi ei (ek - 1200) (Z.of_nat k)
                       Hidx)
             as (lower & upper & Hf & Hc & Hl & Hu); try lia.
           { replace (ei - (ek - 1200))%Z with (ei - ek + 1200)%Z by lia.
             replace (- (ek - 1200))%Z with (- ek + 1200)%Z by lia.
             rewrite (pow2_split (- ek) 1200), Z.mul_assoc, <- Hmk by lia.
             exact Hbound. }
           exists lower, upper. repeat split; auto; lia.
Qed.

(** C10. When the sequence is not empty and the percentile lies between 0
    and 100, [calculate_percentile] reads [data[lower]] and [data[upper]]
    inside the sorted copy: both ranks are defined and below its size, and
    the function returns a value; the caller's sequence is what it was, the
    sort working on the copy. (The values are not NaN, as [std::sort]
    requires, and there are at most 2^53 of them.) *)
Theorem percentile_accesses_in_bounds
  (std_sort : forall A : Type, (A -> A -> bool) -> list A -> list A)
  (std_sort_ok : sort_contract std_sort)
  (xs : list double) (percentile : double) :
  xs <> [] ->
  (0 <=? percentile)%float = true -> (percentile <=? 100)%float = true ->
  Forall (fun x => is_nan x = false) xs ->
  (Z.of_nat (List.length xs) <= 2 ^ 53)%Z ->
  let data := std_sort double PrimFloat.ltb xs in
  let index :=
    (percentile / 100 * double_of_size (List.length data - 1))%float in
  (exists lower upper,
     size_t_of_double (std_floor index) = Some lower /\
     size_t_of_double (std_ceil index) = Some upper /\
     (lower < List.length data)%nat /\ (upper < List.length data)%nat /\
     vec_at data lower <> None /\ vec_at data upper <> None) /\
  calculate_percentile std_sort xs percentile <> None /\
  snd (call_by_value
         (fun data => calculate_percentile std_sort data percentile) xs)
  = xs.
Proof.
  intros Hne H0 H100 Hnan Hlen data index.
  destruct (sorted_doubles std_sort std_sort_ok xs Hnan) as [Hperm _].
  fold data in Hperm.
  assert (Hn : List.length data = List.length xs)
    by (symmetry; apply Permutation_length, Hperm).
  assert (Hpos : (0 < List.length data)%nat).
  { rewrite Hn. destruct xs; [contradiction|simpl; lia]. }
  destruct (percentile_ranks_in_bounds percentile (List.length data - 1)
              H0 H100)
    as (lower & upper & Hfloor & Hceil & Hl & Hu); [lia|].
  fold index in Hfloor, Hceil.
  destruct (vec_at_some data lower) as [dl Hdl]; [lia|].
  destruct (vec_at_some data upper) as [du Hdu]; [lia|].
  split; [|split; [|reflexivity]].
  - exists lower, upper. rewrite Hdl, Hdu.
    repeat split; auto; try lia; discriminate.
  - unfold calculate_percentile. destruct xs as [|x xs]; [contradiction|].
    fold data. fold index. rewrite Hfloor, Hceil.
    destruct (lower =? upper)%nat; rewrite ?Hdl, ?Hdu; discriminate.
Qed.

Lemma percentile_accesses_in_bounds_witness :
  let xs := [3%float; 1%float; 2%float; 4%float] in
  sort_contract insertion_sort /\
  xs <> [] /\
  (0 <=? 33)%float = true /\ (33 <=? 100)%float = true /\
  Forall (fun x => is_nan x = false) xs /\
  (Z.of_nat (List.length xs) <= 2 ^ 53)%Z /\
  calculate_percentile insertion_sort xs 33%float <> None /\
  snd (call_by_value
         (fun data => calculate_percentile insertion_sort data 33%float) xs)
  = xs.
Proof.
  cbv zeta.
  assert (H1 : [3%float; 1%float; 2%float; 4%float] <> []) by discriminate.
  assert (H2 : (0 <=? 33)%float = true) by reflexivity.
  assert (H3 : (33 <=? 100)%float = true) by reflexivity.
  assert (H4 : Forall (fun x => is_nan x = false)
                 [3%float; 1%float; 2%float; 4%float])
    by (repeat constructor).
  assert (H5 : (Z.of_nat
                  (List.length [3%float; 1%float; 2%float; 4%float])
                <= 2 ^ 53)%Z)
    by (vm_compute; discriminate).
  split; [exact insertion_sort_contract|].
  split; [exact H1|]. split; [exact H2|]. split; [exact H3|].
  split; [exact H4|]. split; [exact H5|].
  exact (proj2 (percentile_accesses_in_bounds insertion_sort
                  insertion_sort_contract
                  [3%float; 1%float; 2%float; 4%float] 33%float
                  H1 H2 H3 H4 H5)).
Defined.

(** * Properties of the rest of the engine *)

(** A loop that pushes one value per turn builds the list of the values. *)
Lemma for_loop_push {A B : Type} (g : nat -> option A) (h : A -> B)
  (f : nat -> A) (n : nat) (init : list B) :
  (forall i, (i < n)%nat -> g i = Some (f i)) ->
  for_loop n
    (fun i result =>
       match g i with
       | Some x => Some (push_back (h x) result)
       | None => None
       end) init
  = Some (init ++ map (fun i => h (f i)) (seq 0 n)).
Proof.
  induction n as [|n IH]; intros Hg.
  - simpl. now rewrite app_nil_r.
  - rewrite for_loop_S, IH by (intros; apply Hg; lia).
    rewrite Hg by lia. unfold push_back.
    rewrite seq_S, map_app, app_assoc. reflexivity.
Qed.

Lemma window_sum_in_bounds (data : list double) (i : nat) (w : Z) :
  (i + Z.to_nat w <= List.length data)%nat ->
  window_sum data i w
  = Some (accumulate (firstn (Z.to_nat w) (skipn i data)) 0%float).
Proof.
  unfold window_sum. generalize (Z.to_nat w) as k. clear w.
  induction k as [|k IH]; intros Hle; [reflexivity|].
  rewrite for_loop_S, IH by lia.
  unfold vec_at.
  destruct (nth_error data (i + k)) as [v|] eqn:E.
  - f_equal. unfold accumulate.
    assert (Hk : nth_error (skipn i data) k = Some v)
      by (now rewrite nth_error_skipn).
    rewrite (firstn_succ_nth _ _ _ Hk), fold_left_app. reflexivity.
  - apply nth_error_None in E. lia.
Qed.

(** X1. A window that is negative, or longer than the data, gives no
    average. *)
Theorem rolling_average_window_out_of_range
  (data : list double) (window_size : Z) :
  (- 2147483648 <= window_size < 2147483648)%Z ->
  (Z.of_nat (List.length data) < 2 ^ 63)%Z ->
  (window_size < 0 \/ Z.of_nat (List.length data) < window_size)%Z ->
  calculate_rolling_average data window_size = Some [].
Proof.
  intros Hint Hlen Hw. unfold calculate_rolling_average, size_t_of_int.
  change (2 ^ 63)%Z with 9223372036854775808%Z in Hlen.
  destruct (Z.ltb_spec (Z.of_nat (List.length data))
              (window_size mod 18446744073709551616)) as [|Hge]; auto.
  exfalso. destruct Hw as [Hneg|Hlong].
  - rewrite <- (Z.mod_add _ 1) in Hge by lia.
    rewrite Z.mod_small in Hge by lia. lia.
  - rewrite Z.mod_small in Hge by lia. lia.
Qed.

Lemma rolling_average_window_out_of_range_witness :
  calculate_rolling_average [1%float; 2%float] (-1) = Some [] /\
  calculate_rolling_average [1%float; 2%float] 3 = Some [].
Proof.
  split; apply rolling_average_window_out_of_range; simpl; lia.
Defined.

(** The outer loop, when the window fits. *)
Lemma calculate_rolling_average_fits (data : list double) (w : Z) :
  (0 <= w < 2147483648)%Z ->
  (w <= Z.of_nat (List.length data) < 2 ^ 63)%Z ->
  calculate_rolling_average data w
  = Some (map (fun i =>
                 (accumulate (firstn (Z.to_nat w) (skipn i data)) 0
                  / double_of_int w)%float)
            (seq 0 (List.length data - Z.to_nat w + 1))).
Proof.
  intros Hw Hle. unfold calculate_rolling_average.
  change (2 ^ 63)%Z with 9223372036854775808%Z in Hle.
  rewrite size_t_of_int_small by lia.
  destruct (Z.ltb_spec (Z.of_nat (List.length data)) w); [lia|].
  unfold size_t_sub. cbv zeta. rewrite Z.mod_small by lia.
  replace (S (Z.to_nat (Z.of_nat (List.length data) - w)))
    with (List.length data - Z.to_nat w + 1)%nat by lia.
  rewrite (for_loop_push (fun i => window_sum data i w)
             (fun sum => (sum / double_of_int w)%float)
             (fun i => accumulate (firstn (Z.to_nat w) (skipn i data))
                         0%float)).
  - reflexivity.
  - intros i Hi. apply window_sum_in_bounds. lia.
Qed.

(** X2. With a window of 1 to [data.size()] elements, the function reads
    inside the data only and returns one average per position a whole window
    starts at: the sum of the window, accumulated from 0.0 from left to
    right, divided by the window size. *)
Theorem rolling_average_windows (data : list double) (window_size : Z) :
  (0 < window_size < 2147483648)%Z ->
  (window_size <= Z.of_nat (List.length data) < 2 ^ 63)%Z ->
  exists result,
    calculate_rolling_average data window_size = Some result /\
    List.length result
    = (List.length data - Z.to_nat window_size + 1)%nat /\
    forall i, (i < List.length result)%nat ->
      nth_error result i
      = Some (accumulate (firstn (Z.to_nat window_size) (skipn i data)) 0
              / double_of_int window_size)%float.
Proof.
  intros Hw Hle. rewrite calculate_rolling_average_fits by lia.
  eexists. split; [reflexivity|].
  rewrite length_map, length_seq. split; [reflexivity|].
  intros i Hi. rewrite nth_error_map, nth_error_seq.
  destruct (Nat.ltb_spec i (List.length data - Z.to_nat window_size + 1));
    [reflexivity|lia].
Qed.

Lemma rolling_average_windows_witness :
  exists result,
    calculate_rolling_average [1%float; 2%float; 6%float; 4%float] 2
    = Some result /\
    List.length result = 3%nat /\
    nth_error result 1 = Some ((0 + 2 + 6) / 2)%float.
Proof.
  destruct (rolling_average_windows [1%float; 2%float; 6%float; 4%float] 2)
    as (result & Hres & Hlen & Hnth); [lia|simpl; lia|].
  exists result. split; [exact Hres|]. split; [exact Hlen|].
  apply (Hnth 1%nat). rewrite Hlen. simpl. lia.
Defined.

(** X3. A window of 0 elements is not refused: the loop runs once more than
    the data has elements and divides an empty sum by zero each time, so the
    result is longer than the data and holds NaN only. *)
Theorem rolling_average_window_zero (data : list double) :
  (Z.of_nat (List.length data) < 2 ^ 63)%Z ->
  exists result,
    calculate_rolling_average data 0 = Some result /\
    List.length result = S (List.length data) /\
    Forall (fun x => is_nan x = true) result.
Proof.
  intros Hlen. rewrite calculate_rolling_average_fits by lia.
  eexists. split; [reflexivity|].
  rewrite length_map, length_seq. split; [simpl; lia|].
  apply Forall_forall. intros x Hx. apply in_map_iff in Hx.
  destruct Hx as (i & <- & _). reflexivity.
Qed.

Lemma rolling_average_window_zero_witness :
  exists result,
    calculate_rolling_average [1%float; 2%float] 0 = Some result /\
    List.length result = 3%nat.
Proof.
  destruct (rolling_average_window_zero [1%float; 2%float])
    as (result & Hres & Hlen & _); [simpl; lia|].
  exists result. split; [exact Hres|exact Hlen].
Defined.

Lemma double_of_int_size (n : nat) :
  double_of_int (Z.of_nat n) = double_of_size n.
Proof.
  unfold double_of_int, double_of_Z, double_of_size.
  destruct (Z.of_nat n) eqn:E; try reflexivity. lia.
Qed.

(** X4. The window that spans the whole data gives one average, the mean
    [calculate_mean] computes. *)
Theorem rolling_average_full_window (data : list double) :
  data <> [] ->
  (Z.of_nat (List.length data) < 2147483648)%Z ->
  calculate_rolling_average data (Z.of_nat (List.length data))
  = Some [calculate_mean data].
Proof.
  intros Hne Hlen.
  rewrite calculate_rolling_average_fits
    by (change (2 ^ 63)%Z with 9223372036854775808%Z; lia).
  rewrite Nat2Z.id, Nat.sub_diag. cbn [Nat.add seq map skipn].
  rewrite firstn_all, double_of_int_size.
  destruct data; [contradiction|reflexivity].
Qed.

Lemma rolling_average_full_window_witness :
  calculate_rolling_average [70%float; 80%float; 90%float] 3
  = Some [calculate_mean [70%float; 80%float; 90%float]].
Proof.
  apply (rolling_average_full_window [70%float; 80%float; 90%float]);
    [discriminate|simpl; lia].
Defined.

Section MapOrder.
Context {K V : Type} (compare : K -> K -> comparison).
Hypothesis compare_eq : forall a b, compare a b = Eq <-> a = b.
Hypothesis compare_trans :
  forall a b c, compare a b = Lt -> compare b c = Lt -> compare a c = Lt.
Hypothesis compare_antisym :
  forall a b, compare a b = CompOpp (compare b a).

Lemma ascending_insert (k : K) (v : V) (m : StdMap.t (K := K) (V := V)) :
  StdMap.find compare k m = None ->
  ascending compare (StdMap.keys m) ->
  ascending compare (StdMap.keys (StdMap.insert compare k v m)) /\
  forall x, In x (StdMap.keys (StdMap.insert compare k v m)) ->
            x = k \/ In x (StdMap.keys m).
Proof.
  unfold ascending, StdMap.keys.
  induction m as [|[k' v'] m IH]; cbn [StdMap.find StdMap.insert map fst];
    intros Hfind Hs.
  - split; [cbn; auto|]. intros x [H|[]]; auto.
  - cbn [ascending_by] in Hs. destruct Hs as [Hall Hs'].
    destruct (compare k k') eqn:E; [discriminate| |].
    + split; [|cbn; intros x [Hx|Hx]; auto].
      cbn [map fst ascending_by]. split; [|split; assumption].
      constructor; auto.
      eapply Forall_impl; [|exact Hall]. intros x Hx. cbn in Hx.
      eapply compare_trans; eauto.
    + destruct (IH Hfind Hs') as [IHs IHin]. cbn [map fst ascending_by].
      split.
      * split; auto. apply Forall_forall. intros x Hx.
        destruct (IHin x Hx) as [->|Hin].
        -- rewrite compare_antisym, E. reflexivity.
        -- rewrite Forall_forall in Hall. now apply Hall.
      * intros x [<-|Hx]; [right; now left|].
        destruct (IHin x Hx); auto. right. now right.
Qed.

Lemma ascending_update (k : K) (d : V) (f : V -> V)
  (m : StdMap.t (K := K) (V := V)) :
  ascending compare (StdMap.keys m) ->
  ascending compare (StdMap.keys (StdMap.update compare k d f m)).
Proof.
  intros Hs. unfold StdMap.update.
  destruct (StdMap.find compare k m) eqn:E.
  - unfold StdMap.keys. fold (StdMap.keys (StdMap.modify compare k f m)).
    now rewrite keys_modify.
  - now apply ascending_insert.
Qed.

Lemma ascending_fold_update {P : Type} (key : P -> K) (d : V)
  (f : P -> V -> V) (ps : list P) (m : StdMap.t (K := K) (V := V)) :
  ascending compare (StdMap.keys m) ->
  ascending compare
    (StdMap.keys
       (fold_left (fun m p => StdMap.update compare (key p) d (f p) m)
          ps m)).
Proof.
  revert m. induction ps as [|p ps IH]; intros m Hm; simpl; auto.
  apply IH, ascending_update, Hm.
Qed.

Lemma ascending_NoDup (l : list K) : ascending compare l -> NoDup l.
Proof.
  unfold ascending. induction l as [|a l IH]; intros Hs; constructor.
  - destruct Hs as [Hall _]. intros Hin.
    rewrite Forall_forall in Hall. specialize (Hall a Hin).
    assert (Heq : compare a a = Eq) by now apply compare_eq.
    congruence.
  - apply IH. now destruct Hs.
Qed.
End MapOrder.

Lemma string_compare_antisym (a b : string) :
  String.compare a b = CompOpp (String.compare b a).
Proof. apply String.compare_antisym. Qed.

Lemma fold_push_fst {A B : Type} (m : list (A * B)) (names : list A) :
  fold_left (fun names pair => push_back (fst pair) names) m names
  = names ++ map fst m.
Proof.
  revert names. induction m as [|x m IH]; intros names; simpl.
  - now rewrite app_nil_r.
  - rewrite IH. unfold push_back. now rewrite <- app_assoc.
Qed.

Lemma ascending_index_by (key : PlayerStats -> string)
  (records : list PlayerStats) :
  ascending String.compare (StdMap.keys (index_by key records [])).
Proof.
  apply (ascending_fold_update String.compare string_compare_lt_trans
           string_compare_antisym).
  exact I.
Qed.

(** X5. [get_all_player_names] lists the names that occur in the loaded
    records, each once, in ascending order of [std::string]'s [<]. *)
Theorem player_names_listed_once_in_order (records : list PlayerStats) :
  let names := get_all_player_names (loaded records) in
  (forall name,
     In name names <-> exists p, In p records /\ player_name p = name) /\
  ascending String.compare names /\ NoDup names.
Proof.
  cbv zeta. unfold get_all_player_names. rewrite fold_push_fst.
  cbn [app].
  assert (Hasc : ascending String.compare
                   (map fst (players_by_name (loaded records)))).
  { destruct (loaded_indices records) as (_ & -> & _).
    apply ascending_index_by. }
  split; [|split; [exact Hasc|]].
  - intros name. split.
    + intros Hin. apply in_map_iff in Hin.
      destruct Hin as ([n recs] & <- & Hin). cbn [fst].
      apply In_players_by_name in Hin. destruct Hin as [-> Hne].
      destruct (records_of n records) as [|p l] eqn:E; [contradiction|].
      assert (Hp : In p (records_of n records)) by (rewrite E; now left).
      apply filter_In in Hp. destruct Hp as [Hp Hn].
      apply String.eqb_eq in Hn. eauto.
    + intros (p & Hp & <-). apply in_map_iff.
      exists (player_name p, records_of (player_name p) records).
      split; [reflexivity|]. apply In_players_by_name. split; auto.
      intros E.
      assert (Hin : In p (records_of (player_name p) records)).
      { apply filter_In. split; auto. apply String.eqb_refl. }
      rewrite E in Hin. contradiction.
  - eapply ascending_NoDup; [apply string_compare_eq|exact Hasc].
Qed.

Lemma concat_modify_push {K A : Type} (compare : K -> K -> comparison)
  (k : K) (p : A) (m : StdMap.t (K := K) (V := list A)) (v : list A) :
  StdMap.find compare k m = Some v ->
  Permutation
    (List.concat (map snd (StdMap.modify compare k (push_back p) m)))
    (p :: List.concat (map snd m)).
Proof.
  induction m as [|[k' v'] m IH]; simpl; [discriminate|].
  destruct (compare k k'); intros Hfind; simpl.
  - unfold push_back. rewrite <- app_assoc. simpl.
    symmetry. apply Permutation_middle.
  - rewrite (IH Hfind). symmetry. apply Permutation_middle.
  - rewrite (IH Hfind). symmetry. apply Permutation_middle.
Qed.

Lemma concat_insert {K A : Type} (compare : K -> K -> comparison)
  (k : K) (v : list A) (m : StdMap.t (K := K) (V := list A)) :
  Permutation (List.concat (map snd (StdMap.insert compare k v m)))
    (v ++ List.concat (map snd m)).
Proof.
  induction m as [|[k' v'] m IH]; simpl; [reflexivity|].
  destruct (compare k k'); simpl; try reflexivity.
  - rewrite IH, !app_assoc. apply Permutation_app_tail, Permutation_app_comm.
  - rewrite IH, !app_assoc. apply Permutation_app_tail, Permutation_app_comm.
Qed.

Lemma concat_index_by (key : PlayerStats -> string)
  (records : list PlayerStats)
  (m : StdMap.t (K := string) (V := list PlayerStats)) :
  Permutation (List.concat (map snd (index_by key records m)))
    (List.concat (map snd m) ++ records).
Proof.
  unfold index_by. revert m.
  induction records as [|p ps IH]; intros m; simpl.
  - now rewrite app_nil_r.
  - rewrite IH. rewrite <- Permutation_middle.
    apply (Permutation_app_tail ps (l' := p :: List.concat (map snd m))).
    unfold StdMap.update.
    destruct (StdMap.find String.compare (key p) m) as [v|] eqn:E.
    + now apply concat_modify_push with (v := v).
    + apply (concat_insert String.compare (key p) (push_back p []) m).
Qed.

(** X6. Loading replaces what the analyzer held: whatever it held before,
    it then keeps the records read, and each index entry holds the records
    with that name (that team) in the order they were read; a name (a team)
    without a record has no entry; every record is in one entry of each
    index. *)
Theorem load_indexes_records (records : list PlayerStats)
  (a : PerformanceAnalyzer) :
  let a' := state_after (load_records records) a in
  all_players a' = records /\
  (forall name,
     StdMap.find String.compare name (players_by_name a')
     = match records_of name records with [] => None | l => Some l end) /\
  (forall name,
     StdMap.find String.compare name (players_by_team a')
     = match records_of_team name records with [] => None | l => Some l end)
  /\
  Permutation (List.concat (map snd (players_by_name a'))) records /\
  Permutation (List.concat (map snd (players_by_team a'))) records.
Proof.
  cbv zeta.
  assert (Ha : state_after (load_records records) a = loaded records)
    by reflexivity.
  rewrite Ha. destruct (loaded_indices records) as (Hall & Hn & Ht).
  split; [exact Hall|]. split; [apply find_players_by_name|].
  split; [apply find_players_by_team|].
  rewrite Hn, Ht. split; apply (concat_index_by _ records []).
Qed.

Lemma get_position_averages_unknown (metric : string)
  (a : PerformanceAnalyzer) :
  position_metric metric = None ->
  get_position_averages metric a = ([], a).
Proof.
  unfold position_metric, get_position_averages, bind, get, ret.
  intros H.
  assert (Hfold : forall ps m, fold_left (push_position metric) ps m = m).
  { induction ps as [|p ps IH]; intros m; simpl; auto.
    rewrite <- (IH m) at 2. f_equal. unfold push_position.
    destruct (metric =? "rating")%string; [discriminate|].
    destruct (metric =? "goals")%string; [discriminate|].
    destruct (metric =? "assists")%string; [discriminate|]. reflexivity. }
  now rewrite Hfold.
Qed.

Lemma fold_push_position (metric : string) (f : PlayerStats -> double)
  (ps : list PlayerStats) (m : StdMap.t (K := string) (V := list double)) :
  position_metric metric = Some f ->
  fold_left (push_position metric) ps m
  = fold_left
      (fun m p =>
         StdMap.update String.compare (position p) []
           (fun v => push_back (f p) v) m)
      ps m.
Proof.
  unfold position_metric. intros H. revert m.
  induction ps as [|p ps IH]; intros m; simpl; auto.
  rewrite <- IH. f_equal. unfold push_position.
  destruct (metric =? "rating")%string; [now inversion H|].
  destruct (metric =? "goals")%string; [now inversion H|].
  destruct (metric =? "assists")%string; [now inversion H|discriminate].
Qed.

Lemma fold_push_back_map {A B : Type} (f : A -> B) (l : list A)
  (v : list B) :
  fold_left (fun v p => push_back (f p) v) l v = v ++ map f l.
Proof.
  revert v. induction l as [|x l IH]; intros v; simpl.
  - now rewrite app_nil_r.
  - rewrite IH. unfold push_back. now rewrite <- app_assoc.
Qed.

(** The entries with a key, in a map that holds each key once. *)
Lemma filter_key_NoDup {V : Type} (k : string)
  (m : StdMap.t (K := string) (V := V)) :
  NoDup (StdMap.keys m) ->
  filter (fun pair : string * V =>
            StdMap.key_eqb String.compare (fst pair) k) m
  = match StdMap.find String.compare k m with
    | Some v => [(k, v)]
    | None => []
    end.
Proof.
  unfold StdMap.keys.
  induction m as [|[k' v'] m IH]; simpl; intros Hnd; auto.
  inversion Hnd as [|? ? Hnotin Hnd']; subst.
  rewrite key_eqb_string, (IH Hnd').
  destruct (String.eqb_spec k' k) as [->|Hne].
  - rewrite string_compare_refl.
    destruct (StdMap.find String.compare k m) as [v|] eqn:F; auto.
    exfalso. apply Hnotin.
    apply (find_In String.compare string_compare_eq) in F.
    apply in_map_iff. now exists (k, v).
  - destruct (String.compare k k') eqn:E; auto.
    apply string_compare_eq in E. congruence.
Qed.

Lemma find_fold_set_average (k : string)
  (m : StdMap.t (K := string) (V := list double)) :
  NoDup (StdMap.keys m) ->
  StdMap.find String.compare k (fold_left set_average m [])
  = option_map calculate_mean (StdMap.find String.compare k m).
Proof.
  intros Hnd. unfold set_average.
  rewrite (find_fold_update String.compare string_compare_eq
             (fun pair : string * list double => fst pair) 0%float
             (fun pair _ => calculate_mean (snd pair))).
  rewrite (filter_key_NoDup k m Hnd).
  now destruct (StdMap.find String.compare k m).
Qed.

(** X7. A metric name other than rating, goals and assists (so
    goals_per_match too, which [get_player_time_series] knows) gives an empty
    map of averages. *)
Theorem position_averages_unknown_metric (metric : string)
  (a : PerformanceAnalyzer) :
  metric <> "rating" -> metric <> "goals" -> metric <> "assists" ->
  get_position_averages metric a = ([], a).
Proof.
  intros H1 H2 H3. apply get_position_averages_unknown.
  unfold position_metric.
  destruct (String.eqb_spec metric "rating"); [contradiction|].
  destruct (String.eqb_spec metric "goals"); [contradiction|].
  destruct (String.eqb_spec metric "assists"); [contradiction|].
  reflexivity.
Qed.

Lemma position_averages_unknown_metric_witness :
  get_position_averages "goals_per_match" (loaded sample_records)
  = ([], loaded sample_records).
Proof.
  apply position_averages_unknown_metric; discriminate.
Defined.

(** X8. For rating, goals and assists, [get_position_averages] maps each
    position that occurs in the records to the mean [calculate_mean] gives
    of the metric over the records of the position, in the order they were
    read; a position without a record has no entry; the positions are in
    ascending order; the analyzer is left as it was. *)
Theorem position_averages_by_position (metric : string)
  (f : PlayerStats -> double) (a : PerformanceAnalyzer) :
  position_metric metric = Some f ->
  let averages := result_of (get_position_averages metric) a in
  (forall pos,
     StdMap.find String.compare pos averages
     = match records_at pos (all_players a) with
       | [] => None
       | g => Some (calculate_mean (map f g))
       end) /\
  ascending String.compare (StdMap.keys averages) /\
  state_after (get_position_averages metric) a = a.
Proof.
  intros Hf. cbv zeta.
  unfold result_of, state_after, get_position_averages, bind, get, ret.
  cbn [fst snd]. rewrite (fold_push_position metric f _ _ Hf).
  match goal with
  | |- context [fold_left set_average ?m []] => set (position_data := m)
  end.
  assert (Hasc : ascending String.compare (StdMap.keys position_data)).
  { apply (ascending_fold_update String.compare string_compare_lt_trans
             string_compare_antisym). exact I. }
  split; [|split; [|reflexivity]].
  - intros pos. rewrite find_fold_set_average
      by (eapply ascending_NoDup; [apply string_compare_eq|exact Hasc]).
    unfold position_data.
    rewrite (find_fold_update String.compare string_compare_eq).
    cbn [StdMap.find]. unfold records_at.
    rewrite (filter_ext _ (fun p => (position p =? pos)%string))
      by (intros; apply key_eqb_string).
    destruct (filter _ (all_players a)) as [|p g] eqn:F; auto.
    cbn [option_map]. now rewrite (fold_push_back_map f (p :: g) []).
  - unfold set_average.
    apply (ascending_fold_update String.compare string_compare_lt_trans
             string_compare_antisym
             (fun pair : string * list double => fst pair) 0%float
             (fun pair _ => calculate_mean (snd pair))).
    exact I.
Qed.

Lemma position_averages_by_position_witness :
  let averages :=
    result_of (get_position_averages "goals") (loaded sample_records) in
  position_metric "goals" = Some (fun p => double_of_int (goals p)) /\
  StdMap.find String.compare "MF" averages
  = Some (calculate_mean [1%float; 5%float; 5%float]) /\
  StdMap.find String.compare "CB" averages = None.
Proof.
  cbv zeta. split; [reflexivity|].
  destruct (position_averages_by_position "goals"
              (fun p => double_of_int (goals p)) (loaded sample_records)
              eq_refl) as (Hfind & _ & _).
  split; [exact (Hfind "MF")|exact (Hfind "CB")].
Defined.

Section ConsistencyFacts.
Variable std_sort : forall A : Type, (A -> A -> bool) -> list A -> list A.
Hypothesis std_sort_ok : sort_contract std_sort.

(** The metrics of a player with records: those of the series of the
    ratings in the order [std::sort] left the records in. *)
Lemma calculate_consistency_known (records : list PlayerStats)
  (name : string) :
  records_of name records <> [] ->
  let sorted := std_sort PlayerStats season_less (records_of name records) in
  let ts := {| seasons := map season sorted; values := map rating sorted;
               metric_name := "rating"; ts_player_name := name |} in
  Permutation (records_of name records) sorted /\
  result_of (calculate_consistency std_sort name) (loaded records)
  = {| cm_player_name := name;
       cm_average_rating := TimeSeries.mean ts;
       std_deviation := TimeSeries.std_dev ts;
       cm_consistency_score :=
         (100 - std_min 100 (TimeSeries.coefficient_of_variation ts))%float;
       cv_percentage := TimeSeries.coefficient_of_variation ts;
       cm_seasons_played :=
         int_of_size (List.length (records_of name records)) |}.
Proof.
  intros Hne sorted ts.
  assert (Hperm : Permutation (records_of name records) sorted)
    by (apply (sorted_seasons std_sort std_sort_ok)).
  split; [exact Hperm|].
  unfold result_of, calculate_consistency, bind.
  rewrite (get_player_time_series_run std_sort).
  rewrite (get_player_time_series_known std_sort records name "rating" Hne).
  fold sorted. cbn [metric_value String.eqb Ascii.eqb Bool.eqb fst values].
  rewrite (Permutation_length Hperm). subst ts.
  clearbody sorted. destruct sorted as [|s0 sl].
  - apply Permutation_sym, Permutation_nil in Hperm. contradiction.
  - cbn [map values fst ret List.length]. now rewrite length_map.
Qed.
End ConsistencyFacts.

(** X9. [seasons_played] is the number of records of the player (two records
    of one season count twice), so it is 0 for the names without a record
    and for no other name. *)
Theorem consistency_counts_records
  (std_sort : forall A : Type, (A -> A -> bool) -> list A -> list A)
  (std_sort_ok : sort_contract std_sort)
  (records : list PlayerStats) (name : string) :
  (Z.of_nat (List.length (records_of name records)) < 2147483648)%Z ->
  let metrics :=
    result_of (calculate_consistency std_sort name) (loaded records) in
  cm_seasons_played metrics
  = Z.of_nat (List.length (records_of name records)) /\
  (cm_seasons_played metrics = 0%Z <-> records_of name records = []).
Proof.
  intros Hlen metrics.
  assert (Hplayed : cm_seasons_played metrics
                    = Z.of_nat (List.length (records_of name records))).
  { unfold metrics.
    destruct (records_of name records) as [|p l] eqn:E.
    - now rewrite (calculate_consistency_unknown std_sort records name E).
    - destruct (calculate_consistency_known std_sort std_sort_ok records name)
        as [_ ->]; [rewrite E; discriminate|].
      cbn [cm_seasons_played]. rewrite E.
      now apply int_of_size_small. }
  split; [exact Hplayed|]. rewrite Hplayed.
  destruct (records_of name records); simpl; split;
    (discriminate || reflexivity || lia).
Qed.

Lemma consistency_counts_records_witness :
  sort_contract insertion_sort /\
  cm_seasons_played
    (result_of (calculate_consistency insertion_sort "Eve")
       (loaded tied_records)) = 2%Z.
Proof.
  split; [exact insertion_sort_contract|].
  apply (consistency_counts_records insertion_sort insertion_sort_contract
           tied_records "Eve").
  simpl. lia.
Defined.

(** The ranking loop: the entries before [top_n] get their rank, the others
    are left as they are. *)
Lemma assign_ranks_nth (top_n : Z) (l : list PerformanceRanking)
  (i j : nat) :
  nth_error (assign_ranks i top_n l) j
  = option_map
      (fun r0 =>
         if (Z.of_nat (i + j) <? top_n)%Z
         then set_rank (int_of_size (i + j + 1)) r0 else r0)
      (nth_error l j).
Proof.
  revert i j. induction l as [|r0 l IH]; intros i j.
  - now destruct j.
  - cbn [assign_ranks].
    destruct (Z.ltb_spec (Z.of_nat i) top_n) as [Hlt|Hge].
    + destruct j as [|j]; cbn [nth_error option_map].
      * rewrite Nat.add_0_r.
        destruct (Z.ltb_spec (Z.of_nat i) top_n); [reflexivity|lia].
      * rewrite IH. now replace (S i + j)%nat with (i + S j)%nat by lia.
    + destruct (nth_error (r0 :: l) j); cbn [option_map]; auto.
      destruct (Z.ltb_spec (Z.of_nat (i + j)) top_n); [lia|reflexivity].
Qed.

Lemma assign_ranks_length (top_n : Z) (l : list PerformanceRanking)
  (i : nat) :
  List.length (assign_ranks i top_n l) = List.length l.
Proof.
  revert i. induction l as [|r0 l IH]; intros i; cbn [assign_ranks]; auto.
  destruct (Z.of_nat i <? top_n)%Z; cbn [List.length]; auto.
Qed.

(** What [get_top_consistent_players] keeps of the sorted rankings: the
    first [top_n] (as a [size_t]) of them, each with its rank. *)
Lemma ranked_prefix (T : Z) (sorted : list PerformanceRanking) (j : nat) :
  (0 <= T)%Z ->
  let rankings := assign_ranks 0 T sorted in
  nth_error
    (if (T <? Z.of_nat (List.length rankings))%Z
     then firstn (Z.to_nat T) rankings else rankings) j
  = if (j <? Z.to_nat T)%nat
    then option_map (set_rank (int_of_size (j + 1))) (nth_error sorted j)
    else None.
Proof.
  intros HT rankings.
  assert (Hres : nth_error
                   (if (T <? Z.of_nat (List.length rankings))%Z
                    then firstn (Z.to_nat T) rankings else rankings) j
                 = if (j <? Z.to_nat T)%nat then nth_error rankings j
                   else None).
  { unfold rankings at 1. rewrite assign_ranks_length.
    destruct (Z.ltb_spec T (Z.of_nat (List.length sorted))) as [Hlt|Hge].
    - destruct (Nat.ltb_spec j (Z.to_nat T)) as [Hj|Hj].
      + now rewrite nth_error_firstn, (proj2 (Nat.ltb_lt _ _) Hj).
      + apply nth_error_None. rewrite length_firstn. lia.
    - destruct (Nat.ltb_spec j (Z.to_nat T)) as [Hj|Hj]; auto.
      apply nth_error_None. unfold rankings.
      rewrite assign_ranks_length. lia. }
  rewrite Hres.
  destruct (Nat.ltb_spec j (Z.to_nat T)) as [Hj|Hj]; auto.
  unfold rankings. rewrite assign_ranks_nth. cbn [Nat.add].
  destruct (nth_error sorted j); cbn [option_map]; auto.
  destruct (Z.ltb_spec (Z.of_nat j) T); [reflexivity|lia].
Qed.

Lemma clear_rank_make_ranking (a : PerformanceAnalyzer)
  (m : ConsistencyMetrics) (z : Z) :
  clear_rank (set_rank z (make_ranking a m)) = make_ranking a m.
Proof. reflexivity. Qed.

Section TopFacts.
Variable std_sort : forall A : Type, (A -> A -> bool) -> list A -> list A.
Hypothesis std_sort_ok : sort_contract std_sort.
Variable records : list PlayerStats.
Variable top_n : Z.

Local Abbreviation a := (loaded records).
Local Abbreviation pool :=
  (result_of (get_all_consistency_metrics std_sort) (loaded records)).
Local Abbreviation sorted :=
  (std_sort PerformanceRanking ranking_greater
     (map (make_ranking (loaded records))
        (result_of (get_all_consistency_metrics std_sort)
           (loaded records)))).
Local Abbreviation result :=
  (result_of (get_top_consistent_players std_sort top_n) (loaded records)).

Hypothesis scores_not_nan :
  Forall (fun metrics => is_nan (score (make_ranking a metrics)) = false)
    pool.

Lemma sorted_rankings :
  Permutation (map (make_ranking a) pool) sorted /\
  is_sorted ranking_greater sorted.
Proof.
  apply std_sort_ok, (gtb_Compare score).
  rewrite Forall_map. exact scores_not_nan.
Qed.

(** The result, entry by entry. *)
Lemma top_consistent_nth (j : nat) :
  nth_error result j
  = if (j <? Z.to_nat (size_t_of_int top_n))%nat
    then option_map (set_rank (int_of_size (j + 1))) (nth_error sorted j)
    else None.
Proof.
  unfold result_of. rewrite get_top_consistent_players_run. cbn [fst].
  apply ranked_prefix. unfold size_t_of_int.
  apply Z.mod_pos_bound. lia.
Qed.

Lemma sorted_from_pool (r : PerformanceRanking) :
  In r sorted -> exists m, In m pool /\ r = make_ranking a m.
Proof.
  destruct sorted_rankings as [Hperm _]. intros Hin.
  apply (Permutation_in _ (Permutation_sym Hperm)) in Hin.
  apply in_map_iff in Hin. destruct Hin as (m & <- & Hm). eauto.
Qed.

Lemma top_consistent_clear :
  map clear_rank result = firstn (Z.to_nat (size_t_of_int top_n)) sorted.
Proof.
  apply nth_error_ext. intros j.
  rewrite nth_error_map, top_consistent_nth, nth_error_firstn.
  destruct (j <? _)%nat; auto.
  destruct (nth_error sorted j) as [r|] eqn:E; auto.
  cbn [option_map]. f_equal.
  destruct (sorted_from_pool r) as (m & _ & ->);
    [eapply nth_error_In; eauto|reflexivity].
Qed.

Lemma top_consistent_length :
  List.length result
  = Nat.min (Z.to_nat (size_t_of_int top_n)) (List.length pool).
Proof.
  destruct sorted_rankings as [Hperm _].
  apply Permutation_length in Hperm. rewrite length_map in Hperm.
  rewrite <- (length_map clear_rank), top_consistent_clear, length_firstn.
  now rewrite Hperm.
Qed.
End TopFacts.

Lemma NoDup_firstn {A : Type} (n : nat) (l : list A) :
  NoDup l -> NoDup (firstn n l).
Proof.
  intros H. rewrite <- (firstn_skipn n l) in H.
  now apply NoDup_app_remove_r in H.
Qed.

Lemma In_firstn {A : Type} (n : nat) (l : list A) (x : A) :
  In x (firstn n l) -> In x l.
Proof.
  intros H. rewrite <- (firstn_skipn n l). apply in_or_app. now left.
Qed.

Lemma names_clear_rank (l : list PerformanceRanking) :
  map pr_player_name (map clear_rank l) = map pr_player_name l.
Proof. rewrite map_map. reflexivity. Qed.

(** The members of the pool: the metrics of the players with at least two
    records. *)
Lemma pool_members
  (std_sort : forall A : Type, (A -> A -> bool) -> list A -> list A)
  (records : list PlayerStats) (m : ConsistencyMetrics) :
  In m (result_of (get_all_consistency_metrics std_sort) (loaded records)) ->
  (2 <= List.length (records_of (cm_player_name m) records))%nat /\
  m = result_of (calculate_consistency std_sort (cm_player_name m))
        (loaded records).
Proof.
  unfold result_of at 1. rewrite get_all_consistency_metrics_run. cbn [fst].
  intros Hin. apply in_map_iff in Hin.
  destruct Hin as ([name recs] & <- & Hin). cbn [fst].
  rewrite calculate_consistency_name.
  apply filter_In in Hin. destruct Hin as [Hin Hlen].
  apply In_players_by_name in Hin. destruct Hin as [-> _].
  cbn [snd] in Hlen. apply Nat.leb_le in Hlen. auto.
Qed.

(** X10. With [top_n] from 0 to the size of the pool,
    [get_top_consistent_players] returns [top_n] entries (none for 0), each
    for another eligible player, in descending order of the composite score
    and ranked 1 to [top_n]; no player left out has a greater score than a
    player returned. *)
Theorem top_n_within_pool
  (std_sort : forall A : Type, (A -> A -> bool) -> list A -> list A)
  (std_sort_ok : sort_contract std_sort)
  (records : list PlayerStats) (top_n : Z) :
  let a := loaded records in
  let pool := result_of (get_all_consistency_metrics std_sort) a in
  (0 <= top_n <= Z.of_nat (List.length pool))%Z ->
  (Z.of_nat (List.length pool) < 2147483648)%Z ->
  Forall (fun metrics => is_nan (score (make_ranking a metrics)) = false)
    pool ->
  let result := result_of (get_top_consistent_players std_sort top_n) a in
  List.length result = Z.to_nat top_n /\
  NoDup (map pr_player_name result) /\
  (forall name, In name (map pr_player_name result) ->
                (2 <= List.length (records_of name records))%nat) /\
  is_sorted ranking_greater result /\
  (forall i r, nth_error result i = Some r ->
               rank r = Some (Z.of_nat i + 1)%Z) /\
  (forall r m,
     In r result -> In m pool ->
     ~ In (cm_player_name m) (map pr_player_name result) ->
     (score r <? score (make_ranking a m))%float = false).
Proof.
  intros a pool Htop Hint Hnan result.
  assert (Hn : size_t_of_int top_n = top_n)
    by (apply size_t_of_int_small; lia).
  pose proof (top_consistent_nth std_sort records top_n) as Hnth.
  pose proof (top_consistent_clear std_sort std_sort_ok records top_n Hnan)
    as Hclear.
  pose proof (top_consistent_length std_sort std_sort_ok records top_n Hnan)
    as Hlen.
  destruct (sorted_rankings std_sort std_sort_ok records Hnan)
    as [Hperm Hsorted].
  fold a pool result in Hnth, Hclear, Hlen, Hperm, Hsorted.
  rewrite Hn in Hnth, Hclear, Hlen.
  set (sorted := std_sort PerformanceRanking ranking_greater
                   (map (make_ranking a) pool)) in *.
  assert (Hnames : map pr_player_name result
                   = map pr_player_name (firstn (Z.to_nat top_n) sorted)).
  { now rewrite <- Hclear, names_clear_rank. }
  assert (Hpnames : Permutation (map cm_player_name pool)
                      (map pr_player_name sorted)).
  { rewrite <- (names_of_rankings a pool). now apply Permutation_map. }
  assert (Hentry : forall i r, nth_error result i = Some r ->
            (i < Z.to_nat top_n)%nat /\
            exists r0, nth_error sorted i = Some r0 /\
                       r = set_rank (int_of_size (i + 1)) r0).
  { intros i r Hi. rewrite Hnth in Hi.
    destruct (Nat.ltb_spec i (Z.to_nat top_n)); [|discriminate].
    split; auto. destruct (nth_error sorted i) as [r0|]; [|discriminate].
    exists r0. split; auto. now inversion Hi. }
  split; [rewrite Hlen; lia|].
  split; [|split; [|split; [|split]]].
  - rewrite Hnames, <- firstn_map. apply NoDup_firstn.
    eapply Permutation_NoDup; [exact Hpnames|].
    apply NoDup_pool_names.
  - intros name Hin. rewrite Hnames, <- firstn_map in Hin.
    apply In_firstn in Hin.
    apply (Permutation_in _ (Permutation_sym Hpnames)) in Hin.
    now apply (pool_names std_sort records name).
  - intros i j r1 r2 Hij H1 H2.
    destruct (Hentry i r1 H1) as (_ & r1' & H1' & ->).
    destruct (Hentry j r2 H2) as (_ & r2' & H2' & ->).
    apply (Hsorted i j r1' r2' Hij H1' H2').
  - intros i r Hi. destruct (Hentry i r Hi) as (Hlt & r0 & _ & ->).
    cbn [rank set_rank]. rewrite int_of_size_small by lia. f_equal. lia.
  - intros r m Hr Hm Hout.
    apply In_nth_error in Hr. destruct Hr as [i Hi].
    destruct (Hentry i r Hi) as (Hlt & r0 & H0 & ->).
    assert (Hin : In (make_ranking a m) sorted).
    { eapply Permutation_in; [exact Hperm|]. now apply in_map. }
    apply In_nth_error in Hin. destruct Hin as [j Hj].
    destruct (Nat.lt_ge_cases j (Z.to_nat top_n)) as [Hjlt|Hjge].
    + exfalso. apply Hout. rewrite Hnames.
      change (cm_player_name m) with (pr_player_name (make_ranking a m)).
      apply in_map. eapply nth_error_In.
      rewrite nth_error_firstn, (proj2 (Nat.ltb_lt _ _) Hjlt). exact Hj.
    + exact (Hsorted i j r0 (make_ranking a m) ltac:(lia) H0 Hj).
Qed.

Lemma top_n_within_pool_witness :
  sort_contract insertion_sort /\
  let a := loaded sample_records in
  let pool := result_of (get_all_consistency_metrics insertion_sort) a in
  List.length pool = 3%nat /\
  let result := result_of (get_top_consistent_players insertion_sort 2) a in
  List.length result = 2%nat /\
  (forall i r, nth_error result i = Some r ->
               rank r = Some (Z.of_nat i + 1)%Z).
Proof.
  split; [exact insertion_sort_contract|]. cbv zeta.
  split; [reflexivity|].
  assert (H3 : Forall
                 (fun metrics =>
                    is_nan (score (make_ranking (loaded sample_records)
                                     metrics)) = false)
                 (result_of (get_all_consistency_metrics insertion_sort)
                    (loaded sample_records))).
  { match goal with
    | |- Forall ?P ?l =>
        let l' := eval vm_compute in l in change (Forall P l')
    end.
    repeat (apply Forall_cons; [vm_compute; reflexivity|]).
    apply Forall_nil. }
  destruct (top_n_within_pool insertion_sort insertion_sort_contract
              sample_records 2)
    as (Hlen & _ & _ & _ & Hrank & _);
    [vm_compute; split; discriminate|vm_compute; reflexivity|exact H3|].
  split; [exact Hlen|exact Hrank].
Defined.

(** X11. A negative [top_n] is not refused: converted to [size_t] it is larger
    than any pool, so the whole pool is returned, every entry ranked. *)
Theorem top_n_negative
  (std_sort : forall A : Type, (A -> A -> bool) -> list A -> list A)
  (std_sort_ok : sort_contract std_sort)
  (records : list PlayerStats) (top_n : Z) :
  let a := loaded records in
  let pool := result_of (get_all_consistency_metrics std_sort) a in
  (- 2147483648 <= top_n < 0)%Z ->
  (Z.of_nat (List.length pool) < 2147483648)%Z ->
  Forall (fun metrics => is_nan (score (make_ranking a metrics)) = false)
    pool ->
  let result := result_of (get_top_consistent_players std_sort top_n) a in
  List.length result = List.length pool /\
  Permutation (map (make_ranking a) pool) (map clear_rank result) /\
  (forall i r, nth_error result i = Some r ->
               rank r = Some (Z.of_nat i + 1)%Z).
Proof.
  intros a pool Htop Hint Hnan result.
  assert (Hn : size_t_of_int top_n = (top_n + 18446744073709551616)%Z).
  { unfold size_t_of_int. rewrite <- (Z.mod_add _ 1) by lia.
    apply Z.mod_small. lia. }
  pose proof (top_consistent_nth std_sort records top_n) as Hnth.
  pose proof (top_consistent_clear std_sort std_sort_ok records top_n Hnan)
    as Hclear.
  pose proof (top_consistent_length std_sort std_sort_ok records top_n Hnan)
    as Hlen.
  destruct (sorted_rankings std_sort std_sort_ok records Hnan)
    as [Hperm _].
  fold a pool result in Hnth, Hclear, Hlen, Hperm.
  rewrite Hn in Hnth, Hclear, Hlen.
  assert (Hsize : List.length
                    (std_sort PerformanceRanking ranking_greater
                       (map (make_ranking a) pool)) = List.length pool).
  { rewrite <- (Permutation_length Hperm). apply length_map. }
  split; [rewrite Hlen; lia|]. split.
  - rewrite Hclear, firstn_all2 by lia. exact Hperm.
  - intros i r Hi.
    assert (Hlt : (i < List.length result)%nat)
      by (apply nth_error_Some; congruence).
    rewrite Hnth in Hi. destruct (_ <? _)%nat; [|discriminate].
    destruct (nth_error _ i) as [r0|]; [|discriminate].
    inversion Hi. cbn [rank set_rank].
    rewrite int_of_size_small by lia. f_equal. lia.
Qed.

Lemma top_n_negative_witness :
  sort_contract insertion_sort /\
  let a := loaded sample_records in
  let result :=
    result_of (get_top_consistent_players insertion_sort (-1)) a in
  List.length result = 3%nat /\
  (forall i r, nth_error result i = Some r ->
               rank r = Some (Z.of_nat i + 1)%Z).
Proof.
  split; [exact insertion_sort_contract|]. cbv zeta.
  assert (H3 : Forall
                 (fun metrics =>
                    is_nan (score (make_ranking (loaded sample_records)
                                     metrics)) = false)
                 (result_of (get_all_consistency_metrics insertion_sort)
                    (loaded sample_records))).
  { match goal with
    | |- Forall ?P ?l =>
        let l' := eval vm_compute in l in change (Forall P l')
    end.
    repeat (apply Forall_cons; [vm_compute; reflexivity|]).
    apply Forall_nil. }
  destruct (top_n_negative insertion_sort insertion_sort_contract
              sample_records (-1))
    as (Hlen & _ & Hrank);
    [lia|vm_compute; reflexivity|exact H3|].
  split; [exact Hlen|exact Hrank].
Defined.

(** X12. Every entry of the ranking describes a player with at least two
    records: its composite score is the average rating times 0.6 plus the
    consistency score times 0.4, its number of seasons the number of the
    player's records, and its position the one of the record of the player
    that was read first (not the one of the earliest season). *)
Theorem ranking_entries_describe_players
  (std_sort : forall A : Type, (A -> A -> bool) -> list A -> list A)
  (std_sort_ok : sort_contract std_sort)
  (records : list PlayerStats) (top_n : Z) :
  let a := loaded records in
  let pool := result_of (get_all_consistency_metrics std_sort) a in
  Forall (fun metrics => is_nan (score (make_ranking a metrics)) = false)
    pool ->
  let result := result_of (get_top_consistent_players std_sort top_n) a in
  forall r, In r result ->
    exists first rest,
      records_of (pr_player_name r) records = first :: rest /\
      rest <> [] /\
      pr_position r = position first /\
      pr_seasons_played r = int_of_size (List.length (first :: rest)) /\
      score r = (pr_average_rating r * 0.6
                 + pr_consistency_score r * 0.4)%float.
Proof.
  intros a pool Hnan result r Hr.
  pose proof (top_consistent_clear std_sort std_sort_ok records top_n Hnan)
    as Hclear.
  fold a pool result in Hclear.
  assert (Hin : In (clear_rank r)
                  (std_sort PerformanceRanking ranking_greater
                     (map (make_ranking a) pool))).
  { eapply In_firstn. rewrite <- Hclear. now apply in_map. }
  destruct (sorted_from_pool std_sort std_sort_ok records Hnan _ Hin)
    as (m & Hm & Hrm).
  fold a in Hrm.
  destruct (pool_members std_sort records m Hm) as [Hlen Hcons].
  assert (Hfields : pr_player_name r = cm_player_name m /\
                    pr_position r = pr_position (make_ranking a m) /\
                    pr_seasons_played r = cm_seasons_played m /\
                    score r = score (make_ranking a m) /\
                    pr_average_rating r = cm_average_rating m /\
                    pr_consistency_score r = cm_consistency_score m).
  { destruct r. unfold clear_rank in Hrm. cbn in Hrm.
    unfold make_ranking in *. inversion Hrm. cbn. repeat split. }
  destruct Hfields as (Hname & Hpos & Hplayed & Hscore & Havg & Hcs).
  rewrite Hname, Hpos, Hplayed, Hscore, Havg, Hcs.
  destruct (records_of (cm_player_name m) records) as [|first rest] eqn:E;
    [simpl in Hlen; lia|].
  exists first, rest. split; [reflexivity|].
  split; [destruct rest; [simpl in Hlen; lia|discriminate]|].
  split; [|split; [|reflexivity]].
  - unfold make_ranking. cbn [pr_position]. unfold a.
    now rewrite find_players_by_name, E.
  - rewrite Hcons.
    destruct (calculate_consistency_known std_sort std_sort_ok records
                (cm_player_name m)) as [_ ->]; [rewrite E; discriminate|].
    cbn [cm_seasons_played]. now rewrite E.
Qed.

Lemma ranking_entries_describe_players_witness :
  sort_contract insertion_sort /\
  let a := loaded sample_records in
  let result :=
    result_of (get_top_consistent_players insertion_sort 10) a in
  forall r, In r result ->
    exists first rest,
      records_of (pr_player_name r) sample_records = first :: rest /\
      rest <> [] /\
      pr_position r = position first /\
      pr_seasons_played r = int_of_size (List.length (first :: rest)) /\
      score r = (pr_average_rating r * 0.6
                 + pr_consistency_score r * 0.4)%float.
Proof.
  split; [exact insertion_sort_contract|]. cbv zeta.
  apply (ranking_entries_describe_players insertion_sort
           insertion_sort_contract sample_records 10).
  match goal with
  | |- Forall ?P ?l =>
      let l' := eval vm_compute in l in change (Forall P l')
  end.
  repeat (apply Forall_cons; [vm_compute; reflexivity|]).
  apply Forall_nil.
Defined.

(** ** The pool, in the order of the names *)

Lemma ascending_keys_filter {K V : Type} (lt : K -> K -> Prop)
  (f : K * V -> bool) (m : list (K * V)) :
  ascending_by lt (map fst m) -> ascending_by lt (map fst (filter f m)).
Proof.
  induction m as [|x m IH]; cbn [filter map ascending_by]; auto.
  intros [Hall Hs]. destruct (f x); cbn [map ascending_by]; auto.
  split; auto. apply Forall_forall. intros k Hk.
  rewrite Forall_forall in Hall. apply Hall.
  apply in_map_iff in Hk. destruct Hk as (y & <- & Hy).
  apply filter_In in Hy. apply in_map. tauto.
Qed.

(** X13. [get_all_consistency_metrics] returns the metrics
    [calculate_consistency] gives for the players with two records or more,
    one entry for each: a name has an entry if and only if it has two
    records or more, and the entries are in ascending order of the names, so
    no name has two; each entry counts two seasons or more when the player
    has fewer than 2^31 records. The analyzer is left as it was. *)
Theorem consistency_pool_in_name_order
  (std_sort : forall A : Type, (A -> A -> bool) -> list A -> list A)
  (std_sort_ok : sort_contract std_sort) (records : list PlayerStats) :
  let a := loaded records in
  let pool := result_of (get_all_consistency_metrics std_sort) a in
  state_after (get_all_consistency_metrics std_sort) a = a /\
  (forall name,
     In name (map cm_player_name pool) <->
     (2 <= List.length (records_of name records))%nat) /\
  NoDup (map cm_player_name pool) /\
  ascending String.compare (map cm_player_name pool) /\
  forall metrics, In metrics pool ->
    metrics
    = result_of (calculate_consistency std_sort (cm_player_name metrics)) a
    /\ (2 <= List.length (records_of (cm_player_name metrics) records))%nat
    /\ cm_seasons_played metrics
       = int_of_size
           (List.length (records_of (cm_player_name metrics) records)).
Proof.
  cbv zeta. split; [|split; [|split; [|split]]].
  - unfold state_after. now rewrite get_all_consistency_metrics_run.
  - intros name. apply pool_names.
  - apply NoDup_pool_names.
  - unfold result_of. rewrite get_all_consistency_metrics_run. cbn [fst].
    rewrite map_map.
    rewrite (map_ext _ fst)
      by (intros; apply calculate_consistency_name).
    apply ascending_keys_filter.
    destruct (loaded_indices records) as (_ & -> & _).
    apply ascending_index_by.
  - intros metrics Hin.
    destruct (pool_members std_sort records metrics Hin) as [Hlen Hm].
    split; [exact Hm|]. split; [exact Hlen|].
    rewrite Hm at 1.
    destruct (calculate_consistency_known std_sort std_sort_ok records
                (cm_player_name metrics)) as [_ ->]; [|reflexivity].
    intros E. rewrite E in Hlen. cbn in Hlen. lia.
Qed.

Lemma consistency_pool_in_name_order_witness :
  sort_contract insertion_sort /\
  map cm_player_name
    (result_of (get_all_consistency_metrics insertion_sort)
       (loaded sample_records)) = ["Ada"; "Ben"; "Dan"] /\
  (forall name,
     In name
       (map cm_player_name
          (result_of (get_all_consistency_metrics insertion_sort)
             (loaded sample_records))) <->
     (2 <= List.length (records_of name sample_records))%nat) /\
  ascending String.compare
    (map cm_player_name
       (result_of (get_all_consistency_metrics insertion_sort)
          (loaded sample_records))).
Proof.
  split; [exact insertion_sort_contract|]. split; [reflexivity|].
  destruct (consistency_pool_in_name_order insertion_sort
              insertion_sort_contract sample_records)
    as (_ & Hnames & _ & Hascending & _).
  split; [exact Hnames|exact Hascending].
Defined.

(** ** Doubles: differences *)

Lemma shl_align_value (m : positive) (e e' : Z) :
  (e' <= e)%Z ->
  Zpos (fst (shl_align m e e')) = (Zpos m * 2 ^ (e - e'))%Z /\
  snd (shl_align m e e') = e'.
Proof.
  intros Hle. unfold shl_align.
  destruct (e' - e)%Z as [|d|d] eqn:E; try lia; cbn [fst snd].
  - replace (e - e')%Z with 0%Z by lia. split; lia.
  - rewrite iter_xO_pow2. replace (e - e')%Z with (Zpos d) by lia. auto.
Qed.

Lemma shl_align_same (m : positive) (e e' : Z) :
  (e <= e')%Z -> shl_align m e e' = (m, e).
Proof.
  intros Hle. unfold shl_align.
  destruct (e' - e)%Z as [|d|d] eqn:E; try lia; reflexivity.
Qed.

(** A finite double is less than another when its value is. *)
Lemma SFltb_value (m1 : positive) (e1 : Z) (m2 : positive) (e2 L : Z) :
  bounded prec emax m1 e1 = true -> bounded prec emax m2 e2 = true ->
  SFltb (S754_finite false m1 e1) (S754_finite false m2 e2) = true ->
  (L <= e1)%Z -> (L <= e2)%Z ->
  (Zpos m1 * 2 ^ (e1 - L) < Zpos m2 * 2 ^ (e2 - L))%Z.
Proof.
  intros H1 H2 Hlt HL1 HL2.
  destruct (bounded_facts m1 e1 H1) as (He1 & Hm1 & _).
  destruct (bounded_facts m2 e2 H2) as (He2 & _ & Hm2).
  unfold SFltb in Hlt. simpl in Hlt.
  change (Pos.compare_cont Eq m1 m2) with (Pos.compare m1 m2) in Hlt.
  pose proof (pow2_pos (e1 - L) ltac:(lia)) as Hp1.
  destruct (Z.compare_spec e1 e2) as [->|Hlt'|Hgt]; try discriminate.
  - destruct (Pos.compare_spec m1 m2); try discriminate; nia.
  - specialize (Hm2 ltac:(lia)).
    replace (e2 - L)%Z with (e2 - e1 + (e1 - L))%Z by lia.
    rewrite (pow2_split (e2 - e1) (e1 - L)) by lia.
    assert (Hpow : (2 ^ 1 <= 2 ^ (e2 - e1))%Z)
      by (apply Z.pow_le_mono_r; lia).
    change (2 ^ 1)%Z with 2%Z in Hpow.
    change (2 ^ 53)%Z with 9007199254740992%Z in Hm1.
    change (2 ^ 52)%Z with 4503599627370496%Z in Hm2.
    assert (Hm12 : (Zpos m1 < Zpos m2 * 2 ^ (e2 - e1))%Z) by nia.
    rewrite Z.mul_assoc. apply Z.mul_lt_mono_pos_r; lia.
Qed.

Lemma SFleb_of_value (m1 : positive) (e1 : Z) (m2 : positive) (e2 L : Z) :
  bounded prec emax m1 e1 = true -> bounded prec emax m2 e2 = true ->
  (L <= e1)%Z -> (L <= e2)%Z ->
  (Zpos m1 * 2 ^ (e1 - L) <= Zpos m2 * 2 ^ (e2 - L))%Z ->
  SFleb (S754_finite false m1 e1) (S754_finite false m2 e2) = true.
Proof.
  intros H1 H2 HL1 HL2 Hval.
  destruct (SFleb (S754_finite false m1 e1) (S754_finite false m2 e2))
    eqn:E; auto.
  assert (Hlt : SFltb (S754_finite false m2 e2) (S754_finite false m1 e1)
                = true).
  { unfold SFleb, SFltb in *. simpl in *.
    rewrite (Z.compare_antisym e1 e2).
    change (Pos.compare_cont Eq m2 m1) with (Pos.compare m2 m1).
    change (Pos.compare_cont Eq m1 m2) with (Pos.compare m1 m2) in E.
    rewrite (Pos.compare_antisym m1 m2).
    destruct (e1 ?= e2)%Z; simpl; try discriminate; auto.
    destruct (m1 ?= m2)%positive; simpl; try discriminate; auto. }
  pose proof (SFltb_value m2 e2 m1 e1 L H2 H1 Hlt HL2 HL1). lia.
Qed.

(** A double subtracted from a finite double above it leaves a double that
    is not negative. *)
Lemma SFsub_from_above (mx : positive) (ex : Z) (y : spec_float) :
  bounded prec emax mx ex = true -> valid_binary y = true ->
  SFltb y (S754_finite false mx ex) = true ->
  has_sign false (SF64sub (S754_finite false mx ex) y).
Proof.
  intros Hx Hy Hlt. destruct y as [sy|sy| |sy my ey].
  - reflexivity.
  - destruct sy; [reflexivity|discriminate].
  - discriminate.
  - cbn [SF64sub SFsub cond_Zopp]. destruct sy.
    + rewrite Z.sub_opp_r. cbn [Z.add binary_normalize].
      apply binary_round_sign.
    + cbn [valid_binary] in Hy.
      assert (Hle : (ey <= ex)%Z).
      { unfold SFltb in Hlt. simpl in Hlt.
        destruct (Z.compare_spec ey ex); try discriminate; lia. }
      pose proof (SFltb_value my ey mx ex ey Hy Hx Hlt ltac:(lia) Hle)
        as Hval.
      rewrite Z.sub_diag, Z.mul_1_r in Hval.
      rewrite Z.min_r by lia.
      destruct (shl_align_value mx ex ey Hle) as [-> _].
      rewrite (shl_align_same my ey ey) by lia. cbn [fst cond_Zopp].
      destruct (Zpos mx * 2 ^ (ex - ey) - Zpos my)%Z as [|d|d] eqn:E;
        try lia; cbn [binary_normalize].
      apply binary_round_sign.
Qed.

(** [100.0 - std::min(100.0, cv)] is not negative and not NaN, whatever
    [cv] is. *)
Lemma score_not_negative (cv : double) :
  (0 <=? 100 - std_min 100 cv)%float = true.
Proof.
  unfold std_min. destruct (cv <? 100)%float eqn:E; [|reflexivity].
  rewrite leb_spec, sub_spec. apply SFleb_zero_nonneg.
  rewrite ltb_spec in E.
  change (Prim2SF 100) with (S754_finite false 7036874417766400 (-46)) in *.
  apply SFsub_from_above; auto. apply Prim2SF_valid.
Qed.

(** Rounding a value that is at most a double gives at most that double. *)
Lemma binary_round_upper_bound (p : positive) (e : Z) (mB : positive)
  (eB L : Z) :
  bounded prec emax mB eB = true ->
  (L <= -1074)%Z -> (L <= e)%Z -> (L <= eB)%Z ->
  (Zpos p * 2 ^ (e - L) <= Zpos mB * 2 ^ (eB - L))%Z ->
  binary_round prec emax false p e = S754_zero false \/
  exists m3 e3,
    binary_round prec emax false p e = S754_finite false m3 e3 /\
    (L <= e3)%Z /\
    (Zpos m3 * 2 ^ (e3 - L) <= Zpos mB * 2 ^ (eB - L))%Z.
Proof.
  intros HB HL HLe HLB Hval. unfold binary_round.
  set (f := fexp prec emax (Zpos (digits2_pos p) + e)).
  assert (Hf : (-1074 <= f)%Z).
  { unfold f, fexp, SpecFloat.emin, prec, emax. lia. }
  destruct (Z.le_gt_cases e f) as [Hle|Hgt].
  - rewrite (shl_align_same p e f Hle).
    destruct (round_upper_bound (Zpos p) e loc_Exact mB eB L)
      as [Hz|(m3 & e3 & H3 & He3 & Hb)]; auto; try lia.
    + intros H. contradiction.
    + right. exists m3, e3. repeat split; auto. lia.
  - destruct (shl_align_value p e f ltac:(lia)) as [Hm He].
    destruct (shl_align p e f) as [mz ez] eqn:Es. cbn [fst snd] in Hm, He.
    subst ez.
    assert (Hdig : Zpos (digits2_pos mz) = (Zpos (digits2_pos p) + (e - f))%Z).
    { unfold shl_align in Es.
      destruct (f - e)%Z as [|d|d] eqn:E; try lia.
      inversion Es. rewrite digits2_iter_xO. lia. }
    assert (Hv : (Zpos mz * 2 ^ (f - L) = Zpos p * 2 ^ (e - L))%Z).
    { rewrite Hm, <- Z.mul_assoc, <- (pow2_split (e - f) (f - L)) by lia.
      do 2 f_equal. lia. }
    destruct (round_upper_bound (Zpos mz) f loc_Exact mB eB L)
      as [Hz|(m3 & e3 & H3 & He3 & Hb)]; auto; try lia.
    + cbn [Zdigits2]. rewrite Hdig.
      replace (Zpos (digits2_pos p) + (e - f) + f)%Z
        with (Zpos (digits2_pos p) + e)%Z by lia.
      fold f. lia.
    + intros H. contradiction.
    + right. exists m3, e3. repeat split; auto. lia.
Qed.

(** A double that is not negative, subtracted from a finite double above
    it, leaves at most that double. *)
Lemma SFsub_below (mx : positive) (ex : Z) (y : spec_float) :
  bounded prec emax mx ex = true -> valid_binary y = true ->
  valid_binary (SF64sub (S754_finite false mx ex) y) = true ->
  has_sign false y ->
  SFltb y (S754_finite false mx ex) = true ->
  SFleb (SF64sub (S754_finite false mx ex) y) (S754_finite false mx ex)
  = true.
Proof.
  intros Hx Hy Hv Hs Hlt. destruct y as [sy|sy| |sy my ey];
    cbn [has_sign] in Hs; try contradiction; subst.
  - cbn [SF64sub SFsub]. apply (SFleb_of_value mx ex mx ex ex); auto; lia.
  - discriminate.
  - cbn [valid_binary] in Hy.
    assert (Hle : (ey <= ex)%Z).
    { unfold SFltb in Hlt. simpl in Hlt.
      destruct (Z.compare_spec ey ex); try discriminate; lia. }
    pose proof (SFltb_value my ey mx ex ey Hy Hx Hlt ltac:(lia) Hle)
      as Hval.
    rewrite Z.sub_diag, Z.mul_1_r in Hval.
    destruct (bounded_facts my ey Hy) as (Hey & _ & _).
    destruct (bounded_facts mx ex Hx) as (Hex & _ & _).
    revert Hv. cbn [SF64sub SFsub cond_Zopp].
    rewrite Z.min_r by lia.
    destruct (shl_align_value mx ex ey Hle) as [-> _].
    rewrite (shl_align_same my ey ey) by lia. cbn [fst].
    destruct (Zpos mx * 2 ^ (ex - ey) - Zpos my)%Z as [|d|d] eqn:E;
      try lia; cbn [binary_normalize].
    destruct (binary_round_upper_bound d ey mx ex (-1074))
      as [Hz|(m3 & e3 & H3 & He3 & Hb)]; auto; try lia.
    + rewrite <- E.
      replace (ex - -1074)%Z with (ex - ey + (ey - -1074))%Z by lia.
      rewrite (pow2_split (ex - ey) (ey - -1074)) by lia.
      rewrite Z.mul_assoc. apply Z.mul_le_mono_nonneg_r; [|lia].
      apply Z.lt_le_incl, pow2_pos. lia.
    + now rewrite Hz.
    + rewrite H3. cbn [valid_binary]. intros Hv.
      apply (SFleb_of_value m3 e3 mx ex (-1074)); auto; lia.
Qed.

(** [100.0 - std::min(100.0, cv)] is at most 100 when [cv] is not negative
    or is NaN. *)
Lemma score_at_most_100 (cv : double) :
  has_sign false (Prim2SF cv) \/ Prim2SF cv = S754_nan ->
  (100 - std_min 100 cv <=? 100)%float = true.
Proof.
  intros Hcv. unfold std_min.
  destruct (cv <? 100)%float eqn:E; [|reflexivity].
  destruct Hcv as [Hs|Hnan].
  - pose proof (Prim2SF_valid (100 - cv)) as Hv.
    rewrite leb_spec. rewrite sub_spec in *. rewrite ltb_spec in E.
    change (Prim2SF 100)
      with (S754_finite false 7036874417766400 (-46)) in *.
    apply SFsub_below; auto. apply Prim2SF_valid.
  - rewrite ltb_spec, Hnan in E. discriminate.
Qed.

Lemma SFadd_nonneg_zero (x y : spec_float) :
  has_sign false x -> has_sign false y \/ y = S754_zero true ->
  has_sign false (SF64add x y).
Proof.
  intros Hx [Hy| ->]; [now apply SFadd_nonneg|].
  destruct x as [sx|sx| |sx mx ex]; cbn [has_sign] in Hx; try contradiction;
    subst; reflexivity.
Qed.

(** A double that is at least 0 has no sign, or is the negative zero. *)
Lemma leb_zero_sign (x : double) :
  (0 <=? x)%float = true ->
  has_sign false (Prim2SF x) \/ Prim2SF x = S754_zero true.
Proof.
  rewrite leb_spec. change (Prim2SF 0) with (S754_zero false).
  destruct (Prim2SF x) as [s|s| |s m e]; cbn; try discriminate.
  - destruct s; auto.
  - destruct s; [discriminate|auto].
  - destruct s; [discriminate|auto].
Qed.

Lemma accumulate_nonneg (xs : list double) (init : double) :
  Forall (fun x => (0 <=? x)%float = true) xs ->
  has_sign false (Prim2SF init) ->
  has_sign false (Prim2SF (accumulate xs init)).
Proof.
  unfold accumulate. intros Hall. revert init.
  induction Hall as [|x xs Hx Hall IH]; intros init Hinit; simpl; auto.
  apply IH. rewrite add_spec. apply SFadd_nonneg_zero; auto.
  now apply leb_zero_sign.
Qed.

Lemma calculate_std_dev_sign (xs : list double) :
  Forall (fun x => is_finite x = true) xs ->
  (Z.of_nat (List.length xs) < 2 ^ 53)%Z ->
  has_sign false (Prim2SF (calculate_std_dev xs)).
Proof.
  intros Hall Hlen. unfold calculate_std_dev.
  destruct (Nat.ltb_spec (List.length xs) 2) as [|Hge]; [reflexivity|].
  destruct (double_of_size_positive (List.length xs - 1)) as (m & e & HK);
    [lia|].
  rewrite sqrt_spec, div_spec, HK.
  apply SFsqrt_nonneg, SFdiv_positive_sign.
  apply sum_squared_deviations_nonneg; auto.
  apply calculate_mean_not_nan; auto.
Qed.

Lemma SFmul_positive_sign (x : spec_float) (m : positive) (e : Z) :
  has_sign false x \/ x = S754_nan ->
  has_sign false (SF64mul x (S754_finite false m e)) \/
  SF64mul x (S754_finite false m e) = S754_nan.
Proof.
  intros [Hx| ->]; [|now right]. left.
  destruct x as [sx|sx| |sx mx ex]; cbn [has_sign] in Hx; try contradiction;
    subst; try reflexivity.
  cbn [SF64mul SFmul xorb]. apply binary_round_aux_sign. lia.
Qed.

Lemma SFdiv_nonneg (x y : spec_float) :
  has_sign false x -> has_sign false y -> SFeqb y (S754_zero false) = false ->
  has_sign false (SF64div x y) \/ SF64div x y = S754_nan.
Proof.
  intros Hx Hy Hz.
  destruct y as [sy|sy| |sy my ey]; cbn [has_sign] in Hy; try contradiction;
    subst.
  - discriminate.
  - destruct x as [sx|sx| |sx mx ex]; cbn [has_sign] in Hx;
      try contradiction; subst; cbn; auto.
  - left. now apply SFdiv_positive_sign.
Qed.

(** The coefficient of variation of ratings that are finite and not
    negative is not negative, or is NaN. *)
Lemma coefficient_of_variation_sign (ts : TimeSeriesData) :
  Forall (fun x => is_finite x = true /\ (0 <=? x)%float = true)
    (values ts) ->
  (Z.of_nat (List.length (values ts)) < 2 ^ 53)%Z ->
  has_sign false (Prim2SF (TimeSeries.coefficient_of_variation ts)) \/
  Prim2SF (TimeSeries.coefficient_of_variation ts) = S754_nan.
Proof.
  intros Hall Hlen.
  assert (Hfin : Forall (fun x => is_finite x = true) (values ts))
    by (eapply Forall_impl; [|exact Hall]; simpl; tauto).
  assert (Hpos : Forall (fun x => (0 <=? x)%float = true) (values ts))
    by (eapply Forall_impl; [|exact Hall]; simpl; tauto).
  unfold TimeSeries.coefficient_of_variation. cbv zeta.
  destruct (TimeSeries.mean ts =? 0)%float eqn:E; [now left|].
  rewrite mul_spec, div_spec.
  change (Prim2SF 100) with (S754_finite false 7036874417766400 (-46)).
  apply SFmul_positive_sign.
  rewrite time_series_std_dev.
  rewrite FloatAxioms.eqb_spec in E.
  apply SFdiv_nonneg; auto.
  - now apply calculate_std_dev_sign.
  - rewrite time_series_mean. unfold calculate_mean.
    destruct (values ts) as [|x xs] eqn:Ev; [reflexivity|].
    destruct (double_of_size_positive (List.length (x :: xs)))
      as (m & e & HK); [simpl List.length in *; lia|].
    rewrite div_spec, HK. apply SFdiv_positive_sign.
    apply accumulate_nonneg; auto. reflexivity.
Qed.

(** X14. The consistency score is never negative and never NaN, whatever the
    records hold: the coefficient of variation is capped at 100 before it
    is taken from 100. *)
Theorem consistency_score_not_negative
  (std_sort : forall A : Type, (A -> A -> bool) -> list A -> list A)
  (name : string) (a : PerformanceAnalyzer) :
  (0 <=? cm_consistency_score
           (result_of (calculate_consistency std_sort name) a))%float
  = true.
Proof.
  unfold result_of, calculate_consistency, bind.
  rewrite (get_player_time_series_run std_sort).
  destruct (values _); cbn [ret fst cm_consistency_score];
    [reflexivity|apply score_not_negative].
Qed.

(** X15. When the ratings of a player are finite and not negative, the
    consistency score is at most 100. *)
Theorem consistency_score_at_most_100
  (std_sort : forall A : Type, (A -> A -> bool) -> list A -> list A)
  (std_sort_ok : sort_contract std_sort)
  (records : list PlayerStats) (name : string) :
  Forall (fun p => is_finite (rating p) = true /\
                   (0 <=? rating p)%float = true)
    (records_of name records) ->
  (Z.of_nat (List.length (records_of name records)) < 2 ^ 53)%Z ->
  (cm_consistency_score
     (result_of (calculate_consistency std_sort name) (loaded records))
   <=? 100)%float = true.
Proof.
  intros Hall Hlen.
  assert (Hcase : records_of name records = []
                  \/ records_of name records <> [])
    by (destruct (records_of name records);
        [left; reflexivity|right; discriminate]).
  destruct Hcase as [E|E].
  - rewrite (calculate_consistency_unknown std_sort records name E).
    reflexivity.
  - destruct (calculate_consistency_known std_sort std_sort_ok records name
                E) as [Hperm ->].
    cbn [cm_consistency_score].
    apply score_at_most_100, coefficient_of_variation_sign; cbn [values].
    + rewrite Forall_map. eapply Permutation_Forall; [exact Hperm|].
      exact Hall.
    + rewrite length_map, <- (Permutation_length Hperm). exact Hlen.
Qed.

Lemma consistency_score_at_most_100_witness :
  sort_contract insertion_sort /\
  (cm_consistency_score
     (result_of (calculate_consistency insertion_sort "Ada")
        (loaded sample_records))
   <=? 100)%float = true.
Proof.
  split; [exact insertion_sort_contract|].
  apply (consistency_score_at_most_100 insertion_sort
           insertion_sort_contract sample_records "Ada").
  - repeat (apply Forall_cons; [split; reflexivity|]). apply Forall_nil.
  - simpl. lia.
Defined.








Lemma calculate_correlation_total (x y : list double) :
  exists c, calculate_correlation x y = Some c.
Proof.
  unfold calculate_correlation.
  destruct (Nat.eqb_spec (List.length x) (List.length y)) as [Hlen|Hne];
    cbn [negb orb]; [|eauto].
  destruct (List.length x <? 2)%nat; [eauto|]. cbv zeta.
  destruct (for_loop_invariant
              (fun (_ : nat) (_ : double * double * double) => True)
              (List.length x)
              (correlation_step x y (calculate_mean x) (calculate_mean y))
              (0%float, 0%float, 0%float) I) as (s & -> & _).
  - intros i [[n sx] sy] Hi _. unfold correlation_step, vec_at.
    destruct (nth_error x i) eqn:Ex; [|apply nth_error_None in Ex; lia].
    destruct (nth_error y i) eqn:Ey; [|apply nth_error_None in Ey; lia].
    eauto.
  - destruct s as [[n sx] sy]. destruct (_ =? _)%float; eauto.
Qed.

Lemma calculate_correlation_sym (x y : list double) :
  calculate_correlation x y = calculate_correlation y x.
Proof.
  unfold calculate_correlation.
  destruct (Nat.eqb_spec (List.length x) (List.length y)) as [Hlen|Hne].
  - rewrite <- Hlen, Nat.eqb_refl. simpl.
    destruct (List.length x <? 2)%nat; auto.
    change (0%float, 0%float, 0%float)
      with (swap_sums (0%float, 0%float, 0%float)) at 2.
    rewrite correlation_loop_swap.
    destruct (for_loop _ _ _) as [[[numerator sum_sq_x] sum_sq_y]|];
      simpl; auto.
    now rewrite (mul_comm sum_sq_y sum_sq_x).
  - assert (Hne' : List.length y <> List.length x) by congruence.
    apply Nat.eqb_neq in Hne'. now rewrite Hne'.
Qed.

Lemma find_append {A : Type} (p : A -> bool) (l l' : list A) :
  find p (l ++ l')
  = match find p l with Some y => Some y | None => find p l' end.
Proof.
  induction l as [|x l IH]; simpl; auto. now destruct (p x).
Qed.

Lemma find_firstn_S {A : Type} (p : A -> bool) (l : list A) (j : nat)
  (x : A) :
  nth_error l j = Some x ->
  find p (firstn (S j) l)
  = match find p (firstn j l) with
    | Some y => Some y
    | None => if p x then Some x else None
    end.
Proof.
  intros Hx. rewrite (firstn_succ_nth l j x Hx), find_append.
  destruct (find p (firstn j l)); auto.
Qed.

Section CommonSeasons.
Variable f : PlayerStats -> double.
Variables l1 l2 : list PlayerStats.
Variables name1 name2 metric : string.

Local Abbreviation ts1 := (series_of f l1 name1 metric).
Local Abbreviation ts2 := (series_of f l2 name2 metric).

(** The inner loop: it looks for the first record of the season. *)
Lemma common_step_loop (i : nat) (r1 : PlayerStats) (c1 c2 : list double) :
  nth_error l1 i = Some r1 ->
  for_loop (List.length (seasons ts2)) (common_step ts1 ts2 i)
    (c1, c2, false)
  = Some match record_of_season (season r1) l2 with
         | Some r2 => (push_back (f r1) c1, push_back (f r2) c2, true)
         | None => (c1, c2, false)
         end.
Proof.
  intros Hr1. cbn [series_of seasons]. rewrite length_map.
  unfold record_of_season.
  assert (Hgen : forall j, (j <= List.length l2)%nat ->
            for_loop j (common_step ts1 ts2 i) (c1, c2, false)
            = Some match find (fun r => (season r1 =? season r)%string)
                           (firstn j l2) with
                   | Some r2 =>
                       (push_back (f r1) c1, push_back (f r2) c2, true)
                   | None => (c1, c2, false)
                   end).
  { induction j as [|j IH]; intros Hj; [reflexivity|].
    rewrite for_loop_S, IH by lia.
    destruct (nth_error l2 j) as [r2|] eqn:E2;
      [|apply nth_error_None in E2; lia].
    rewrite (find_firstn_S _ l2 j r2 E2).
    destruct (find _ (firstn j l2)); [reflexivity|].
    unfold common_step, vec_at. cbn [series_of seasons values].
    rewrite !nth_error_map, Hr1, E2. cbn [option_map].
    destruct (season r1 =? season r2)%string; reflexivity. }
  rewrite Hgen by lia. now rewrite firstn_all.
Qed.

Lemma common_values_app (a b : list PlayerStats) :
  common_values f (a ++ b) l2 = common_values f a l2 ++ common_values f b l2.
Proof. apply flat_map_app. Qed.

Lemma common_values_single (r1 : PlayerStats) :
  common_values f [r1] l2
  = match record_of_season (season r1) l2 with
    | Some r2 => [(f r1, f r2)]
    | None => []
    end.
Proof. unfold common_values. cbn [flat_map]. apply app_nil_r. Qed.

Lemma common_seasons_values :
  common_seasons ts1 ts2
  = Some (map fst (common_values f l1 l2), map snd (common_values f l1 l2)).
Proof.
  unfold common_seasons. cbn [series_of seasons]. rewrite length_map.
  assert (Hgen : forall i, (i <= List.length l1)%nat ->
            for_loop i
              (fun i acc =>
                 match for_loop (List.length (seasons ts2))
                         (common_step ts1 ts2 i)
                         (fst acc, snd acc, false) with
                 | Some (c1, c2, _) => Some (c1, c2)
                 | None => None
                 end) ([], [])
            = Some (map fst (common_values f (firstn i l1) l2),
                    map snd (common_values f (firstn i l1) l2))).
  { induction i as [|i IH]; intros Hi; [reflexivity|].
    rewrite for_loop_S, IH by lia.
    destruct (nth_error l1 i) as [r1|] eqn:E1;
      [|apply nth_error_None in E1; lia].
    cbn [fst snd]. rewrite (common_step_loop i r1 _ _ E1).
    rewrite (firstn_succ_nth l1 i r1 E1), common_values_app, !map_app.
    rewrite common_values_single.
    destruct (record_of_season (season r1) l2);
      cbn [map fst snd app]; unfold push_back.
    - reflexivity.
    - now rewrite !app_nil_r. }
  rewrite Hgen by lia. now rewrite firstn_all.
Qed.
End CommonSeasons.

Lemma record_of_season_none (s : string) (l : list PlayerStats) :
  Forall (fun r => season r <> s) l -> record_of_season s l = None.
Proof.
  unfold record_of_season. induction 1 as [|r l Hr Hall IH]; simpl; auto.
  destruct (String.eqb_spec s (season r)); [congruence|auto].
Qed.

Lemma common_values_nil (f : PlayerStats -> double) (l : list PlayerStats) :
  common_values f l [] = [].
Proof. unfold common_values. induction l; simpl; auto. Qed.

Lemma common_values_none (f : PlayerStats -> double)
  (l l2 : list PlayerStats) (r : PlayerStats) :
  Forall (fun r2 => season r2 <> season r) l2 ->
  common_values f (r :: l) l2 = common_values f l l2.
Proof.
  intros H. unfold common_values. cbn [flat_map].
  now rewrite (record_of_season_none _ _ H).
Qed.

Lemma common_values_skip (f : PlayerStats -> double)
  (l l2 : list PlayerStats) (b : PlayerStats) :
  Forall (fun r => season r <> season b) l ->
  common_values f l (b :: l2) = common_values f l l2.
Proof.
  unfold common_values. induction 1 as [|r l Hr Hall IH]; auto.
  cbn [flat_map]. rewrite IH. f_equal.
  unfold record_of_season. cbn [find].
  destruct (String.eqb_spec (season r) (season b)); [contradiction|].
  reflexivity.
Qed.

Lemma common_values_match (f : PlayerStats -> double)
  (l l2 : list PlayerStats) (a b : PlayerStats) :
  season a = season b ->
  common_values f (a :: l) (b :: l2)
  = (f a, f b) :: common_values f l (b :: l2).
Proof.
  intros Heq. unfold common_values, record_of_season. cbn [flat_map find].
  now rewrite Heq, String.eqb_refl.
Qed.

Lemma seasons_ascend_head (a : PlayerStats) (l : list PlayerStats) :
  seasons_ascend (a :: l) ->
  seasons_ascend l /\
  Forall (fun r => String.ltb (season a) (season r) = true) l.
Proof. intros [Hall H]. auto. Qed.

Lemma ltb_neq (a b : string) : String.ltb a b = true -> a <> b.
Proof. intros H ->. now rewrite string_ltb_irrefl in H. Qed.

(** Each of two lists that ascend pairs the seasons the other pairs. *)
Lemma common_values_swap (f : PlayerStats -> double)
  (l1 l2 : list PlayerStats) :
  seasons_ascend l1 -> seasons_ascend l2 ->
  common_values f l2 l1
  = map (fun p => (snd p, fst p)) (common_values f l1 l2).
Proof.
  revert l2. induction l1 as [|a l1 IH1]; intros l2 H1 H2.
  - now rewrite common_values_nil.
  - induction l2 as [|b l2 IH2].
    + now rewrite common_values_nil.
    + destruct (seasons_ascend_head a l1 H1) as [H1' Ha].
      destruct (seasons_ascend_head b l2 H2) as [H2' Hb].
      destruct (String.ltb (season a) (season b)) eqn:Eab;
        [|destruct (String.ltb (season b) (season a)) eqn:Eba].
      * (* a before b *)
        rewrite (common_values_none f l1 (b :: l2) a).
        -- rewrite <- (IH1 (b :: l2) H1' H2).
           apply common_values_skip. constructor.
           ++ apply not_eq_sym, ltb_neq, Eab.
           ++ eapply Forall_impl; [|exact Hb]. intros r Hr. cbn in Hr.
              apply not_eq_sym, ltb_neq.
              eapply string_ltb_trans; eauto.
        -- constructor; [apply not_eq_sym, ltb_neq, Eab|].
           eapply Forall_impl; [|exact Hb]. intros r Hr. cbn in Hr.
           apply not_eq_sym, ltb_neq. eapply string_ltb_trans; eauto.
      * (* b before a *)
        rewrite (common_values_none f l2 (a :: l1) b).
        -- rewrite (IH2 H2').
           f_equal. symmetry. apply common_values_skip. constructor.
           ++ apply not_eq_sym, ltb_neq, Eba.
           ++ eapply Forall_impl; [|exact Ha]. intros r Hr. cbn in Hr.
              apply not_eq_sym, ltb_neq.
              eapply string_ltb_trans; eauto.
        -- constructor; [apply not_eq_sym, ltb_neq, Eba|].
           eapply Forall_impl; [|exact Ha]. intros r Hr. cbn in Hr.
           apply not_eq_sym, ltb_neq. eapply string_ltb_trans; eauto.
      * (* the same season *)
        pose proof (string_ltb_total _ _ Eab Eba) as Heq.
        assert (Hl1 : Forall (fun r => season r <> season b) l1).
        { eapply Forall_impl; [|exact Ha]. intros r Hr. cbn in Hr.
          rewrite <- Heq. apply not_eq_sym, ltb_neq, Hr. }
        assert (Hl2 : Forall (fun r => season r <> season a) l2).
        { eapply Forall_impl; [|exact Hb]. intros r Hr. cbn in Hr.
          rewrite Heq. apply not_eq_sym, ltb_neq, Hr. }
        rewrite (common_values_match f l2 l1 b a (eq_sym Heq)).
        rewrite (common_values_match f l1 l2 a b Heq).
        cbn [map fst snd].
        rewrite (common_values_skip f l2 l1 a Hl2).
        rewrite (common_values_skip f l1 l2 b Hl1).
        now rewrite (IH1 l2 H1' H2').
Qed.

Lemma existsb_Permutation {A : Type} (p : A -> bool) (l l' : list A) :
  Permutation l l' -> existsb p l = existsb p l'.
Proof.
  induction 1 as [|x l l' _ IH|x y l|l l' l'' _ IH1 _ IH2]; simpl; auto.
  - now rewrite IH.
  - now destruct (p x), (p y).
  - congruence.
Qed.

Lemma filter_length_Permutation {A : Type} (p : A -> bool)
  (l l' : list A) :
  Permutation l l' -> List.length (filter p l) = List.length (filter p l').
Proof.
  induction 1 as [|x l l' _ IH|x y l|l l' l'' _ IH1 _ IH2]; simpl; auto.
  - destruct (p x); simpl; now rewrite IH.
  - now destruct (p x), (p y).
  - congruence.
Qed.

Lemma record_of_season_existsb (s : string) (l : list PlayerStats) :
  existsb (fun r => (s =? season r)%string) l
  = match record_of_season s l with Some _ => true | None => false end.
Proof.
  unfold record_of_season. induction l as [|r l IH]; simpl; auto.
  now destruct (s =? season r)%string.
Qed.

(** One pair for each record of the first list whose season the second
    list has. *)
Lemma common_values_length (f : PlayerStats -> double)
  (l1 l2 : list PlayerStats) :
  List.length (common_values f l1 l2)
  = List.length
      (filter
         (fun r1 => existsb (fun r2 => (season r1 =? season r2)%string) l2)
         l1).
Proof.
  unfold common_values. induction l1 as [|r l1 IH]; simpl; auto.
  rewrite length_app, IH, record_of_season_existsb.
  now destruct (record_of_season (season r) l2).
Qed.

(** Records in the order [std::sort] leaves them in ascend, when no two
    have the same season. *)
Lemma sorted_seasons_ascend (l : list PlayerStats) :
  is_sorted season_less l -> NoDup (map season l) -> seasons_ascend l.
Proof.
  intros Hs. apply sorted_from_is_sorted in Hs. unfold seasons_ascend.
  induction l as [|a l IH]; intros Hnd; [exact I|].
  destruct Hs as [Hall Hs]. inversion Hnd as [|? ? Hnotin Hnd']; subst.
  split; [|now apply IH].
  rewrite Forall_forall in *. intros b Hb.
  specialize (Hall b Hb). unfold season_less in Hall.
  destruct (String.ltb (season a) (season b)) eqn:E; auto.
  exfalso. apply Hnotin.
  rewrite (string_ltb_total _ _ E Hall). now apply in_map.
Qed.

Section CorrelationFacts.
Variable std_sort : forall A : Type, (A -> A -> bool) -> list A -> list A.
Hypothesis std_sort_ok : sort_contract std_sort.
Variable records : list PlayerStats.

Local Abbreviation sorted_records name :=
  (std_sort PlayerStats season_less (records_of name records)).

Lemma std_sort_nil {A : Type} (comp : A -> A -> bool) :
  std_sort A comp [] = [].
Proof.
  destruct (std_sort_ok A comp []) as [Hperm _].
  - repeat split; intros; contradiction.
  - now apply Permutation_nil in Hperm.
Qed.

Lemma player_series (name metric : string) (f : PlayerStats -> double) :
  metric_value metric = Some f ->
  result_of (get_player_time_series std_sort name metric) (loaded records)
  = series_of f (sorted_records name) name metric.
Proof.
  intros Hf.
  assert (Hcase : records_of name records = []
                  \/ records_of name records <> [])
    by (destruct (records_of name records);
        [left; reflexivity|right; discriminate]).
  destruct Hcase as [E|E].
  - rewrite (get_player_time_series_unknown std_sort records name metric E).
    now rewrite E, std_sort_nil.
  - rewrite (get_player_time_series_known std_sort records name metric E).
    now rewrite Hf.
Qed.

Lemma player_series_unknown_metric (name metric : string) :
  metric_value metric = None ->
  values (result_of (get_player_time_series std_sort name metric)
            (loaded records)) = [].
Proof.
  intros Hf.
  assert (Hcase : records_of name records = []
                  \/ records_of name records <> [])
    by (destruct (records_of name records);
        [left; reflexivity|right; discriminate]).
  destruct Hcase as [E|E].
  - now rewrite (get_player_time_series_unknown std_sort records name
                   metric E).
  - rewrite (get_player_time_series_known std_sort records name metric E).
    now rewrite Hf.
Qed.

Lemma player_correlation_values (player1 player2 metric : string)
  (f : PlayerStats -> double) :
  metric_value metric = Some f ->
  let pairs :=
    common_values f (sorted_records player1) (sorted_records player2) in
  result_of (calculate_player_correlation std_sort player1 player2 metric)
    (loaded records)
  = calculate_correlation (map fst pairs) (map snd pairs).
Proof.
  intros Hf pairs. unfold result_of.
  rewrite (calculate_player_correlation_run std_sort). cbn [fst].
  rewrite !(player_series _ metric f Hf). cbv zeta.
  rewrite common_seasons_values. fold pairs.
  unfold series_of at 1 2. cbn [values].
  destruct (sorted_records player1) as [|a l1] eqn:E1.
  - reflexivity.
  - destruct (sorted_records player2) as [|b l2] eqn:E2.
    + cbn [map]. unfold pairs. now rewrite common_values_nil.
    + reflexivity.
Qed.

Lemma player_correlation_unknown_metric (player1 player2 metric : string) :
  metric_value metric = None ->
  result_of (calculate_player_correlation std_sort player1 player2 metric)
    (loaded records) = Some 0%float.
Proof.
  intros Hf. unfold result_of.
  rewrite (calculate_player_correlation_run std_sort). cbn [fst]. cbv zeta.
  now rewrite (player_series_unknown_metric player1 metric Hf).
Qed.
End CorrelationFacts.

(** X17. [calculate_player_correlation] returns a value for every pair of
    names and every metric name: no season or value is read outside its
    vector; and it leaves the analyzer as it was. *)
Theorem player_correlation_defined
  (std_sort : forall A : Type, (A -> A -> bool) -> list A -> list A)
  (std_sort_ok : sort_contract std_sort)
  (records : list PlayerStats) (player1 player2 metric : string) :
  exists c,
    calculate_player_correlation std_sort player1 player2 metric
      (loaded records) = (Some c, loaded records).
Proof.
  assert (Hres : exists c,
             result_of (calculate_player_correlation std_sort player1
                          player2 metric) (loaded records) = Some c).
  { destruct (metric_value metric) as [f|] eqn:Hf.
    - rewrite (player_correlation_values std_sort std_sort_ok records
                 player1 player2 metric f Hf).
      apply calculate_correlation_total.
    - rewrite (player_correlation_unknown_metric std_sort records
                 player1 player2 metric Hf). eauto. }
  destruct Hres as [c Hc]. exists c.
  unfold result_of in Hc.
  rewrite (calculate_player_correlation_run std_sort) in *.
  cbn [fst] in Hc. f_equal. exact Hc.
Qed.

Lemma player_correlation_defined_witness :
  sort_contract insertion_sort /\
  exists c,
    calculate_player_correlation insertion_sort "Ada" "Ben" "goals"
      (loaded sample_records) = (Some c, loaded sample_records).
Proof.
  split; [exact insertion_sort_contract|].
  apply (player_correlation_defined insertion_sort insertion_sort_contract).
Defined.

(** X18. Two players with fewer than two seasons in common correlate to 0.0:
    when fewer than two records of the first player have a season that a
    record of the second player has. *)
Theorem player_correlation_few_common_seasons
  (std_sort : forall A : Type, (A -> A -> bool) -> list A -> list A)
  (std_sort_ok : sort_contract std_sort)
  (records : list PlayerStats) (player1 player2 metric : string) :
  (List.length
     (filter
        (fun r1 =>
           existsb (fun r2 => (season r1 =? season r2)%string)
             (records_of player2 records))
        (records_of player1 records)) < 2)%nat ->
  result_of (calculate_player_correlation std_sort player1 player2 metric)
    (loaded records) = Some 0%float.
Proof.
  intros Hfew.
  destruct (metric_value metric) as [f|] eqn:Hf;
    [|now apply player_correlation_unknown_metric].
  rewrite (player_correlation_values std_sort std_sort_ok records
             player1 player2 metric f Hf). cbv zeta.
  destruct (sorted_seasons std_sort std_sort_ok
              (records_of player1 records)) as [Hp1 _].
  destruct (sorted_seasons std_sort std_sort_ok
              (records_of player2 records)) as [Hp2 _].
  unfold calculate_correlation.
  rewrite !length_map, common_values_length.
  rewrite <- (filter_length_Permutation _ _ _ Hp1).
  rewrite (filter_ext _
             (fun r1 =>
                existsb (fun r2 => (season r1 =? season r2)%string)
                  (records_of player2 records)))
    by (intros r1; symmetry; apply existsb_Permutation, Hp2).
  apply Nat.ltb_lt in Hfew. rewrite Hfew. now rewrite orb_true_r.
Qed.

Lemma player_correlation_few_common_seasons_witness :
  sort_contract insertion_sort /\
  result_of (calculate_player_correlation insertion_sort "Ada" "Cy" "rating")
    (loaded sample_records) = Some 0%float.
Proof.
  split; [exact insertion_sort_contract|].
  apply (player_correlation_few_common_seasons insertion_sort
           insertion_sort_contract sample_records "Ada" "Cy" "rating").
  simpl. lia.
Defined.

(** X19. The correlation of two players does not depend on their order, when
    neither player has two records of one season. *)
Theorem player_correlation_symmetric
  (std_sort : forall A : Type, (A -> A -> bool) -> list A -> list A)
  (std_sort_ok : sort_contract std_sort)
  (records : list PlayerStats) (player1 player2 metric : string) :
  NoDup (map season (records_of player1 records)) ->
  NoDup (map season (records_of player2 records)) ->
  result_of (calculate_player_correlation std_sort player1 player2 metric)
    (loaded records)
  = result_of (calculate_player_correlation std_sort player2 player1 metric)
      (loaded records).
Proof.
  intros Hnd1 Hnd2.
  destruct (metric_value metric) as [f|] eqn:Hf.
  - rewrite !(player_correlation_values std_sort std_sort_ok records
                _ _ metric f Hf). cbv zeta.
    destruct (sorted_seasons std_sort std_sort_ok
                (records_of player1 records)) as [Hp1 Hs1].
    destruct (sorted_seasons std_sort std_sort_ok
                (records_of player2 records)) as [Hp2 Hs2].
    rewrite (common_values_swap f
               (std_sort PlayerStats season_less
                  (records_of player1 records))
               (std_sort PlayerStats season_less
                  (records_of player2 records))).
    + rewrite !map_map. cbn [fst snd].
      apply calculate_correlation_sym.
    + apply sorted_seasons_ascend; auto.
      eapply Permutation_NoDup; [|exact Hnd1].
      now apply Permutation_map.
    + apply sorted_seasons_ascend; auto.
      eapply Permutation_NoDup; [|exact Hnd2].
      now apply Permutation_map.
  - now rewrite !(player_correlation_unknown_metric std_sort records
                    _ _ metric Hf).
Qed.

Lemma player_correlation_symmetric_witness :
  sort_contract insertion_sort /\
  result_of (calculate_player_correlation insertion_sort "Ada" "Dan" "rating")
    (loaded sample_records)
  = result_of
      (calculate_player_correlation insertion_sort "Dan" "Ada" "rating")
      (loaded sample_records).
Proof.
  split; [exact insertion_sort_contract|].
  apply (player_correlation_symmetric insertion_sort
           insertion_sort_contract sample_records "Ada" "Dan" "rating").
  - repeat constructor; simpl; intuition discriminate.
  - repeat constructor; simpl; intuition discriminate.
Defined.

(** ** The extreme percentiles *)

(** 1.0 times a normal double is the double. *)
Lemma SFmul_one (m : positive) (e : Z) :
  Zpos (digits2_pos m) = 53%Z -> (-1074 <= e <= 971)%Z ->
  SF64mul (Prim2SF 1) (S754_finite false m e) = S754_finite false m e.
Proof.
  intros Hdig He.
  change (Prim2SF 1) with (S754_finite false 4503599627370496 (-52)).
  unfold SF64mul, SFmul. cbn [xorb].
  change (4503599627370496 * m)%positive with (Pos.iter xO m 52).
  assert (Hshr : shr_fexp prec emax (Zpos (Pos.iter xO m 52)) (-52 + e)
                   loc_Exact
                 = ({| shr_m := Zpos m; shr_r := false; shr_s := false |},
                    e)).
  { unfold shr_fexp. cbn [Zdigits2]. rewrite digits2_iter_xO, Pos2Z.inj_add.
    rewrite Hdig.
    replace (fexp prec emax (53 + 52 + (-52 + e)) - (-52 + e))%Z with 52%Z
      by (unfold fexp, SpecFloat.emin, prec, emax; lia).
    unfold shr. f_equal; try reflexivity; lia. }
  unfold binary_round_aux. rewrite Hshr.
  cbn [shr_m loc_of_shr_record round_nearest_even].
  rewrite shr_fexp_none.
  - cbn [shr_m]. destruct (Z.leb_spec e (emax - prec)); auto.
    unfold emax, prec in *. lia.
  - unfold canonical_mantissa. rewrite Hdig. apply Z.eqb_eq.
    unfold fexp, SpecFloat.emin, prec, emax. lia.
Qed.

Lemma percentile_0_index (k : nat) :
  (Z.of_nat k < 2 ^ 53)%Z ->
  exists s, Prim2SF (0 / 100 * double_of_size k)%float = S754_zero s.
Proof.
  intros Hk. rewrite mul_spec.
  change (Prim2SF (0 / 100)) with (S754_zero false).
  apply SFmul_zero_l.
  destruct (double_of_size_cases k Hk) as [HK|(mk & ek & HK & _)];
    [left|right]; eauto.
Qed.

Lemma percentile_100_index (k : nat) :
  (Z.of_nat k < 2 ^ 53)%Z ->
  (100 / 100 * double_of_size k)%float = double_of_size k.
Proof.
  intros Hk. apply Prim2SF_inj. rewrite mul_spec.
  change (Prim2SF (100 / 100)) with (Prim2SF 1).
  destruct (double_of_size_cases k Hk)
    as [HK|(mk & ek & HK & Hdig & Hek & _)]; rewrite HK.
  - reflexivity.
  - apply SFmul_one; auto. lia.
Qed.

(** The floor and the ceiling of a whole number. *)
Lemma whole_ranks (k : nat) :
  (Z.of_nat k < 2 ^ 53)%Z ->
  size_t_of_double (std_floor (double_of_size k)) = Some k /\
  size_t_of_double (std_ceil (double_of_size k)) = Some k.
Proof.
  intros Hk. destruct k as [|k]; [split; reflexivity|].
  assert (Hx : size_t_of_double (double_of_size (S k)) = Some (S k)).
  { rewrite <- (Nat2Z.id (S k)) at 1 2.
    rewrite <- double_of_Z_size by lia.
    rewrite size_t_of_double_of_Z by lia. rewrite Nat2Z.id.
    reflexivity. }
  destruct (double_of_size_exact (S k)) as (m & Hm & Hv & Hdig & Hd);
    [lia|].
  set (d := (Z.log2 (Z.of_nat (S k)) + 1)%Z) in *.
  unfold std_floor, std_ceil. rewrite Hm. cbn [signed_mantissa].
  destruct (Z.ltb_spec (d - 53) 0) as [Hneg|Hge]; [|split; exact Hx].
  replace (- (d - 53))%Z with (53 - d)%Z by lia.
  assert (Hshift : Z.shiftr (Zpos m) (53 - d) = Z.of_nat (S k)).
  { rewrite Hv, Z.shiftr_div_pow2 by lia.
    apply Z.div_mul. apply Z.pow_nonzero; lia. }
  assert (Hshift' : (- Z.shiftr (- Zpos m) (53 - d))%Z = Z.of_nat (S k)).
  { rewrite Hv, Z.shiftr_div_pow2, <- Z.mul_opp_l by lia.
    rewrite Z.div_mul by (apply Z.pow_nonzero; lia). lia. }
  change (Zneg m) with (- Zpos m)%Z. rewrite Hshift, Hshift'.
  rewrite andb_false_r.
  rewrite size_t_of_double_of_Z by lia. rewrite Nat2Z.id.
  split; reflexivity.
Qed.

Lemma ltb_irrefl (x : double) : (x <? x)%float = false.
Proof.
  rewrite ltb_spec. unfold SFltb, SFcompare.
  destruct (Prim2SF x) as [s|s| |s m e]; auto.
  - now destruct s.
  - destruct s; rewrite Z.compare_refl.
    + change (Pos.compare_cont Eq m m) with (Pos.compare m m).
      now rewrite Pos.compare_refl.
    + change (Pos.compare_cont Eq m m) with (Pos.compare m m).
      now rewrite Pos.compare_refl.
Qed.

(** X20. The percentile 0 is the least value of the data and the percentile
    100 the greatest: both are values of the data, no value is less than
    the first and none is greater than the second. *)
Theorem percentile_extremes
  (std_sort : forall A : Type, (A -> A -> bool) -> list A -> list A)
  (std_sort_ok : sort_contract std_sort) (xs : list double) :
  xs <> [] ->
  Forall (fun x => is_nan x = false) xs ->
  (Z.of_nat (List.length xs) <= 2 ^ 53)%Z ->
  exists least greatest,
    calculate_percentile std_sort xs 0%float = Some least /\
    calculate_percentile std_sort xs 100%float = Some greatest /\
    In least xs /\ In greatest xs /\
    forall x, In x xs ->
      (x <? least)%float = false /\ (greatest <? x)%float = false.
Proof.
  intros Hne Hnan Hlen.
  destruct (sorted_doubles std_sort std_sort_ok xs Hnan) as [Hperm Hsorted].
  set (data := std_sort double PrimFloat.ltb xs) in *.
  assert (Hn : List.length data = List.length xs)
    by (symmetry; apply Permutation_length, Hperm).
  assert (Hpos : (0 < List.length data)%nat).
  { rewrite Hn. destruct xs; [contradiction|simpl; lia]. }
  set (k := (List.length data - 1)%nat).
  assert (Hk : (Z.of_nat k < 2 ^ 53)%Z) by (unfold k; lia).
  destruct (vec_at_some data 0%nat Hpos) as [least Hleast].
  destruct (vec_at_some data k) as [greatest Hgreatest]; [unfold k; lia|].
  exists least, greatest.
  assert (H0 : calculate_percentile std_sort xs 0%float = Some least).
  { unfold calculate_percentile. destruct xs as [|x xs]; [contradiction|].
    fold data. fold k.
    destruct (percentile_0_index k Hk) as [s Hs].
    destruct (zero_ranks _ s Hs) as [-> ->].
    cbn [Nat.eqb]. exact Hleast. }
  assert (H100 : calculate_percentile std_sort xs 100%float = Some greatest).
  { unfold calculate_percentile. destruct xs as [|x xs]; [contradiction|].
    fold data. fold k. rewrite (percentile_100_index k Hk).
    destruct (whole_ranks k Hk) as [-> ->].
    rewrite Nat.eqb_refl. exact Hgreatest. }
  split; [exact H0|]. split; [exact H100|].
  split; [|split].
  - eapply Permutation_in; [symmetry; exact Hperm|].
    eapply nth_error_In; exact Hleast.
  - eapply Permutation_in; [symmetry; exact Hperm|].
    eapply nth_error_In; exact Hgreatest.
  - intros x Hx. apply (Permutation_in _ Hperm) in Hx.
    apply In_nth_error in Hx. destruct Hx as [i Hi].
    assert (Hilt : (i < List.length data)%nat)
      by (apply nth_error_Some; congruence).
    split.
    + destruct i as [|i].
      * unfold vec_at in Hleast. rewrite Hleast in Hi. inversion Hi.
        apply ltb_irrefl.
      * apply (Hsorted 0%nat (S i) least x); auto. lia.
    + destruct (Nat.eq_dec i k) as [->|Hik].
      * unfold vec_at in Hgreatest. rewrite Hgreatest in Hi. inversion Hi.
        apply ltb_irrefl.
      * apply (Hsorted i k x greatest); auto. unfold k in *. lia.
Qed.

Lemma percentile_extremes_witness :
  let xs := [3%float; 1%float; 2%float; 4%float] in
  sort_contract insertion_sort /\
  exists least greatest,
    calculate_percentile insertion_sort xs 0%float = Some least /\
    calculate_percentile insertion_sort xs 100%float = Some greatest /\
    In least xs /\ In greatest xs /\
    forall x, In x xs ->
      (x <? least)%float = false /\ (greatest <? x)%float = false.
Proof.
  cbv zeta. split; [exact insertion_sort_contract|].
  apply (percentile_extremes insertion_sort insertion_sort_contract
           [3%float; 1%float; 2%float; 4%float]).
  - discriminate.
  - repeat (apply Forall_cons; [reflexivity|]). apply Forall_nil.
  - simpl. lia.
Defined.

Lemma extract_token_length (delim : ascii) (s : string) :
  (String.length (snd (extract_token delim s)) <= String.length s)%nat.
Proof.
  induction s as [|c s IH]; simpl; auto.
  destruct (Ascii.eqb c delim); simpl; auto.
  destruct (extract_token delim s); simpl in *. lia.
Qed.

Lemma std_getline_shorter (delim : ascii) (s token rest : string) :
  std_getline delim s = Some (token, rest) ->
  (String.length rest < String.length s)%nat.
Proof.
  destruct s as [|c s]; [discriminate|]. unfold std_getline.
  intros H. inversion H as [E]. cbn [extract_token] in E.
  pose proof (extract_token_length delim s) as Hlen.
  destruct (Ascii.eqb c delim).
  - inversion E; subst. simpl. lia.
  - destruct (extract_token delim s). inversion E; subst. simpl in *. lia.
Qed.

(** The loop ends because [std::getline] fails, not because the fuel is
    used up: any fuel above the number of characters gives the same. *)
Lemma getline_loop_fuel {St : Type} (delim : ascii)
  (body : string -> St -> option St) (fuel fuel' : nat) (s : string) (st : St) :
  (String.length s < fuel)%nat -> (String.length s < fuel')%nat ->
  getline_loop fuel delim body s st = getline_loop fuel' delim body s st.
Proof.
  revert fuel' s st. induction fuel as [|fuel IH]; intros fuel' s st H1 H2;
    [lia|].
  destruct fuel' as [|fuel']; [lia|]. cbn [getline_loop].
  destruct (std_getline delim s) as [[token rest]|] eqn:E; auto.
  apply std_getline_shorter in E.
  destruct (body token st); auto. apply IH; lia.
Qed.

(** One turn of the loop. *)
Lemma while_getline_step {St : Type} (delim : ascii)
  (body : string -> St -> option St) (s : string) (st : St) :
  while_getline delim body s st
  = match std_getline delim s with
    | None => Some st
    | Some (token, rest) =>
        match body token st with
        | Some st' => while_getline delim body rest st'
        | None => None
        end
    end.
Proof.
  unfold while_getline at 1.
  set (continue := while_getline delim body). cbn [getline_loop].
  destruct (std_getline delim s) as [[token rest]|] eqn:E; auto.
  apply std_getline_shorter in E.
  destruct (body token st); auto. subst continue. unfold while_getline.
  apply getline_loop_fuel; lia.
Qed.

Lemma string_length_induction (P : string -> Prop) :
  (forall s, (forall s', (String.length s' < String.length s)%nat -> P s') ->
             P s) ->
  forall s, P s.
Proof.
  intros H s.
  assert (Hn : forall n s, (String.length s < n)%nat -> P s).
  { induction n as [|n IH]; intros s0 Hs; [lia|].
    apply H. intros s' Hs'. apply IH. lia. }
  apply (Hn (S (String.length s))). lia.
Qed.

Lemma tokens_of_step (delim : ascii) (s : string) :
  tokens_of delim s
  = match std_getline delim s with
    | None => []
    | Some (token, rest) => token :: tokens_of delim rest
    end.
Proof.
  unfold tokens_of.
  assert (Hacc : forall s acc,
            while_getline delim
              (fun token tokens => Some (push_back token tokens)) s acc
            = Some (acc ++ match while_getline delim
                                   (fun token tokens =>
                                      Some (push_back token tokens)) s [] with
                           | Some tokens => tokens
                           | None => []
                           end)).
  { intros s0. induction s0 as [s0 IH] using string_length_induction.
    intros acc. rewrite (while_getline_step _ _ s0 acc).
    rewrite (while_getline_step _ _ s0 []).
    destruct (std_getline delim s0) as [[token rest]|] eqn:E.
    - apply std_getline_shorter in E.
      rewrite (IH rest E (push_back token acc)).
      rewrite (IH rest E (push_back token [])).
      unfold push_back. cbn [app]. now rewrite <- app_assoc.
    - now rewrite app_nil_r. }
  rewrite while_getline_step.
  destruct (std_getline delim s) as [[token rest]|] eqn:E; auto.
  now rewrite Hacc.
Qed.

(** The loop, as a fold over the tokens. *)
Lemma while_getline_fold {St : Type} (delim : ascii)
  (body : string -> St -> option St) (s : string) (st : St) :
  while_getline delim body s st
  = fold_left
      (fun acc token =>
         match acc with Some st => body token st | None => None end)
      (tokens_of delim s) (Some st).
Proof.
  revert st. induction s as [s IH] using string_length_induction.
  intros st. rewrite while_getline_step, tokens_of_step.
  destruct (std_getline delim s) as [[token rest]|] eqn:E; auto.
  apply std_getline_shorter in E. cbn [fold_left].
  destruct (body token st) as [st'|]; [now apply IH|].
  clear. induction (tokens_of delim rest); simpl; auto.
Qed.

Lemma split_line_map (line : string) (delimiter : ascii) :
  split_line line delimiter = map trim (tokens_of delimiter line).
Proof.
  unfold split_line. rewrite while_getline_fold.
  assert (Hgen : forall l acc,
            fold_left
              (fun (acc : option (list string)) token =>
                 match acc with
                 | Some st => Some (push_back (trim token) st)
                 | None => None
                 end) l (Some acc)
            = Some (acc ++ map trim l)).
  { induction l as [|t l IH]; intros acc; simpl.
    - now rewrite app_nil_r.
    - rewrite IH. unfold push_back. now rewrite <- app_assoc. }
  now rewrite Hgen.
Qed.

(** ** Trimming *)

Lemma substring_all (s : string) : substring 0 (String.length s) s = s.
Proof. induction s as [|c s IH]; simpl; auto. now rewrite IH. Qed.

Lemma erase_front_drop_blanks (s : string) :
  erase_front (find_first_not_of blanks s) s = drop_blanks s.
Proof.
  induction s as [|c s IH]; [reflexivity|].
  cbn [find_first_not_of drop_blanks].
  destruct (contains c blanks).
  - rewrite <- IH. destruct (find_first_not_of blanks s); reflexivity.
  - unfold erase_front. rewrite Nat.sub_0_r. apply substring_all.
Qed.

Lemma erase_from_drop_trailing (s : string) :
  erase_from (next_position (find_last_not_of blanks s)) s
  = drop_trailing s.
Proof.
  unfold erase_from. induction s as [|c s IH]; [reflexivity|].
  cbn [find_last_not_of drop_trailing].
  destruct (find_last_not_of blanks s) as [i|].
  - cbn [next_position] in *. cbn [substring]. now rewrite IH.
  - destruct (contains c blanks); cbn [next_position substring]; auto.
    now destruct s.
Qed.

Lemma trim_drop (token : string) :
  trim token = drop_trailing (drop_blanks token).
Proof.
  unfold trim. cbv zeta.
  now rewrite erase_front_drop_blanks, erase_from_drop_trailing.
Qed.

Lemma drop_blanks_starts (s : string) :
  starts_with_blank (drop_blanks s) = false.
Proof.
  induction s as [|c s IH]; [reflexivity|]. cbn [drop_blanks].
  destruct (contains c blanks) eqn:E; auto.
Qed.

Lemma find_last_none (s : string) :
  find_last_not_of blanks s = None -> drop_trailing s = EmptyString.
Proof.
  destruct s as [|c s]; [reflexivity|].
  cbn [find_last_not_of drop_trailing].
  destruct (find_last_not_of blanks s); [discriminate|].
  now destruct (contains c blanks).
Qed.

Lemma find_last_some (s : string) (i : nat) :
  find_last_not_of blanks s = Some i -> drop_trailing s <> EmptyString.
Proof.
  destruct s as [|c s]; [discriminate|].
  cbn [find_last_not_of drop_trailing].
  destruct (find_last_not_of blanks s); [discriminate|].
  destruct (contains c blanks); discriminate.
Qed.

Lemma drop_trailing_ends (s : string) :
  ends_with_blank (drop_trailing s) = false.
Proof.
  induction s as [|c s IH]; [reflexivity|]. cbn [drop_trailing].
  destruct (find_last_not_of blanks s) as [i|] eqn:E.
  - pose proof (find_last_some s i E) as Hne.
    destruct (drop_trailing s) as [|c' r] eqn:D; [contradiction|].
    exact IH.
  - destruct (contains c blanks) eqn:Ec; [reflexivity|].
    cbn [ends_with_blank]. exact Ec.
Qed.

Lemma drop_trailing_starts (s : string) :
  starts_with_blank s = false -> starts_with_blank (drop_trailing s) = false.
Proof.
  destruct s as [|c s]; [reflexivity|].
  cbn [starts_with_blank drop_trailing]. intros Hc.
  destruct (find_last_not_of blanks s); [exact Hc|].
  rewrite Hc. exact Hc.
Qed.

Lemma drop_blanks_contains (d : ascii) (s : string) :
  contains d s = false -> contains d (drop_blanks s) = false.
Proof.
  induction s as [|c s IH]; [reflexivity|].
  cbn [contains drop_blanks]. intros H.
  apply orb_false_iff in H. destruct H as [H1 H2].
  destruct (contains c blanks); auto. cbn [contains]. now rewrite H1, H2.
Qed.

Lemma drop_trailing_contains (d : ascii) (s : string) :
  contains d s = false -> contains d (drop_trailing s) = false.
Proof.
  induction s as [|c s IH]; [reflexivity|].
  cbn [contains drop_trailing]. intros H.
  apply orb_false_iff in H. destruct H as [H1 H2].
  destruct (find_last_not_of blanks s).
  - cbn [contains]. now rewrite H1, IH.
  - destruct (contains c blanks); [reflexivity|].
    cbn [contains]. now rewrite H1.
Qed.

Lemma drop_blanks_fixed (s : string) :
  starts_with_blank s = false -> drop_blanks s = s.
Proof.
  destruct s as [|c s]; [reflexivity|].
  cbn [starts_with_blank drop_blanks]. now intros ->.
Qed.

Lemma find_last_ends (s : string) :
  s <> EmptyString -> ends_with_blank s = false ->
  exists i, find_last_not_of blanks s = Some i.
Proof.
  induction s as [|c s IH]; [contradiction|]. intros _ He.
  cbn [find_last_not_of]. destruct s as [|c' s'].
  - cbn [ends_with_blank] in He. cbn [find_last_not_of]. rewrite He. eauto.
  - destruct IH as [i ->]; [discriminate|exact He|]. eauto.
Qed.

Lemma drop_trailing_fixed (s : string) :
  ends_with_blank s = false -> drop_trailing s = s.
Proof.
  induction s as [|c s IH]; auto. intros He. cbn [drop_trailing].
  destruct s as [|c' s'].
  - cbn [ends_with_blank] in He. cbn [find_last_not_of]. now rewrite He.
  - destruct (find_last_ends (String c' s')) as [i ->];
      [discriminate|exact He|].
    now rewrite IH.
Qed.

(** What [trim] leaves neither starts nor ends with a blank, and holds no
    character the token did not hold. *)
Lemma trim_trimmed (token : string) :
  starts_with_blank (trim token) = false /\
  ends_with_blank (trim token) = false.
Proof.
  rewrite trim_drop. split.
  - apply drop_trailing_starts, drop_blanks_starts.
  - apply drop_trailing_ends.
Qed.

Lemma trim_contains (d : ascii) (token : string) :
  contains d token = false -> contains d (trim token) = false.
Proof.
  intros H. rewrite trim_drop.
  now apply drop_trailing_contains, drop_blanks_contains.
Qed.

Lemma trim_fixed (token : string) :
  starts_with_blank token = false -> ends_with_blank token = false ->
  trim token = token.
Proof.
  intros Hs He. rewrite trim_drop, (drop_blanks_fixed token Hs).
  now apply drop_trailing_fixed.
Qed.

(** ** Tokens *)

Lemma tokens_of_cons (delim c : ascii) (rest : string) :
  tokens_of delim (String c rest)
  = if Ascii.eqb c delim then EmptyString :: tokens_of delim rest
    else match tokens_of delim rest with
         | [] => [String c EmptyString]
         | token :: tokens => String c token :: tokens
         end.
Proof.
  rewrite tokens_of_step. cbn [std_getline extract_token].
  destruct (Ascii.eqb c delim); [reflexivity|].
  rewrite (tokens_of_step delim rest).
  destruct rest as [|c' rest'].
  - cbn [extract_token std_getline]. now rewrite tokens_of_step.
  - cbn [std_getline].
    now destruct (extract_token delim (String c' rest')).
Qed.

Lemma tokens_of_empty (delim : ascii) : tokens_of delim EmptyString = [].
Proof. reflexivity. Qed.

Lemma tokens_of_no_delim (delim : ascii) (s : string) :
  Forall (fun token => contains delim token = false) (tokens_of delim s).
Proof.
  induction s as [|c s IH]; [constructor|].
  rewrite tokens_of_cons.
  destruct (Ascii.eqb c delim) eqn:E; [constructor; auto|].
  destruct (tokens_of delim s) as [|t ts].
  - repeat constructor. cbn [contains].
    rewrite Ascii.eqb_sym, E. reflexivity.
  - inversion IH; subst. constructor; auto.
    cbn [contains]. rewrite Ascii.eqb_sym, E. auto.
Qed.

Lemma tokens_of_app_delim (delim : ascii) (token rest : string) :
  contains delim token = false ->
  tokens_of delim (token ++ String delim rest)
  = token :: tokens_of delim rest.
Proof.
  induction token as [|c token IH]; intros H.
  - cbn [append]. now rewrite tokens_of_cons, Ascii.eqb_refl.
  - cbn [contains] in H. apply orb_false_iff in H. destruct H as [H1 H2].
    cbn [append]. rewrite tokens_of_cons, Ascii.eqb_sym, H1.
    now rewrite (IH H2).
Qed.

Lemma tokens_of_single (delim : ascii) (token : string) :
  contains delim token = false -> token <> EmptyString ->
  tokens_of delim token = [token].
Proof.
  induction token as [|c token IH]; intros H Hne; [contradiction|].
  cbn [contains] in H. apply orb_false_iff in H. destruct H as [H1 H2].
  rewrite tokens_of_cons, Ascii.eqb_sym, H1.
  destruct token as [|c' token']; [reflexivity|].
  rewrite (IH H2); [reflexivity|discriminate].
Qed.

Lemma tokens_of_join (delim : ascii) (tokens : list string) :
  Forall (fun token => contains delim token = false) tokens ->
  tokens = [] \/ last tokens EmptyString <> EmptyString ->
  tokens_of delim (join delim tokens) = tokens.
Proof.
  induction 1 as [|t ts Ht Hall IH]; intros Hlast.
  - reflexivity.
  - destruct Hlast as [|Hlast]; [discriminate|].
    destruct ts as [|t' ts'].
    + apply tokens_of_single; auto.
    + change (join delim (t :: t' :: ts'))
        with (t ++ String delim (join delim (t' :: ts')))%string.
      rewrite (tokens_of_app_delim delim t _ Ht). f_equal.
      apply IH. right. exact Hlast.
Qed.

Lemma tokens_of_count (delim : ascii) (s : string) :
  List.length (tokens_of delim s)
  = (count_char delim s
     + if (s =? "")%string || ends_with delim s then 0 else 1)%nat.
Proof.
  induction s as [|c s IH]; [reflexivity|].
  rewrite tokens_of_cons. cbn [count_char String.eqb orb].
  destruct s as [|c' s'].
  - cbn [ends_with count_char]. rewrite tokens_of_empty.
    destruct (Ascii.eqb c delim); reflexivity.
  - change (ends_with delim (String c (String c' s')))
      with (ends_with delim (String c' s')).
    cbn [String.eqb orb] in IH.
    destruct (Ascii.eqb c delim).
    + cbn [List.length]. rewrite IH. lia.
    + destruct (tokens_of delim (String c' s')) as [|t ts] eqn:E.
      * exfalso. rewrite tokens_of_cons in E.
        destruct (Ascii.eqb c' delim); [discriminate|].
        destruct (tokens_of delim s'); discriminate.
      * cbn [List.length] in *. rewrite IH. lia.
Qed.

Lemma split_line_fields (line : string) (delimiter : ascii) :
  Forall
    (fun token =>
       starts_with_blank token = false /\
       ends_with_blank token = false /\
       contains delimiter token = false)
    (split_line line delimiter).
Proof.
  rewrite split_line_map, Forall_map.
  eapply Forall_impl; [|apply tokens_of_no_delim].
  intros token H. cbn in H.
  destruct (trim_trimmed token) as [Hs He].
  split; [exact Hs|]. split; [exact He|]. now apply trim_contains.
Qed.

(** X21. Every token [split_line] returns is trimmed, it neither starts nor
    ends with a blank, a tab, a carriage return or a line feed, and holds
    no delimiter. *)
Theorem split_line_tokens (line : string) (delimiter : ascii) :
  Forall
    (fun token =>
       starts_with_blank token = false /\
       ends_with_blank token = false /\
       contains delimiter token = false)
    (split_line line delimiter).
Proof. apply split_line_fields. Qed.

(** X22. [split_line] returns one token per delimiter, and one more when the
    line is not empty and does not end with the delimiter: a field that is
    empty at the end of the line is lost, an empty line has no field. *)
Theorem split_line_count (line : string) (delimiter : ascii) :
  List.length (split_line line delimiter)
  = (count_char delimiter line
     + if (line =? "")%string || ends_with delimiter line then 0 else 1)%nat.
Proof. rewrite split_line_map, length_map. apply tokens_of_count. Qed.

(** X23. [split_line] reads back the fields that were joined with the
    delimiter, when no field holds the delimiter or starts or ends with a
    blank, and the last field is not empty. *)
Theorem split_line_join (tokens : list string) (delimiter : ascii) :
  Forall
    (fun token =>
       starts_with_blank token = false /\
       ends_with_blank token = false /\
       contains delimiter token = false)
    tokens ->
  tokens = [] \/ last tokens EmptyString <> EmptyString ->
  split_line (join delimiter tokens) delimiter = tokens.
Proof.
  intros Hall Hlast. rewrite split_line_map, tokens_of_join; auto.
  - induction Hall as [|t ts (Hs & He & _) Hall IH]; [reflexivity|].
    cbn [map]. rewrite (trim_fixed t Hs He). f_equal.
    apply IH. destruct Hlast as [|Hlast]; [discriminate|].
    destruct ts; [now left|right; exact Hlast].
  - eapply Forall_impl; [|exact Hall]. cbn. tauto.
Qed.

Lemma split_line_join_witness :
  split_line (join "," ["P0001"; "Ada Costa"; ""; "78.5"]) ","
  = ["P0001"; "Ada Costa"; ""; "78.5"].
Proof.
  apply split_line_join.
  - repeat (apply Forall_cons; [repeat split; reflexivity|]).
    apply Forall_nil.
  - right. discriminate.
Defined.

(** ** Parsing *)

Lemma std_stoi_int (s : string) (z : Z) : std_stoi s = Some z -> is_int z.
Proof.
  unfold std_stoi, is_int.
  destruct (match skip_spaces s with
            | String "-" s' => (true, s')
            | String "+" s' => (false, s')
            | _ => (false, skip_spaces s)
            end) as [negative s0].
  destruct (read_digits s0 0 false) as [v|]; [|discriminate].
  destruct (Z.leb_spec (-2147483648) (if negative then (- v)%Z else v))
    as [Hlo|]; [|discriminate].
  destruct (Z.ltb_spec (if negative then (- v)%Z else v) 2147483648)
    as [Hhi|]; [|discriminate].
  cbn [andb]. intros E. inversion E; subst. lia.
Qed.

Lemma token_at_value (tokens : list string) (i : nat) :
  (i < List.length tokens)%nat ->
  exists token, token_at tokens i = Value token /\ In token tokens.
Proof.
  intros Hi. unfold token_at, vec_at.
  destruct (nth_error tokens i) as [t|] eqn:E.
  - exists t. split; auto. eapply nth_error_In; eauto.
  - apply nth_error_None in E. lia.
Qed.

Lemma token_at_In (tokens : list string) (i : nat) (token : string) :
  token_at tokens i = Value token -> In token tokens.
Proof.
  unfold token_at, vec_at.
  destruct (nth_error tokens i) as [t|] eqn:E; [|discriminate].
  intros H. inversion H; subst. eapply nth_error_In; eauto.
Qed.

Section ParserFacts.
Variable std_stod : string -> option double.

(** A line with 16 fields or more is read inside its fields. *)
Lemma parse_fields_defined (tokens : list string) :
  (16 <= List.length tokens)%nat ->
  parse_fields std_stod tokens <> Undefined.
Proof.
  intros Hlen. unfold parse_fields.
  repeat first
    [ match goal with
      | |- context [token_at tokens ?i] =>
          let H := fresh in
          destruct (token_at_value tokens i) as (? & H & _); [lia|];
          rewrite H; cbn [and_then]; clear H
      end
    | match goal with
      | |- context [or_throw ?x] =>
          destruct x; cbn [or_throw and_then]; [|discriminate]
      end
    | progress cbv zeta ].
  discriminate.
Qed.

(** What the [try] block returns is well parsed. *)
Lemma parse_fields_value (tokens : list string) (player : PlayerStats) :
  Forall is_field tokens ->
  parse_fields std_stod tokens = Value player -> well_parsed player.
Proof.
  intros Hall. rewrite Forall_forall in Hall. unfold parse_fields.
  repeat first
    [ match goal with
      | |- context [token_at tokens ?i] =>
          let T := fresh "T" in
          destruct (token_at tokens i) eqn:T; cbn [and_then];
          [apply token_at_In in T|discriminate|discriminate]
      end
    | match goal with
      | |- context [or_throw ?x] =>
          let Hn := fresh "Hn" in
          destruct x eqn:Hn; cbn [or_throw and_then]; [|discriminate]
      end
    | progress cbv zeta ].
  intros E. inversion E; subst. clear E.
  unfold well_parsed.
  cbn [player_id player_name team position season matches_played
         minutes_played goals assists shots shots_on_target passes tackles
         interceptions goals_per_match assists_per_match].
  repeat match goal with
         | H : std_stoi _ = Some _ |- _ => apply std_stoi_int in H
         end.
  repeat match goal with |- _ /\ _ => split end;
    try reflexivity; try assumption; apply Hall; assumption.
Qed.

Local Abbreviation not_empty := (fun line => negb (line =? "")%string).

Local Abbreviation parse_step :=
  (fun (acc : option parse_state) (line : string) =>
     match acc with
     | Some st => parse_line std_stod line st
     | None => None
     end).

Lemma parse_fold (stream : string) :
  parse std_stod (Some stream)
  = match fold_left parse_step (tokens_of "010" stream)
            (Some {| headers := []; first_line := true; players := [] |})
    with
    | Some parser => Value (players parser)
    | None => Undefined
    end.
Proof. unfold parse. now rewrite while_getline_fold. Qed.

Lemma parse_step_none (lines : list string) :
  fold_left parse_step lines None = None.
Proof. induction lines; simpl; auto. Qed.

(** The loop of [parse] on a file with a header of 16 columns or more. *)
Lemma parse_lines_defined (lines : list string) (st : parse_state) :
  (first_line st = true ->
   forall header, find not_empty lines = Some header ->
                  (16 <= List.length (split_line header ","))%nat) ->
  (first_line st = false -> (16 <= List.length (headers st))%nat) ->
  exists st', fold_left parse_step lines (Some st) = Some st'.
Proof.
  revert st. induction lines as [|line lines IH]; intros st Hfirst Hnext;
    cbn [fold_left]; [eauto|].
  unfold parse_line at 2. cbn [find] in Hfirst.
  destruct (line =? "")%string eqn:El; cbn [negb] in Hfirst.
  - now apply IH.
  - destruct (first_line st) eqn:Ef.
    + apply IH; cbn [first_line headers]; [discriminate|].
      intros _. now apply Hfirst.
    + specialize (Hnext eq_refl). cbv zeta.
      destruct (Nat.ltb_spec (List.length (split_line line ","))
                  (List.length (headers st))) as [|Hge].
      * apply IH; rewrite ?Ef; auto; discriminate.
      * pose proof (parse_fields_defined (split_line line ",")
                      ltac:(lia)) as Hdef.
        destruct (parse_fields std_stod (split_line line ","));
          [| |contradiction].
        -- apply IH; cbn [first_line headers]; rewrite ?Ef; auto;
             discriminate.
        -- apply IH; rewrite ?Ef; auto; discriminate.
Qed.

(** What the loop of [parse] keeps. *)
Lemma parse_lines_invariant (lines : list string) (st st' : parse_state) :
  fold_left parse_step lines (Some st) = Some st' ->
  Forall well_parsed (players st) ->
  (first_line st = true -> players st = []) ->
  Forall well_parsed (players st') /\
  (first_line st' = true -> players st' = []) /\
  (List.length (players st') + (if first_line st' then 0 else 1)
   <= List.length (players st) + (if first_line st then 0 else 1)
      + List.length (filter not_empty lines))%nat.
Proof.
  revert st. induction lines as [|line lines IH]; intros st Hrun Hall Hnil;
    cbn [fold_left] in Hrun.
  - inversion Hrun; subst. cbn [filter List.length]. repeat split; auto.
    lia.
  - unfold parse_line at 2 in Hrun. cbn [filter].
    destruct (line =? "")%string eqn:El; cbn [negb].
    + now apply IH.
    + cbn [List.length]. destruct (first_line st) eqn:Ef.
      * destruct (IH _ Hrun) as (H1 & H2 & H3);
          [exact Hall|cbn [first_line]; discriminate|].
        repeat split; auto. cbn [players first_line] in H3.
        rewrite (Hnil eq_refl) in *. cbn [List.length] in *. lia.
      * cbv zeta in Hrun.
        destruct (List.length (split_line line ",")
                  <? List.length (headers st))%nat.
        -- destruct (IH _ Hrun) as (H1 & H2 & H3);
             [exact Hall|rewrite Ef; discriminate|].
           repeat split; auto. rewrite Ef in H3. lia.
        -- destruct (parse_fields std_stod (split_line line ","))
             as [player| |] eqn:Ep.
           ++ destruct (IH _ Hrun) as (H1 & H2 & H3).
              ** cbn [players]. unfold push_back.
                 apply Forall_app. split; [exact Hall|].
                 constructor; [|constructor].
                 eapply parse_fields_value; [|exact Ep].
                 apply split_line_fields.
              ** cbn [first_line]. rewrite ?Ef. discriminate.
              ** repeat split; auto. cbn [players first_line] in H3.
                 unfold push_back in H3. rewrite length_app in H3.
                 cbn [List.length] in H3. rewrite ?Ef in H3. lia.
           ++ destruct (IH _ Hrun) as (H1 & H2 & H3);
                [exact Hall|rewrite Ef; discriminate|].
              repeat split; auto. rewrite Ef in H3. lia.
           ++ rewrite parse_step_none in Hrun. discriminate.
Qed.
End ParserFacts.

(** X24. When the first line of the file that is not empty has 16 fields or
    more, [parse] reads every line inside its fields and returns records
    (lines it cannot read are skipped), and [load_data] leaves the analyzer
    holding these records, indexed. *)
Theorem parse_reads_inside_rows (std_stod : string -> option double)
  (stream : string) (a : PerformanceAnalyzer) :
  (forall header,
     header_line stream = Some header ->
     (16 <= List.length (split_line header ","))%nat) ->
  exists records,
    parse std_stod (Some stream) = Value records /\
    load_data std_stod (Some stream) a = (Value tt, loaded records).
Proof.
  intros Hheader. unfold load_data. rewrite parse_fold.
  destruct (parse_lines_defined std_stod (tokens_of "010" stream)
              {| headers := []; first_line := true; players := [] |})
    as [st' Hst'].
  - intros _. exact Hheader.
  - discriminate.
  - rewrite Hst'. exists (players st'). split; reflexivity.
Qed.

Lemma parse_reads_inside_rows_witness :
  header_line sample_file = Some sample_header /\
  List.length (split_line sample_header ",") = 16%nat /\
  exists records,
    parse stod_of_integers (Some sample_file) = Value records /\
    load_data stod_of_integers (Some sample_file) (loaded [])
    = (Value tt, loaded records).
Proof.
  split; [reflexivity|]. split; [reflexivity|].
  apply (parse_reads_inside_rows stod_of_integers sample_file (loaded [])).
  intros header H. vm_compute in H. inversion H. vm_compute. lia.
Defined.

(** X25. Every record [parse] returns is well parsed: its five text fields
    are trimmed and hold no comma, its whole numbers are in [int], and
    goals per match and assists per match are the goals and the assists
    divided by the matches played, or 0.0 when no match was played. *)
Theorem parsed_records_well_formed (std_stod : string -> option double)
  (stream : string) (records : list PlayerStats) :
  parse std_stod (Some stream) = Value records ->
  Forall well_parsed records.
Proof.
  rewrite parse_fold.
  destruct (fold_left _ (tokens_of "010" stream) _) as [st'|] eqn:E;
    [|discriminate].
  intros H. inversion H; subst.
  apply (parse_lines_invariant std_stod _ _ _ E); cbn [players]; auto.
Qed.

Lemma parsed_records_well_formed_witness :
  exists records,
    parse stod_of_integers (Some sample_file) = Value records /\
    List.length records = 1%nat /\
    Forall well_parsed records.
Proof.
  eexists. split; [vm_compute; reflexivity|]. split; [reflexivity|].
  apply (parsed_records_well_formed stod_of_integers sample_file).
  vm_compute. reflexivity.
Defined.

(** X26. [parse] returns at most one record for each line that is not empty,
    the first of these lines, the header, apart: a file with a header only,
    or without any line, gives no record. *)
Theorem parse_skips_header (std_stod : string -> option double)
  (stream : string) (records : list PlayerStats) :
  parse std_stod (Some stream) = Value records ->
  (List.length records
   <= List.length
        (filter (fun line => negb (line =? "")%string)
           (tokens_of "010" stream)) - 1)%nat.
Proof.
  rewrite parse_fold.
  destruct (fold_left _ (tokens_of "010" stream) _) as [st'|] eqn:E;
    [|discriminate].
  intros H. inversion H; subst.
  destruct (parse_lines_invariant std_stod _ _ _ E) as (_ & Hnil & Hlen);
    cbn [players first_line]; auto.
  cbn [players first_line List.length] in Hlen.
  destruct (first_line st'); [|lia].
  rewrite (Hnil eq_refl). cbn [List.length]. lia.
Qed.

Lemma parse_skips_header_witness :
  parse stod_of_integers (Some sample_header) = Value [] /\
  (0 <= List.length
          (filter (fun line => negb (line =? "")%string)
             (tokens_of "010" sample_header)) - 1)%nat.
Proof.
  assert (H : parse stod_of_integers (Some sample_header) = Value [])
    by (vm_compute; reflexivity).
  split; [exact H|].
  exact (parse_skips_header stod_of_integers sample_header [] H).
Defined.

(** ** Doubles: half a sum and the sum of the halves *)

(** The digits of a mantissa that was shifted to the right. *)
Lemma digits_div_pow2 (M n : Z) :
  (0 < M)%Z -> (0 <= n <= Zdigits2 M - 1)%Z ->
  Zdigits2 (M / 2 ^ n) = (Zdigits2 M - n)%Z.
Proof.
  intros HM Hn. pose proof (Zdigits2_bounds M HM) as Hd.
  set (d := Zdigits2 M) in *.
  assert (Hp : (0 < 2 ^ n)%Z) by (apply pow2_pos; lia).
  assert (H1 : (2 ^ (d - 1) = 2 ^ (d - 1 - n) * 2 ^ n)%Z)
    by (rewrite <- pow2_split by lia; f_equal; lia).
  assert (H2 : (2 ^ d = 2 ^ (d - n) * 2 ^ n)%Z)
    by (rewrite <- pow2_split by lia; f_equal; lia).
  assert (Hlow : (2 ^ (d - 1 - n) <= M / 2 ^ n)%Z)
    by (apply Z.div_le_lower_bound; lia).
  assert (Hup : (M / 2 ^ n < 2 ^ (d - n))%Z)
    by (apply Z.div_lt_upper_bound; lia).
  assert (Hq : (0 < M / 2 ^ n)%Z).
  { assert (0 < 2 ^ (d - 1 - n))%Z by (apply pow2_pos; lia). lia. }
  pose proof (Zdigits2_bounds _ Hq) as Hd'.
  set (d' := Zdigits2 (M / 2 ^ n)) in *.
  assert (d' - 1 < d - n)%Z.
  { apply (Z.pow_lt_mono_r_iff 2); lia. }
  assert (d - 1 - n < d')%Z.
  { apply (Z.pow_lt_mono_r_iff 2); try lia.
    destruct (Z.le_gt_cases 0 d'); [lia|].
    rewrite (Z.pow_neg_r 2 d') in Hd' by lia. lia. }
  lia.
Qed.

Lemma shr_fst (mrs : shr_record) (e e' n : Z) :
  fst (shr mrs e n) = fst (shr mrs e' n).
Proof. unfold shr. now destruct n. Qed.

Lemma digits_53 (m : Z) :
  (2 ^ 52 <= m < 2 ^ 53)%Z -> Zdigits2 m = 53%Z.
Proof.
  intros H. assert (Hm : (0 < m)%Z) by lia.
  pose proof (Zdigits2_bounds m Hm) as Hd.
  set (d := Zdigits2 m) in *.
  assert (d - 1 < 53)%Z by (apply (Z.pow_lt_mono_r_iff 2); lia).
  assert (52 < d)%Z.
  { apply (Z.pow_lt_mono_r_iff 2); try lia.
    destruct (Z.le_gt_cases 0 d); [lia|].
    rewrite (Z.pow_neg_r 2 d) in Hd by lia. lia. }
  lia.
Qed.

(** What [normal_round] keeps: 53 bits, of which the first is set. *)
Lemma normal_round_shape (M : positive) (l : location) :
  let d := Zpos (digits2_pos M) in
  (53 <= d)%Z ->
  let q := (Zpos M / 2 ^ (d - 53))%Z in
  (2 ^ 52 <= q < 2 ^ 53)%Z /\
  Zpos (digits2_pos (fst (normal_round M l))) = 53%Z /\
  ((Zpos (fst (normal_round M l)) = q \/
    Zpos (fst (normal_round M l)) = q + 1) /\
   snd (normal_round M l) = d - 53 \/
   q + 1 = 2 ^ 53 /\
   Zpos (fst (normal_round M l)) = 2 ^ 52 /\
   snd (normal_round M l) = d - 52)%Z.
Proof.
  intros d Hd q. unfold normal_round. fold d.
  set (mrs0 := shr_record_of_loc (Zpos M) l).
  assert (Hm0 : shr_m mrs0 = Zpos M) by apply shr_record_of_loc_m.
  destruct (shr_shifted mrs0 0 (d - 53)) as [Hsh _]; [rewrite Hm0; lia|].
  rewrite Z.max_l in Hsh by lia.
  destruct Hsh as (Hq & _ & _). rewrite Hm0 in Hq. fold q in Hq.
  set (mrs := fst (shr mrs0 0 (d - 53))) in *.
  assert (Hdq : Zdigits2 q = 53%Z).
  { unfold q. rewrite digits_div_pow2; cbn [Zdigits2]; fold d; lia. }
  assert (Hqb : (2 ^ 52 <= q < 2 ^ 53)%Z).
  { assert (Hqpos : (0 < q)%Z).
    { assert (0 <= q)%Z
        by (apply Z.div_pos; [lia|apply pow2_pos; lia]).
      destruct q; cbn in Hdq; lia. }
    pose proof (Zdigits2_bounds q Hqpos) as Hb. rewrite Hdq in Hb.
    exact Hb. }
  split; [exact Hqb|].
  destruct (round_nearest_even_bounds mrs) as [Hr _]. cbv zeta in Hr.
  set (m := round_nearest_even (shr_m mrs) (loc_of_shr_record mrs)) in *.
  rewrite Hq in Hr.
  destruct (Z.ltb_spec m (2 ^ 53)) as [Hlt|Hge]; cbn [fst snd].
  - assert (Hpos : Zpos (Z.to_pos m) = m) by (apply Z2Pos.id; lia).
    split.
    + change (Zpos (digits2_pos (Z.to_pos m)))
        with (Zdigits2 (Zpos (Z.to_pos m))).
      rewrite Hpos. apply digits_53. lia.
    + left. rewrite Hpos. split; [lia|reflexivity].
  - split; [reflexivity|]. right. split; [lia|]. split; [reflexivity|lia].
Qed.

(** [binary_round_aux] in the normal range, on a mantissa of 53 bits or
    more: the exponent only moves the result. *)
Lemma binary_round_aux_normal (s : bool) (M : positive) (e : Z)
  (l : location) :
  let d := Zpos (digits2_pos M) in
  (53 <= d)%Z -> (-1074 <= d + e - 53)%Z -> (d + e <= 1023)%Z ->
  binary_round_aux prec emax s (Zpos M) e l
  = S754_finite s (fst (normal_round M l)) (e + snd (normal_round M l)).
Proof.
  intros d Hd Hlow Hup.
  destruct (normal_round_shape M l Hd) as (Hqb & _ & _).
  cbv zeta in Hqb. fold d in Hqb.
  unfold normal_round. fold d.
  unfold binary_round_aux, shr_fexp. cbn [Zdigits2]. fold d.
  replace (fexp prec emax (d + e) - e)%Z with (d - 53)%Z
    by (unfold fexp, SpecFloat.emin, prec, emax; lia).
  set (mrs0 := shr_record_of_loc (Zpos M) l).
  assert (Hm0 : shr_m mrs0 = Zpos M) by apply shr_record_of_loc_m.
  destruct (shr_shifted mrs0 e (d - 53)) as [_ He1]; [rewrite Hm0; lia|].
  rewrite Z.max_l in He1 by lia.
  destruct (shr_shifted mrs0 0 (d - 53)) as [Hsh _]; [rewrite Hm0; lia|].
  rewrite Z.max_l in Hsh by lia. destruct Hsh as (Hq & _ & _).
  rewrite Hm0 in Hq.
  rewrite (shr_fst mrs0 0 e) in Hq |- *.
  destruct (shr mrs0 e (d - 53)) as [mrs1 e1]. cbn [fst snd] in *.
  destruct (round_nearest_even_bounds mrs1) as [Hr _]. cbv zeta in Hr.
  set (m := round_nearest_even (shr_m mrs1) (loc_of_shr_record mrs1)) in *.
  rewrite Hq in Hr.
  destruct (Z.ltb_spec m (2 ^ 53)) as [Hlt|Hge]; cbn [fst snd].
  - assert (Hdm : Zdigits2 m = 53%Z) by (apply digits_53; lia).
    rewrite Hdm.
    replace (fexp prec emax (53 + e1) - e1)%Z with 0%Z
      by (unfold fexp, SpecFloat.emin, prec, emax; lia).
    cbn [shr shr_record_of_loc shr_m].
    assert (Hpos : Zpos (Z.to_pos m) = m) by (apply Z2Pos.id; lia).
    rewrite <- Hpos at 1.
    destruct (Z.leb_spec e1 (emax - prec)) as [_|Hbad];
      [|unfold emax, prec in Hbad; lia].
    f_equal. lia.
  - assert (Hm : m = (2 ^ 53)%Z) by lia. rewrite Hm.
    change (Zdigits2 (2 ^ 53)) with 54%Z.
    replace (fexp prec emax (54 + e1) - e1)%Z with 1%Z
      by (unfold fexp, SpecFloat.emin, prec, emax; lia).
    cbn [shr shr_record_of_loc iter_pos].
    change (shr_m (shr_1 {| shr_m := 2 ^ 53; shr_r := false;
                            shr_s := false |}))
      with (Zpos 4503599627370496).
    cbv iota.
    destruct (Z.leb_spec (e1 + 1) (emax - prec)) as [_|Hbad];
      [|unfold emax, prec in Hbad; lia].
    f_equal. lia.
Qed.

(** [binary_round] in the normal range: the mantissa of the result and the
    shift of the exponent depend on the mantissa rounded only. *)
Lemma binary_round_normal (s : bool) (P : positive) :
  let d := Zpos (digits2_pos P) in
  exists (m3 : positive) (k : Z),
    Zpos (digits2_pos m3) = 53%Z /\ (d - 53 <= k <= d - 52)%Z /\
    forall e, (-1074 <= d + e - 53)%Z -> (d + e <= 1023)%Z ->
      binary_round prec emax s P e = S754_finite s m3 (e + k).
Proof.
  intros d. destruct (Z_lt_le_dec d 53) as [Hlt|Hge].
  - destruct (53 - d)%Z as [|q|q] eqn:Eq; try lia.
    exists (Pos.iter xO P q), (d - 53)%Z.
    assert (Hdig : Zpos (digits2_pos (Pos.iter xO P q)) = 53%Z).
    { rewrite digits2_iter_xO, Pos2Z.inj_add. fold d. lia. }
    split; [exact Hdig|]. split; [lia|].
    intros e Hlow Hup. unfold binary_round, shl_align. fold d.
    replace (fexp prec emax (d + e) - e)%Z with (Zneg q)
      by (unfold fexp, SpecFloat.emin, prec, emax; lia).
    replace (fexp prec emax (d + e)) with (e + (d - 53))%Z
      by (unfold fexp, SpecFloat.emin, prec, emax; lia).
    apply binary_round_aux_bounded. unfold bounded, canonical_mantissa.
    rewrite Hdig. apply andb_true_iff. split.
    + apply Z.eqb_eq. unfold fexp, SpecFloat.emin, prec, emax. lia.
    + apply Z.leb_le. unfold prec, emax. lia.
  - exists (fst (normal_round P loc_Exact)), (snd (normal_round P loc_Exact)).
    destruct (normal_round_shape P loc_Exact Hge) as (_ & Hdig & Hk).
    split; [exact Hdig|]. split; [fold d in Hk; lia|].
    intros e Hlow Hup. unfold binary_round, shl_align. fold d.
    destruct (fexp prec emax (d + e) - e)%Z as [|q|q] eqn:Eq;
      try (unfold fexp, SpecFloat.emin, prec, emax in Eq; lia);
      now apply binary_round_aux_normal.
Qed.

Lemma canonical_53 (m : positive) (e : Z) :
  Zpos (digits2_pos m) = 53%Z -> (-1074 <= e <= 971)%Z ->
  bounded prec emax m e = true.
Proof.
  intros Hdig He. unfold bounded, canonical_mantissa. rewrite Hdig.
  apply andb_true_iff. split.
  - apply Z.eqb_eq. unfold fexp, SpecFloat.emin, prec, emax. lia.
  - apply Z.leb_le. unfold prec, emax. lia.
Qed.

(** Half a double, by the multiplication: exact above the least exponent. *)
Lemma SFmul_half_exact (s : bool) (m : positive) (e : Z) :
  Zpos (digits2_pos m) = 53%Z -> (-1073 <= e <= 971)%Z ->
  SF64mul (S754_finite s m e) (Prim2SF 0.5) = S754_finite s m (e - 1).
Proof.
  intros Hdig He. rewrite SFmul_comm.
  change (Prim2SF 0.5) with (S754_finite false 4503599627370496 (-53)).
  unfold SF64mul, SFmul. cbn [xorb].
  change (4503599627370496 * m)%positive with (Pos.iter xO m 52).
  assert (Hshr : shr_fexp prec emax (Zpos (Pos.iter xO m 52)) (-53 + e)
                   loc_Exact
                 = ({| shr_m := Zpos m; shr_r := false; shr_s := false |},
                    (e - 1)%Z)).
  { unfold shr_fexp. cbn [Zdigits2]. rewrite digits2_iter_xO, Pos2Z.inj_add.
    rewrite Hdig.
    replace (fexp prec emax (53 + 52 + (-53 + e)) - (-53 + e))%Z with 52%Z
      by (unfold fexp, SpecFloat.emin, prec, emax; lia).
    unfold shr. f_equal; try reflexivity; lia. }
  unfold binary_round_aux. rewrite Hshr.
  cbn [shr_m loc_of_shr_record round_nearest_even].
  rewrite shr_fexp_none.
  - cbn [shr_m]. destruct (Z.leb_spec (e - 1) (emax - prec)); auto.
    unfold emax, prec in *. lia.
  - unfold canonical_mantissa. rewrite Hdig. apply Z.eqb_eq.
    unfold fexp, SpecFloat.emin, prec, emax. lia.
Qed.

Lemma div_eucl_exact (q : Z) (b : positive) :
  Z.div_eucl (q * Zpos b) (Zpos b) = (q, 0%Z).
Proof.
  pose proof (Z.div_eucl_eq (q * Zpos b) (Zpos b)) as Heq.
  pose proof (Z.mod_pos_bound (q * Zpos b) (Zpos b)) as Hb.
  unfold Z.modulo in Hb.
  destruct (Z.div_eucl (q * Zpos b) (Zpos b)) as [q' r].
  assert (Hq : q' = q) by nia. subst q'. f_equal. lia.
Qed.

(** Half a double, by the division: exact above the least exponent. *)
Lemma SFdiv_two_exact (s : bool) (m : positive) (e : Z) :
  Zpos (digits2_pos m) = 53%Z -> (-1073 <= e <= 971)%Z ->
  SF64div (S754_finite s m e) (Prim2SF 2) = S754_finite s m (e - 1).
Proof.
  intros Hdig He.
  change (Prim2SF 2) with (S754_finite false 4503599627370496 (-51)).
  unfold SF64div, SFdiv, SFdiv_core_binary. cbn [Zdigits2]. rewrite Hdig.
  change (Zpos (digits2_pos 4503599627370496)) with 53%Z.
  rewrite xorb_false_r.
  destruct (Z.eq_dec e (-1073)) as [->|Hne].
  - change (Z.min (fexp prec emax (53 + -1073 - (53 + -51))) (-1073 - -51))
      with (-1074)%Z.
    change (-1073 - -51 - -1074)%Z with 52%Z. cbv iota.
    rewrite Z.shiftl_mul_pow2 by lia.
    change (2 ^ 52)%Z with (Zpos 4503599627370496).
    rewrite div_eucl_exact.
    change (new_location (Zpos 4503599627370496) 0) with loc_Exact.
    apply binary_round_aux_bounded, canonical_53; [exact Hdig|lia].
  - replace (Z.min (fexp prec emax (53 + e - (53 + -51))) (e - -51))
      with (e - 2)%Z
      by (unfold fexp, SpecFloat.emin, prec, emax; lia).
    replace (e - -51 - (e - 2))%Z with 53%Z by lia. cbv iota.
    rewrite Z.shiftl_mul_pow2 by lia.
    replace (Zpos m * 2 ^ 53)%Z with (Zpos m~0 * Zpos 4503599627370496)%Z
      by (change (Zpos 4503599627370496) with (2 ^ 52)%Z;
          change (2 ^ 53)%Z with (2 * 2 ^ 52)%Z; lia).
    rewrite div_eucl_exact.
    change (new_location (Zpos 4503599627370496) 0) with loc_Exact.
    unfold binary_round_aux, shr_fexp. cbn [Zdigits2 digits2_pos].
    rewrite Pos2Z.inj_succ, Hdig.
    replace (fexp prec emax (Z.succ 53 + (e - 2)) - (e - 2))%Z with 1%Z
      by (unfold fexp, SpecFloat.emin, prec, emax; lia).
    cbn [shr shr_record_of_loc iter_pos shr_1 orb shr_m loc_of_shr_record
         round_nearest_even Zdigits2].
    rewrite Hdig.
    replace (fexp prec emax (53 + (e - 2 + 1)) - (e - 2 + 1))%Z with 0%Z
      by (unfold fexp, SpecFloat.emin, prec, emax; lia).
    cbn [shr shr_m].
    destruct (Z.leb_spec (e - 2 + 1) (emax - prec)) as [_|Hbad];
      [|unfold emax, prec in Hbad; lia].
    f_equal. lia.
Qed.

(** [binary_round] below the normal range, when the exponent is a double's:
    the value is a double as it is. *)
Lemma binary_round_small (s : bool) (P : positive) (e : Z) :
  let d := Zpos (digits2_pos P) in
  (d + e <= -1021)%Z -> (-1074 <= e)%Z ->
  exists m,
    binary_round prec emax s P e = S754_finite s m (-1074) /\
    Zpos m = (Zpos P * 2 ^ (e + 1074))%Z /\
    (Zpos (digits2_pos m) <= 53)%Z.
Proof.
  intros d Hd He. unfold binary_round, shl_align. fold d.
  replace (fexp prec emax (d + e)) with (-1074)%Z
    by (unfold fexp, SpecFloat.emin, prec, emax; lia).
  destruct (-1074 - e)%Z as [|q|q] eqn:Eq; try lia.
  - exists P. assert (e = -1074)%Z by lia. subst e.
    split; [|split].
    + apply binary_round_aux_bounded. unfold bounded, canonical_mantissa.
      fold d. apply andb_true_iff. split; [|reflexivity].
      apply Z.eqb_eq. unfold fexp, SpecFloat.emin, prec, emax. lia.
    + change (2 ^ (-1074 + 1074))%Z with 1%Z. lia.
    + fold d. lia.
  - exists (Pos.iter xO P q).
    assert (Hdig : Zpos (digits2_pos (Pos.iter xO P q)) = (d + Zpos q)%Z)
      by (rewrite digits2_iter_xO, Pos2Z.inj_add; reflexivity).
    split; [|split].
    + apply binary_round_aux_bounded. unfold bounded, canonical_mantissa.
      rewrite Hdig. apply andb_true_iff. split; [|reflexivity].
      apply Z.eqb_eq. unfold fexp, SpecFloat.emin, prec, emax. lia.
    + rewrite iter_xO_pow2. f_equal. f_equal. lia.
    + rewrite Hdig. lia.
Qed.

(** Half a double of the least exponent, when its mantissa is even. *)
Lemma SFdiv_two_small (s : bool) (m : positive) :
  (Zpos (digits2_pos m~0) <= 53)%Z ->
  SF64div (S754_finite s m~0 (-1074)) (Prim2SF 2)
  = S754_finite s m (-1074).
Proof.
  intros Hdig.
  change (Prim2SF 2) with (S754_finite false 4503599627370496 (-51)).
  unfold SF64div, SFdiv, SFdiv_core_binary.
  change (Zdigits2 (Zpos 4503599627370496)) with 53%Z.
  change (Zdigits2 (Zpos m~0)) with (Zpos (digits2_pos m~0)).
  rewrite xorb_false_r.
  replace (Z.min (fexp prec emax (Zpos (digits2_pos m~0) + -1074
                                  - (53 + -51))) (-1074 - -51))
    with (-1074)%Z
    by (unfold fexp, SpecFloat.emin, prec, emax; lia).
  change (-1074 - -51 - -1074)%Z with 51%Z. cbv iota.
  rewrite Z.shiftl_mul_pow2 by lia.
  replace (Zpos m~0 * 2 ^ 51)%Z with (Zpos m * Zpos 4503599627370496)%Z
    by (change (Zpos 4503599627370496) with (2 * 2 ^ 51)%Z; lia).
  rewrite div_eucl_exact.
  change (new_location (Zpos 4503599627370496) 0) with loc_Exact.
  apply binary_round_aux_bounded. unfold bounded, canonical_mantissa.
  cbn [digits2_pos] in Hdig. rewrite Pos2Z.inj_succ in Hdig.
  apply andb_true_iff. split; [|reflexivity].
  apply Z.eqb_eq. unfold fexp, SpecFloat.emin, prec, emax. lia.
Qed.

Lemma shl_align_shifted (m : positive) (e e' c : Z) :
  fst (shl_align m (e - c) (e' - c)) = fst (shl_align m e e').
Proof.
  unfold shl_align. replace (e' - c - (e - c))%Z with (e' - e)%Z by lia.
  now destruct (e' - e)%Z.
Qed.

(** The digits of a mantissa below a power of two. *)
Lemma digits_below (P : positive) (k : Z) :
  (Zpos P < 2 ^ k)%Z -> (Zpos (digits2_pos P) <= k)%Z.
Proof.
  intros H. pose proof (digits2_pos_bounds P) as Hd.
  assert (Zpos (digits2_pos P) - 1 < k)%Z; [|lia].
  apply (Z.pow_lt_mono_r_iff 2); try lia.
  destruct (Z.le_gt_cases 0 k); [lia|].
  rewrite (Z.pow_neg_r 2 k) in H by lia. lia.
Qed.

Lemma aligned_below (m : positive) (e ez : Z) :
  Zpos (digits2_pos m) = 53%Z -> (ez <= e <= 969)%Z ->
  (0 < Zpos (fst (shl_align m e ez)) < 2 ^ (1022 - ez))%Z.
Proof.
  intros Hdig He. destruct (shl_align_value m e ez) as [-> _]; [lia|].
  pose proof (digits2_pos_bounds m) as Hd. rewrite Hdig in Hd.
  assert (Hp : (0 < 2 ^ (e - ez))%Z) by (apply pow2_pos; lia).
  split; [lia|].
  apply Z.lt_le_trans with (2 ^ 53 * 2 ^ (e - ez))%Z; [nia|].
  rewrite <- pow2_split by lia. apply Z.pow_le_mono_r; lia.
Qed.

(** Half the sum of two doubles is the sum of their halves, when the halves
    are exact and the sum does not overflow. *)
Lemma half_sum_finite (sa sb : bool) (ma mb : positive) (ea eb : Z) :
  Zpos (digits2_pos ma) = 53%Z -> Zpos (digits2_pos mb) = 53%Z ->
  (-1073 <= ea <= 969)%Z -> (-1073 <= eb <= 969)%Z ->
  SF64div (SF64add (S754_finite sa ma ea) (S754_finite sb mb eb)) (Prim2SF 2)
  = SF64add (S754_finite sa ma (ea - 1)) (S754_finite sb mb (eb - 1)).
Proof.
  intros Hda Hdb Hea Heb. unfold SF64add, SFadd.
  replace (Z.min (ea - 1) (eb - 1)) with (Z.min ea eb - 1)%Z by lia.
  rewrite !shl_align_shifted.
  set (ez := Z.min ea eb).
  pose proof (aligned_below ma ea ez Hda) as HA.
  pose proof (aligned_below mb eb ez Hdb) as HB.
  set (A := Zpos (fst (shl_align ma ea ez))) in *.
  set (B := Zpos (fst (shl_align mb eb ez))) in *.
  assert (Hez : (-1073 <= ez)%Z) by (unfold ez; lia).
  specialize (HA ltac:(unfold ez; lia)).
  specialize (HB ltac:(unfold ez; lia)).
  assert (Hsum : (Z.abs (cond_Zopp sa A + cond_Zopp sb B)
                  < 2 ^ (1023 - ez))%Z).
  { replace (1023 - ez)%Z with (1 + (1022 - ez))%Z by lia.
    rewrite pow2_split by lia. change (2 ^ 1)%Z with 2%Z.
    destruct sa, sb; cbn [cond_Zopp]; lia. }
  assert (Hround : forall (s : bool) (P : positive),
             (Zpos P < 2 ^ (1023 - ez))%Z ->
             SF64div (binary_round prec emax s P ez) (Prim2SF 2)
             = binary_round prec emax s P (ez - 1)).
  { intros s P HP. pose proof (digits_below P _ HP) as Hd.
    destruct (Z_le_gt_dec (Zpos (digits2_pos P) + ez) (-1021)) as [Hs|Hn].
    - destruct (binary_round_small s P ez Hs) as (m1 & -> & Hm1 & Hd1);
        [lia|].
      destruct (binary_round_small s P (ez - 1)) as (m0 & -> & Hm0 & _);
        [lia|lia|].
      assert (Hm : m1 = m0~0%positive).
      { apply Pos2Z.inj. rewrite Pos2Z.inj_xO, Hm1, Hm0.
        replace (ez + 1074)%Z with (1 + (ez - 1 + 1074))%Z by lia.
        rewrite pow2_split by lia. change (2 ^ 1)%Z with 2%Z. lia. }
      subst m1. now apply SFdiv_two_small.
    - destruct (binary_round_normal s P) as (m3 & k & Hd3 & Hk & Heval).
      rewrite (Heval ez) by lia. rewrite (Heval (ez - 1)%Z) by lia.
      rewrite SFdiv_two_exact by (auto; lia). f_equal. lia. }
  destruct (cond_Zopp sa A + cond_Zopp sb B)%Z as [|P|P];
    cbn [binary_normalize].
  - reflexivity.
  - apply Hround. exact Hsum.
  - apply Hround. exact Hsum.
Qed.

Lemma SFleb_exponent (m1 : positive) (e1 : Z) (m2 : positive) (e2 : Z) :
  SFleb (S754_finite false m1 e1) (S754_finite false m2 e2) = true ->
  (e1 <= e2)%Z.
Proof.
  unfold SFleb. simpl.
  destruct (Z.compare_spec e1 e2); try lia; discriminate.
Qed.

Lemma SFltb_exponent (m1 : positive) (e1 : Z) (m2 : positive) (e2 : Z) :
  SFltb (S754_finite false m1 e1) (S754_finite false m2 e2) = true ->
  (e1 < e2)%Z \/ (e1 = e2 /\ (Zpos m1 < Zpos m2)%Z).
Proof.
  unfold SFltb. simpl.
  change (Pos.compare_cont Eq m1 m2) with (Pos.compare m1 m2).
  destruct (Z.compare_spec e1 e2); try lia; try discriminate.
  destruct (Pos.compare_spec m1 m2); try discriminate. lia.
Qed.

Lemma SFeqb_finite_zero (s : bool) (m : positive) (e : Z) (s0 : bool) :
  SFeqb (S754_finite s m e) (S754_zero s0) = false.
Proof. unfold SFeqb, SFcompare. now destruct s. Qed.

(** The doubles of [in_halving_range]: the zeros, and the doubles of 53
    bits with an exponent from -1073 to 969. *)
Lemma in_halving_range_spec (x : double) :
  in_halving_range x = true ->
  (exists s, Prim2SF x = S754_zero s) \/
  (exists s m e,
     Prim2SF x = S754_finite s m e /\
     Zpos (digits2_pos m) = 53%Z /\ (-1073 <= e <= 969)%Z).
Proof.
  unfold in_halving_range.
  rewrite FloatAxioms.eqb_spec, leb_spec, ltb_spec, abs_spec.
  pose proof (Prim2SF_valid x) as Hv.
  change (Prim2SF 0) with (S754_zero false).
  change (Prim2SF 0x1p-1021) with (S754_finite false 4503599627370496 (-1073)).
  change (Prim2SF 0x1p1022) with (S754_finite false 4503599627370496 970).
  destruct (Prim2SF x) as [s|s| |s m e]; cbn [SFabs].
  - eauto.
  - destruct s; intros H; vm_compute in H; discriminate.
  - intros H; vm_compute in H; discriminate.
  - rewrite SFeqb_finite_zero. cbn [orb]. intros H.
    apply andb_true_iff in H. destruct H as [Hlow Hup].
    apply SFleb_exponent in Hlow. apply SFltb_exponent in Hup.
    right. exists s, m, e. split; [reflexivity|].
    cbn [valid_binary] in Hv.
    destruct (bounded_facts m e Hv) as (He & Hm & Hnormal).
    assert (Hup' : (e <= 969)%Z).
    { destruct Hup as [Hup|[-> Hup]]; [lia|].
      specialize (Hnormal ltac:(lia)).
      change (2 ^ 52)%Z with (Zpos 4503599627370496) in Hnormal. lia. }
    split; [|lia].
    unfold bounded, canonical_mantissa in Hv.
    apply andb_true_iff in Hv. destruct Hv as [Hc _].
    apply Z.eqb_eq in Hc.
    unfold fexp, SpecFloat.emin, prec, emax in Hc. lia.
Qed.

(** C8's two formulas for the middle of an even number of values give the
    same double in the range of [in_halving_range]. *)
Lemma mean_of_two_halves (a b : double) :
  in_halving_range a = true -> in_halving_range b = true ->
  ((a + b) / 2 = a * 0.5 + b * 0.5)%float.
Proof.
  intros Ha Hb. apply Prim2SF_inj.
  rewrite div_spec, !add_spec, !mul_spec.
  destruct (in_halving_range_spec a Ha)
    as [[sa Ea]|(sa & ma & ea & Ea & Hda & Hea)];
    destruct (in_halving_range_spec b Hb)
      as [[sb Eb]|(sb & mb & eb & Eb & Hdb & Heb)];
    rewrite Ea, Eb.
  - now destruct sa, sb.
  - rewrite SFmul_half_exact by (auto; lia).
    replace (SF64mul (S754_zero sa) (Prim2SF 0.5)) with (S754_zero sa)
      by now destruct sa.
    cbn [SF64add SFadd]. apply SFdiv_two_exact; auto; lia.
  - rewrite SFmul_half_exact by (auto; lia).
    replace (SF64mul (S754_zero sb) (Prim2SF 0.5)) with (S754_zero sb)
      by now destruct sb.
    cbn [SF64add SFadd]. apply SFdiv_two_exact; auto; lia.
  - rewrite !SFmul_half_exact by (auto; lia).
    now apply half_sum_finite.
Qed.

(** ** The median and the 50th percentile *)

(** C8, as the code has it. For a sequence that is not empty (of values that
    are not NaN, at most 2^53 of them), the 50th percentile and the median
    are both the middle element of the sorted copy when the length is odd;
    when it is even, with [a] and [b] the two middle elements, the median
    is [(a + b) / 2] and the percentile is [a * 0.5 + b * 0.5], and the two
    are the same double when [a] and [b] are in the range where a half is
    exact and the sum does not overflow: each is zero, or of magnitude
    2^-1021 and more, below 2^1022. Outside this range they need not be the
    same, since the sum [a + b] can overflow where the halves do not. *)
Theorem percentile_50_and_median
  (std_sort : forall A : Type, (A -> A -> bool) -> list A -> list A)
  (std_sort_ok : sort_contract std_sort) (xs : list double) :
  xs <> [] ->
  Forall (fun x => is_nan x = false) xs ->
  (Z.of_nat (List.length xs) <= 2 ^ 53)%Z ->
  let sorted := std_sort double PrimFloat.ltb xs in
  let n := List.length xs in
  Permutation xs sorted /\ is_sorted PrimFloat.ltb sorted /\
  (Nat.odd n = true ->
   exists mid,
     vec_at sorted (n / 2) = Some mid /\
     calculate_median std_sort xs = Some mid /\
     calculate_percentile std_sort xs 50%float = Some mid) /\
  (Nat.odd n = false ->
   exists a b,
     vec_at sorted (n / 2 - 1) = Some a /\
     vec_at sorted (n / 2) = Some b /\
     calculate_median std_sort xs = Some ((a + b) / 2)%float /\
     calculate_percentile std_sort xs 50%float
     = Some (a * 0.5 + b * 0.5)%float /\
     (in_halving_range a = true -> in_halving_range b = true ->
      calculate_percentile std_sort xs 50%float
      = calculate_median std_sort xs)).
Proof.
  intros Hne Hnan Hlen sorted n.
  destruct (sorted_doubles std_sort std_sort_ok xs Hnan) as [Hperm Hsorted].
  fold sorted in Hperm, Hsorted.
  assert (Hn : List.length sorted = n)
    by (symmetry; apply Permutation_length, Hperm).
  assert (Hpos : (0 < n)%nat).
  { unfold n. destruct xs; [contradiction|simpl; lia]. }
  pose proof (calculate_percentile_50 std_sort xs Hne) as Hp.
  pose proof (calculate_median_sorted std_sort xs Hne) as Hm.
  cbv zeta in Hp, Hm. fold sorted in Hp, Hm. rewrite Hn in Hp, Hm.
  specialize (Hp Hpos Hlen).
  split; [exact Hperm|]. split; [exact Hsorted|]. split.
  - intros Hodd. rewrite Hodd in Hp, Hm.
    destruct (vec_at_some sorted (n / 2)) as [mid Hmid].
    { rewrite Hn. apply Nat.div_lt; lia. }
    exists mid. rewrite Hp, Hm. auto.
  - intros Heven. rewrite Heven in Hp, Hm.
    assert (H2 : (2 <= n)%nat).
    { destruct n as [|[|n']]; try lia. discriminate. }
    destruct (vec_at_some sorted (n / 2 - 1)) as [a Ha].
    { rewrite Hn. pose proof (Nat.div_lt n 2). lia. }
    destruct (vec_at_some sorted (n / 2)) as [b Hb].
    { rewrite Hn. apply Nat.div_lt; lia. }
    exists a, b. rewrite Hp, Hm, Ha, Hb.
    repeat split; auto.
    intros Hra Hrb. f_equal. symmetry. now apply mean_of_two_halves.
Qed.

Lemma percentile_50_and_median_witness :
  let xs := [3%float; 1%float; 2%float; 4%float] in
  sort_contract insertion_sort /\
  xs <> [] /\
  Forall (fun x => is_nan x = false) xs /\
  (Z.of_nat (List.length xs) <= 2 ^ 53)%Z /\
  Nat.odd (List.length xs) = false /\
  in_halving_range 2%float = true /\ in_halving_range 3%float = true /\
  (exists a b,
     vec_at (insertion_sort double PrimFloat.ltb xs) 1 = Some a /\
     vec_at (insertion_sort double PrimFloat.ltb xs) 2 = Some b /\
     calculate_median insertion_sort xs = Some ((a + b) / 2)%float /\
     calculate_percentile insertion_sort xs 50%float
     = Some (a * 0.5 + b * 0.5)%float) /\
  calculate_percentile insertion_sort xs 50%float
  = calculate_median insertion_sort xs.
Proof.
  cbv zeta.
  assert (H1 : [3%float; 1%float; 2%float; 4%float] <> []) by discriminate.
  assert (H2 : Forall (fun x => is_nan x = false)
                 [3%float; 1%float; 2%float; 4%float])
    by (repeat constructor).
  assert (H3 : (Z.of_nat
                  (List.length [3%float; 1%float; 2%float; 4%float])
                <= 2 ^ 53)%Z)
    by (vm_compute; discriminate).
  assert (Ha2 : in_halving_range 2%float = true) by reflexivity.
  assert (Hb3 : in_halving_range 3%float = true) by reflexivity.
  split; [exact insertion_sort_contract|].
  split; [exact H1|]. split; [exact H2|]. split; [exact H3|].
  split; [reflexivity|]. split; [exact Ha2|]. split; [exact Hb3|].
  destruct (percentile_50_and_median insertion_sort insertion_sort_contract
              [3%float; 1%float; 2%float; 4%float] H1 H2 H3)
    as (_ & _ & _ & Heven).
  destruct (Heven eq_refl) as (a & b & Ha & Hb & Hmedian & Hpercentile & Heq).
  split; [exists a, b; auto|].
  apply Heq.
  - vm_compute in Ha. inversion Ha. exact Ha2.
  - vm_compute in Hb. inversion Hb. exact Hb3.
Defined.

(** C8 as the specification words it fails: on two large values the median
    adds them first and overflows, the percentile halves them first. *)
Lemma percentile_50_is_not_median :
  let xs := [1e308%float; 1.5e308%float] in
  Forall (fun x => is_finite x = true) xs /\
  calculate_median insertion_sort xs = Some infinity /\
  calculate_percentile insertion_sort xs 50%float = Some 1.25e308%float /\
  calculate_percentile insertion_sort xs 50%float
  <> calculate_median insertion_sort xs.
Proof.
  cbv zeta. split; [repeat constructor|].
  split; [vm_compute; reflexivity|]. split; [vm_compute; reflexivity|].
  vm_compute. intros H. inversion H.
Qed.

(** ** Doubles: the square root of a square *)

Lemma represents_1 (mrs : shr_record) (num den : Z) :
  represents mrs num den -> represents (shr_1 mrs) num (2 * den).
Proof.
  intros (Hden & Hnum & Hm & Hloc).
  pose proof (Z.div_mod num den ltac:(lia)) as Hdm.
  pose proof (Z.mod_pos_bound num den Hden) as Hrem.
  set (rem := (num mod den)%Z) in *.
  assert (Hq : (0 <= num / den)%Z) by (apply Z.div_pos; lia).
  rewrite <- Hm in Hdm, Hq.
  unfold new_location_even in Hloc.
  assert (Hhalf : forall (b : Z) (m' : Z),
             shr_m mrs = (2 * m' + b)%Z -> (0 <= b <= 1)%Z ->
             (num / (2 * den) = m' /\
              num mod (2 * den) = b * den + rem)%Z).
  { intros b m' Hb Hb01. rewrite Hb in Hdm.
    assert (Hu : (num = 2 * den * m' + (b * den + rem))%Z) by lia.
    assert (Hr : (0 <= b * den + rem < 2 * den)%Z) by nia.
    split.
    - symmetry. apply (Z.div_unique_pos num (2 * den) m' (b * den + rem));
        assumption.
    - symmetry. apply (Z.mod_unique_pos num (2 * den) m' (b * den + rem));
        assumption. }
  assert (Hclass : (r_s_class (shr_r mrs) (shr_s mrs) rem den)).
  { unfold r_s_class. destruct mrs as [m r s]. cbn [shr_r shr_s].
    cbn [loc_of_shr_record] in Hloc.
    destruct (Z.eqb_spec rem 0) as [Hz|Hnz];
      [|destruct (Z.compare_spec (2 * rem) den)];
      destruct r, s; try discriminate; lia. }
  unfold represents. split; [lia|]. split; [exact Hnum|].
  unfold new_location_even, r_s_class in *.
  destruct mrs as [m r s]. cbn [shr_m shr_r shr_s] in *.
  assert (Hgoal : forall (b : Z) (m' : Z),
             m = (2 * m' + b)%Z -> (0 <= b <= 1)%Z ->
             loc_of_shr_record
               {| shr_m := m'; shr_r := (b =? 1)%Z; shr_s := r || s |}
             = (if (num mod (2 * den) =? 0)%Z then loc_Exact
                else loc_Inexact (2 * (num mod (2 * den)) ?= 2 * den)%Z)).
  { intros b m' Hb Hb01. destruct (Hhalf b m' Hb Hb01) as [_ ->].
    destruct (Z.eqb_spec (b * den + rem) 0);
      [|destruct (Z.compare_spec (2 * (b * den + rem)) (2 * den))];
      destruct (Z.eqb_spec b 1); destruct r, s;
      cbn [loc_of_shr_record orb]; try reflexivity; nia. }
  destruct m as [|p|p]; try lia.
  - destruct (Hhalf 0 0)%Z as [Hd' _]; [lia|lia|].
    rewrite Hd'. cbn [shr_1 shr_m]. split; [reflexivity|].
    apply (Hgoal 0 0)%Z; lia.
  - destruct p as [p|p|]; cbn [shr_1 shr_m].
    + destruct (Hhalf 1 (Zpos p))%Z as [Hd' _]; [lia|lia|].
      rewrite Hd'. split; [reflexivity|]. apply (Hgoal 1 (Zpos p))%Z; lia.
    + destruct (Hhalf 0 (Zpos p))%Z as [Hd' _]; [lia|lia|].
      rewrite Hd'. split; [reflexivity|]. apply (Hgoal 0 (Zpos p))%Z; lia.
    + destruct (Hhalf 1 0)%Z as [Hd' _]; [lia|lia|].
      rewrite Hd'. split; [reflexivity|]. apply (Hgoal 1 0)%Z; lia.
Qed.

Lemma represents_iter (p : positive) (mrs : shr_record) (num den : Z) :
  represents mrs num den ->
  represents (iter_pos shr_1 p mrs) num (den * 2 ^ Zpos p).
Proof.
  revert mrs den. induction p as [p IH|p IH|]; intros mrs den H;
    cbn [iter_pos].
  - apply represents_1 in H. apply IH in H. apply IH in H.
    replace (den * 2 ^ Zpos p~1)%Z
      with (2 * den * 2 ^ Zpos p * 2 ^ Zpos p)%Z; [exact H|].
    assert (Hpow : (2 ^ Zpos p~1 = 2 * (2 ^ Zpos p * 2 ^ Zpos p))%Z).
    { rewrite <- Z.pow_add_r, <- Z.pow_succ_r by lia. f_equal. lia. }
    rewrite Hpow. ring.
  - apply IH in H. apply IH in H.
    replace (den * 2 ^ Zpos p~0)%Z
      with (den * 2 ^ Zpos p * 2 ^ Zpos p)%Z; [exact H|].
    assert (Hpow : (2 ^ Zpos p~0 = 2 ^ Zpos p * 2 ^ Zpos p)%Z).
    { rewrite <- Z.pow_add_r by lia. f_equal. lia. }
    rewrite Hpow. ring.
  - apply represents_1 in H. change (2 ^ 1)%Z with 2%Z.
    now rewrite Z.mul_comm.
Qed.

(** Rounding to nearest is within half a unit of the quotient. *)
Lemma represents_nearest (mrs : shr_record) (num den : Z) :
  represents mrs num den ->
  let m := round_nearest_even (shr_m mrs) (loc_of_shr_record mrs) in
  (2 * Z.abs (m * den - num) <= den)%Z.
Proof.
  intros (Hden & Hnum & Hm & Hloc) m. subst m. rewrite Hloc, Hm.
  pose proof (Z.div_mod num den ltac:(lia)) as Hdm.
  pose proof (Z.mod_pos_bound num den Hden) as Hrem.
  set (rem := (num mod den)%Z) in *. set (q := (num / den)%Z) in *.
  unfold new_location_even.
  destruct (Z.eqb_spec rem 0) as [Hz|Hnz]; cbn [round_nearest_even].
  - nia.
  - destruct (Z.compare_spec (2 * rem) den); [destruct (Z.even q)| |]; nia.
Qed.

(** [normal_round] of an exact mantissa is within half a unit of the last
    bit kept. *)
Lemma normal_round_near (M : positive) :
  let d := Zpos (digits2_pos M) in
  (53 <= d)%Z ->
  let R := (Zpos (fst (normal_round M loc_Exact))
            * 2 ^ snd (normal_round M loc_Exact))%Z in
  (2 * Z.abs (R - Zpos M) <= 2 ^ (d - 53))%Z /\
  (d - 53 <= snd (normal_round M loc_Exact) <= d - 52)%Z.
Proof.
  intros d Hd. cbv zeta. unfold normal_round. fold d.
  set (mrs0 := shr_record_of_loc (Zpos M) loc_Exact).
  assert (H0 : represents mrs0 (Zpos M) 1).
  { unfold represents, mrs0. cbn [shr_record_of_loc shr_m loc_of_shr_record].
    rewrite Z.div_1_r, Z.mod_1_r. repeat split; try lia. }
  assert (H : represents (fst (shr mrs0 0 (d - 53))) (Zpos M)
                (2 ^ (d - 53))).
  { unfold shr. destruct (d - 53)%Z as [|p|p] eqn:E; try lia; cbn [fst].
    - exact H0.
    - apply (represents_iter p) in H0. now rewrite Z.mul_1_l in H0. }
  pose proof (represents_nearest _ _ _ H) as Hnear. cbv zeta in Hnear.
  destruct (normal_round_shape M loc_Exact Hd) as (Hqb & _ & _).
  cbv zeta in Hqb. fold d in Hqb.
  destruct H as (_ & _ & Hq & _).
  destruct (round_nearest_even_bounds (fst (shr mrs0 0 (d - 53))))
    as [Hr _]. cbv zeta in Hr.
  set (mrs1 := fst (shr mrs0 0 (d - 53))) in *.
  set (m := round_nearest_even (shr_m mrs1) (loc_of_shr_record mrs1)) in *.
  rewrite Hq in Hr.
  pose proof (pow2_pos (d - 53) ltac:(lia)) as Hp.
  destruct (Z.ltb_spec m (2 ^ 53)) as [Hlt|Hge]; cbn [fst snd].
  - rewrite Z2Pos.id by lia. split; [exact Hnear|lia].
  - assert (Hm : m = (2 ^ 53)%Z) by lia.
    replace (Zpos 4503599627370496 * 2 ^ (d - 53 + 1))%Z
      with (m * 2 ^ (d - 53))%Z.
    + split; [exact Hnear|lia].
    + rewrite Hm, pow2_split by lia.
      change (Zpos 4503599627370496) with (2 ^ 52)%Z.
      change (2 ^ 53)%Z with (2 ^ 52 * 2 ^ 1)%Z. ring.
Qed.

Lemma digits_above (P : positive) (k : Z) :
  (2 ^ k <= Zpos P)%Z -> (k < Zpos (digits2_pos P))%Z.
Proof.
  intros H. pose proof (digits2_pos_bounds P) as Hd.
  apply (Z.pow_lt_mono_r_iff 2); lia.
Qed.

Lemma loc_of_shr_record_of_loc (m : Z) (l : location) :
  loc_of_shr_record (shr_record_of_loc m l) = l.
Proof. now destruct l as [|[]]. Qed.

(** [binary_round_aux] on a mantissa of 53 bits: the location decides. *)
Lemma binary_round_aux_53 (s : bool) (q : positive) (e : Z) (l : location) :
  Zpos (digits2_pos q) = 53%Z -> (-1074 <= e <= 970)%Z ->
  (round_nearest_even (Zpos q) l < 2 ^ 53)%Z ->
  binary_round_aux prec emax s (Zpos q) e l
  = S754_finite s (Z.to_pos (round_nearest_even (Zpos q) l)) e.
Proof.
  intros Hdig He Hlt.
  rewrite binary_round_aux_normal by (rewrite Hdig; lia).
  unfold normal_round. rewrite Hdig. change (53 - 53)%Z with 0%Z.
  cbn [shr fst]. rewrite loc_of_shr_record_of_loc, shr_record_of_loc_m.
  destruct (Z.ltb_spec (round_nearest_even (Zpos q) l) (2 ^ 53)); [|lia].
  cbn [fst snd]. f_equal. lia.
Qed.

Lemma sqrt_exponent (e k : Z) :
  (-563 <= e <= 458)%Z -> (k = 52 \/ k = 53)%Z ->
  Z.min (fexp prec emax (Z.div2 (53 + (e + e + k) + 1)))
        (Z.div2 (e + e + k)) = e.
Proof.
  intros He Hk. rewrite !Z.div2_div.
  unfold fexp, SpecFloat.emin, prec, emax.
  destruct Hk as [-> | ->].
  - rewrite <- (Z.div_unique (53 + (e + e + 52) + 1) 2 (e + 53) 0) by lia.
    rewrite <- (Z.div_unique (e + e + 52) 2 (e + 26) 0) by lia.
    lia.
  - rewrite <- (Z.div_unique (53 + (e + e + 53) + 1) 2 (e + 53) 1) by lia.
    rewrite <- (Z.div_unique (e + e + 53) 2 (e + 26) 1) by lia.
    lia.
Qed.

(** The square root of the square of a double is the double, when the
    square neither overflows nor underflows. *)
Lemma SFsqrt_square (m : positive) (e : Z) :
  Zpos (digits2_pos m) = 53%Z -> (-563 <= e <= 458)%Z ->
  SF64sqrt (SF64mul (S754_finite false m e) (S754_finite false m e))
  = S754_finite false m e.
Proof.
  intros Hdig He.
  pose proof (digits2_pos_bounds m) as Hm. rewrite Hdig in Hm.
  change (2 ^ (53 - 1))%Z with (2 ^ 52)%Z in Hm.
  unfold SF64mul, SFmul. cbn [xorb].
  set (M := (m * m)%positive).
  assert (HM : Zpos M = (Zpos m * Zpos m)%Z) by apply Pos2Z.inj_mul.
  assert (HMlow : (2 ^ 104 <= Zpos M)%Z).
  { change (2 ^ 104)%Z with (2 ^ 52 * 2 ^ 52)%Z. nia. }
  assert (HMup : (Zpos M < 2 ^ 106)%Z).
  { change (2 ^ 106)%Z with (2 ^ 53 * 2 ^ 53)%Z. nia. }
  pose proof (digits_above M 104 HMlow) as Hd1.
  pose proof (digits_below M 106 HMup) as Hd2.
  set (d := Zpos (digits2_pos M)) in *.
  rewrite binary_round_aux_normal by (fold d; lia).
  destruct (normal_round_shape M loc_Exact) as (Hqb & HdR & Hshape);
    [fold d; lia|].
  destruct (normal_round_near M) as [Hnear Hk]; [fold d; lia|].
  cbv zeta in Hqb, Hshape, Hnear. fold d in Hqb, Hshape, Hnear, Hk.
  set (mR := fst (normal_round M loc_Exact)) in *.
  set (k := snd (normal_round M loc_Exact)) in *.
  pose proof (digits2_pos_bounds mR) as HmR. rewrite HdR in HmR.
  change (2 ^ (53 - 1))%Z with (2 ^ 52)%Z in HmR.
  (* the exponent of the square is twice the exponent, and 52 or 53 *)
  assert (Hk' : (k = 52 \/ k = 53)%Z).
  { destruct (Z.eq_dec d 105) as [E|E]; [lia|].
    assert (E' : d = 106%Z) by lia. rewrite E' in *.
    destruct Hshape as [[_ Hs]|(Hcarry & _ & _)]; [lia|]. exfalso.
    change (106 - 53)%Z with 53%Z in *.
    assert (Zpos M / 2 ^ 53 <= 2 ^ 53 - 2)%Z; [|lia].
    apply Z.lt_succ_r. apply Z.div_lt_upper_bound; [lia|].
    change (Z.succ (2 ^ 53 - 2)) with (2 ^ 53 - 1)%Z.
    change (2 ^ 53)%Z with 9007199254740992%Z in *. nia. }
  (* the square root of the rounded square *)
  unfold SF64sqrt, SFsqrt, SFsqrt_core_binary.
  change (Zdigits2 (Zpos mR)) with (Zpos (digits2_pos mR)). rewrite HdR.
  rewrite (sqrt_exponent e k He Hk').
  replace (e + e + k - 2 * e)%Z with k by lia.
  assert (Hshift : match k with
                   | Zpos _ => Z.shiftl (Zpos mR) k
                   | 0%Z => Zpos mR
                   | Zneg _ => 0%Z
                   end = (Zpos mR * 2 ^ k)%Z).
  { destruct Hk' as [-> | ->]; now rewrite Z.shiftl_mul_pow2 by lia. }
  rewrite Hshift.
  set (R := (Zpos mR * 2 ^ k)%Z) in *.
  assert (Hhalf : (2 * Z.abs (R - Zpos M) <= 2 ^ 53)%Z).
  { assert (2 ^ (d - 53) <= 2 ^ 53)%Z by (apply Z.pow_le_mono_r; lia).
    lia. }
  assert (Hnear52 : d = 105%Z -> (2 * Z.abs (R - Zpos M) <= 2 ^ 52)%Z).
  { intros E. rewrite E in Hnear. exact Hnear. }
  assert (Hbig : d = 106%Z -> (2 ^ 52 < Zpos m)%Z).
  { intros E. destruct (Z.le_gt_cases (Zpos m) (2 ^ 52)); [|lia].
    assert (Zpos m = 2 ^ 52)%Z by lia.
    assert (Zpos M = 2 ^ 104)%Z
      by (rewrite HM; change (2 ^ 104)%Z with (2 ^ 52 * 2 ^ 52)%Z; nia).
    assert (Zpos M < 2 ^ 105)%Z
      by (change (2 ^ 105)%Z with (2 * 2 ^ 104)%Z; lia).
    pose proof (digits_below M 105 ltac:(assumption)). lia. }
  assert (Hdelta : (Z.abs (R - Zpos M) < Zpos m)%Z).
  { destruct (Z.eq_dec d 105) as [E|E].
    - specialize (Hnear52 E).
      change (2 ^ 52)%Z with 4503599627370496%Z in *. lia.
    - specialize (Hbig ltac:(lia)).
      change (2 ^ 53)%Z with (2 * 2 ^ 52)%Z in Hhalf. lia. }
  assert (HR : (0 <= R)%Z) by (unfold R; pose proof (pow2_pos k); lia).
  pose proof (Z.sqrtrem_spec R HR) as Hspec.
  destruct (Z.sqrtrem R) as [q r]. destruct Hspec as [HRq Hr].
  destruct (Z_le_gt_dec (Zpos M) R) as [Hup|Hdown].
  - (* the rounded square is not below: the root is the double *)
    assert (Hq : q = Zpos m) by nia. subst q.
    assert (Hr' : (r <= Zpos m)%Z) by nia.
    destruct (Z.eqb_spec r 0) as [Hz|Hnz].
    + rewrite binary_round_aux_53;
        [reflexivity|exact Hdig|lia|cbn [round_nearest_even]; lia].
    + destruct (Z.leb_spec r (Zpos m)); [|lia].
      rewrite binary_round_aux_53;
        [reflexivity|exact Hdig|lia|cbn [round_nearest_even]; lia].
  - (* the rounded square is below: the root is rounded up to the double *)
    assert (Hq : q = (Zpos m - 1)%Z) by nia.
    assert (Hmbig : (2 ^ 52 < Zpos m)%Z).
    { destruct (Z.le_gt_cases (Zpos m) (2 ^ 52)); [|lia]. exfalso.
      assert (Hm52 : Zpos m = (2 ^ 52)%Z) by lia.
      assert (HM104 : Zpos M = (2 ^ 104)%Z)
        by (rewrite HM, Hm52; reflexivity).
      assert (Zpos M < 2 ^ 105)%Z by (rewrite HM104; reflexivity).
      pose proof (digits_below M 105 ltac:(assumption)) as Hd105.
      fold d in Hd105. assert (Ed : d = 105%Z) by lia.
      rewrite Ed in *. change (105 - 53)%Z with 52%Z in *.
      assert (Hk52 : k = 52%Z \/ k = 53%Z) by lia.
      (* the mantissa of the square is exact *)
      assert (Hexact : (Zpos M / 2 ^ 52 = 2 ^ 52)%Z)
        by (rewrite HM104; reflexivity).
      destruct Hshape as [[[Hs|Hs] Hks]|(Hc & _ & _)]; try lia;
        unfold R in Hdown; rewrite Hs, Hexact, Hks, HM104 in Hdown;
        vm_compute in Hdown; discriminate. }
    destruct q as [|p|p]; try lia.
    assert (Hp : Zpos p = (Zpos m - 1)%Z) by exact Hq.
    assert (Hrq : (Zpos p < r)%Z) by nia.
    destruct (Z.eqb_spec r 0) as [Hz|Hnz]; [lia|].
    destruct (Z.leb_spec r (Zpos p)); [lia|].
    assert (Hdp : Zpos (digits2_pos p) = 53%Z).
    { change (Zpos (digits2_pos p)) with (Zdigits2 (Zpos p)).
      apply digits_53. lia. }
    rewrite binary_round_aux_53;
      [|exact Hdp|lia|cbn [round_nearest_even]; lia].
    cbn [round_nearest_even].
    f_equal. apply Pos2Z.inj. rewrite Z2Pos.id by lia. lia.
Qed.

(** ** Doubles: bounds of sums, quotients and squares *)

Lemma binary_round_aux_with_sign (s : bool) (m e : Z) (l : location) :
  binary_round_aux prec emax s m e l
  = with_sign s (binary_round_aux prec emax false m e l).
Proof.
  unfold binary_round_aux.
  destruct (shr_fexp prec emax m e l) as [mrs' e'].
  destruct (shr_fexp prec emax _ e' loc_Exact) as [mrs'' e''].
  destruct (shr_m mrs''); try reflexivity.
  now destruct (e'' <=? emax - prec)%Z.
Qed.

Lemma binary_round_with_sign (s : bool) (p : positive) (e : Z) :
  binary_round prec emax s p e
  = with_sign s (binary_round prec emax false p e).
Proof.
  unfold binary_round.
  destruct (shl_align p e _) as [mz ez].
  apply binary_round_aux_with_sign.
Qed.

Lemma units_with_sign (s : bool) (x : spec_float) :
  Z.abs (units (with_sign s x)) = Z.abs (units x).
Proof. destruct x as [s'|s'| |s' m e]; cbn; try reflexivity.
  destruct s, s'; cbn [cond_Zopp]; lia. Qed.

Lemma units_finite_abs (s : bool) (m : positive) (e : Z) :
  Z.abs (units (S754_finite s m e)) = (Zpos m * 2 ^ (e + 1074))%Z.
Proof.
  cbn [units].
  assert (0 <= Zpos m * 2 ^ (e + 1074))%Z
    by (apply Z.mul_nonneg_nonneg; [lia|apply Z.pow_nonneg; lia]).
  destruct s; cbn [cond_Zopp]; lia.
Qed.

(** A mantissa aligned to a lower exponent has the same value. *)
Lemma aligned_units (m : positive) (e ez : Z) :
  (-1074 <= ez <= e)%Z ->
  (Zpos (fst (shl_align m e ez)) * 2 ^ (ez + 1074)
   = Zpos m * 2 ^ (e + 1074))%Z.
Proof.
  intros H. destruct (shl_align_value m e ez) as [-> _]; [lia|].
  rewrite <- Z.mul_assoc, <- pow2_split by lia. do 2 f_equal. lia.
Qed.

(** Rounding a number that is within a double in magnitude gives a double
    within the same double. *)
Lemma binary_normalize_bound (M ez : Z) (mB : positive) (eB : Z) :
  (-1074 <= ez)%Z -> bounded prec emax mB eB = true ->
  (Z.abs M * 2 ^ (ez + 1074) <= Zpos mB * 2 ^ (eB + 1074))%Z ->
  finite_double (binary_normalize prec emax M ez false) /\
  (Z.abs (units (binary_normalize prec emax M ez false))
   <= Zpos mB * 2 ^ (eB + 1074))%Z.
Proof.
  intros Hez HB Hval.
  destruct (bounded_facts mB eB HB) as (HeB & _ & _).
  pose proof (pow2_pos (eB + 1074) ltac:(lia)) as HpB.
  assert (HposB : (0 <= Zpos mB * 2 ^ (eB + 1074))%Z) by nia.
  assert (Hround : forall (s : bool) (P : positive),
             (Zpos P * 2 ^ (ez + 1074) <= Zpos mB * 2 ^ (eB + 1074))%Z ->
             finite_double (binary_round prec emax s P ez) /\
             (Z.abs (units (binary_round prec emax s P ez))
              <= Zpos mB * 2 ^ (eB + 1074))%Z).
  { intros s P HP. rewrite binary_round_with_sign.
    rewrite units_with_sign.
    destruct (binary_round_upper_bound P ez mB eB (-1074) HB)
      as [->|(m3 & e3 & -> & He3 & Hb)]; try lia.
    - replace (ez - -1074)%Z with (ez + 1074)%Z by lia.
      replace (eB - -1074)%Z with (eB + 1074)%Z by lia. exact HP.
    - cbn [with_sign finite_double units Z.abs].
      split; [exact I|exact HposB].
    - cbn [with_sign finite_double]. split; [exact He3|].
      rewrite units_finite_abs.
      replace (e3 - -1074)%Z with (e3 + 1074)%Z in Hb by lia.
      replace (eB - -1074)%Z with (eB + 1074)%Z in Hb by lia. exact Hb. }
  destruct M as [|P|P]; cbn [binary_normalize].
  - cbn [finite_double units Z.abs]. split; [exact I|exact HposB].
  - apply Hround. exact Hval.
  - apply Hround. exact Hval.
Qed.

(** The sum of two doubles, when a double bounds the sum of their
    magnitudes: it is finite and within the bound. *)
Lemma SFadd_units_bound (x y : spec_float) (mB : positive) (eB : Z) :
  finite_double x -> finite_double y ->
  bounded prec emax mB eB = true ->
  (Z.abs (units x) + Z.abs (units y) <= Zpos mB * 2 ^ (eB + 1074))%Z ->
  finite_double (SF64add x y) /\
  (Z.abs (units (SF64add x y)) <= Zpos mB * 2 ^ (eB + 1074))%Z.
Proof.
  intros Hx Hy HB Hval.
  destruct (bounded_facts mB eB HB) as (HeB & _ & _).
  pose proof (pow2_pos (eB + 1074) ltac:(lia)) as HpB.
  assert (HposB : (0 <= Zpos mB * 2 ^ (eB + 1074))%Z) by nia.
  destruct x as [sx|sx| |sx mx ex]; try contradiction;
    destruct y as [sy|sy| |sy my ey]; try contradiction.
  - destruct sx, sy; cbn [SF64add SFadd Bool.eqb finite_double units Z.abs];
      (split; [exact I|exact HposB]).
  - cbn [SF64add SFadd]. split; [exact Hy|].
    change (units (S754_zero sx)) with 0%Z in Hval. lia.
  - cbn [SF64add SFadd]. split; [exact Hx|].
    change (units (S754_zero sy)) with 0%Z in Hval. lia.
  - cbn [finite_double] in Hx, Hy. unfold SF64add, SFadd.
    rewrite !units_finite_abs in Hval.
    set (ez := Z.min ex ey).
    pose proof (aligned_units mx ex ez ltac:(unfold ez; lia)) as HA.
    pose proof (aligned_units my ey ez ltac:(unfold ez; lia)) as HB'.
    set (A := Zpos (fst (shl_align mx ex ez))) in *.
    set (B := Zpos (fst (shl_align my ey ez))) in *.
    apply binary_normalize_bound; auto; [unfold ez; lia|].
    pose proof (pow2_pos (ez + 1074) ltac:(unfold ez; lia)) as Hp.
    assert (Z.abs (cond_Zopp sx A + cond_Zopp sy B) <= A + B)%Z
      by (destruct sx, sy; cbn [cond_Zopp]; lia).
    nia.
Qed.

(** The doubles of [in_correlation_range]: the zeros, and the doubles of 53
    bits with an exponent from -254 to 175 that are at most 2^227. *)
Lemma in_correlation_range_spec (x : double) :
  in_correlation_range x = true ->
  (exists s, Prim2SF x = S754_zero s) \/
  (exists s m e,
     Prim2SF x = S754_finite s m e /\
     Zpos (digits2_pos m) = 53%Z /\ (-254 <= e <= 175)%Z /\
     (Zpos m * 2 ^ (e + 1074) <= 2 ^ 1301)%Z).
Proof.
  unfold in_correlation_range.
  rewrite FloatAxioms.eqb_spec, !leb_spec, abs_spec.
  pose proof (Prim2SF_valid x) as Hv.
  change (Prim2SF 0) with (S754_zero false).
  change (Prim2SF 0x1p-202) with (S754_finite false 4503599627370496 (-254)).
  change (Prim2SF 0x1p227) with (S754_finite false 4503599627370496 175).
  destruct (Prim2SF x) as [s|s| |s m e]; cbn [SFabs].
  - eauto.
  - destruct s; intros H; vm_compute in H; discriminate.
  - intros H; vm_compute in H; discriminate.
  - rewrite SFeqb_finite_zero. cbn [orb]. intros H.
    apply andb_true_iff in H. destruct H as [Hlow Hup].
    cbn [valid_binary] in Hv.
    pose proof (SFleb_value m e 4503599627370496 175 (-1074) Hv eq_refl Hup)
      as Hval.
    apply SFleb_exponent in Hlow. apply SFleb_exponent in Hup.
    specialize (Hval ltac:(lia) ltac:(lia)).
    right. exists s, m, e. split; [reflexivity|].
    destruct (bounded_facts m e Hv) as (He & Hm & Hnormal).
    split; [|split; [lia|]].
    + unfold bounded, canonical_mantissa in Hv.
      apply andb_true_iff in Hv. destruct Hv as [Hc _].
      apply Z.eqb_eq in Hc.
      unfold fexp, SpecFloat.emin, prec, emax in Hc. lia.
    + replace (e + 1074)%Z with (e - -1074)%Z by lia.
      change (2 ^ 1301)%Z
        with (Zpos 4503599627370496 * 2 ^ (175 - -1074))%Z.
      exact Hval.
Qed.

(** A multiple of a power of two by a count below 2^53 is a double. *)
Lemma size_multiple_bounded (k K : Z) :
  (0 < k < 2 ^ 53)%Z -> (-1022 <= K <= 971)%Z ->
  exists mB eB,
    bounded prec emax mB eB = true /\
    (Zpos mB * 2 ^ (eB + 1074) = k * 2 ^ (K + 1074))%Z.
Proof.
  intros Hk HK.
  destruct (double_of_size_exact (Z.to_nat k)) as (m & _ & Hv & Hdig & Hd);
    [rewrite Z2Nat.id by lia; exact Hk|].
  rewrite Z2Nat.id in Hv, Hd by lia.
  set (d := (Z.log2 k + 1)%Z) in *.
  exists m, (K - (53 - d))%Z. split.
  - apply canonical_53; [exact Hdig|lia].
  - rewrite Hv, <- Z.mul_assoc, <- pow2_split by lia.
    do 2 f_equal. lia.
Qed.

(** A sum of doubles each within 2^K in magnitude: the sum of [n] of them
    is finite and within [n * 2^K]. *)
Lemma fold_add_units_bound (A : Type) (f : A -> double) (K : Z)
  (xs : list A) :
  (-1022 <= K <= 971)%Z ->
  Forall (fun v => finite_double (Prim2SF (f v)) /\
                   (Z.abs (units (Prim2SF (f v))) <= 2 ^ (K + 1074))%Z) xs ->
  forall (init : double) (j : Z),
    (0 <= j)%Z -> (j + Z.of_nat (List.length xs) < 2 ^ 53)%Z ->
    finite_double (Prim2SF init) ->
    (Z.abs (units (Prim2SF init)) <= j * 2 ^ (K + 1074))%Z ->
    finite_double
      (Prim2SF (fold_left (fun a v => (a + f v)%float) xs init)) /\
    (Z.abs (units (Prim2SF (fold_left (fun a v => (a + f v)%float) xs init)))
     <= (j + Z.of_nat (List.length xs)) * 2 ^ (K + 1074))%Z.
Proof.
  intros HK Hall. induction Hall as [|v xs [Hfv Hv] _ IH];
    intros init j Hj Hlen Hfin Hinit.
  - cbn [fold_left List.length]. split; [exact Hfin|]. 
    rewrite Z.add_0_r. exact Hinit.
  - cbn [fold_left]. cbn [List.length] in Hlen |- *.
    rewrite Nat2Z.inj_succ in Hlen |- *.
    destruct (size_multiple_bounded (j + 1) K ltac:(lia) HK)
      as (mB & eB & HB & HvB).
    destruct (SFadd_units_bound (Prim2SF init) (Prim2SF (f v)) mB eB
                Hfin Hfv HB) as [Hfin' Hbound'].
    { rewrite HvB. lia. }
    rewrite <- add_spec, HvB in *.
    specialize (IH (init + f v)%float (j + 1)%Z ltac:(lia) ltac:(lia)
                  Hfin' Hbound').
    replace (j + Z.succ (Z.of_nat (List.length xs)))%Z
      with (j + 1 + Z.of_nat (List.length xs))%Z by lia.
    exact IH.
Qed.

(** A double within [n] times a double, divided by the double of the count
    [n], is within that double. *)
Lemma SFdiv_size_bound (x : spec_float) (mk : positive) (ek n : Z)
  (mB : positive) (eB : Z) :
  finite_double x ->
  Zpos (digits2_pos mk) = 53%Z -> (-52 <= ek <= 0)%Z ->
  Zpos mk = (n * 2 ^ (- ek))%Z ->
  bounded prec emax mB eB = true ->
  (Z.abs (units x) <= n * (Zpos mB * 2 ^ (eB + 1074)))%Z ->
  finite_double (SF64div x (S754_finite false mk ek)) /\
  (Z.abs (units (SF64div x (S754_finite false mk ek)))
   <= Zpos mB * 2 ^ (eB + 1074))%Z.
Proof.
  intros Hx Hdig Hek Hmk HB Hval.
  destruct (bounded_facts mB eB HB) as (HeB & _ & _).
  pose proof (pow2_pos (eB + 1074) ltac:(lia)) as HpB.
  set (B := (Zpos mB * 2 ^ (eB + 1074))%Z) in *.
  assert (HposB : (0 < B)%Z) by (unfold B; nia).
  destruct x as [sx|sx| |sx mx ex]; try contradiction.
  - cbn [SF64div SFdiv finite_double units Z.abs]. split; [exact I|lia].
  - cbn [finite_double] in Hx. rewrite units_finite_abs in Hval.
    unfold SF64div, SFdiv, SFdiv_core_binary.
    change (Zdigits2 (Zpos mk)) with (Zpos (digits2_pos mk)).
    rewrite Hdig.
    set (d1 := Zdigits2 (Zpos mx)).
    set (e' := Z.min (fexp prec emax (d1 + ex - (53 + ek))) (ex - ek)).
    assert (He' : (-1074 <= e' <= ex - ek)%Z)
      by (unfold e', fexp, SpecFloat.emin, prec, emax; lia).
    set (s := (ex - ek - e')%Z).
    assert (Hs : (0 <= s)%Z) by (unfold s; lia).
    rewrite (shift_match mx s Hs).
    pose proof (Z.div_eucl_eq (Zpos mx * 2 ^ s) (Zpos mk) ltac:(lia))
      as Hdiv.
    pose proof (Z.mod_pos_bound (Zpos mx * 2 ^ s) (Zpos mk) ltac:(lia))
      as Hmod.
    pose proof (div_eucl_nonneg (Zpos mx * 2 ^ s) mk) as Hq.
    unfold Z.modulo in Hmod.
    destruct (Z.div_eucl (Zpos mx * 2 ^ s) (Zpos mk)) as [qz r].
    cbn [fst] in Hq. pose proof (pow2_pos s Hs) as Hps.
    specialize (Hq ltac:(lia)).
    rewrite binary_round_aux_with_sign, units_with_sign.
    pose proof (pow2_pos (e' + 1074) ltac:(lia)) as Hpe.
    pose proof (pow2_pos (- ek) ltac:(lia)) as Hpk.
    assert (Hscale : (Zpos mx * 2 ^ s * 2 ^ (e' + 1074)
                      = Zpos mx * 2 ^ (ex + 1074) * 2 ^ (- ek))%Z).
    { rewrite <- !Z.mul_assoc, <- !pow2_split by lia. do 2 f_equal.
      unfold s. lia. }
    assert (Hn : (0 < n)%Z) by nia.
    assert (HQ : (n * 2 ^ (- ek) * (qz * 2 ^ (e' + 1074))
                  <= n * 2 ^ (- ek) * B)%Z).
    { rewrite <- Hmk.
      apply Z.le_trans with (Zpos mx * 2 ^ s * 2 ^ (e' + 1074))%Z.
      - rewrite Hdiv. nia.
      - rewrite Hscale. nia. }
    assert (HQs : r <> 0%Z ->
                  (n * 2 ^ (- ek) * (qz * 2 ^ (e' + 1074))
                   < n * 2 ^ (- ek) * B)%Z).
    { intros Hr. rewrite <- Hmk.
      apply Z.lt_le_trans with (Zpos mx * 2 ^ s * 2 ^ (e' + 1074))%Z.
      - rewrite Hdiv. nia.
      - rewrite Hscale. nia. }
    assert (Hnk : (0 < n * 2 ^ (- ek))%Z) by nia.
    destruct (round_upper_bound qz e' (new_location (Zpos mk) r)
                mB eB (-1074))
      as [Hz|(mq & eq & Hq' & Heq & Hbound)]; auto; try lia.
    + (* the quotient has 53 bits, unless the exponent is the least one *)
      destruct (Z.eq_dec e' (-1074)) as [->|Hne].
      { unfold fexp, SpecFloat.emin, prec, emax. lia. }
      assert (Hd1 : (e' <= d1 + ex - (53 + ek) - 53)%Z)
        by (unfold e', fexp, SpecFloat.emin, prec, emax in *; lia).
      pose proof (digits2_pos_bounds mx) as [Hlo _].
      change (Zpos (digits2_pos mx)) with d1 in Hlo.
      pose proof (digits2_pos_bounds mk) as [_ Hhi]. rewrite Hdig in Hhi.
      assert (H105 : (2 ^ 105 <= Zpos mx * 2 ^ s)%Z).
      { assert (H : (2 ^ 105 <= 2 ^ (d1 - 1 + s))%Z).
        { apply Z.pow_le_mono_r; [lia|]. unfold s. lia. }
        assert (0 < d1)%Z by (unfold d1; cbn [Zdigits2]; lia).
        rewrite pow2_split in H by lia. nia. }
      assert (Hq52 : (2 ^ 52 <= qz)%Z).
      { change (2 ^ 105)%Z with (2 ^ 52 * 2 ^ 53)%Z in H105.
        change (2 ^ 53)%Z with 9007199254740992%Z in *.
        change (2 ^ 52)%Z with 4503599627370496%Z in *. nia. }
      assert (Hdq : (53 <= Zdigits2 qz)%Z).
      { pose proof (Zdigits2_bounds qz ltac:(lia)) as [_ Hhi'].
        destruct (Z.le_gt_cases 53 (Zdigits2 qz)); auto.
        assert (2 ^ Zdigits2 qz <= 2 ^ 52)%Z.
        { apply Z.pow_le_mono_r; lia. }
        lia. }
      unfold fexp, SpecFloat.emin, prec, emax. lia.
    + replace (e' - -1074)%Z with (e' + 1074)%Z by lia.
      replace (eB - -1074)%Z with (eB + 1074)%Z by lia. fold B.
      apply (Z.mul_le_mono_pos_l _ _ (n * 2 ^ (- ek))); [exact Hnk|].
      exact HQ.
    + intros Hloc. apply new_location_exact in Hloc.
      replace (e' - -1074)%Z with (e' + 1074)%Z by lia.
      replace (eB - -1074)%Z with (eB + 1074)%Z by lia. fold B.
      apply (Z.mul_lt_mono_pos_l (n * 2 ^ (- ek))); [exact Hnk|].
      exact (HQs Hloc).
    + rewrite Hz. cbn [with_sign finite_double units Z.abs].
      split; [exact I|lia].
    + rewrite Hq'. cbn [with_sign finite_double]. split; [lia|].
      rewrite units_finite_abs.
      replace (eq - -1074)%Z with (eq + 1074)%Z in Hbound by lia.
      replace (eB - -1074)%Z with (eB + 1074)%Z in Hbound by lia.
      exact Hbound.
Qed.

Lemma SFsub_as_add (x y : spec_float) :
  SF64sub x y = SF64add x (SFopp y).
Proof.
  destruct x as [[]|[]| |[] mx ex], y as [[]|[]| |[] my ey]; reflexivity.
Qed.

Lemma units_opp (x : spec_float) : units (SFopp x) = (- units x)%Z.
Proof.
  destruct x as [s|s| |s m e]; try reflexivity.
  cbn [SFopp units]. destruct s; cbn [negb cond_Zopp]; lia.
Qed.

Lemma finite_double_opp (x : spec_float) :
  finite_double x -> finite_double (SFopp x).
Proof. now destruct x. Qed.

Lemma valid_opp (x : spec_float) :
  valid_binary x = true -> valid_binary (SFopp x) = true.
Proof. now destruct x. Qed.

(** A double of magnitude [2^(E + 52)] at least has 53 bits and an exponent
    of [E] at least. *)
Lemma valid_normal (m : positive) (e E : Z) :
  bounded prec emax m e = true -> (-1074 <= E)%Z ->
  (2 ^ (E + 1126) <= Zpos m * 2 ^ (e + 1074))%Z ->
  Zpos (digits2_pos m) = 53%Z /\ (E <= e)%Z.
Proof.
  intros Hv HE Hval.
  destruct (bounded_facts m e Hv) as (He & Hm & Hnormal).
  pose proof (pow2_pos (e + 1074) ltac:(lia)) as Hp.
  assert (HEe : (E <= e)%Z).
  { assert (H : (2 ^ (E + 1126) < 2 ^ (53 + (e + 1074)))%Z).
    { rewrite (pow2_split 53) by lia. nia. }
    apply Z.pow_lt_mono_r_iff in H; lia. }
  split; [|exact HEe].
  change (Zpos (digits2_pos m)) with (Zdigits2 (Zpos m)).
  apply digits_53. split; [|exact Hm].
  destruct (Z.eq_dec e (-1074)) as [->|Hne]; [|apply Hnormal; lia].
  change (2 ^ (-1074 + 1074))%Z with 1%Z in Hval.
  assert (2 ^ 52 <= 2 ^ (E + 1126))%Z by (apply Z.pow_le_mono_r; lia).
  lia.
Qed.

Lemma cond_Zopp_mul (s : bool) (a c : Z) :
  (cond_Zopp s a * c = cond_Zopp s (a * c))%Z.
Proof. destruct s; cbn [cond_Zopp]; lia. Qed.

(** The sum of two doubles that is [2^(E + 52)] at least in magnitude and
    does not overflow has 53 bits and an exponent of [E] at least. *)
Lemma SFadd_normal (E : Z) (x y : spec_float) :
  (-1074 <= E)%Z -> finite_double x -> finite_double y ->
  valid_binary x = true -> valid_binary y = true ->
  (2 ^ (E + 1126) <= Z.abs (units x + units y))%Z ->
  (Z.abs (units x) + Z.abs (units y) < 2 ^ 2097)%Z ->
  exists s m e,
    SF64add x y = S754_finite s m e /\
    Zpos (digits2_pos m) = 53%Z /\ (E <= e)%Z.
Proof.
  intros HE Hx Hy Hvx Hvy Hlow Hup.
  pose proof (pow2_pos (E + 1126) ltac:(lia)) as HpE.
  destruct x as [sx|sx| |sx mx ex]; try contradiction;
    destruct y as [sy|sy| |sy my ey]; try contradiction.
  - cbn [units Z.add Z.abs] in Hlow. lia.
  - cbn [SF64add SFadd]. exists sy, my, ey. split; [reflexivity|].
    change (units (S754_zero sx)) with 0%Z in Hlow.
    rewrite Z.add_0_l, units_finite_abs in Hlow.
    apply valid_normal; auto.
  - cbn [SF64add SFadd]. exists sx, mx, ex. split; [reflexivity|].
    change (units (S754_zero sy)) with 0%Z in Hlow.
    rewrite Z.add_0_r, units_finite_abs in Hlow.
    apply valid_normal; auto.
  - cbn [finite_double] in Hx, Hy. unfold SF64add, SFadd.
    rewrite !units_finite_abs in Hup. cbn [units] in Hlow.
    set (ez := Z.min ex ey) in *.
    pose proof (aligned_units mx ex ez ltac:(unfold ez; lia)) as HA.
    pose proof (aligned_units my ey ez ltac:(unfold ez; lia)) as HB.
    set (A := Zpos (fst (shl_align mx ex ez))) in *.
    set (B := Zpos (fst (shl_align my ey ez))) in *.
    rewrite <- HA, <- HB in Hlow, Hup.
    rewrite <- !cond_Zopp_mul, <- Z.mul_add_distr_r in Hlow.
    assert (Hez : (-1074 <= ez)%Z) by (unfold ez; lia).
    pose proof (pow2_pos (ez + 1074) ltac:(lia)) as Hp.
    assert (HAB : (Z.abs (cond_Zopp sx A + cond_Zopp sy B) <= A + B)%Z)
      by (destruct sx, sy; cbn [cond_Zopp]; lia).
    set (M := (cond_Zopp sx A + cond_Zopp sy B)%Z) in *.
    rewrite Z.abs_mul, (Z.abs_eq (2 ^ (ez + 1074))) in Hlow by lia.
    assert (Hround : forall (s : bool) (P : positive),
               Zpos P = Z.abs M ->
               exists s' m e,
                 binary_round prec emax s P ez = S754_finite s' m e /\
                 Zpos (digits2_pos m) = 53%Z /\ (E <= e)%Z).
    { intros s P HP.
      pose proof (digits2_pos_bounds P) as [Hdlo Hdhi].
      destruct (binary_round_normal s P) as (m3 & k & Hdig & Hk & Hr).
      cbv zeta in Hk, Hr.
      set (d := Zpos (digits2_pos P)) in *.
      assert (Hdpos : (0 < d)%Z) by (unfold d; lia).
      assert (Hd1 : (E + 1126 < d + (ez + 1074))%Z).
      { apply (Z.pow_lt_mono_r_iff 2); try lia.
        rewrite (pow2_split d) by lia.
        apply Z.le_lt_trans with (Z.abs M * 2 ^ (ez + 1074))%Z;
          [exact Hlow|].
        apply Z.mul_lt_mono_pos_r; lia. }
      assert (Hd2 : (d - 1 + (ez + 1074) < 2097)%Z).
      { apply (Z.pow_lt_mono_r_iff 2); try lia.
        rewrite (pow2_split (d - 1)) by lia.
        apply Z.le_lt_trans with ((A + B) * 2 ^ (ez + 1074))%Z; [|lia].
        apply Z.mul_le_mono_nonneg_r; lia. }
      exists s, m3, (ez + k)%Z. split; [apply Hr; lia|].
      split; [exact Hdig|lia]. }
    destruct M as [|P|P] eqn:EM; cbn [binary_normalize].
    + cbn [Z.abs] in Hlow. lia.
    + apply Hround. reflexivity.
    + apply Hround. reflexivity.
Qed.

(** The square of a double within [2^K] is within [2^(2 K)], and is zero or
    positive. *)
Lemma square_units_bound (d : double) (K : Z) :
  (-511 <= K <= 511)%Z ->
  finite_double (Prim2SF d) ->
  (Z.abs (units (Prim2SF d)) <= 2 ^ (K + 1074))%Z ->
  nonneg_double (Prim2SF (d * d)) /\
  (units (Prim2SF (d * d)) <= 2 ^ (2 * K + 1074))%Z.
Proof.
  intros HK Hfin Hval.
  pose proof (Prim2SF_valid d) as Hv.
  pose proof (Prim2SF_valid (d * d)) as Hv2.
  rewrite mul_spec in *.
  pose proof (pow2_pos (2 * K + 1074) ltac:(lia)) as HpK.
  destruct (Prim2SF d) as [s|s| |s m e]; try contradiction.
  - cbn [SF64mul SFmul nonneg_double units]. split; [exact I|lia].
  - cbn [finite_double valid_binary] in Hfin, Hv.
    rewrite units_finite_abs in Hval.
    unfold SF64mul, SFmul in *. rewrite xorb_nilpotent in *.
    assert (HB : bounded prec emax 4503599627370496 (2 * K - 52) = true)
      by (apply canonical_53; [reflexivity|lia]).
    pose proof (pow2_pos (e + 1074) ltac:(lia)) as Hpe.
    pose proof (pow2_pos (K + 1074) ltac:(lia)) as HpK1.
    assert (Hsq : (Zpos (m * m) * 2 ^ (e + e - -2148)
                   = (Zpos m * 2 ^ (e + 1074))
                     * (Zpos m * 2 ^ (e + 1074)))%Z).
    { replace (e + e - -2148)%Z with ((e + 1074) + (e + 1074))%Z by lia.
      rewrite pow2_split, Pos2Z.inj_mul by lia. ring. }
    assert (HsqB : (Zpos 4503599627370496 * 2 ^ (2 * K - 52 - -2148)
                    = 2 ^ (K + 1074) * 2 ^ (K + 1074))%Z).
    { change (Zpos 4503599627370496) with (2 ^ 52)%Z.
      rewrite <- !pow2_split by lia. f_equal. lia. }
    destruct (round_upper_bound (Zpos (m * m)) (e + e) loc_Exact
                4503599627370496 (2 * K - 52) (-2148))
      as [Hz|(m3 & e3 & Hq & He3 & Hbound)]; auto; try lia.
    + (* the square has 105 bits, unless the exponent is the least one *)
      unfold bounded, canonical_mantissa in Hv.
      apply andb_true_iff in Hv. destruct Hv as [Hc _].
      apply Z.eqb_eq in Hc.
      destruct (Z.eq_dec e (-1074)) as [->|Hne].
      { unfold fexp, SpecFloat.emin, prec, emax. lia. }
      assert (Hdig : Zpos (digits2_pos m) = 53%Z)
        by (unfold fexp, SpecFloat.emin, prec, emax in Hc; lia).
      pose proof (digits2_pos_bounds m) as [Hlo _]. rewrite Hdig in Hlo.
      change (2 ^ (53 - 1))%Z with 4503599627370496%Z in Hlo.
      assert (H104 : (2 ^ 104 <= Zpos (m * m))%Z).
      { rewrite Pos2Z.inj_mul.
        change (2 ^ 104)%Z
          with (4503599627370496 * 4503599627370496)%Z. nia. }
      pose proof (digits_above (m * m) 104 H104) as Hd.
      cbn [Zdigits2]. unfold fexp, SpecFloat.emin, prec, emax. lia.
    + rewrite Hsq, HsqB. apply Z.mul_le_mono_nonneg; lia.
    + intros H. contradiction.
    + rewrite Hz. cbn [nonneg_double units]. split; [exact I|lia].
    + rewrite Hq in *. cbn [valid_binary] in Hv2.
      destruct (bounded_facts m3 e3 Hv2) as (He3' & _).
      cbn [nonneg_double units cond_Zopp]. split; [lia|].
      rewrite HsqB in Hbound.
      replace (e3 - -2148)%Z with ((e3 + 1074) + 1074)%Z in Hbound by lia.
      rewrite pow2_split in Hbound by lia.
      replace (2 * K + 1074)%Z with ((K + 1074) + (K + 1074) - 1074)%Z
        by lia.
      assert (H2 : (2 ^ (K + 1074) * 2 ^ (K + 1074)
                    = 2 ^ (K + 1074 + (K + 1074) - 1074) * 2 ^ 1074)%Z).
      { rewrite <- !pow2_split by lia. f_equal. lia. }
      rewrite H2, Z.mul_assoc in Hbound.
      apply Z.mul_le_mono_pos_r in Hbound; [exact Hbound|].
      apply pow2_pos. lia.
Qed.

(** The square of a double of 53 bits is a double of 53 bits, when it
    neither overflows nor underflows. *)
Lemma SFmul_square_normal (s : bool) (m : positive) (e : Z) :
  Zpos (digits2_pos m) = 53%Z -> (-563 <= e <= 458)%Z ->
  normal_from (e + e + 52)
    (SF64mul (S754_finite s m e) (S754_finite s m e)).
Proof.
  intros Hdig He.
  pose proof (digits2_pos_bounds m) as Hm. rewrite Hdig in Hm.
  change (2 ^ (53 - 1))%Z with (2 ^ 52)%Z in Hm.
  unfold SF64mul, SFmul. rewrite xorb_nilpotent.
  set (M := (m * m)%positive).
  assert (HM : Zpos M = (Zpos m * Zpos m)%Z) by apply Pos2Z.inj_mul.
  assert (HMlow : (2 ^ 104 <= Zpos M)%Z).
  { change (2 ^ 104)%Z with (2 ^ 52 * 2 ^ 52)%Z. nia. }
  assert (HMup : (Zpos M < 2 ^ 106)%Z).
  { change (2 ^ 106)%Z with (2 ^ 53 * 2 ^ 53)%Z. nia. }
  pose proof (digits_above M 104 HMlow) as Hd1.
  pose proof (digits_below M 106 HMup) as Hd2.
  set (d := Zpos (digits2_pos M)) in *.
  rewrite binary_round_aux_normal by (fold d; lia).
  destruct (normal_round_shape M loc_Exact) as (_ & HdR & _);
    [fold d; lia|].
  destruct (normal_round_near M) as [_ Hk]; [fold d; lia|].
  fold d in Hk. cbn [normal_from]. split; [exact HdR|lia].
Qed.

Lemma nonneg_units (x : spec_float) :
  nonneg_double x -> finite_double x /\ (0 <= units x)%Z.
Proof.
  destruct x as [s|s| |[] m e]; try contradiction; cbn [nonneg_double].
  - intros _. cbn [finite_double units]. split; [exact I|lia].
  - intros He. cbn [finite_double units cond_Zopp]. split; [exact He|].
    apply Z.mul_nonneg_nonneg; [lia|apply Z.pow_nonneg; lia].
Qed.

Lemma normal_from_units (E : Z) (x : spec_float) :
  (-1074 <= E)%Z -> normal_from E x -> (2 ^ (E + 1126) <= units x)%Z.
Proof.
  intros HE. destruct x as [s|s| |[] m e]; try contradiction.
  intros [Hdig He]. cbn [units cond_Zopp].
  pose proof (digits2_pos_bounds m) as [Hlo _]. rewrite Hdig in Hlo.
  change (2 ^ (53 - 1))%Z with (2 ^ 52)%Z in Hlo.
  replace (E + 1126)%Z with (52 + (E + 1074))%Z by lia.
  rewrite pow2_split by lia.
  assert (2 ^ (E + 1074) <= 2 ^ (e + 1074))%Z
    by (apply Z.pow_le_mono_r; lia).
  pose proof (pow2_pos (E + 1074) ltac:(lia)).
  apply Z.mul_le_mono_nonneg; lia.
Qed.

(** The sum of two doubles that are not negative is not negative. *)
Lemma SFadd_nonneg_double (x y : spec_float) :
  nonneg_double x -> nonneg_double y -> finite_double (SF64add x y) ->
  nonneg_double (SF64add x y).
Proof.
  destruct x as [sx|sx| |[] mx ex]; try contradiction;
    destruct y as [sy|sy| |[] my ey]; try contradiction; intros Hx Hy.
  - intros _. now destruct sx, sy.
  - intros _. exact Hy.
  - intros _. exact Hx.
  - unfold SF64add, SFadd. cbn [cond_Zopp Z.add binary_normalize].
    set (P := (fst (shl_align mx ex (Z.min ex ey))
               + fst (shl_align my ey (Z.min ex ey)))%positive).
    pose proof (binary_round_sign false P (Z.min ex ey)) as Hs.
    destruct (binary_round prec emax false P (Z.min ex ey))
      as [s|s| |s m e]; try contradiction.
    + intros _. exact I.
    + cbn [has_sign] in Hs. subst s. intros H. exact H.
Qed.

(** One addition of the sums of squares: the sum is not negative and within
    the bound, and it has 53 bits and an exponent of [E] at least when one
    of the two has. *)
Lemma add_nonneg_step (E : Z) (a b : double) (mB : positive) (eB : Z) :
  (-1074 <= E)%Z ->
  nonneg_double (Prim2SF a) -> nonneg_double (Prim2SF b) ->
  bounded prec emax mB eB = true ->
  (units (Prim2SF a) + units (Prim2SF b) <= Zpos mB * 2 ^ (eB + 1074))%Z ->
  (Zpos mB * 2 ^ (eB + 1074) < 2 ^ 2097)%Z ->
  nonneg_double (Prim2SF (a + b)) /\
  (units (Prim2SF (a + b)) <= Zpos mB * 2 ^ (eB + 1074))%Z /\
  (normal_from E (Prim2SF a) \/ normal_from E (Prim2SF b) ->
   normal_from E (Prim2SF (a + b))).
Proof.
  intros HE Ha Hb HB Hval Hup.
  destruct (nonneg_units _ Ha) as [Hfa Hua].
  destruct (nonneg_units _ Hb) as [Hfb Hub].
  pose proof (Prim2SF_valid a) as Hva.
  pose proof (Prim2SF_valid b) as Hvb.
  rewrite add_spec.
  destruct (SFadd_units_bound (Prim2SF a) (Prim2SF b) mB eB Hfa Hfb HB)
    as [Hfin Hbound]; [lia|].
  pose proof (SFadd_nonneg_double _ _ Ha Hb Hfin) as Hnn.
  destruct (nonneg_units _ Hnn) as [_ Hur].
  split; [exact Hnn|]. split; [lia|].
  intros Hnormal.
  destruct (SFadd_normal E (Prim2SF a) (Prim2SF b) HE Hfa Hfb Hva Hvb)
    as (s & m & e & Hr & Hdig & He).
  - destruct Hnormal as [H|H];
      apply (normal_from_units E _ HE) in H; lia.
  - lia.
  - rewrite Hr in *. destruct s; [contradiction|].
    cbn [normal_from]. auto.
Qed.

(** A sum of doubles that are not negative, each within [2^K]: the sum of
    [n] of them is within [n * 2^K], and has 53 bits and an exponent of [E]
    at least when one of them has. *)
Lemma fold_add_nonneg (A : Type) (f : A -> double) (K E : Z)
  (xs : list A) :
  (-1022 <= K <= 969)%Z -> (-1074 <= E)%Z ->
  Forall (fun v => nonneg_double (Prim2SF (f v)) /\
                   (units (Prim2SF (f v)) <= 2 ^ (K + 1074))%Z) xs ->
  forall (init : double) (j : Z),
    (0 <= j)%Z -> (j + Z.of_nat (List.length xs) < 2 ^ 53)%Z ->
    nonneg_double (Prim2SF init) ->
    (units (Prim2SF init) <= j * 2 ^ (K + 1074))%Z ->
    let r := Prim2SF (fold_left (fun a v => (a + f v)%float) xs init) in
    nonneg_double r /\
    (units r <= (j + Z.of_nat (List.length xs)) * 2 ^ (K + 1074))%Z /\
    (normal_from E (Prim2SF init) \/
     Exists (fun v => normal_from E (Prim2SF (f v))) xs ->
     normal_from E r).
Proof.
  intros HK HE Hall. induction Hall as [|v xs [Hfv Hv] _ IH];
    intros init j Hj Hlen Hnn Hinit; cbv zeta.
  - cbn [fold_left List.length]. split; [exact Hnn|].
    rewrite Z.add_0_r. split; [exact Hinit|].
    intros [H|H]; [exact H|inversion H].
  - cbn [fold_left]. cbn [List.length] in Hlen |- *.
    rewrite Nat2Z.inj_succ in Hlen |- *.
    destruct (size_multiple_bounded (j + 1) K ltac:(lia) ltac:(lia))
      as (mB & eB & HB & HvB).
    pose proof (pow2_pos (K + 1074) ltac:(lia)) as HpK.
    assert (Hup : (Zpos mB * 2 ^ (eB + 1074) < 2 ^ 2097)%Z).
    { rewrite HvB.
      apply Z.lt_le_trans with (2 ^ 53 * 2 ^ (K + 1074))%Z.
      - apply Z.mul_lt_mono_pos_r; lia.
      - rewrite <- pow2_split by lia. apply Z.pow_le_mono_r; lia. }
    destruct (add_nonneg_step E init (f v) mB eB HE Hnn Hfv HB)
      as (Hnn' & Hbound' & Hnormal'); [rewrite HvB; lia|exact Hup|].
    rewrite HvB in Hbound'.
    specialize (IH (init + f v)%float (j + 1)%Z ltac:(lia) ltac:(lia)
                  Hnn' Hbound').
    cbv zeta in IH. destruct IH as (IH1 & IH2 & IH3).
    replace (j + Z.succ (Z.of_nat (List.length xs)))%Z
      with (j + 1 + Z.of_nat (List.length xs))%Z by lia.
    split; [exact IH1|]. split; [exact IH2|].
    intros H. apply IH3.
    destruct H as [H|H].
    + left. apply Hnormal'. now left.
    + inversion H as [? ? Hh|? ? Ht]; subst.
      * left. apply Hnormal'. now right.
      * now right.
Qed.

(** What a double of the range is, in units: within 2^227, and a multiple of
    2^-254. *)
Lemma range_units (x : double) :
  in_correlation_range x = true ->
  finite_double (Prim2SF x) /\
  (Z.abs (units (Prim2SF x)) <= 2 ^ 1301)%Z /\
  exists c, units (Prim2SF x) = (c * 2 ^ 820)%Z.
Proof.
  intros H.
  destruct (in_correlation_range_spec x H)
    as [[s ->]|(s & m & e & -> & Hdig & He & Hval)].
  - cbn [finite_double units Z.abs]. split; [exact I|].
    split; [apply Z.pow_nonneg; lia|]. exists 0%Z. reflexivity.
  - cbn [finite_double]. split; [lia|].
    rewrite units_finite_abs. split; [exact Hval|].
    exists (cond_Zopp s (Zpos m * 2 ^ (e + 254))). cbn [units].
    rewrite cond_Zopp_mul, <- Z.mul_assoc, <- pow2_split by lia.
    do 3 f_equal. lia.
Qed.

Lemma SFeqb_refl_finite (s : bool) (m : positive) (e : Z) :
  SFeqb (S754_finite s m e) (S754_finite s m e) = true.
Proof.
  unfold SFeqb, SFcompare.
  destruct s; rewrite Z.compare_refl, Pos.compare_cont_refl; reflexivity.
Qed.

(** Two doubles of the range with the same value are equal by [==]. *)
Lemma eqb_of_units (x y : double) :
  in_correlation_range x = true -> in_correlation_range y = true ->
  units (Prim2SF x) = units (Prim2SF y) -> (x =? y)%float = true.
Proof.
  intros Hx Hy. rewrite FloatAxioms.eqb_spec.
  destruct (in_correlation_range_spec x Hx)
    as [[sx ->]|(sx & mx & ex & -> & Hdx & Hex & _)];
    destruct (in_correlation_range_spec y Hy)
      as [[sy ->]|(sy & my & ey & -> & Hdy & Hey & _)].
  - reflexivity.
  - intros H. exfalso.
    assert (Ha : Z.abs (units (S754_zero sx))
                 = Z.abs (units (S754_finite sy my ey))) by (f_equal; exact H).
    rewrite units_finite_abs in Ha. cbn [units Z.abs] in Ha.
    pose proof (pow2_pos (ey + 1074) ltac:(lia)). nia.
  - intros H. exfalso.
    assert (Ha : Z.abs (units (S754_finite sx mx ex))
                 = Z.abs (units (S754_zero sy))) by (f_equal; exact H).
    rewrite units_finite_abs in Ha. cbn [units Z.abs] in Ha.
    pose proof (pow2_pos (ex + 1074) ltac:(lia)). nia.
  - intros H.
    pose proof (digits2_pos_bounds mx) as Hmx. rewrite Hdx in Hmx.
    pose proof (digits2_pos_bounds my) as Hmy. rewrite Hdy in Hmy.
    change (2 ^ (53 - 1))%Z with 4503599627370496%Z in *.
    change (2 ^ 53)%Z with 9007199254740992%Z in *.
    pose proof (pow2_pos (ex + 1074) ltac:(lia)) as Hpx.
    pose proof (pow2_pos (ey + 1074) ltac:(lia)) as Hpy.
    assert (Ha : (Zpos mx * 2 ^ (ex + 1074) = Zpos my * 2 ^ (ey + 1074))%Z).
    { pose proof (f_equal Z.abs H) as Ha.
      rewrite !units_finite_abs in Ha. exact Ha. }
    assert (Hs : sx = sy).
    { cbn [units] in H.
      assert (0 < Zpos mx * 2 ^ (ex + 1074))%Z by nia.
      assert (0 < Zpos my * 2 ^ (ey + 1074))%Z by nia.
      destruct sx, sy; cbn [cond_Zopp] in H; try reflexivity; lia. }
    assert (He : ex = ey).
    { destruct (Z.lt_trichotomy ex ey) as [Hlt|[Heq|Hgt]]; [|exact Heq|];
        exfalso.
      - replace (ey + 1074)%Z with ((ey - ex) + (ex + 1074))%Z in Ha by lia.
        rewrite (pow2_split (ey - ex)), Z.mul_assoc in Ha by lia.
        apply Z.mul_cancel_r in Ha; [|lia].
        assert (2 ^ 1 <= 2 ^ (ey - ex))%Z by (apply Z.pow_le_mono_r; lia).
        change (2 ^ 1)%Z with 2%Z in *. nia.
      - replace (ex + 1074)%Z with ((ex - ey) + (ey + 1074))%Z in Ha by lia.
        rewrite (pow2_split (ex - ey)), Z.mul_assoc in Ha by lia.
        apply Z.mul_cancel_r in Ha; [|lia].
        assert (2 ^ 1 <= 2 ^ (ex - ey))%Z by (apply Z.pow_le_mono_r; lia).
        change (2 ^ 1)%Z with 2%Z in *. nia. }
    subst sy ey. apply Z.mul_cancel_r in Ha; [|lia].
    injection Ha as ->. apply SFeqb_refl_finite.
Qed.

(** Two doubles of the range that are not equal are 2^-254 apart at
    least. *)
Lemma distinct_units (x y : double) :
  in_correlation_range x = true -> in_correlation_range y = true ->
  (x =? y)%float = false ->
  (2 ^ 820 <= Z.abs (units (Prim2SF x) - units (Prim2SF y)))%Z.
Proof.
  intros Hx Hy Hne.
  destruct (range_units x Hx) as (_ & _ & cx & Hcx).
  destruct (range_units y Hy) as (_ & _ & cy & Hcy).
  assert (Hc : cx <> cy).
  { intros ->. rewrite <- Hcy in Hcx.
    rewrite (eqb_of_units x y Hx Hy Hcx) in Hne. discriminate. }
  rewrite Hcx, Hcy, <- Z.mul_sub_distr_r, Z.abs_mul.
  pose proof (pow2_pos 820 ltac:(lia)) as Hp.
  rewrite (Z.abs_eq (2 ^ 820)) by lia.
  assert (1 <= Z.abs (cx - cy))%Z by lia.
  set (p := (2 ^ 820)%Z) in *. nia.
Qed.

Lemma normal_from_weaken (E E' : Z) (x : spec_float) :
  (E <= E')%Z -> normal_from E' x -> normal_from E x.
Proof.
  intros HE. destruct x as [s|s| |[] m e]; try contradiction.
  cbn [normal_from]. intros [Hdig He]. split; [exact Hdig|lia].
Qed.

(** The exponent of a double of 53 bits below a power of two. *)
Lemma exponent_below (s : bool) (m : positive) (e k : Z) :
  Zpos (digits2_pos m) = 53%Z -> (-1074 <= e)%Z ->
  (Z.abs (units (S754_finite s m e)) < 2 ^ k)%Z -> (e + 1126 < k)%Z.
Proof.
  intros Hdig He H. rewrite units_finite_abs in H.
  pose proof (digits2_pos_bounds m) as [Hlo _]. rewrite Hdig in Hlo.
  change (2 ^ (53 - 1))%Z with (2 ^ 52)%Z in Hlo.
  pose proof (pow2_pos (e + 1074) ltac:(lia)) as Hp.
  apply (Z.pow_lt_mono_r_iff 2); try lia.
  - destruct (Z.le_gt_cases 0 k); [lia|].
    rewrite (Z.pow_neg_r 2 k) in H by lia. nia.
  - replace (e + 1126)%Z with (52 + (e + 1074))%Z by lia.
    rewrite (pow2_split 52) by lia.
    apply Z.le_lt_trans with (Zpos m * 2 ^ (e + 1074))%Z; [|exact H].
    apply Z.mul_le_mono_nonneg_r; lia.
Qed.

(** The mean of doubles of the range is within the range. *)
Lemma calculate_mean_units_bound (xs : list double) :
  xs <> [] -> (Z.of_nat (List.length xs) < 2 ^ 53)%Z ->
  Forall (fun x => in_correlation_range x = true) xs ->
  finite_double (Prim2SF (calculate_mean xs)) /\
  (Z.abs (units (Prim2SF (calculate_mean xs))) <= 2 ^ 1301)%Z.
Proof.
  intros Hne Hlen Hall.
  assert (Hn : (0 < Z.of_nat (List.length xs))%Z)
    by (destruct xs; [congruence|cbn [List.length]; lia]).
  assert (HF : Forall (fun v : double =>
                         finite_double (Prim2SF v) /\
                         (Z.abs (units (Prim2SF v)) <= 2 ^ (227 + 1074))%Z)
                      xs).
  { eapply Forall_impl; [|exact Hall]. intros v Hv.
    destruct (range_units v Hv) as (H1 & H2 & _). split; [exact H1|].
    exact H2. }
  pose proof (fold_add_units_bound double (fun v => v) 227 xs ltac:(lia) HF
                0%float 0%Z ltac:(lia) ltac:(lia) I) as Hsum.
  cbv beta in Hsum.
  change (fold_left (fun a v : float => (a + v)%float) xs 0%float)
    with (accumulate xs 0) in Hsum.
  destruct Hsum as [Hfin Hsum].
  { change (Prim2SF 0) with (S754_zero false). cbn [units Z.abs]. lia. }
  replace (calculate_mean xs)
    with (accumulate xs 0 / double_of_size (List.length xs))%float
    by (destruct xs; [congruence|reflexivity]).
  rewrite div_spec.
  destruct (double_of_size_exact (List.length xs))
    as (m & Hm & Hv & Hdig & Hd); [lia|].
  rewrite Hm.
  change (2 ^ 1301)%Z with (Zpos 4503599627370496 * 2 ^ (175 + 1074))%Z.
  apply (SFdiv_size_bound _ m _ (Z.of_nat (List.length xs))).
  - exact Hfin.
  - exact Hdig.
  - lia.
  - rewrite Hv. do 2 f_equal. lia.
  - reflexivity.
  - change (Zpos 4503599627370496 * 2 ^ (175 + 1074))%Z
      with (2 ^ (227 + 1074))%Z.
    rewrite Z.add_0_l in Hsum. exact Hsum.
Qed.

(** The sum of the squared deviations of doubles of the range with two
    distinct values: a double of 53 bits whose square neither overflows nor
    underflows. *)
Lemma sum_squared_deviations_normal (xs : list double) :
  (Z.of_nat (List.length xs) < 2 ^ 53)%Z ->
  Forall (fun x => in_correlation_range x = true) xs ->
  (exists a b, In a xs /\ In b xs /\ (a =? b)%float = false) ->
  exists m e,
    Prim2SF (sum_squared_deviations xs (calculate_mean xs))
    = S754_finite false m e /\
    Zpos (digits2_pos m) = 53%Z /\ (-562 <= e <= 456)%Z.
Proof.
  intros Hlen Hall (a & b & Ha & Hb & Hab).
  assert (Hne : xs <> []) by (intros ->; contradiction).
  destruct (calculate_mean_units_bound xs Hne Hlen Hall) as [Hfm Hum].
  set (avg := calculate_mean xs) in *.
  rewrite Forall_forall in Hall.
  (* the deviations *)
  assert (Hdev : forall v, In v xs ->
             finite_double (Prim2SF (v - avg)) /\
             (Z.abs (units (Prim2SF (v - avg))) <= 2 ^ 1302)%Z).
  { intros v Hv. destruct (range_units v (Hall v Hv)) as (Hfv & Huv & _).
    rewrite sub_spec, SFsub_as_add.
    change (2 ^ 1302)%Z with (Zpos 4503599627370496 * 2 ^ (176 + 1074))%Z.
    apply SFadd_units_bound;
      [exact Hfv|apply finite_double_opp; exact Hfm|reflexivity|].
    rewrite units_opp, Z.abs_opp.
    change (Zpos 4503599627370496 * 2 ^ (176 + 1074))%Z
      with (2 ^ 1301 + 2 ^ 1301)%Z.
    lia. }
  (* their squares *)
  assert (Hsq : Forall
                  (fun v : double =>
                     nonneg_double (Prim2SF ((v - avg) * (v - avg))) /\
                     (units (Prim2SF ((v - avg) * (v - avg)))
                      <= 2 ^ (456 + 1074))%Z) xs).
  { apply Forall_forall. intros v Hv. destruct (Hdev v Hv) as [H1 H2].
    apply (square_units_bound (v - avg)%float 228); [lia|exact H1|exact H2]. }
  (* one deviation is not small *)
  pose proof (distinct_units a b (Hall a Ha) (Hall b Hb) Hab) as Hdist.
  assert (Hz : exists z, In z xs /\
                 (2 ^ 819
                  <= Z.abs (units (Prim2SF z) - units (Prim2SF avg)))%Z).
  { change (2 ^ 820)%Z with (2 * 2 ^ 819)%Z in Hdist.
    destruct (Z_le_gt_dec (2 ^ 819)
                (Z.abs (units (Prim2SF a) - units (Prim2SF avg))));
      [exists a|exists b]; (split; [assumption|]); lia. }
  destruct Hz as (z & Hz & Hbig).
  assert (Hnz : normal_from (-562) (Prim2SF ((z - avg) * (z - avg)))).
  { destruct (Hdev z Hz) as [Hfd Hud]. revert Hfd Hud.
    rewrite mul_spec, sub_spec, SFsub_as_add. intros Hfd Hud.
    destruct (range_units z (Hall z Hz)) as (Hfz & Huz & _).
    destruct (SFadd_normal (-307) (Prim2SF z) (SFopp (Prim2SF avg)))
      as (s & m & e & Hr & Hdig & He).
    - lia.
    - exact Hfz.
    - apply finite_double_opp. exact Hfm.
    - apply Prim2SF_valid.
    - apply valid_opp, Prim2SF_valid.
    - rewrite units_opp. change (-307 + 1126)%Z with 819%Z.
      rewrite Z.add_opp_r. exact Hbig.
    - rewrite units_opp, Z.abs_opp.
      apply Z.le_lt_trans with (2 ^ 1301 + 2 ^ 1301)%Z; [lia|].
      reflexivity.
    - rewrite Hr in *. cbn [finite_double] in Hfd.
      assert (Hup : (e + 1126 < 1303)%Z).
      { apply (exponent_below s m e 1303 Hdig Hfd).
        apply Z.le_lt_trans with (2 ^ 1302)%Z; [exact Hud|reflexivity]. }
      apply (normal_from_weaken _ (e + e + 52)); [lia|].
      apply SFmul_square_normal; [exact Hdig|lia]. }
  (* the sum *)
  pose proof (fold_add_nonneg double (fun v => (v - avg) * (v - avg))%float
                456 (-562) xs ltac:(lia) ltac:(lia) Hsq
                0%float 0%Z ltac:(lia) ltac:(lia) I) as Hsum.
  cbv beta zeta in Hsum.
  change (fold_left
            (fun (a0 : float) (v : double) =>
               (a0 + (v - avg) * (v - avg))%float) xs 0%float)
    with (sum_squared_deviations xs avg) in Hsum.
  destruct Hsum as (Hnn & Hub & Hnormal).
  { change (Prim2SF 0) with (S754_zero false). cbn [units]. lia. }
  assert (Hn : normal_from (-562) (Prim2SF (sum_squared_deviations xs avg))).
  { apply Hnormal. right. apply Exists_exists. exists z. auto. }
  destruct (Prim2SF (sum_squared_deviations xs avg)) as [s|s| |[] m e];
    try contradiction.
  destruct Hn as [Hdig He]. exists m, e. split; [reflexivity|].
  split; [exact Hdig|]. split; [exact He|].
  cbn [nonneg_double] in Hnn.
  assert (Hup : (e + 1126 < 1583)%Z); [|lia].
  apply (exponent_below false m e 1583 Hdig Hnn).
  rewrite Z.abs_eq by (cbn [units cond_Zopp];
                       apply Z.mul_nonneg_nonneg;
                       [lia|apply Z.pow_nonneg; lia]).
  apply Z.le_lt_trans
    with ((0 + Z.of_nat (List.length xs)) * 2 ^ (456 + 1074))%Z;
    [exact Hub|].
  change (2 ^ 1583)%Z with (2 ^ 53 * 2 ^ (456 + 1074))%Z.
  apply Z.mul_lt_mono_pos_r; [apply pow2_pos|]; lia.
Qed.

(** ** The correlation of a sequence with itself *)

(** The correlation of a sequence with itself is 1.0 when the sum of its
    squared deviations is a double of 53 bits whose square neither overflows
    nor underflows. *)
Lemma self_correlation_of_sum (xs : list double) (m : positive) (e : Z) :
  (2 <= List.length xs)%nat ->
  Prim2SF (sum_squared_deviations xs (calculate_mean xs))
  = S754_finite false m e ->
  Zpos (digits2_pos m) = 53%Z -> (-563 <= e <= 458)%Z ->
  calculate_correlation xs xs = Some 1%float.
Proof.
  intros Hlen Hs Hdig He. unfold calculate_correlation.
  rewrite Nat.eqb_refl. cbn [negb orb].
  destruct (Nat.ltb_spec (List.length xs) 2); [lia|].
  rewrite correlation_loop_self.
  set (s := sum_squared_deviations xs (calculate_mean xs)) in *.
  assert (Hsqrt : sqrt (s * s) = s).
  { apply Prim2SF_inj. rewrite sqrt_spec, mul_spec, Hs.
    apply SFsqrt_square; assumption. }
  assert (Hnz : (s =? 0)%float = false).
  { rewrite FloatAxioms.eqb_spec, Hs. apply SFeqb_finite_zero. }
  cbv zeta. rewrite Hsqrt, Hnz.
  now rewrite (div_self s false m e Hs).
Qed.

(** C9, as the code has it. [calculate_correlation] is symmetric; and the
    correlation with itself of a sequence of at least two points, two of
    them distinct, is 1.0 when every point is zero or of a magnitude from
    2^-202 to 2^227: there the squared deviations and the square of their
    sum neither overflow nor underflow. *)
Theorem correlation_symmetric_and_self :
  (forall x y : list double,
     calculate_correlation x y = calculate_correlation y x) /\
  (forall xs : list double,
     (2 <= List.length xs)%nat ->
     (Z.of_nat (List.length xs) < 2 ^ 53)%Z ->
     Forall (fun x => in_correlation_range x = true) xs ->
     (exists a b, In a xs /\ In b xs /\ (a =? b)%float = false) ->
     calculate_correlation xs xs = Some 1%float).
Proof.
  split.
  - intros x y. unfold calculate_correlation.
    destruct (Nat.eqb_spec (List.length x) (List.length y)) as [Hlen|Hne].
    + rewrite <- Hlen, Nat.eqb_refl. simpl.
      destruct (List.length x <? 2)%nat; auto.
      change (0%float, 0%float, 0%float)
        with (swap_sums (0%float, 0%float, 0%float)) at 2.
      rewrite correlation_loop_swap.
      destruct (for_loop _ _ _) as [[[numerator sum_sq_x] sum_sq_y]|];
        simpl; auto.
      now rewrite (mul_comm sum_sq_y sum_sq_x).
    + assert (Hne' : List.length y <> List.length x) by congruence.
      apply Nat.eqb_neq in Hne'. now rewrite Hne'.
  - intros xs Hlen Hsize Hrange Hdistinct.
    destruct (sum_squared_deviations_normal xs Hsize Hrange Hdistinct)
      as (m & e & Hs & Hdig & He).
    apply (self_correlation_of_sum xs m e Hlen Hs Hdig). lia.
Qed.

Lemma correlation_symmetric_and_self_witness :
  let xs := [1%float; 2%float; 4%float] in
  (2 <= List.length xs)%nat /\
  (Z.of_nat (List.length xs) < 2 ^ 53)%Z /\
  Forall (fun x => in_correlation_range x = true) xs /\
  (exists a b, In a xs /\ In b xs /\ (a =? b)%float = false) /\
  calculate_correlation xs xs = Some 1%float.
Proof.
  cbv zeta.
  assert (H1 : (2 <= List.length [1%float; 2%float; 4%float])%nat)
    by (simpl; lia).
  assert (H2 : (Z.of_nat (List.length [1%float; 2%float; 4%float])
                < 2 ^ 53)%Z) by reflexivity.
  assert (H3 : Forall (fun x => in_correlation_range x = true)
                 [1%float; 2%float; 4%float])
    by (repeat constructor).
  assert (H4 : exists a b,
             In a [1%float; 2%float; 4%float] /\
             In b [1%float; 2%float; 4%float] /\ (a =? b)%float = false).
  { exists 1%float, 2%float. simpl. auto. }
  split; [exact H1|]. split; [exact H2|]. split; [exact H3|].
  split; [exact H4|].
  exact (proj2 correlation_symmetric_and_self
           [1%float; 2%float; 4%float] H1 H2 H3 H4).
Defined.

(** C9 as the specification words it fails: with two distinct values, the
    correlation of a sequence with itself is 0.0 when the squares overflow,
    and is above 1.0 when they are subnormal. *)
Lemma self_correlation_not_one :
  calculate_correlation [0%float; 2e77%float] [0%float; 2e77%float]
  = Some 0%float /\
  (0 =? 2e77)%float = false /\
  calculate_correlation [0%float; 3e-81%float] [0%float; 3e-81%float]
  = Some 1.012255603772219%float /\
  (0 =? 3e-81)%float = false /\
  (1 <? 1.012255603772219)%float = true.
Proof. vm_compute. repeat split. Qed.
